(** * Go-Model: the regression solver core

    A shallow embedding of the numerical kernels and model variants of the
    Go-Model library (packages [linear] and [nonlinear], the [Model]
    interface and the persistence interface), and the properties the
    specification states about them.

    Go's [float64] is kept abstract behind the interface [Float64]; every
    function of the program is written once, over that interface, and read
    at two instances:
    - [IEEE]: Rocq's primitive binary64 floats, the arithmetic the Go
      program runs on (NaN, infinities, signed zeros, rounding);
    - [Exact]: the real numbers, used only where the specification speaks
      in real arithmetic (closed formulas, ranges).

    Structural theorems are proved for every instance.  The external gonum
    routines whose code is not part of the repository ([Inverse],
    [Cholesky.Factorize], [Cholesky.SolveVecTo]) are parameters. *)

From Stdlib Require Import String Reals Lra Floats ZArith Lia Bool List.
Import ListNotations.

Set Implicit Arguments.
#[local] Set Warnings "-inexact-float".
#[local] Close Scope R_scope.

(** ** The float64 interface *)

Class Float64 (F : Type) := {
  f_zero : F;
  f_one : F;
  f_add : F -> F -> F;
  f_sub : F -> F -> F;
  f_mul : F -> F -> F;
  f_div : F -> F -> F;
  f_neg : F -> F;
  f_abs : F -> F;            (* math.Abs *)
  f_sqrt : F -> F;           (* math.Sqrt *)
  f_ltb : F -> F -> bool;    (* x < y *)
  f_leb : F -> F -> bool;    (* x <= y *)
  f_eqb : F -> F -> bool;    (* x == y *)
  f_of_int : Z -> F;         (* float64(n) *)
  f_half : F;                (* 0.5 *)
  f_1e_4 : F;                (* 1e-4 *)
  f_1e_6 : F;                (* 1e-6 *)
  f_1e_10 : F;               (* 1e-10 *)
  f_0_01 : F                 (* 0.01 *)
}.

(** The functions of Go's [math] package that have no counterpart among
    the primitive float operations. *)
Class MathLib (F : Type) := {
  math_Exp : F -> F;
  math_Log : F -> F;
  math_Pow : F -> F -> F
}.

Declare Scope f64_scope.
Delimit Scope f64_scope with f64.
Infix "+" := f_add : f64_scope.
Infix "-" := f_sub : f64_scope.
Infix "*" := f_mul : f64_scope.
Infix "/" := f_div : f64_scope.
Notation "- x" := (f_neg x) : f64_scope.
Notation "x <? y" := (f_ltb x y) : f64_scope.
Notation "x >? y" := (f_ltb y x) : f64_scope.
Notation "x <=? y" := (f_leb x y) : f64_scope.
Notation "x >=? y" := (f_leb y x) : f64_scope.
Notation "x =? y" := (f_eqb x y) : f64_scope.

(** The order facts the pivot search and the guards rely on.  They hold
    for IEEE comparison, NaN included, and for the reals. *)
Class OrderLaws (F : Type) `{Float64 F} : Prop := {
  ltb_irrefl : forall x : F, f_ltb x x = false;
  ltb_trans : forall x y z : F, f_ltb x y = true -> f_ltb y z = true -> f_ltb x z = true;
  eqb_ltb_compat : forall x y z : F, f_eqb x y = true -> f_ltb z y = true -> f_ltb z x = true;
  ltb_not_eqb : forall x y : F, f_ltb x y = true -> f_eqb y x = false
}.

(** *** Binary64 *)

Definition float_of_int (z : Z) : float :=
  match z with
  | Zneg p => PrimFloat.opp (PrimFloat.of_uint63 (Uint63.of_Z (Zpos p)))
  | _ => PrimFloat.of_uint63 (Uint63.of_Z z)
  end.

#[export] Instance IEEE : Float64 float := {|
  f_zero := 0%float;
  f_one := 1%float;
  f_add := PrimFloat.add;
  f_sub := PrimFloat.sub;
  f_mul := PrimFloat.mul;
  f_div := PrimFloat.div;
  f_neg := PrimFloat.opp;
  f_abs := PrimFloat.abs;
  f_sqrt := PrimFloat.sqrt;
  f_ltb := PrimFloat.ltb;
  f_leb := PrimFloat.leb;
  f_eqb := PrimFloat.eqb;
  f_of_int := float_of_int;
  f_half := 0.5%float;
  f_1e_4 := 1e-4%float;
  f_1e_6 := 1e-6%float;
  f_1e_10 := 1e-10%float;
  f_0_01 := 0.01%float
|}.

(** *** Real numbers *)

Definition Rltb (x y : R) : bool := if Rlt_dec x y then true else false.
Definition Rleb (x y : R) : bool := if Rle_dec x y then true else false.
Definition Reqb (x y : R) : bool := if Req_dec_T x y then true else false.

#[export] Instance Exact : Float64 R := {|
  f_zero := 0%R;
  f_one := 1%R;
  f_add := Rplus;
  f_sub := Rminus;
  f_mul := Rmult;
  f_div := Rdiv;
  f_neg := Ropp;
  f_abs := Rabs;
  f_sqrt := R_sqrt.sqrt;
  f_ltb := Rltb;
  f_leb := Rleb;
  f_eqb := Reqb;
  f_of_int := IZR;
  f_half := (1 / 2)%R;
  f_1e_4 := (1 / 10000)%R;
  f_1e_6 := (1 / 1000000)%R;
  f_1e_10 := (1 / 10000000000)%R;
  f_0_01 := (1 / 100)%R
|}.

#[export] Instance ExactMath : MathLib R := {|
  math_Exp := Rtrigo_def.exp;
  math_Log := Rpower.ln;
  math_Pow := Rpower.Rpower
|}.

(** ** Results of Go calls *)

(** The error values the modelled functions build with [fmt.Errorf]. *)
Inductive GoError : Type :=
| ErrEmptyFeatureMatrix                     (* "empty feature matrix" *)
| ErrMismatchedDimensions (nX nY : nat)     (* "mismatched dimensions: X has %d samples, y has %d" *)
| ErrSingular                               (* "matrix is singular" *)
| ErrSolveFailed                            (* "failed to solve linear system: %v" *)
| ErrInvertFailed                           (* "failed to invert matrix: %v" *)
| ErrNotPositiveDefinite                    (* "matrix is not positive definite" *)
| ErrNotTrained                             (* "model not trained" *)
| ErrEmptyInput                             (* "empty input" *)
| ErrMismatchedFeatures.                    (* "mismatched feature dimensions" *)

(** The specification's error taxonomy. *)
Inductive ErrorKind : Type :=
| ShapeMismatch | SingularMatrix | NotPositiveDefinite | NotTrained.

Definition error_kind (e : GoError) : ErrorKind :=
  match e with
  | ErrEmptyFeatureMatrix | ErrMismatchedDimensions _ _
  | ErrEmptyInput | ErrMismatchedFeatures => ShapeMismatch
  | ErrSingular | ErrSolveFailed | ErrInvertFailed => SingularMatrix
  | ErrNotPositiveDefinite => NotPositiveDefinite
  | ErrNotTrained => NotTrained
  end.

(** A call returns a value, returns an error, or panics (index out of
    range, nil dereference, a panic raised by gonum). *)
Inductive result (A : Type) : Type :=
| Ok (a : A)
| Error (e : GoError)
| Panic.
Arguments Ok {A} a.
Arguments Error {A} e.
Arguments Panic {A}.

(** ** Slices *)

Section Slices.
Context {A : Type}.

(** [l[i] = x]; every use below is within bounds. *)
Fixpoint upd (i : nat) (x : A) (l : list A) : list A :=
  match l, i with
  | [], _ => []
  | _ :: t, O => x :: t
  | h :: t, S i' => h :: upd i' x t
  end.

Lemma upd_length i x l : length (upd i x l) = length l.
Proof. revert i; induction l; intros [|i]; simpl; auto. Qed.

Lemma nth_upd_eq i x l d : i < length l -> nth i (upd i x l) d = x.
Proof.
  revert i; induction l; intros [|i]; simpl; intros; try lia; auto.
  apply IHl; lia.
Qed.

Lemma nth_upd_neq i j x l d : i <> j -> nth j (upd i x l) d = nth j l d.
Proof.
  revert i j; induction l; intros [|i] [|j]; simpl; intros; try lia; auto.
Qed.
End Slices.

(** ** The linear-system solver of the slice-based OLS ([solveLinearSystem]) *)

Section Solver.
Context {F : Type} `{Float64 F}.
Local Open Scope f64_scope.

Definition at1 (v : list F) (i : nat) : F := nth i v f_zero.
Definition at2 (M : list (list F)) (i j : nat) : F := nth j (nth i M []) f_zero.

(** [copy(augmented[i][:n], A[i])] into a zeroed row of length [n+1],
    then [augmented[i][n] = b[i]]. *)
Definition augmentedRow (n : nat) (Ai : list F) (bi : F) : list F :=
  firstn n Ai ++ repeat f_zero (n - length Ai) ++ [bi].

Definition augment (n : nat) (A : list (list F)) (b : list F) : list (list F) :=
  map (fun i => augmentedRow n (nth i A []) (at1 b i)) (seq 0 n).

(** The pivot search: [maxRow := i], then for [k = i+1 .. n-1] the row
    [k] replaces [maxRow] when
    [math.Abs(augmented[k][i]) > math.Abs(augmented[maxRow][i])]. *)
Definition findPivot (aug : list (list F)) (i n : nat) : nat :=
  fold_left
    (fun maxRow k =>
       if f_abs (at2 aug k i) >? f_abs (at2 aug maxRow i) then k else maxRow)
    (seq (S i) (n - S i)) i.

(** [augmented[i], augmented[maxRow] = augmented[maxRow], augmented[i]] *)
Definition swapRows (aug : list (list F)) (i m : nat) : list (list F) :=
  upd m (nth i aug []) (upd i (nth m aug []) aug).

(** The inner loops of the elimination: [factor] is read once, then
    [augmented[k][j] -= factor * augmented[i][j]] for [j = i .. n]. *)
Definition elimRow (i n : nat) (pivotRow row : list F) : list F :=
  let factor := at1 row i / at1 pivotRow i in
  fold_left (fun r j => upd j (at1 r j - factor * at1 pivotRow j) r)
            (seq i (S n - i)) row.

Definition eliminate (aug : list (list F)) (i n : nat) : list (list F) :=
  fold_left (fun a k => upd k (elimRow i n (nth i a []) (nth k a [])) a)
            (seq (S i) (n - S i)) aug.

(** Forward elimination over the columns [cols]; [None] is the early
    return with "matrix is singular". *)
Fixpoint forwardElim (cols : list nat) (n : nat) (aug : list (list F))
  : option (list (list F)) :=
  match cols with
  | [] => Some aug
  | i :: rest =>
      let maxRow := findPivot aug i n in
      let aug1 := swapRows aug i maxRow in
      if f_abs (at2 aug1 i i) <? f_1e_10 then None
      else forwardElim rest n (eliminate aug1 i n)
  end.

(** One row of the back substitution. *)
Definition backSubstRow (aug : list (list F)) (n : nat) (x : list F) (i : nat) : list F :=
  let x1 := upd i (at2 aug i n) x in
  let x2 := fold_left (fun x j => upd i (at1 x i - at2 aug i j * at1 x j) x)
                      (seq (S i) (n - S i)) x1 in
  upd i (at1 x2 i / at2 aug i i) x2.

(** [for i := n - 1; i >= 0; i--]: [backSubstFrom aug n i x] runs the
    rows [i-1], ..., [0]. *)
Fixpoint backSubstFrom (aug : list (list F)) (n i : nat) (x : list F) : list F :=
  match i with
  | O => x
  | S i' => backSubstFrom aug n i' (backSubstRow aug n x i')
  end.

Definition backSubst (aug : list (list F)) (n : nat) : list F :=
  backSubstFrom aug n n (repeat f_zero n).

(** [A[i]] panics for [i >= len(A)]. *)
Definition solveLinearSystem (A : list (list F)) (b : list F) : result (list F) :=
  let n := length b in
  if Nat.ltb (length A) n then Panic
  else match forwardElim (seq 0 n) n (augment n A b) with
       | None => Error ErrSingular
       | Some U => Ok (backSubst U n)
       end.
End Solver.

(** ** The order laws at the two instances *)

Ltac sf_compare :=
  repeat match goal with
  | |- context [Pos.compare_cont Eq ?a ?b] =>
      change (Pos.compare_cont Eq a b) with (Pos.compare a b)
  | H : context [Pos.compare_cont Eq ?a ?b] |- _ =>
      change (Pos.compare_cont Eq a b) with (Pos.compare a b) in H
  end;
  repeat match goal with
  | H : context [Z.compare ?a ?b] |- _ =>
      destruct (Z.compare_spec a b); simpl in H; try discriminate
  | H : context [Pos.compare ?a ?b] |- _ =>
      destruct (Pos.compare_spec a b); simpl in H; try discriminate
  end;
  repeat match goal with
  | |- context [Z.compare ?a ?b] => destruct (Z.compare_spec a b); simpl
  | |- context [Pos.compare ?a ?b] => destruct (Pos.compare_spec a b); simpl
  end; try reflexivity; try discriminate; try lia.

Ltac sf_cases :=
  simpl; try discriminate; try reflexivity;
  repeat match goal with s : bool |- _ => destruct s end; simpl;
  try discriminate; try reflexivity; intros; sf_compare.

Lemma SFltb_irrefl a : SFltb a a = false.
Proof.
  unfold SFltb; destruct a as [sa|sa| |sa ma ea]; sf_cases.
Qed.

Lemma SFltb_trans a b c : SFltb a b = true -> SFltb b c = true -> SFltb a c = true.
Proof.
  unfold SFltb.
  destruct a as [sa|sa| |sa ma ea], b as [sb|sb| |sb mb eb], c as [sc|sc| |sc mc ec];
    sf_cases.
Qed.

Lemma SFeqb_ltb_compat a b c : SFeqb a b = true -> SFltb c b = true -> SFltb c a = true.
Proof.
  unfold SFltb, SFeqb.
  destruct a as [sa|sa| |sa ma ea], b as [sb|sb| |sb mb eb], c as [sc|sc| |sc mc ec];
    sf_cases.
Qed.

Lemma SFltb_not_eqb a b : SFltb a b = true -> SFeqb b a = false.
Proof.
  unfold SFltb, SFeqb.
  destruct a as [sa|sa| |sa ma ea], b as [sb|sb| |sb mb eb]; sf_cases.
Qed.

#[export] Instance IEEE_laws : @OrderLaws float IEEE.
Proof.
  split; simpl; intros *; rewrite ?FloatAxioms.ltb_spec, ?FloatAxioms.eqb_spec.
  - apply SFltb_irrefl.
  - apply SFltb_trans.
  - apply SFeqb_ltb_compat.
  - apply SFltb_not_eqb.
Qed.

Lemma Rltb_true x y : Rltb x y = true <-> (x < y)%R.
Proof. unfold Rltb; destruct (Rlt_dec x y); split; intros; try discriminate; tauto. Qed.

Lemma Rltb_false x y : Rltb x y = false <-> (y <= x)%R.
Proof. unfold Rltb; destruct (Rlt_dec x y); split; intros; try discriminate; try lra; auto. Qed.

Lemma Reqb_true x y : Reqb x y = true <-> x = y.
Proof. unfold Reqb; destruct (Req_dec_T x y); split; intros; try discriminate; tauto. Qed.

Lemma Reqb_false x y : Reqb x y = false <-> x <> y.
Proof. unfold Reqb; destruct (Req_dec_T x y); split; intros; try discriminate; tauto. Qed.

Lemma Rleb_true x y : Rleb x y = true <-> (x <= y)%R.
Proof. unfold Rleb; destruct (Rle_dec x y); split; intros; try discriminate; tauto. Qed.

#[export] Instance Exact_laws : @OrderLaws R Exact.
Proof.
  split; simpl; intros *.
  - apply Rltb_false; lra.
  - rewrite !Rltb_true; lra.
  - rewrite Reqb_true, !Rltb_true; intros; subst; lra.
  - rewrite Rltb_true, Reqb_false; lra.
Qed.

(** ** What the solver computes *)

Lemma fold_left_seq_S {A : Type} (f : A -> nat -> A) s cnt a :
  fold_left f (seq s (S cnt)) a = f (fold_left f (seq s cnt) a) (s + cnt).
Proof. rewrite seq_S, fold_left_app; reflexivity. Qed.

Lemma fold_left_ext_in {A B : Type} (f g : A -> B -> A) l a :
  (forall a b, In b l -> f a b = g a b) -> fold_left f l a = fold_left g l a.
Proof.
  revert a; induction l as [|b l IH]; simpl; intros a Hfg; auto.
  rewrite Hfg by auto. apply IH; intros; apply Hfg; auto.
Qed.

Section FoldLemmas.
Context {B : Type}.

(** A loop that rewrites slot [k] of a slice from slot [i] (never
    visited) and the old slot [k], for [k = s .. s+cnt-1]. *)
Lemma fold_upd_slots (d : B) (phi : B -> B -> B) (i s : nat) :
  forall cnt (a : list B),
    i < s -> s + cnt <= length a ->
    let a' := fold_left (fun a k => upd k (phi (nth i a d) (nth k a d)) a) (seq s cnt) a in
    length a' = length a /\
    forall k, nth k a' d =
              if (s <=? k) && (k <? s + cnt) then phi (nth i a d) (nth k a d) else nth k a d.
Proof.
  induction cnt as [|cnt IH]; intros a Hi Hlen; cbv zeta.
  - simpl; split; auto; intros k.
    destruct (s <=? k) eqn:E1, (k <? s + 0) eqn:E2; simpl; auto.
    apply Nat.leb_le in E1; apply Nat.ltb_lt in E2; lia.
  - rewrite fold_left_seq_S.
    destruct (IH a Hi) as [Hl Hn]; [lia|].
    set (a1 := fold_left _ (seq s cnt) a) in *.
    split; [rewrite upd_length; auto|].
    intros k. destruct (Nat.eq_dec k (s + cnt)) as [->|Hk].
    + rewrite nth_upd_eq by lia.
      rewrite !Hn.
      replace (s <=? i) with false by (symmetry; apply Nat.leb_gt; lia).
      replace (s + cnt <? s + cnt) with false by (symmetry; apply Nat.ltb_ge; lia).
      replace (s <=? s + cnt) with true by (symmetry; apply Nat.leb_le; lia).
      replace (s + cnt <? s + S cnt) with true by (symmetry; apply Nat.ltb_lt; lia).
      rewrite andb_false_r; reflexivity.
    + rewrite nth_upd_neq by lia. rewrite Hn.
      destruct (s <=? k) eqn:E1; simpl; auto.
      destruct (k <? s + cnt) eqn:E2, (k <? s + S cnt) eqn:E3; auto.
      * apply Nat.ltb_lt in E2; apply Nat.ltb_ge in E3; lia.
      * apply Nat.ltb_ge in E2; apply Nat.ltb_lt in E3; lia.
Qed.
End FoldLemmas.

Section SolverSpec.
Context {F : Type} `{Float64 F}.
Local Open Scope f64_scope.

(** Row [m] is the first of the rows [i .. n-1] whose entry in column
    [i] has maximal absolute value: no row of the range has a strictly
    larger one, and no earlier row of the range has an equal one. *)
Definition first_max_row (M : list (list F)) (i n m : nat) : Prop :=
  i <= m < n /\
  (forall k, i <= k < n -> (f_abs (at2 M k i) >? f_abs (at2 M m i)) = false) /\
  (forall k, i <= k < m -> (f_abs (at2 M k i) =? f_abs (at2 M m i)) = false).

Definition rows_swapped (M : list (list F)) (i m : nat) (M1 : list (list F)) : Prop :=
  length M1 = length M /\
  forall k, nth k M1 [] = nth (if Nat.eqb k i then m else if Nat.eqb k m then i else k) M [].

(** Column [i] is eliminated below row [i]: a row [k > i] loses
    [(M[k][i] / M[i][i]) * M[i][j]] in the columns [j >= i]. *)
Definition eliminated_below (M : list (list F)) (i n : nat) (M' : list (list F)) : Prop :=
  length M' = length M /\
  forall k j, k < n -> j <= n ->
    at2 M' k j =
    if Nat.ltb i k && Nat.leb i j
    then at2 M k j - (at2 M k i / at2 M i i) * at2 M i j
    else at2 M k j.

(** Gaussian elimination with partial pivoting from column [i] on;
    [None] when a selected pivot is below the threshold. *)
Inductive GaussElim (n : nat) : nat -> list (list F) -> option (list (list F)) -> Prop :=
| GE_done M : GaussElim n n M (Some M)
| GE_singular i M m :
    i < n -> first_max_row M i n m ->
    (f_abs (at2 M m i) <? f_1e_10) = true ->
    GaussElim n i M None
| GE_step i M m M1 M' R :
    i < n -> first_max_row M i n m ->
    (f_abs (at2 M m i) <? f_1e_10) = false ->
    rows_swapped M i m M1 ->
    eliminated_below M1 i n M' ->
    GaussElim n (S i) M' R ->
    GaussElim n i M R.

(** [x] solves the upper-triangular system [U] by back substitution,
    the subtractions taken in ascending column order. *)
Definition BackSubst (n : nat) (U : list (list F)) (x : list F) : Prop :=
  length x = n /\
  forall i, i < n ->
    at1 x i =
    fold_left (fun acc j => acc - at2 U i j * at1 x j) (seq (S i) (n - S i)) (at2 U i n)
    / at2 U i i.

Definition is_augmented (n : nat) (A : list (list F)) (b : list F) (aug : list (list F)) : Prop :=
  length aug = n /\
  forall i, i < n -> (forall j, j < n -> at2 aug i j = at2 A i j) /\ at2 aug i n = at1 b i.

(** Shape of the working matrix: [n] rows of [n+1] entries. *)
Definition aug_shape (n : nat) (M : list (list F)) : Prop :=
  length M = n /\ forall k, k < n -> length (nth k M []) = S n.

Lemma augment_shape n A b :
  (forall i, i < n -> length (nth i A []) = n) -> aug_shape n (augment n A b).
Proof.
  intros HA; unfold aug_shape, augment; split.
  - rewrite length_map, length_seq; reflexivity.
  - intros k Hk.
    rewrite nth_indep with (d' := augmentedRow n (nth 0 A []) (at1 b 0))
      by (rewrite length_map, length_seq; auto).
    rewrite (map_nth (fun i => augmentedRow n (nth i A []) (at1 b i))), seq_nth by auto.
    unfold augmentedRow; simpl Nat.add.
    rewrite !length_app, length_firstn, repeat_length, HA by auto. simpl; lia.
Qed.

Lemma augment_spec n A b :
  (forall i, i < n -> length (nth i A []) = n) -> is_augmented n A b (augment n A b).
Proof.
  intros HA; unfold is_augmented, augment; split.
  - rewrite length_map, length_seq; reflexivity.
  - intros i Hi.
    assert (Hrow : nth i (map (fun i => augmentedRow n (nth i A []) (at1 b i)) (seq 0 n)) []
                   = augmentedRow n (nth i A []) (at1 b i)).
    { rewrite nth_indep with (d' := augmentedRow n (nth 0 A []) (at1 b 0))
        by (rewrite length_map, length_seq; auto).
      rewrite (map_nth (fun i => augmentedRow n (nth i A []) (at1 b i))), seq_nth by auto.
      reflexivity. }
    unfold at2; rewrite Hrow; unfold augmentedRow.
    specialize (HA i Hi).
    rewrite firstn_all2 by lia. rewrite HA, Nat.sub_diag; simpl.
    split.
    + intros j Hj. rewrite app_nth1 by lia. reflexivity.
    + rewrite app_nth2 by lia. rewrite HA, Nat.sub_diag. reflexivity.
Qed.
(** *** The pivot search *)

Lemma findPivot_inv `{!OrderLaws} (M : list (list F)) (i : nat) :
  forall cnt,
    let r := fold_left
               (fun maxRow k =>
                  if f_abs (at2 M k i) >? f_abs (at2 M maxRow i) then k else maxRow)
               (seq (S i) cnt) i in
    i <= r <= i + cnt /\
    (forall k, i <= k <= i + cnt -> (f_abs (at2 M k i) >? f_abs (at2 M r i)) = false) /\
    (forall k, i <= k < r -> (f_abs (at2 M k i) =? f_abs (at2 M r i)) = false).
Proof.
  induction cnt as [|cnt IH]; cbv zeta.
  - simpl. split; [lia|split].
    + intros k Hk; replace k with i by lia; apply ltb_irrefl.
    + intros k Hk; lia.
  - rewrite fold_left_seq_S.
    cbv zeta in IH. set (r := fold_left _ (seq (S i) cnt) i) in *.
    destruct IH as (Hr & Hmax & Hfirst).
    destruct (f_abs (at2 M (S i + cnt) i) >? f_abs (at2 M r i)) eqn:E.
    + split; [lia|split].
      * intros k Hk. destruct (Nat.eq_dec k (S i + cnt)) as [->|Hne].
        -- apply ltb_irrefl.
        -- destruct (f_abs (at2 M k i) >? f_abs (at2 M (S i + cnt) i)) eqn:E2; auto.
           rewrite <- (Hmax k) by lia. symmetry. eapply ltb_trans; eauto.
      * intros k Hk.
        destruct (f_abs (at2 M k i) =? f_abs (at2 M (S i + cnt) i)) eqn:E2; auto.
        rewrite <- (Hmax k) by lia. symmetry. eapply eqb_ltb_compat; eauto.
    + split; [lia|split]; auto.
      intros k Hk. destruct (Nat.eq_dec k (S i + cnt)) as [->|Hne]; auto.
      apply Hmax; lia.
Qed.

Lemma findPivot_spec `{!OrderLaws} (M : list (list F)) (i n : nat) :
  i < n -> first_max_row M i n (findPivot M i n).
Proof.
  intros Hi. destruct (findPivot_inv M i (n - S i)) as (Hr & Hmax & Hfirst).
  unfold first_max_row, findPivot. split; [lia|split]; auto.
  intros k Hk; apply Hmax; lia.
Qed.

(** *** Swap and elimination *)

Lemma swapRows_spec (M : list (list F)) (i m : nat) :
  i < length M -> m < length M -> rows_swapped M i m (swapRows M i m).
Proof.
  intros Hi Hm; unfold rows_swapped, swapRows; split.
  - rewrite !upd_length; reflexivity.
  - intros k. destruct (Nat.eqb_spec k m) as [->|Hkm].
    + rewrite nth_upd_eq by (rewrite upd_length; auto).
      destruct (Nat.eqb_spec m i) as [->|]; reflexivity.
    + rewrite nth_upd_neq by auto.
      destruct (Nat.eqb_spec k i) as [->|Hki].
      * rewrite nth_upd_eq by auto; reflexivity.
      * rewrite nth_upd_neq by auto; reflexivity.
Qed.

Lemma rows_swapped_shape n M i m M1 :
  i < n -> m < n -> aug_shape n M -> rows_swapped M i m M1 -> aug_shape n M1.
Proof.
  intros Hi Hm [HL HR] [HL1 HN]; split; [congruence|].
  intros k Hk; rewrite HN.
  destruct (Nat.eqb k i); [|destruct (Nat.eqb k m)]; apply HR; auto.
Qed.

Lemma fold_upd_each (g : nat -> F -> F) (s : nat) :
  forall cnt (r : list F),
    s + cnt <= length r ->
    let r' := fold_left (fun r j => upd j (g j (at1 r j)) r) (seq s cnt) r in
    length r' = length r /\
    forall j, at1 r' j =
              if Nat.leb s j && Nat.ltb j (s + cnt) then g j (at1 r j) else at1 r j.
Proof.
  induction cnt as [|cnt IH]; intros r Hlen; cbv zeta.
  - simpl; split; auto; intros j.
    destruct (Nat.leb s j) eqn:E1, (Nat.ltb j (s + 0)) eqn:E2; simpl; auto.
    apply Nat.leb_le in E1; apply Nat.ltb_lt in E2; lia.
  - rewrite fold_left_seq_S.
    destruct (IH r) as [Hl Hn]; [lia|].
    set (r1 := fold_left _ (seq s cnt) r) in *.
    split; [rewrite upd_length; auto|].
    intros j. unfold at1 at 1. destruct (Nat.eq_dec j (s + cnt)) as [->|Hj].
    + rewrite nth_upd_eq by lia. rewrite Hn.
      replace (Nat.ltb (s + cnt) (s + cnt)) with false by (symmetry; apply Nat.ltb_ge; lia).
      replace (Nat.leb s (s + cnt)) with true by (symmetry; apply Nat.leb_le; lia).
      replace (Nat.ltb (s + cnt) (s + S cnt)) with true by (symmetry; apply Nat.ltb_lt; lia).
      rewrite andb_false_r; reflexivity.
    + rewrite nth_upd_neq by lia. fold (at1 r1 j). rewrite Hn.
      destruct (Nat.leb s j) eqn:E1; simpl; auto.
      destruct (Nat.ltb j (s + cnt)) eqn:E2, (Nat.ltb j (s + S cnt)) eqn:E3; auto.
      * apply Nat.ltb_lt in E2; apply Nat.ltb_ge in E3; lia.
      * apply Nat.ltb_ge in E2; apply Nat.ltb_lt in E3; lia.
Qed.

Lemma elimRow_spec (i n : nat) (pivotRow row : list F) :
  i <= n -> length row = S n ->
  length (elimRow i n pivotRow row) = S n /\
  forall j, j <= n ->
    at1 (elimRow i n pivotRow row) j =
    if Nat.leb i j then at1 row j - (at1 row i / at1 pivotRow i) * at1 pivotRow j
    else at1 row j.
Proof.
  intros Hi Hlen. unfold elimRow.
  destruct (fold_upd_each (fun j v => v - (at1 row i / at1 pivotRow i) * at1 pivotRow j)
                          i (S n - i) row) as [Hl Hn]; [lia|].
  cbv beta in *. split; [congruence|].
  intros j Hj. rewrite Hn.
  replace (Nat.ltb j (i + (S n - i))) with true by (symmetry; apply Nat.ltb_lt; lia).
  rewrite andb_true_r; reflexivity.
Qed.

Lemma eliminate_spec (M : list (list F)) (i n : nat) :
  i < n -> aug_shape n M ->
  aug_shape n (eliminate M i n) /\ eliminated_below M i n (eliminate M i n).
Proof.
  intros Hi [HL HR]. unfold eliminate.
  destruct (fold_upd_slots [] (elimRow i n) (i := i) (s := S i) (n - S i) M) as [Hl Hn];
    [lia | lia |].
  cbv beta in *.
  set (M' := fold_left _ (seq (S i) (n - S i)) M) in *.
  assert (Hrow : forall k, k < n ->
            nth k M' [] = if Nat.ltb i k then elimRow i n (nth i M []) (nth k M []) else nth k M []).
  { intros k Hk. rewrite Hn.
    replace (Nat.ltb k (S i + (n - S i))) with true by (symmetry; apply Nat.ltb_lt; lia).
    rewrite andb_true_r. reflexivity. }
  split; [split|split]; try congruence.
  - intros k Hk. rewrite Hrow by auto.
    destruct (Nat.ltb i k); [apply elimRow_spec; auto; lia | auto].
  - intros k j Hk Hj. unfold at2 at 1. rewrite Hrow by auto.
    destruct (Nat.ltb i k) eqn:E; simpl; auto.
    destruct (elimRow_spec (i := i) (n := n) (nth i M []) (nth k M [])) as [_ He];
      [lia | auto |].
    apply (He j Hj).
Qed.

Lemma eliminated_below_at2 M i n M' :
  eliminated_below M i n M' -> forall k j, k < n -> j <= n -> Nat.ltb i k && Nat.leb i j = false ->
  at2 M' k j = at2 M k j.
Proof. intros [_ Hn] k j Hk Hj E. rewrite Hn, E by auto. reflexivity. Qed.

Lemma forwardElim_spec `{!OrderLaws} (n : nat) :
  forall cnt i (M : list (list F)),
    (i + cnt = n)%nat -> aug_shape n M ->
    GaussElim n i M (forwardElim (seq i cnt) n M).
Proof.
  induction cnt as [|cnt IH]; intros i M Hn Hshape.
  - simpl. replace i with n by lia. constructor.
  - simpl. assert (Hi : i < n) by lia.
    pose proof (findPivot_spec M Hi) as Hpiv.
    set (m := findPivot M i n) in *.
    assert (Hm : m < n) by (destruct Hpiv as [? _]; lia).
    destruct Hshape as [HL HR].
    pose proof (@swapRows_spec M i m ltac:(lia) ltac:(lia)) as Hswap.
    assert (Hpivot : at2 (swapRows M i m) i i = at2 M m i).
    { unfold at2. destruct Hswap as [_ Hrows]. rewrite Hrows, Nat.eqb_refl. reflexivity. }
    rewrite Hpivot.
    destruct (f_abs (at2 M m i) <? f_1e_10) eqn:E.
    + eapply GE_singular; eauto.
    + assert (Hshape1 : aug_shape n (swapRows M i m)).
      { eapply rows_swapped_shape with (i := i) (m := m); eauto. split; auto. }
      destruct (eliminate_spec Hi Hshape1) as [Hshape2 Helim].
      eapply GE_step; eauto. apply IH; auto. lia.
Qed.

(** *** Back substitution *)

Lemma backSubst_inner (c : nat -> F) (i : nat) :
  forall js (x : list F),
    ~ In i js -> i < length x ->
    let x' := fold_left (fun x j => upd i (at1 x i - c j * at1 x j) x) js x in
    length x' = length x /\
    (forall k, k <> i -> at1 x' k = at1 x k) /\
    at1 x' i = fold_left (fun acc j => acc - c j * at1 x j) js (at1 x i).
Proof.
  induction js as [|j js IH]; intros x Hnin Hi; cbv zeta.
  - simpl; auto.
  - simpl fold_left.
    set (x1 := upd i (at1 x i - c j * at1 x j) x).
    destruct (IH x1) as (Hl & Hk & Hv).
    { intros Hin; apply Hnin; right; auto. }
    { unfold x1; rewrite upd_length; auto. }
    assert (Hx1 : forall k, k <> i -> at1 x1 k = at1 x k).
    { intros k Hne; unfold x1, at1; apply nth_upd_neq; auto. }
    split; [|split].
    + rewrite Hl; unfold x1; apply upd_length.
    + intros k Hne; rewrite Hk by auto; auto.
    + rewrite Hv.
      assert (Hxi : at1 x1 i = at1 x i - c j * at1 x j).
      { unfold x1, at1. apply nth_upd_eq. auto. }
      rewrite Hxi. simpl.
      apply fold_left_ext_in. intros acc j' Hin.
      rewrite Hx1; auto. intros ->; apply Hnin; right; auto.
Qed.

Definition backSubstValue (aug : list (list F)) (n : nat) (x : list F) (i : nat) : F :=
  fold_left (fun acc j => acc - at2 aug i j * at1 x j) (seq (S i) (n - S i)) (at2 aug i n)
  / at2 aug i i.

Lemma backSubstValue_ext aug n x x' i :
  (forall j, i < j -> at1 x' j = at1 x j) ->
  backSubstValue aug n x' i = backSubstValue aug n x i.
Proof.
  intros Hx; unfold backSubstValue; f_equal.
  apply fold_left_ext_in; intros acc j Hin.
  apply in_seq in Hin. rewrite Hx by lia. reflexivity.
Qed.

Lemma backSubstRow_spec (aug : list (list F)) (n : nat) (x : list F) (i : nat) :
  i < n -> length x = n ->
  length (backSubstRow aug n x i) = n /\
  (forall k, k <> i -> at1 (backSubstRow aug n x i) k = at1 x k) /\
  at1 (backSubstRow aug n x i) i = backSubstValue aug n x i.
Proof.
  intros Hi Hlen. unfold backSubstRow.
  set (x1 := upd i (at2 aug i n) x).
  assert (Hl1 : length x1 = n) by (unfold x1; rewrite upd_length; auto).
  assert (Hx1 : forall k, k <> i -> at1 x1 k = at1 x k).
  { intros k Hne; unfold x1, at1; apply nth_upd_neq; auto. }
  destruct (@backSubst_inner (at2 aug i) i (seq (S i) (n - S i)) x1) as (Hl & Hk & Hv).
  { intros Hin; apply in_seq in Hin; lia. }
  { lia. }
  cbv zeta in *. set (x2 := fold_left _ (seq (S i) (n - S i)) x1) in *.
  split; [|split].
  - rewrite upd_length; congruence.
  - intros k Hne. unfold at1 at 1. rewrite nth_upd_neq by auto.
    fold (at1 x2 k). rewrite Hk by auto. auto.
  - unfold at1 at 1. rewrite nth_upd_eq by lia. rewrite Hv.
    unfold backSubstValue. f_equal.
    assert (Hxi : at1 x1 i = at2 aug i n).
    { unfold x1, at1. apply nth_upd_eq. lia. }
    rewrite Hxi.
    apply fold_left_ext_in; intros acc j Hin. apply in_seq in Hin.
    rewrite Hx1 by lia. reflexivity.
Qed.

Lemma backSubstFrom_spec (aug : list (list F)) (n : nat) :
  forall i (x : list F),
    i <= n -> length x = n ->
    (forall i', i <= i' < n -> at1 x i' = backSubstValue aug n x i') ->
    length (backSubstFrom aug n i x) = n /\
    forall i', i' < n ->
      at1 (backSubstFrom aug n i x) i' = backSubstValue aug n (backSubstFrom aug n i x) i'.
Proof.
  induction i as [|i IH]; intros x Hi Hlen Hdone; simpl.
  - split; auto. intros i' Hi'; apply Hdone; lia.
  - destruct (@backSubstRow_spec aug n x i) as (Hl & Hk & Hv); [lia | auto |].
    apply IH; [lia | auto |].
    intros i' Hi'. destruct (Nat.eq_dec i' i) as [->|Hne].
    + rewrite Hv. symmetry. apply backSubstValue_ext.
      intros j Hj; apply Hk; lia.
    + rewrite Hk by auto. rewrite Hdone by lia. symmetry.
      apply backSubstValue_ext. intros j Hj; apply Hk; lia.
Qed.

Lemma backSubst_spec (aug : list (list F)) (n : nat) : BackSubst n aug (backSubst aug n).
Proof.
  unfold BackSubst, backSubst.
  destruct (@backSubstFrom_spec aug n n (repeat f_zero n)) as [Hl Hv].
  - lia.
  - apply repeat_length.
  - intros i' Hi'; lia.
  - split; auto.
Qed.

(** C1. For an n-by-n matrix [A] and a vector [b] of length [n], the
    solver runs Gaussian elimination with partial pivoting on the
    augmented matrix: at each column the pivot is the first remaining
    row of maximal absolute value in that column, it is swapped into
    place and the column is eliminated below it.  The solver returns the
    "matrix is singular" error exactly when that run meets a selected
    pivot of absolute value below 1e-10, and otherwise returns the back
    substitution of the eliminated system. *)
Theorem solveLinearSystem_gauss `{!OrderLaws} (A : list (list F)) (b : list F) :
  length A = length b ->
  Forall (fun row => length row = length b) A ->
  exists aug R,
    is_augmented (length b) A b aug /\
    GaussElim (length b) 0 aug R /\
    (solveLinearSystem A b = Error ErrSingular <-> R = None) /\
    (forall U, R = Some U ->
       exists x, solveLinearSystem A b = Ok x /\ BackSubst (length b) U x).
Proof.
  intros HA Hrows. set (n := length b) in *.
  assert (Hnth : forall i, i < n -> length (nth i A []) = n).
  { intros i Hi. rewrite Forall_forall in Hrows. apply Hrows, nth_In. lia. }
  exists (augment n A b), (forwardElim (seq 0 n) n (augment n A b)).
  split; [apply augment_spec; auto|].
  split; [apply forwardElim_spec; auto using augment_shape|].
  unfold solveLinearSystem. fold n.
  replace (Nat.ltb (length A) n) with false by (symmetry; apply Nat.ltb_ge; lia).
  destruct (forwardElim (seq 0 n) n (augment n A b)) as [U|].
  - split; [split; discriminate|].
    intros U' [= <-]. exists (backSubst U n). split; auto. apply backSubst_spec.
  - split; [split; auto|]. discriminate.
Qed.
End SolverSpec.

(** The solver on a 2-by-2 system whose second row holds the pivot. *)
Lemma solveLinearSystem_gauss_witness :
  exists aug R,
    is_augmented 2 [[1; 2]; [3; 4]]%float [5; 6]%float aug /\
    GaussElim 2 0 aug R /\
    (solveLinearSystem [[1; 2]; [3; 4]]%float [5; 6]%float = Error ErrSingular <-> R = None) /\
    (forall U, R = Some U ->
       exists x, solveLinearSystem [[1; 2]; [3; 4]]%float [5; 6]%float = Ok x /\ BackSubst 2 U x).
Proof.
  apply (@solveLinearSystem_gauss float IEEE IEEE_laws [[1; 2]; [3; 4]]%float [5; 6]%float).
  - reflexivity.
  - repeat constructor.
Defined.

(** Over the real numbers [first_max_row] is the textbook pivot: no entry
    of the column is larger in absolute value and every earlier one is
    strictly smaller; such a row is unique. *)
Lemma first_max_row_R (M : list (list R)) (i n m : nat) :
  first_max_row M i n m <->
  i <= m < n /\
  (forall k, i <= k < n -> (Rabs (at2 M k i) <= Rabs (at2 M m i))%R) /\
  (forall k, i <= k < m -> (Rabs (at2 M k i) < Rabs (at2 M m i))%R).
Proof.
  unfold first_max_row.
  change (@f_ltb R Exact) with Rltb. change (@f_eqb R Exact) with Reqb.
  change (@f_abs R Exact) with Rabs.
  split; intros (Hm & Hmax & Hfirst); (split; [exact Hm|split]).
  - intros k Hk. apply Rltb_false. apply Hmax. exact Hk.
  - intros k Hk.
    assert (Hle : (Rabs (at2 M k i) <= Rabs (at2 M m i))%R)
      by (apply Rltb_false, Hmax; lia).
    assert (Hne : Rabs (at2 M k i) <> Rabs (at2 M m i))
      by (apply Reqb_false, Hfirst; exact Hk).
    lra.
  - intros k Hk. apply Rltb_false. apply Hmax. exact Hk.
  - intros k Hk. apply Reqb_false. specialize (Hfirst k Hk). lra.
Qed.

Lemma first_max_row_R_unique (M : list (list R)) (i n m1 m2 : nat) :
  first_max_row M i n m1 -> first_max_row M i n m2 -> m1 = m2.
Proof.
  rewrite !first_max_row_R. intros (H1 & Hmax1 & Hfirst1) (H2 & Hmax2 & Hfirst2).
  destruct (Nat.lt_trichotomy m1 m2) as [Hlt | [Heq | Hgt]]; [|exact Heq|].
  - specialize (Hfirst2 m1 ltac:(lia)). specialize (Hmax1 m2 ltac:(lia)). lra.
  - specialize (Hfirst1 m2 ltac:(lia)). specialize (Hmax2 m1 ltac:(lia)). lra.
Qed.

Ltac nat_bool :=
  repeat match goal with
         | |- context [Nat.eqb ?a ?b] => destruct (Nat.eqb_spec a b)
         | |- context [Nat.ltb ?a ?b] => destruct (Nat.ltb_spec a b)
         | |- context [Nat.leb ?a ?b] => destruct (Nat.leb_spec a b)
         end;
  simpl; try reflexivity; try lia; try congruence.

(** ** The solver over the real numbers: the result solves [A x = b] *)

Ltac exact_ops :=
  change (@f_add R Exact) with Rplus in *;
  change (@f_sub R Exact) with Rminus in *;
  change (@f_mul R Exact) with Rmult in *;
  change (@f_div R Exact) with Rdiv in *;
  change (@f_neg R Exact) with Ropp in *;
  change (@f_abs R Exact) with Rabs in *;
  change (@f_ltb R Exact) with Rltb in *;
  change (@f_leb R Exact) with Rleb in *;
  change (@f_eqb R Exact) with Reqb in *;
  change (@f_zero R Exact) with 0%R in *;
  change (@f_one R Exact) with 1%R in *;
  change (@f_1e_10 R Exact) with (1 / 10000000000)%R in *.

Section SolverReal.
Local Open Scope R_scope.

Definition rsum (g : nat -> R) (l : list nat) : R :=
  fold_left (fun s j => s + g j) l 0.

Lemma fold_add_shift (g : nat -> R) (l : list nat) (a : R) :
  fold_left (fun s j => s + g j) l a = a + rsum g l.
Proof.
  unfold rsum. revert a. induction l as [|j l IH]; intros a; simpl; [lra|].
  rewrite IH. rewrite (IH (0 + g j)). lra.
Qed.

Lemma fold_sub_shift (g : nat -> R) (l : list nat) (a : R) :
  fold_left (fun s j => s - g j) l a = a - rsum g l.
Proof.
  unfold rsum. revert a. induction l as [|j l IH]; intros a; simpl; [lra|].
  rewrite IH. rewrite (fold_add_shift g l (0 + g j)). unfold rsum. lra.
Qed.

Lemma rsum_app (g : nat -> R) (l1 l2 : list nat) :
  rsum g (l1 ++ l2) = rsum g l1 + rsum g l2.
Proof. unfold rsum. rewrite fold_left_app, fold_add_shift. reflexivity. Qed.

Lemma rsum_ext (g h : nat -> R) (l : list nat) :
  (forall j, In j l -> g j = h j) -> rsum g l = rsum h l.
Proof.
  intros Hgh. unfold rsum. apply fold_left_ext_in. intros a j Hin. rewrite Hgh; auto.
Qed.

Lemma rsum_zero (g : nat -> R) (l : list nat) :
  (forall j, In j l -> g j = 0) -> rsum g l = 0.
Proof.
  induction l as [|j l IH]; intros Hg; [reflexivity|].
  change (j :: l) with ([j] ++ l). rewrite rsum_app, IH by (intros; apply Hg; right; auto).
  unfold rsum; simpl. rewrite Hg by (left; auto). lra.
Qed.

Lemma rsum_linear (g h : nat -> R) (c : R) (l : list nat) :
  rsum (fun j => g j - c * h j) l = rsum g l - c * rsum h l.
Proof.
  induction l as [|j l IH]; [unfold rsum; simpl; lra|].
  change (j :: l) with ([j] ++ l). rewrite !rsum_app, IH.
  unfold rsum; simpl. lra.
Qed.

(** Row [k] of the system [M] at [x]: the left-hand side. *)
Definition lhs (M : list (list R)) (n : nat) (x : list R) (k : nat) : R :=
  rsum (fun j => at2 M k j * at1 x j) (seq 0 n).

Definition satisfies (M : list (list R)) (n : nat) (x : list R) : Prop :=
  forall k, (k < n)%nat -> lhs M n x k = at2 M k n.

(** Zeros below the diagonal in the first [i] columns; non-zero pivots
    in the first [i] rows. *)
Definition lowerZero (i n : nat) (M : list (list R)) : Prop :=
  forall j k, (j < i)%nat -> (j < k < n)%nat -> at2 M k j = 0.

Definition pivotsNonzero (i : nat) (M : list (list R)) : Prop :=
  forall k, (k < i)%nat -> at2 M k k <> 0.

Lemma rows_swapped_at2 (M M1 : list (list R)) (i m k j : nat) :
  rows_swapped M i m M1 ->
  at2 M1 k j = at2 M (if Nat.eqb k i then m else if Nat.eqb k m then i else k) j.
Proof. intros [_ Hrows]. unfold at2. rewrite Hrows. reflexivity. Qed.

Lemma swap_satisfies (M M1 : list (list R)) (i m n : nat) (x : list R) :
  (i < n)%nat -> (m < n)%nat -> rows_swapped M i m M1 ->
  satisfies M1 n x -> satisfies M n x.
Proof.
  intros Hi Hm Hsw Hsat k Hk.
  set (k' := if Nat.eqb k i then m else if Nat.eqb k m then i else k).
  assert (Hk' : (k' < n)%nat) by (unfold k'; nat_bool).
  assert (Hrow : forall j, at2 M1 k' j = at2 M k j).
  { intros j. rewrite (rows_swapped_at2 k' j Hsw). f_equal. unfold k'.
    destruct (Nat.eqb_spec k i) as [->|Hki].
    - rewrite Nat.eqb_refl. destruct (Nat.eqb_spec m i); congruence.
    - destruct (Nat.eqb_spec k m) as [->|Hkm].
      + rewrite Nat.eqb_refl. reflexivity.
      + destruct (Nat.eqb_spec k i); [congruence|].
        destruct (Nat.eqb_spec k m); congruence. }
  rewrite <- Hrow, <- (Hsat k' Hk'). unfold lhs. apply rsum_ext. intros j _.
  rewrite Hrow. reflexivity.
Qed.

Lemma eliminate_satisfies (M M' : list (list R)) (i n : nat) (x : list R) :
  (i < n)%nat -> lowerZero i n M -> at2 M i i <> 0 ->
  eliminated_below M i n M' ->
  satisfies M' n x -> satisfies M n x.
Proof.
  intros Hi Hz Hp [_ Hel] Hsat k Hk. exact_ops.
  assert (Hrow_i : forall j, (j <= n)%nat -> at2 M' i j = at2 M i j).
  { intros j Hj. rewrite Hel by lia. rewrite Nat.ltb_irrefl. reflexivity. }
  assert (Hi_sat : lhs M n x i = at2 M i n).
  { rewrite <- Hrow_i by lia. rewrite <- (Hsat i Hi). unfold lhs.
    apply rsum_ext. intros j Hin. apply in_seq in Hin. rewrite Hrow_i by lia. reflexivity. }
  destruct (Nat.ltb i k) eqn:E.
  - apply Nat.ltb_lt in E.
    set (f := at2 M k i / at2 M i i).
    assert (Hrow : forall j, (j <= n)%nat -> at2 M' k j = at2 M k j - f * at2 M i j).
    { intros j Hj. rewrite Hel by lia.
      replace (Nat.ltb i k) with true by (symmetry; apply Nat.ltb_lt; lia).
      destruct (Nat.leb i j) eqn:E2; simpl; [reflexivity|].
      apply Nat.leb_gt in E2. rewrite (Hz j i) by lia. lra. }
    pose proof (Hsat k Hk) as Hk_sat. rewrite Hrow in Hk_sat by lia.
    assert (Hl : lhs M' n x k = lhs M n x k - f * lhs M n x i).
    { unfold lhs. rewrite <- rsum_linear. apply rsum_ext. intros j Hin.
      apply in_seq in Hin. rewrite Hrow by lia. lra. }
    rewrite Hl, Hi_sat in Hk_sat. lra.
  - apply Nat.ltb_ge in E.
    assert (Hrow : forall j, (j <= n)%nat -> at2 M' k j = at2 M k j).
    { intros j Hj. rewrite Hel by lia.
      replace (Nat.ltb i k) with false by (symmetry; apply Nat.ltb_ge; lia).
      reflexivity. }
    rewrite <- Hrow by lia. rewrite <- (Hsat k Hk). unfold lhs.
    apply rsum_ext. intros j Hin. apply in_seq in Hin. rewrite Hrow by lia. reflexivity.
Qed.

Lemma pivot_nonzero (p : R) : Rltb (Rabs p) (1 / 10000000000) = false -> p <> 0.
Proof.
  rewrite Rltb_false. intros Hp ->. rewrite Rabs_R0 in Hp. lra.
Qed.

(** A run of the elimination that succeeds ends in an upper-triangular
    system with non-zero diagonal whose solutions solve the system it
    started from. *)
Lemma GaussElim_sound (n : nat) (i : nat) (M : list (list R)) (res : option (list (list R))) :
  GaussElim n i M res ->
  forall U, res = Some U ->
  lowerZero i n M -> pivotsNonzero i M ->
  lowerZero n n U /\ pivotsNonzero n U /\ forall x, satisfies U n x -> satisfies M n x.
Proof.
  induction 1 as [M | i M m Hi Hpiv Hsmall | i M m M1 M' res Hi Hpiv Hbig Hsw Hel Hrun IH];
    intros U HU Hz Hp.
  - inversion HU; subst U. auto.
  - discriminate.
  - exact_ops.
    assert (Hm : (i <= m < n)%nat) by (destruct Hpiv as [? _]; lia).
    assert (Hz1 : lowerZero i n M1).
    { intros j k Hj Hk. rewrite (rows_swapped_at2 k j Hsw). apply Hz; [lia|]. nat_bool. }
    assert (Hp1 : pivotsNonzero i M1).
    { intros k Hk. rewrite (rows_swapped_at2 k k Hsw).
      replace (Nat.eqb k i) with false by (symmetry; apply Nat.eqb_neq; lia).
      replace (Nat.eqb k m) with false by (symmetry; apply Nat.eqb_neq; lia).
      apply Hp; lia. }
    assert (Hpivot : at2 M1 i i <> 0).
    { rewrite (rows_swapped_at2 i i Hsw), Nat.eqb_refl. apply pivot_nonzero. exact Hbig. }
    pose proof Hel as [_ Hat].  exact_ops.
    assert (Hz' : lowerZero (S i) n M').
    { intros j k Hj Hk. rewrite Hat by lia.
      destruct (Nat.eq_dec j i) as [->|Hne].
      - replace (Nat.ltb i k) with true by (symmetry; apply Nat.ltb_lt; lia).
        rewrite Nat.leb_refl. simpl. field. exact Hpivot.
      - replace (Nat.leb i j) with false by (symmetry; apply Nat.leb_gt; lia).
        rewrite andb_false_r. apply Hz1; lia. }
    assert (Hp' : pivotsNonzero (S i) M').
    { intros k Hk. rewrite Hat by lia.
      replace (Nat.ltb i k) with false by (symmetry; apply Nat.ltb_ge; lia).
      simpl. destruct (Nat.eq_dec k i) as [->|Hne]; [exact Hpivot | apply Hp1; lia]. }
    destruct (IH U HU Hz' Hp') as (HzU & HpU & Hsol).
    split; [exact HzU|]. split; [exact HpU|].
    intros x Hx.
    apply (@swap_satisfies M M1 i m n x Hi ltac:(lia) Hsw).
    apply (@eliminate_satisfies M1 M' i n x Hi Hz1 Hpivot Hel).
    apply Hsol. exact Hx.
Qed.

Lemma BackSubst_satisfies (n : nat) (U : list (list R)) (x : list R) :
  lowerZero n n U -> pivotsNonzero n U -> BackSubst n U x -> satisfies U n x.
Proof.
  intros Hz Hp [_ Hx] k Hk. specialize (Hx k Hk). exact_ops.
  rewrite (fold_sub_shift (fun j => at2 U k j * at1 x j)) in Hx.
  unfold lhs.
  replace (seq 0 n) with (seq 0 k ++ [k] ++ seq (S k) (n - S k)).
  2:{ assert (E : seq 0 n = seq 0 (k + S (n - S k))) by (f_equal; lia).
      rewrite E, seq_app. reflexivity. }
  rewrite !rsum_app.
  rewrite (@rsum_zero _ (seq 0 k)).
  2:{ intros j Hin. apply in_seq in Hin. rewrite (Hz j k) by lia. lra. }
  replace (rsum (fun j => at2 U k j * at1 x j) [k]) with (at2 U k k * at1 x k)
    by (unfold rsum; simpl; lra).
  rewrite Hx. field. apply Hp. exact Hk.
Qed.

(** The elimination and the back substitution, put together: the vector
    returned satisfies the augmented system. *)
Lemma solveLinearSystem_satisfies (A : list (list R)) (b x : list R) :
  length A = length b ->
  Forall (fun row => length row = length b) A ->
  solveLinearSystem A b = Ok x ->
  length x = length b /\ satisfies (augment (length b) A b) (length b) x.
Proof.
  intros HA Hrows. set (n := length b) in *.
  assert (Hnth : forall i, (i < n)%nat -> length (nth i A []) = n).
  { intros i Hi. rewrite Forall_forall in Hrows. apply Hrows, nth_In. lia. }
  pose proof (@forwardElim_spec R Exact Exact_laws n n 0 (augment n A b)
                ltac:(lia) (augment_shape A b Hnth)) as Hrun.
  unfold solveLinearSystem. fold n.
  replace (Nat.ltb (length A) n) with false by (symmetry; apply Nat.ltb_ge; lia).
  destruct (forwardElim (seq 0 n) n (augment n A b)) as [U|]; [|discriminate].
  intros [= <-].
  pose proof (backSubst_spec U n) as Hbs.
  split; [apply Hbs|].
  destruct (@GaussElim_sound n 0 (augment n A b) (Some U) Hrun U eq_refl) as (Hz & Hp & Hsol).
  { intros j k Hj; lia. }
  { intros k Hk; lia. }
  exact (Hsol _ (BackSubst_satisfies Hz Hp Hbs)).
Qed.

Lemma satisfies_augment (A : list (list R)) (b x : list R) (k : nat) :
  (forall i, (i < length b)%nat -> length (nth i A []) = length b) ->
  satisfies (augment (length b) A b) (length b) x ->
  (k < length b)%nat ->
  rsum (fun j => at2 A k j * at1 x j) (seq 0 (length b)) = at1 b k.
Proof.
  intros Hnth Hsat Hk.
  pose proof (@augment_spec R Exact (length b) A b Hnth) as [_ Haug].
  specialize (Hsat k Hk). destruct (Haug k Hk) as [Hent Hrhs].
  rewrite Hrhs in Hsat. rewrite <- Hsat. unfold lhs.
  apply rsum_ext. intros j Hin. apply in_seq in Hin. rewrite Hent by lia. reflexivity.
Qed.

(** X1. In real arithmetic the vector [solveLinearSystem] returns has one
    entry per equation and solves [A x = b]: row by row, the sum of
    [A[k][j] * x[j]] is [b[k]]. *)
Theorem solveLinearSystem_solves_R (A : list (list R)) (b x : list R) :
  length A = length b ->
  Forall (fun row => length row = length b) A ->
  solveLinearSystem A b = Ok x ->
  length x = length b /\
  forall k, (k < length b)%nat ->
    rsum (fun j => at2 A k j * at1 x j) (seq 0 (length b)) = at1 b k.
Proof.
  intros HA Hrows Hsolve.
  destruct (@solveLinearSystem_satisfies A b x HA Hrows Hsolve) as [Hlen Hsat].
  split; [exact Hlen|]. intros k Hk.
  apply satisfies_augment; [|exact Hsat|exact Hk].
  intros i Hi. rewrite Forall_forall in Hrows. apply Hrows, nth_In. lia.
Qed.

Lemma solveLinearSystem_R_example :
  @solveLinearSystem R Exact [[2%R]] [4%R] = Ok [(4 / 2)%R].
Proof.
  unfold solveLinearSystem. simpl.
  unfold findPivot, swapRows, eliminate, backSubst. simpl.
  exact_ops. unfold augmentedRow, at2, at1. simpl.
  replace (Rltb (Rabs 2) (1 / 10000000000)) with false.
  2:{ symmetry. apply Rltb_false. rewrite Rabs_pos_eq; lra. }
  unfold backSubstRow. simpl. exact_ops. unfold at2, at1. simpl. reflexivity.
Qed.

Lemma solveLinearSystem_solves_R_witness :
  @solveLinearSystem R Exact [[2%R]] [4%R] = Ok [(4 / 2)%R] /\
  rsum (fun j => at2 [[2%R]] 0 j * at1 [(4 / 2)%R] j) (seq 0 1) = 4%R.
Proof.
  split; [exact solveLinearSystem_R_example|].
  apply (@solveLinearSystem_solves_R [[2%R]] [4%R] [(4 / 2)%R]).
  - reflexivity.
  - repeat constructor.
  - exact solveLinearSystem_R_example.
  - simpl. lia.
Defined.

End SolverReal.

(** ** gonum matrices and vectors

    A [*mat.Dense] is the list of its rows and a [*mat.VecDense] the list
    of its entries; a nil [*mat.VecDense] is [None].  gonum's matrices are
    rectangular, so an entry that a ragged list lacks reads as zero.  The
    panics of gonum that the code below can trigger by itself are modelled
    (an access past the end of a vector, a nil receiver, a product of
    mismatched shapes); whether gonum allocates a matrix with a zero
    dimension depends on its version and is left out. *)

Section Gonum.
Context {F : Type} `{Float64 F}.
Local Open Scope f64_scope.

Definition Dims (X : list (list F)) : nat * nat := (length X, length (hd [] X)).

(** [XWithIntercept]: a column of ones in front of [X]. *)
Definition withIntercept (X : list (list F)) : list (list F) :=
  let '(n, p) := Dims X in
  map (fun i => f_one :: map (fun j => at2 X i j) (seq 0 p)) (seq 0 n).

(** The check-convergence loop shared by Lasso and Logistic:
    [maxDiff := 0.0], then every [diff > maxDiff] replaces it. *)
Definition maxDiff (beta betaOld : list F) (p : nat) : F :=
  fold_left
    (fun maxDiff i =>
       let diff := f_abs (at1 beta i - at1 betaOld i) in
       if diff >? maxDiff then diff else maxDiff)
    (seq 0 (S p)) f_zero.

(** [l.Intercept = beta.AtVec(0)], [l.Coefficients[i] = beta.AtVec(i+1)]. *)
Definition coefficientsOf (beta : list F) (p : nat) : list F :=
  map (fun i => at1 beta (S i)) (seq 0 p).

(** The prediction loop of OLS, Ridge and Lasso:
    [prediction := Intercept], then [prediction += X.At(i, j) * Coefficients.AtVec(j)].
    [AtVec] on a nil vector or past its end panics. *)
Definition predictRow (intercept : F) (coefs : list F) (X : list (list F)) (p i : nat) : F :=
  fold_left (fun prediction j => prediction + at2 X i j * at1 coefs j) (seq 0 p) intercept.

Definition vecLen (v : option (list F)) : nat :=
  match v with None => 0 | Some c => length c end.

Definition vecData (v : option (list F)) : list F :=
  match v with None => [] | Some c => c end.

Definition predictLinear (intercept : F) (coefs : option (list F)) (X : list (list F))
  : result (list F) :=
  let '(n, p) := Dims X in
  if Nat.ltb 0 n && Nat.ltb (vecLen coefs) p then Panic
  else Ok (map (predictRow intercept (vecData coefs) X p) (seq 0 n)).

(** ** Lasso *)

Record Lasso : Type := {
  Lasso_Coefficients : option (list F);
  Lasso_Intercept : F;
  Lasso_Lambda : F;
  Lasso_MaxIter : Z;
  Lasso_Tol : F;
  Lasso_isTrained : bool
}.

Definition NewLasso (lambda : F) : Lasso := {|
  Lasso_Coefficients := None;
  Lasso_Intercept := f_zero;
  Lasso_Lambda := lambda;
  Lasso_MaxIter := 1000;
  Lasso_Tol := f_1e_4;
  Lasso_isTrained := false
|}.

(** [rho = (1/n) * X_j^T (y - X_{-j} beta_{-j})] *)
Definition lasso_rho (XI : list (list F)) (y : list F) (n p : nat) (beta : list F) (j : nat) : F :=
  fold_left
    (fun rho i =>
       let pred :=
         fold_left (fun pred k => if Nat.eqb k j then pred else pred + at2 XI i k * at1 beta k)
                   (seq 0 (S p)) f_zero in
       rho + at2 XI i j * (at1 y i - pred))
    (seq 0 n) f_zero
  / f_of_int (Z.of_nat n).

(** [xjNorm = X_j^T X_j / n] *)
Definition lasso_xjNorm (XI : list (list F)) (n j : nat) : F :=
  fold_left (fun xjNorm i => xjNorm + at2 XI i j * at2 XI i j) (seq 0 n) f_zero
  / f_of_int (Z.of_nat n).

(** The three branches under [if xjNorm > 0]. *)
Definition softThreshold (lambda rho xjNorm : F) : F :=
  let threshold := lambda / xjNorm in
  if rho >? threshold then (rho - threshold) / xjNorm
  else if rho <? - threshold then (rho + threshold) / xjNorm
  else f_zero.

(** The regularisation of coordinate [j]: [lambda = 0] when [j == 0]. *)
Definition lasso_lambda (lambda : F) (j : nat) : F :=
  if Nat.eqb j 0 then f_zero else lambda.

(** The body of the loop over the coordinates. *)
Definition lasso_coord (lambda : F) (XI : list (list F)) (y : list F) (n p : nat)
  (beta : list F) (j : nat) : list F :=
  let rho := lasso_rho XI y n p beta j in
  let xjNorm := lasso_xjNorm XI n j in
  if xjNorm >? f_zero
  then upd j (softThreshold (lasso_lambda lambda j) rho xjNorm) beta
  else beta.

(** The coordinates [0 .. j-1] of one pass; the pass is [j = p + 1]. *)
Definition lasso_sweep (lambda : F) (XI : list (list F)) (y : list F) (n p : nat)
  (j : nat) (beta : list F) : list F :=
  fold_left (lasso_coord lambda XI y n p) (seq 0 j) beta.

Definition lasso_pass (lambda : F) (XI : list (list F)) (y : list F) (n p : nat)
  (beta : list F) : list F :=
  lasso_sweep lambda XI y n p (S p) beta.

(** [for iter := 0; iter < l.MaxIter; iter++ { ...; if maxDiff < l.Tol { break } }],
    with the number of passes run. *)
Fixpoint lasso_descent (lambda tol : F) (XI : list (list F)) (y : list F) (n p : nat)
  (iters : nat) (beta : list F) : list F * nat :=
  match iters with
  | O => (beta, O)
  | S iters' =>
      let beta' := lasso_pass lambda XI y n p beta in
      if maxDiff beta' beta p <? tol then (beta', 1%nat)
      else let '(b, k) := lasso_descent lambda tol XI y n p iters' beta' in (b, S k)
  end.

(** [y.At(i, 0)] panics in the first pass when [y] is shorter than [X]. *)
Definition Lasso_Fit (l : Lasso) (X : list (list F)) (y : list F) : result Lasso :=
  let '(n, p) := Dims X in
  let XI := withIntercept X in
  let beta0 := repeat f_zero (S p) in
  if Z.ltb 0 (Lasso_MaxIter l) && Nat.ltb (length y) n then Panic
  else
    let beta := fst (lasso_descent (Lasso_Lambda l) (Lasso_Tol l) XI y n p
                                   (Z.to_nat (Lasso_MaxIter l)) beta0) in
    Ok {| Lasso_Coefficients := Some (coefficientsOf beta p);
          Lasso_Intercept := at1 beta 0;
          Lasso_Lambda := Lasso_Lambda l;
          Lasso_MaxIter := Lasso_MaxIter l;
          Lasso_Tol := Lasso_Tol l;
          Lasso_isTrained := true |}.

Definition Lasso_Predict (l : Lasso) (X : list (list F)) : result (list F) :=
  predictLinear (Lasso_Intercept l) (Lasso_Coefficients l) X.

(** The closed form the specification gives for the update,
    [sign(rho) * max(|rho| - lambda / xjNorm, 0) / xjNorm]. *)
Definition f_sign (x : F) : F :=
  if x >? f_zero then f_one else if x <? f_zero then - f_one else f_zero.

Definition f_max (x y : F) : F := if x >? y then x else y.

Definition softThresholdFormula (lambda rho xjNorm : F) : F :=
  f_sign rho * f_max (f_abs rho - lambda / xjNorm) f_zero / xjNorm.

(** The state after [t] passes. *)
Fixpoint lasso_iterate (lambda : F) (XI : list (list F)) (y : list F) (n p : nat)
  (t : nat) (beta : list F) : list F :=
  match t with
  | O => beta
  | S t' => lasso_pass lambda XI y n p (lasso_iterate lambda XI y n p t' beta)
  end.

End Gonum.

(** ** Lasso: the loop structure, for every arithmetic *)

Section LassoLoop.
Context {F : Type} `{Float64 F}.
Local Open Scope f64_scope.
Variables (lambda tol : F) (XI : list (list F)) (y : list F) (n p : nat).

Lemma lasso_iterate_shift t beta :
  lasso_iterate lambda XI y n p (S t) beta
  = lasso_iterate lambda XI y n p t (lasso_pass lambda XI y n p beta).
Proof.
  induction t as [|t IH]; [reflexivity|].
  change (lasso_iterate lambda XI y n p (S (S t)) beta)
    with (lasso_pass lambda XI y n p (lasso_iterate lambda XI y n p (S t) beta)).
  rewrite IH. reflexivity.
Qed.

Lemma lasso_descent_passes iters beta :
  (snd (lasso_descent lambda tol XI y n p iters beta) <= iters)%nat.
Proof.
  revert beta; induction iters as [|iters IH]; intros beta; simpl; [lia|].
  destruct (maxDiff _ beta p <? tol); simpl; [lia|].
  specialize (IH (lasso_pass lambda XI y n p beta)).
  destruct (lasso_descent lambda tol XI y n p iters _) as [b k]; simpl in *; lia.
Qed.

Lemma lasso_descent_state iters beta :
  fst (lasso_descent lambda tol XI y n p iters beta)
  = lasso_iterate lambda XI y n p (snd (lasso_descent lambda tol XI y n p iters beta)) beta.
Proof.
  revert beta; induction iters as [|iters IH]; intros beta; simpl; [reflexivity|].
  destruct (maxDiff _ beta p <? tol); simpl; [reflexivity|].
  specialize (IH (lasso_pass lambda XI y n p beta)).
  destruct (lasso_descent lambda tol XI y n p iters _) as [b k]; simpl in *.
  rewrite IH. symmetry. apply (lasso_iterate_shift k beta).
Qed.

(** A pass whose change is below the tolerance is the last one. *)
Lemma lasso_descent_stops iters beta t :
  (t < snd (lasso_descent lambda tol XI y n p iters beta))%nat ->
  (maxDiff (lasso_iterate lambda XI y n p (S t) beta)
           (lasso_iterate lambda XI y n p t beta) p <? tol) = true ->
  S t = snd (lasso_descent lambda tol XI y n p iters beta).
Proof.
  revert beta t; induction iters as [|iters IH]; intros beta t; simpl; [lia|].
  destruct (maxDiff _ beta p <? tol) eqn:E; simpl.
  - intros Ht _; lia.
  - specialize (IH (lasso_pass lambda XI y n p beta)).
    destruct (lasso_descent lambda tol XI y n p iters _) as [b k]; simpl in *.
    destruct t as [|t]; intros Ht Hconv.
    + simpl in Hconv. congruence.
    + f_equal. apply IH; [lia|].
      rewrite <- !lasso_iterate_shift. exact Hconv.
Qed.

(** Fewer passes than the budget: the last pass converged. *)
Lemma lasso_descent_early iters beta :
  (snd (lasso_descent lambda tol XI y n p iters beta) < iters)%nat ->
  exists t, snd (lasso_descent lambda tol XI y n p iters beta) = S t /\
            (maxDiff (lasso_iterate lambda XI y n p (S t) beta)
                     (lasso_iterate lambda XI y n p t beta) p <? tol) = true.
Proof.
  revert beta; induction iters as [|iters IH]; intros beta; simpl; [lia|].
  destruct (maxDiff _ beta p <? tol) eqn:E; simpl.
  - intros _. exists 0%nat. split; auto.
  - specialize (IH (lasso_pass lambda XI y n p beta)).
    destruct (lasso_descent lambda tol XI y n p iters _) as [b k]; simpl in *.
    intros Hk. destruct IH as (t & -> & Hconv); [lia|].
    exists (S t). split; auto.
    rewrite !lasso_iterate_shift. exact Hconv.
Qed.

(** Within a pass the coordinates are visited in ascending order. *)
Lemma lasso_sweep_S j beta :
  lasso_sweep lambda XI y n p (S j) beta
  = lasso_coord lambda XI y n p (lasso_sweep lambda XI y n p j beta) j.
Proof. unfold lasso_sweep. rewrite fold_left_seq_S. reflexivity. Qed.

Lemma lasso_coord_other beta j k :
  k <> j -> at1 (lasso_coord lambda XI y n p beta j) k = at1 beta k.
Proof.
  intros Hk. unfold lasso_coord.
  destruct (lasso_xjNorm XI n j >? f_zero); auto.
  unfold at1. apply nth_upd_neq. auto.
Qed.

Lemma lasso_coord_self beta j :
  (j < length beta)%nat ->
  at1 (lasso_coord lambda XI y n p beta j) j
  = if lasso_xjNorm XI n j >? f_zero
    then softThreshold (lasso_lambda lambda j) (lasso_rho XI y n p beta j) (lasso_xjNorm XI n j)
    else at1 beta j.
Proof.
  intros Hj. unfold lasso_coord.
  destruct (lasso_xjNorm XI n j >? f_zero); auto.
  unfold at1. apply nth_upd_eq. auto.
Qed.

Lemma lasso_coord_degenerate beta j :
  (lasso_xjNorm XI n j >? f_zero) = false -> lasso_coord lambda XI y n p beta j = beta.
Proof. intros E. unfold lasso_coord. rewrite E. reflexivity. Qed.

Lemma lasso_coord_length beta j :
  length (lasso_coord lambda XI y n p beta j) = length beta.
Proof.
  unfold lasso_coord. destruct (lasso_xjNorm XI n j >? f_zero); auto. apply upd_length.
Qed.

Lemma lasso_sweep_length j beta :
  length (lasso_sweep lambda XI y n p j beta) = length beta.
Proof.
  induction j as [|j IH]; [reflexivity|].
  rewrite lasso_sweep_S, lasso_coord_length. exact IH.
Qed.

End LassoLoop.

(** ** Lasso: the update read over the real numbers *)

Lemma softThreshold_formula_R (lambda rho x : R) :
  (0 <= lambda)%R -> (0 < x)%R ->
  softThreshold lambda rho x = softThresholdFormula lambda rho x.
Proof.
  intros Hl Hx.
  assert (Ht : (0 <= lambda / x)%R).
  { unfold Rdiv. apply Rmult_le_pos; auto. left. apply Rinv_0_lt_compat; auto. }
  unfold softThreshold, softThresholdFormula, f_sign, f_max; simpl.
  set (t := (lambda / x)%R) in *.
  unfold Rltb.
  destruct (Rlt_dec t rho) as [H1|H1].
  - destruct (Rlt_dec 0 rho) as [_|H2]; [|lra].
    rewrite Rabs_right by lra.
    destruct (Rlt_dec 0 (rho - t)) as [_|H3]; [|lra].
    field; lra.
  - destruct (Rlt_dec rho (- t)) as [H2|H2].
    + destruct (Rlt_dec 0 rho) as [H3|_]; [lra|].
      destruct (Rlt_dec rho 0) as [_|H4]; [|lra].
      rewrite Rabs_left by lra.
      destruct (Rlt_dec 0 (- rho - t)) as [_|H5]; [|lra].
      field; lra.
    + assert (Hm : (Rabs rho - t <= 0)%R).
      { unfold Rabs; destruct (Rcase_abs rho); lra. }
      destruct (Rlt_dec 0 (Rabs rho - t)) as [H3|_]; [lra|].
      destruct (Rlt_dec 0 rho); [|destruct (Rlt_dec rho 0)]; field; lra.
Qed.

Lemma sum_squares_nonneg (XI : list (list R)) (j : nat) :
  forall cnt a, (0 <= a)%R ->
    (0 <= fold_left (fun s i => s + at2 XI i j * at2 XI i j)%R (seq 0 cnt) a)%R.
Proof.
  induction cnt as [|cnt IH]; intros a Ha; [simpl; auto|].
  rewrite fold_left_seq_S; simpl.
  specialize (IH a Ha). nra.
Qed.

Lemma lasso_xjNorm_nonneg (XI : list (list R)) (n j : nat) : (0 <= lasso_xjNorm XI n j)%R.
Proof.
  unfold lasso_xjNorm; simpl.
  pose proof (@sum_squares_nonneg XI j n 0%R ltac:(lra)) as Hs.
  destruct n as [|n].
  - simpl. unfold Rdiv. rewrite Rmult_0_l. lra.
  - unfold Rdiv. apply Rmult_le_pos; auto.
    left. apply Rinv_0_lt_compat. apply (IZR_lt 0). lia.
Qed.

(** Over the reals the guard [xjNorm > 0] fails exactly for a zero norm. *)
Lemma lasso_guard_R (XI : list (list R)) (n j : nat) :
  f_ltb f_zero (lasso_xjNorm XI n j) = false <-> lasso_xjNorm XI n j = 0%R.
Proof.
  pose proof (lasso_xjNorm_nonneg XI n j) as Hn.
  change (Rltb 0 (lasso_xjNorm XI n j) = false <-> lasso_xjNorm XI n j = 0%R).
  rewrite Rltb_false. split; lra.
Qed.

(** Over the reals [maxDiff] is the largest absolute change. *)
Lemma maxDiff_R_fold (beta betaOld : list R) :
  forall cnt,
    let m := fold_left
               (fun maxDiff i =>
                  let diff := Rabs (at1 beta i - at1 betaOld i) in
                  if Rltb maxDiff diff then diff else maxDiff)
               (seq 0 cnt) 0%R in
    (0 <= m)%R /\
    (forall i, (i < cnt)%nat -> (Rabs (at1 beta i - at1 betaOld i) <= m)%R) /\
    (m = 0%R \/ exists i, (i < cnt)%nat /\ m = Rabs (at1 beta i - at1 betaOld i)).
Proof.
  induction cnt as [|cnt IH]; cbv zeta.
  - simpl. split; [lra|]. split; [intros; lia | auto].
  - rewrite fold_left_seq_S. cbv zeta in IH.
    set (m := fold_left _ (seq 0 cnt) 0%R) in *.
    destruct IH as (H0 & Hle & Hex). simpl Nat.add.
    pose proof (Rabs_pos (at1 beta cnt - at1 betaOld cnt)) as Hpos.
    unfold Rltb. destruct (Rlt_dec m _) as [Hlt|Hge].
    + split; [auto|]. split.
      * intros i Hi. destruct (Nat.eq_dec i cnt) as [->|]; [lra|].
        specialize (Hle i ltac:(lia)). lra.
      * right. exists cnt. split; [lia | reflexivity].
    + split; [auto|]. split.
      * intros i Hi. destruct (Nat.eq_dec i cnt) as [->|]; [lra|].
        apply Hle; lia.
      * destruct Hex as [Hz | (i & Hi & Hm)]; [auto|].
        right. exists i. split; [lia | auto].
Qed.

Lemma maxDiff_R (beta betaOld : list R) (p : nat) (tol : R) :
  f_ltb (maxDiff beta betaOld p) tol = true
  <-> forall i, (i <= p)%nat -> (Rabs (at1 beta i - at1 betaOld i) < tol)%R.
Proof.
  destruct (maxDiff_R_fold beta betaOld (S p)) as (H0 & Hle & Hex).
  cbv zeta in *. set (m := fold_left _ (seq 0 (S p)) 0%R) in *.
  change (Rltb (maxDiff beta betaOld p) tol = true
          <-> forall i, (i <= p)%nat -> (Rabs (at1 beta i - at1 betaOld i) < tol)%R).
  replace (maxDiff beta betaOld p) with m by reflexivity.
  rewrite Rltb_true. split.
  - intros Hm i Hi. specialize (Hle i ltac:(lia)). lra.
  - intros Hall. destruct Hex as [Hz | (i & Hi & Hm)].
    + specialize (Hall 0%nat ltac:(lia)).
      pose proof (Rabs_pos (at1 beta 0 - at1 betaOld 0)). lra.
    + rewrite Hm. apply Hall. lia.
Qed.

(** C2 (amended). A Lasso fit runs at most [MaxIter] passes (1000 and
    tolerance 1e-4 by default) and ends in the state reached after the
    passes it ran; a pass whose [maxDiff] is below the tolerance is the
    last one, and a run that stops before [MaxIter] stopped on such a pass.
    Within a pass the coordinates are visited in ascending order
    [0 .. p]; the update of coordinate [j] touches no other coordinate,
    leaves it unchanged when the guard [xjNorm > 0] fails and otherwise
    stores the three-branch soft threshold with [lambda_0 = 0] and
    [lambda_j = lambda].  Over the real numbers, for [lambda >= 0], that
    value is [sign(rho) * max(|rho| - lambda_j / xjNorm, 0) / xjNorm]; the
    guard fails exactly for a zero norm; and [maxDiff] is below the
    tolerance exactly when every absolute change is. *)
Theorem lasso_coordinate_descent :
  (forall (F : Type) (Hf : Float64 F) (l : Lasso) (X : list (list F)) (y : list F) (m : Lasso),
      Lasso_Fit l X y = Ok m ->
      let n := fst (Dims X) in
      let p := snd (Dims X) in
      let XI := withIntercept X in
      let beta0 := repeat f_zero (S p) in
      let state t := lasso_iterate (Lasso_Lambda l) XI y n p t beta0 in
      let converged t := f_ltb (maxDiff (state (S t)) (state t) p) (Lasso_Tol l) in
      exists passes : nat,
        (Z.of_nat passes <= Z.max 0 (Lasso_MaxIter l))%Z /\
        Lasso_Intercept m = at1 (state passes) 0 /\
        Lasso_Coefficients m = Some (coefficientsOf (state passes) p) /\
        (forall t, (t < passes)%nat -> converged t = true -> S t = passes) /\
        ((Z.of_nat passes < Lasso_MaxIter l)%Z ->
         exists t, passes = S t /\ converged t = true)) /\
  (forall (F : Type) (Hf : Float64 F) (lambda : F) (XI : list (list F)) (y : list F)
          (n p : nat) (beta : list F) (j : nat),
      lasso_pass lambda XI y n p beta = lasso_sweep lambda XI y n p (S p) beta /\
      lasso_sweep lambda XI y n p 0 beta = beta /\
      lasso_sweep lambda XI y n p (S j) beta
      = lasso_coord lambda XI y n p (lasso_sweep lambda XI y n p j beta) j /\
      (forall k, k <> j -> at1 (lasso_coord lambda XI y n p beta j) k = at1 beta k) /\
      ((j < length beta)%nat ->
       at1 (lasso_coord lambda XI y n p beta j) j
       = if f_ltb f_zero (lasso_xjNorm XI n j)
         then softThreshold (if Nat.eqb j 0 then f_zero else lambda)
                            (lasso_rho XI y n p beta j) (lasso_xjNorm XI n j)
         else at1 beta j) /\
      (f_ltb f_zero (lasso_xjNorm XI n j) = false ->
       lasso_coord lambda XI y n p beta j = beta)) /\
  (forall lambda rho xjNorm : R,
      (0 <= lambda)%R -> (0 < xjNorm)%R ->
      softThreshold lambda rho xjNorm
      = (f_sign rho * Rmax (Rabs rho - lambda / xjNorm) 0 / xjNorm)%R) /\
  (forall (XI : list (list R)) (n j : nat),
      f_ltb f_zero (lasso_xjNorm XI n j) = false <-> lasso_xjNorm XI n j = 0%R) /\
  (forall (beta betaOld : list R) (p : nat) (tol : R),
      f_ltb (maxDiff beta betaOld p) tol = true
      <-> forall i, (i <= p)%nat -> (Rabs (at1 beta i - at1 betaOld i) < tol)%R) /\
  Lasso_MaxIter (NewLasso 0%R) = 1000%Z /\ Lasso_Tol (NewLasso 0%R) = (1 / 10000)%R.
Proof.
  split; [|split; [|split; [|split; [|split]]]].
  - intros F Hf l X y m. unfold Lasso_Fit.
    destruct (Dims X) as [n p] eqn:HD. cbn [fst snd].
    destruct (Z.ltb 0 (Lasso_MaxIter l) && Nat.ltb (length y) n); [discriminate|].
    intros [= <-]. cbv zeta.
    set (XI := withIntercept X). set (beta0 := repeat f_zero (S p)).
    set (iters := Z.to_nat (Lasso_MaxIter l)).
    pose proof (@lasso_descent_passes _ _ (Lasso_Lambda l) (Lasso_Tol l) XI y n p iters beta0) as Hle.
    pose proof (@lasso_descent_state _ _ (Lasso_Lambda l) (Lasso_Tol l) XI y n p iters beta0) as Hst.
    pose proof (@lasso_descent_stops _ _ (Lasso_Lambda l) (Lasso_Tol l) XI y n p iters beta0) as Hstop.
    pose proof (@lasso_descent_early _ _ (Lasso_Lambda l) (Lasso_Tol l) XI y n p iters beta0) as Hearly.
    set (run := lasso_descent (Lasso_Lambda l) (Lasso_Tol l) XI y n p iters beta0) in *.
    exists (snd run). cbn [Lasso_Intercept Lasso_Coefficients Lasso_Lambda Lasso_Tol Lasso_MaxIter].
    change (lasso_descent (Lasso_Lambda l) (Lasso_Tol l) XI y n p iters
                          (f_zero :: repeat f_zero p)) with run.
    rewrite Hst.
    split; [unfold iters in Hle; lia|].
    split; [reflexivity|]. split; [reflexivity|].
    split; [exact Hstop|].
    intros Hlt. apply Hearly. unfold iters; lia.
  - intros F Hf lambda XI y n p beta j.
    split; [reflexivity|]. split; [reflexivity|].
    split; [apply lasso_sweep_S|].
    split; [intros k Hk; apply lasso_coord_other; auto|].
    split; [apply lasso_coord_self|].
    apply lasso_coord_degenerate.
  - intros lambda rho x Hl Hx.
    rewrite softThreshold_formula_R by auto.
    unfold softThresholdFormula. simpl f_mul; simpl f_div; simpl f_sub; simpl f_abs.
    f_equal. f_equal.
    unfold f_max, Rmax. change (f_ltb ?a ?b) with (Rltb a b). unfold Rltb.
    change (@f_zero R Exact) with 0%R.
    destruct (Rlt_dec 0 (Rabs rho - lambda / x)), (Rle_dec (Rabs rho - lambda / x) 0); lra.
  - apply lasso_guard_R.
  - apply maxDiff_R.
  - split; reflexivity.
Qed.

(** The closed form at [lambda = 1], [rho = 3], [xjNorm = 2]. *)
Lemma lasso_coordinate_descent_witness :
  softThreshold 1%R 3%R 2%R = (f_sign 3%R * Rmax (Rabs 3 - 1 / 2) 0 / 2)%R.
Proof.
  destruct lasso_coordinate_descent as (_ & _ & Hformula & _).
  apply Hformula; lra.
Defined.

(** With [lambda = -1], [X = [[1], [-1]]] and [y = [-0.5, 0.5]] the first
    pass reaches coordinate 1 with [rho = -0.5] and [xjNorm = 1]: the code
    stores 0.5 where the closed form gives -1.5. *)
Lemma lasso_negative_lambda :
  Lasso_Fit {| Lasso_Coefficients := None; Lasso_Intercept := 0%float;
               Lasso_Lambda := (-1)%float; Lasso_MaxIter := 1;
               Lasso_Tol := 1e-4%float; Lasso_isTrained := false |}
            [[1]; [-1]]%float [-0.5; 0.5]%float
  = Ok {| Lasso_Coefficients := Some [0.5%float]; Lasso_Intercept := 0%float;
          Lasso_Lambda := (-1)%float; Lasso_MaxIter := 1;
          Lasso_Tol := 1e-4%float; Lasso_isTrained := true |} /\
  lasso_sweep (-1)%float (withIntercept [[1]; [-1]]%float) [-0.5; 0.5]%float 2 1 1 [0; 0]%float
  = [0; 0]%float /\
  lasso_rho (withIntercept [[1]; [-1]]%float) [-0.5; 0.5]%float 2 1 [0; 0]%float 1
  = (-0.5)%float /\
  lasso_xjNorm (withIntercept [[1]; [-1]]%float) 2 1 = 1%float /\
  at1 (lasso_coord (-1)%float (withIntercept [[1]; [-1]]%float) [-0.5; 0.5]%float 2 1
                   [0; 0]%float 1) 1 = 0.5%float /\
  softThresholdFormula (-1)%float (-0.5)%float 1%float = (-1.5)%float /\
  softThreshold (-1)%R (-1 / 2)%R 1%R <> softThresholdFormula (-1)%R (-1 / 2)%R 1%R.
Proof.
  repeat (split; [vm_compute; reflexivity|]).
  unfold softThreshold, softThresholdFormula, f_sign, f_max.
  change (@f_zero R Exact) with 0%R. change (@f_one R Exact) with 1%R.
  change (@f_ltb R Exact) with Rltb. change (@f_neg R Exact) with Ropp.
  change (@f_div R Exact) with Rdiv. change (@f_sub R Exact) with Rminus.
  change (@f_add R Exact) with Rplus. change (@f_mul R Exact) with Rmult.
  change (@f_abs R Exact) with Rabs.
  unfold Rltb.
  repeat match goal with
         | |- context [Rlt_dec ?a ?b] => destruct (Rlt_dec a b); try lra
         end.
  all: try (rewrite Rabs_left in * by lra); try lra.
  all: intros E; try (unfold Rabs in *; destruct (Rcase_abs (-1/2)); lra).
Qed.

(** ** Logistic *)

Section LogisticModel.
Context {F : Type} `{Float64 F} `{MathLib F}.
Local Open Scope f64_scope.

Record Logistic : Type := {
  Logistic_Coefficients : option (list F);
  Logistic_Intercept : F;
  Logistic_MaxIter : Z;
  Logistic_Tol : F;
  Logistic_LearningRate : F;
  Logistic_isTrained : bool
}.

Definition NewLogistic : Logistic := {|
  Logistic_Coefficients := None;
  Logistic_Intercept := f_zero;
  Logistic_MaxIter := 1000;
  Logistic_Tol := f_1e_4;
  Logistic_LearningRate := f_0_01;
  Logistic_isTrained := false
|}.

Definition sigmoid (z : F) : F :=
  if z >? f_of_int 30 then f_one
  else if z <? f_of_int (-30) then f_zero
  else f_one / (f_one + math_Exp (- z)).

(** One iteration of the gradient descent: the forward pass, the
    gradient, and [theta.AddScaledVec(theta, -l.LearningRate, gradient)]. *)
Definition logistic_forward (XI : list (list F)) (n p : nat) (theta : list F) : list F :=
  map (fun i => sigmoid (fold_left (fun z j => z + at2 XI i j * at1 theta j) (seq 0 (S p)) f_zero))
      (seq 0 n).

Definition logistic_gradient (XI : list (list F)) (y : list F) (n p : nat)
  (predictions : list F) : list F :=
  map (fun j =>
         fold_left (fun sum i => sum + at2 XI i j * (at1 predictions i - at1 y i))
                   (seq 0 n) f_zero
         / f_of_int (Z.of_nat n))
      (seq 0 (S p)).

Definition logistic_step (lr : F) (XI : list (list F)) (y : list F) (n p : nat)
  (theta : list F) : list F :=
  let predictions := logistic_forward XI n p theta in
  let gradient := logistic_gradient XI y n p predictions in
  map (fun j => at1 theta j + (- lr) * at1 gradient j) (seq 0 (S p)).

Fixpoint logistic_descent (lr tol : F) (XI : list (list F)) (y : list F) (n p : nat)
  (iters : nat) (theta : list F) : list F :=
  match iters with
  | O => theta
  | S iters' =>
      let theta' := logistic_step lr XI y n p theta in
      if maxDiff theta' theta p <? tol then theta'
      else logistic_descent lr tol XI y n p iters' theta'
  end.

(** [y.At(i, 0)] panics in the first gradient when [y] is shorter than [X]. *)
Definition Logistic_Fit (l : Logistic) (X : list (list F)) (y : list F) : result Logistic :=
  let '(n, p) := Dims X in
  let XI := withIntercept X in
  let theta0 := repeat f_zero (S p) in
  if Z.ltb 0 (Logistic_MaxIter l) && Nat.ltb (length y) n then Panic
  else
    let theta := logistic_descent (Logistic_LearningRate l) (Logistic_Tol l) XI y n p
                                  (Z.to_nat (Logistic_MaxIter l)) theta0 in
    Ok {| Logistic_Coefficients := Some (coefficientsOf theta p);
          Logistic_Intercept := at1 theta 0;
          Logistic_MaxIter := Logistic_MaxIter l;
          Logistic_Tol := Logistic_Tol l;
          Logistic_LearningRate := Logistic_LearningRate l;
          Logistic_isTrained := true |}.

(** [z := l.Intercept], [z += X.At(i, j) * l.Coefficients.AtVec(j)],
    [predictions[i] = sigmoid(z)]. *)
Definition Logistic_Predict (l : Logistic) (X : list (list F)) : result (list F) :=
  let '(n, p) := Dims X in
  if Nat.ltb 0 n && Nat.ltb (vecLen (Logistic_Coefficients l)) p then Panic
  else Ok (map (fun i => sigmoid (predictRow (Logistic_Intercept l)
                                             (vecData (Logistic_Coefficients l)) X p i))
               (seq 0 n)).

Definition classify (threshold probability : F) : F :=
  if probability >=? threshold then f_one else f_zero.

Definition Logistic_PredictClass (l : Logistic) (X : list (list F)) (threshold : F)
  : result (list F) :=
  match Logistic_Predict l X with
  | Ok probabilities => Ok (map (classify threshold) probabilities)
  | Error e => Error e
  | Panic => Panic
  end.

(** [predictions.At(i, 0)] panics when [y] is longer than the predictions. *)
Definition Logistic_Score (l : Logistic) (X : list (list F)) (y : list F) : result F :=
  match Logistic_PredictClass l X f_half with
  | Ok predictions =>
      let n := length y in
      if Nat.ltb (length predictions) n then Panic
      else
        let correct :=
          fold_left (fun correct i =>
                       if at1 predictions i =? at1 y i then Z.succ correct else correct)
                    (seq 0 n) 0%Z in
        Ok (f_of_int correct / f_of_int (Z.of_nat n))
  | Error e => Error e
  | Panic => Panic
  end.

(** *** Score *)

(** Sample [i] counts as correct. *)
Definition counted (probabilities y : list F) (i : nat) : bool :=
  (if at1 probabilities i >=? f_half then f_one else f_zero) =? at1 y i.

Lemma count_fold (P : nat -> bool) (l : list nat) (c : Z) :
  fold_left (fun correct i => if P i then Z.succ correct else correct) l c
  = (c + Z.of_nat (length (filter P l)))%Z.
Proof.
  revert c; induction l as [|i l IH]; intros c; simpl; [lia|].
  rewrite IH. destruct (P i); simpl length; lia.
Qed.

Lemma classify_nth threshold (probabilities : list F) (i : nat) :
  (i < length probabilities)%nat ->
  at1 (map (classify threshold) probabilities) i = classify threshold (at1 probabilities i).
Proof.
  intros Hi. unfold at1.
  rewrite nth_indep with (d' := classify threshold f_zero) by (rewrite length_map; auto).
  apply map_nth.
Qed.

Lemma counted_zero_or_one (probabilities y : list F) (i : nat) :
  counted probabilities y i = true ->
  (f_zero =? at1 y i) = true \/ (f_one =? at1 y i) = true.
Proof.
  unfold counted. destruct (at1 probabilities i >=? f_half); auto.
Qed.

End LogisticModel.

(** C10. Logistic's [Score] thresholds every predicted probability at 0.5
    (class 1.0 when the probability is at least 0.5, else 0.0), counts the
    samples whose class equals the target under float equality, and returns
    that count divided by the number of targets; a target that is neither
    0.0 nor 1.0 is never counted, so the count is at most the number of
    targets equal to 0.0 or 1.0. *)
Theorem Logistic_Score_accuracy (F : Type) (Hf : Float64 F) (M : MathLib F)
  (l : Logistic) (X : list (list F)) (y : list F) :
  Logistic_Score l X y
  = match Logistic_Predict l X with
    | Ok probabilities =>
        if Nat.ltb (length probabilities) (length y) then Panic
        else Ok (f_div
                   (f_of_int (Z.of_nat (length (filter (counted probabilities y)
                                                       (seq 0 (length y))))))
                   (f_of_int (Z.of_nat (length y))))
    | Error e => Error e
    | Panic => Panic
    end /\
  (forall probabilities i,
      counted probabilities y i
      = f_eqb (if f_leb f_half (at1 probabilities i) then f_one else f_zero) (at1 y i)) /\
  (forall probabilities i,
      f_eqb f_zero (at1 y i) = false -> f_eqb f_one (at1 y i) = false ->
      counted probabilities y i = false) /\
  (forall probabilities,
      length (filter (counted probabilities y) (seq 0 (length y)))
      <= length (filter (fun i => f_eqb f_zero (at1 y i) || f_eqb f_one (at1 y i))
                        (seq 0 (length y)))).
Proof.
  split; [|split; [|split]].
  - unfold Logistic_Score, Logistic_PredictClass.
    destruct (Logistic_Predict l X) as [probabilities| |]; auto.
    rewrite length_map.
    destruct (Nat.ltb (length probabilities) (length y)) eqn:E; auto.
    apply Nat.ltb_ge in E.
    rewrite (count_fold (fun i => f_eqb (at1 (map (classify f_half) probabilities) i) (at1 y i))).
    rewrite Z.add_0_l.
    do 5 f_equal. apply filter_ext_in. intros i Hi. apply in_seq in Hi.
    rewrite classify_nth by lia. reflexivity.
  - reflexivity.
  - intros probabilities i H0 H1. unfold counted.
    destruct (f_leb f_half (at1 probabilities i)); auto.
  - intros probabilities. induction (seq 0 (length y)) as [|i idx IH]; simpl; auto.
    destruct (counted probabilities y i) eqn:E.
    + apply counted_zero_or_one in E.
      replace (f_eqb f_zero (at1 y i) || f_eqb f_one (at1 y i)) with true
        by (destruct E as [-> | ->]; rewrite ?orb_true_r; reflexivity).
      simpl; lia.
    + destruct (f_eqb f_zero (at1 y i) || f_eqb f_one (at1 y i)); simpl; lia.
Qed.

(** ** Logistic: the range of the predictions *)

Lemma Logistic_Predict_entries (F : Type) (Hf : Float64 F) (M : MathLib F)
  (l : Logistic) (X : list (list F)) (probabilities : list F) :
  Logistic_Predict l X = Ok probabilities ->
  length probabilities = fst (Dims X) /\
  forall i, i < fst (Dims X) ->
    at1 probabilities i
    = sigmoid (fold_left (fun z j => f_add z (f_mul (at2 X i j)
                                                    (at1 (vecData (Logistic_Coefficients l)) j)))
                         (seq 0 (snd (Dims X))) (Logistic_Intercept l)).
Proof.
  unfold Logistic_Predict. destruct (Dims X) as [n p]; cbn [fst snd].
  destruct (Nat.ltb 0 n && Nat.ltb (vecLen (Logistic_Coefficients l)) p); [discriminate|].
  intros [= <-]. split; [rewrite length_map, length_seq; reflexivity|].
  intros i Hi. unfold at1.
  rewrite nth_indep with (d' := sigmoid (predictRow (Logistic_Intercept l)
                                  (vecData (Logistic_Coefficients l)) X p 0))
    by (rewrite length_map, length_seq; auto).
  rewrite (map_nth (fun i => sigmoid (predictRow (Logistic_Intercept l)
                                  (vecData (Logistic_Coefficients l)) X p i))).
  rewrite seq_nth by auto. reflexivity.
Qed.

Lemma sigmoid_range_R (z : R) : (0 <= sigmoid z <= 1)%R.
Proof.
  unfold sigmoid.
  change (@f_ltb R Exact) with Rltb. unfold Rltb.
  destruct (Rlt_dec _ z); [simpl; lra|].
  destruct (Rlt_dec z _); [simpl; lra|].
  change (0 <= 1 / (1 + Rtrigo_def.exp (- z)) <= 1)%R.
  pose proof (exp_pos (- z)) as He.
  assert (Hd : (0 < 1 + Rtrigo_def.exp (- z))%R) by lra.
  split.
  - unfold Rdiv. rewrite Rmult_1_l. left. apply Rinv_0_lt_compat. auto.
  - apply Rmult_le_reg_r with (r := (1 + Rtrigo_def.exp (- z))%R); auto.
    unfold Rdiv. rewrite Rmult_assoc, Rinv_l by lra. lra.
Qed.

(** C5 (amended). The sigmoid is exactly 1 for [z > 30], exactly 0 for
    [z < -30] and [1 / (1 + exp(-z))] otherwise (a NaN score included), and
    every entry of [Predict]'s output is the sigmoid of the row's score
    [Intercept + sum_j X[i][j] * Coefficients[j]], added up in ascending
    [j].  Over the real numbers every entry lies in [[0, 1]]. *)
Theorem Logistic_Predict_range :
  (forall (F : Type) (Hf : Float64 F) (M : MathLib F) (z : F),
      (f_ltb (f_of_int 30) z = true -> sigmoid z = f_one) /\
      (f_ltb (f_of_int 30) z = false -> f_ltb z (f_of_int (-30)) = true -> sigmoid z = f_zero) /\
      (f_ltb (f_of_int 30) z = false -> f_ltb z (f_of_int (-30)) = false ->
       sigmoid z = f_div f_one (f_add f_one (math_Exp (f_neg z))))) /\
  (forall (F : Type) (Hf : Float64 F) (M : MathLib F)
          (l : Logistic) (X : list (list F)) (probabilities : list F),
      Logistic_Predict l X = Ok probabilities ->
      length probabilities = fst (Dims X) /\
      forall i, i < fst (Dims X) ->
        at1 probabilities i
        = sigmoid (fold_left
                     (fun z j => f_add z (f_mul (at2 X i j)
                                                (at1 (vecData (Logistic_Coefficients l)) j)))
                     (seq 0 (snd (Dims X))) (Logistic_Intercept l))) /\
  (forall (l : Logistic) (X : list (list R)) (probabilities : list R),
      Logistic_Predict l X = Ok probabilities ->
      Forall (fun probability => (0 <= probability <= 1)%R) probabilities).
Proof.
  split; [|split].
  - intros F Hf M z. unfold sigmoid. repeat split; intros; 
      repeat match goal with E : _ = _ |- _ => rewrite E end; reflexivity.
  - apply Logistic_Predict_entries.
  - intros l X probabilities. unfold Logistic_Predict.
    destruct (Dims X) as [n p].
    destruct (Nat.ltb 0 n && Nat.ltb (vecLen (Logistic_Coefficients l)) p); [discriminate|].
    intros [= <-]. apply Forall_forall. intros pr Hin.
    apply in_map_iff in Hin. destruct Hin as (i & <- & _).
    apply sigmoid_range_R.
Qed.

(** A model with intercept 0 and coefficient 1 at the row [[2]]. *)
Lemma Logistic_Predict_range_witness :
  Forall (fun probability => (0 <= probability <= 1)%R)
         [sigmoid (predictRow 0%R [1%R] [[2%R]] 1 0)].
Proof.
  destruct Logistic_Predict_range as (_ & _ & Hrange).
  apply (Hrange {| Logistic_Coefficients := Some [1%R]; Logistic_Intercept := 0%R;
                   Logistic_MaxIter := 1000; Logistic_Tol := (1 / 10000)%R;
                   Logistic_LearningRate := (1 / 100)%R; Logistic_isTrained := true |}
                [[2%R]]).
  reflexivity.
Defined.

(** *** A NaN prediction on finite inputs

    Three samples with the finite feature 1.5e308 and target 0: the first
    gradient overflows to [+Inf], the coefficient becomes [-Inf], the second
    iteration changes nothing and the loop stops.  At the finite input 0
    the score is [0 * -Inf = NaN], and so is the prediction. *)

Section LogisticOverflow.
Variable M : MathLib float.
Hypothesis exp_zero : math_Exp neg_zero = 1%float.
Hypothesis exp_nan : math_Exp nan = nan.

Definition X_huge : list (list float) := [[1.5e308]; [1.5e308]; [1.5e308]]%float.
Definition y_zero : list float := [0; 0; 0]%float.

Lemma sigmoid_zero : sigmoid 0%float = 0.5%float.
Proof.
  unfold sigmoid. cbn.
  replace (math_Exp _) with 1%float by (symmetry; exact exp_zero). reflexivity.
Qed.

Lemma sigmoid_nan : sigmoid nan = nan.
Proof.
  unfold sigmoid. cbn.
  replace (math_Exp _) with nan by (symmetry; exact exp_nan). reflexivity.
Qed.

Lemma logistic_forward_zero :
  logistic_forward (withIntercept X_huge) 3 1 [0; 0]%float = [0.5; 0.5; 0.5]%float.
Proof.
  unfold logistic_forward.
  cbv - [sigmoid PrimFloat.add PrimFloat.mul].
  replace (sigmoid _) with 0.5%float by (symmetry; exact sigmoid_zero).
  reflexivity.
Qed.

Lemma logistic_step_overflow :
  logistic_step 0.01%float (withIntercept X_huge) y_zero 3 1 [0; 0]%float
  = [(- (0.01) * 0.5)%float; neg_infinity].
Proof.
  unfold logistic_step. rewrite logistic_forward_zero. vm_compute. reflexivity.
Qed.

Lemma logistic_step_fixed :
  logistic_step 0.01%float (withIntercept X_huge) y_zero 3 1
                [(- (0.01) * 0.5)%float; neg_infinity]
  = [(- (0.01) * 0.5)%float; neg_infinity].
Proof. vm_compute. reflexivity. Qed.

Lemma logistic_descent_S (lr tol : float) XI y n p k theta :
  logistic_descent lr tol XI y n p (S k) theta
  = if f_ltb (maxDiff (logistic_step lr XI y n p theta) theta p) tol
    then logistic_step lr XI y n p theta
    else logistic_descent lr tol XI y n p k (logistic_step lr XI y n p theta).
Proof. reflexivity. Qed.

Lemma logistic_descent_overflow :
  logistic_descent 0.01%float 1e-4%float (withIntercept X_huge) y_zero 3 1
                   (Z.to_nat 1000) [0; 0]%float
  = [(- (0.01) * 0.5)%float; neg_infinity].
Proof.
  change (Z.to_nat 1000) with (S (S 998)).
  rewrite logistic_descent_S, logistic_step_overflow.
  replace (f_ltb (maxDiff [(- (0.01) * 0.5)%float; neg_infinity] [0; 0]%float 1) 1e-4%float)
    with false by (vm_compute; reflexivity).
  rewrite logistic_descent_S, logistic_step_fixed.
  replace (f_ltb (maxDiff [(- (0.01) * 0.5)%float; neg_infinity]
                          [(- (0.01) * 0.5)%float; neg_infinity] 1) 1e-4%float)
    with true by (vm_compute; reflexivity).
  reflexivity.
Qed.

Lemma Logistic_Fit_overflow :
  Logistic_Fit NewLogistic X_huge y_zero
  = Ok {| Logistic_Coefficients := Some [neg_infinity];
          Logistic_Intercept := (- (0.01) * 0.5)%float;
          Logistic_MaxIter := 1000;
          Logistic_Tol := 1e-4%float;
          Logistic_LearningRate := 0.01%float;
          Logistic_isTrained := true |}.
Proof.
  unfold Logistic_Fit.
  change (Dims X_huge) with (3, 1). cbv iota beta.
  change (Logistic_MaxIter NewLogistic) with 1000%Z.
  change (Z.ltb 0 1000 && Nat.ltb (length y_zero) 3) with false. cbv iota.
  change (Logistic_LearningRate NewLogistic) with 0.01%float.
  change (Logistic_Tol NewLogistic) with 1e-4%float.
  change (repeat f_zero 2) with [0; 0]%float.
  rewrite logistic_descent_overflow. reflexivity.
Qed.

Lemma Logistic_Predict_nan :
  Logistic_Predict {| Logistic_Coefficients := Some [neg_infinity];
                      Logistic_Intercept := (- (0.01) * 0.5)%float;
                      Logistic_MaxIter := 1000;
                      Logistic_Tol := 1e-4%float;
                      Logistic_LearningRate := 0.01%float;
                      Logistic_isTrained := true |} [[0%float]]
  = Ok [nan].
Proof.
  unfold Logistic_Predict. cbv - [sigmoid PrimFloat.add PrimFloat.mul PrimFloat.opp].
  replace (sigmoid _) with nan by (symmetry; exact sigmoid_nan). reflexivity.
Qed.

End LogisticOverflow.

Definition finite_entries (X : list (list float)) : Prop :=
  Forall (Forall (fun x => PrimFloat.is_finite x = true)) X.

Definition in_unit_interval (x : float) : Prop :=
  PrimFloat.leb 0 x = true /\ PrimFloat.leb x 1 = true.

(** C5 as stated fails in binary64: whatever [math.Exp] is, as long as
    [Exp(-0) = 1] and [Exp(NaN) = NaN], the model fitted on the finite
    data above predicts NaN at the finite input 0. *)
Lemma Logistic_Predict_not_in_unit_interval :
  finite_entries X_huge /\ finite_entries [[0%float]] /\
  ~ exists M : MathLib float,
      math_Exp neg_zero = 1%float /\ math_Exp nan = nan /\
      forall (l m : Logistic) (Xtrain : list (list float)) (ytrain : list float)
             (X : list (list float)) (probabilities : list float),
        Logistic_Fit l Xtrain ytrain = Ok m ->
        finite_entries X ->
        Logistic_Predict m X = Ok probabilities ->
        Forall in_unit_interval probabilities.
Proof.
  assert (H1 : finite_entries X_huge) by (repeat constructor).
  assert (H2 : finite_entries [[0%float]]) by (repeat constructor).
  split; [exact H1|]. split; [exact H2|].
  intros (M & He0 & Hen & Hclaim).
  specialize (Hclaim _ _ _ _ _ _ (Logistic_Fit_overflow M He0) H2 (Logistic_Predict_nan M Hen)).
  inversion Hclaim as [|? ? [Hle _] _]. vm_compute in Hle. discriminate.
Qed.

(** ** The gonum routines outside the repository

    [Cholesky.Factorize] reports success with [ok]; [Cholesky.SolveVecTo]
    and [Dense.Inverse] report failure with an error.  Their numerics are
    not modelled: a factorization is an abstract value. *)

Class Lapack (F : Type) := {
  Cholesky : Type;
  Factorize : list (list F) -> option Cholesky;
  SolveVecTo : Cholesky -> list F -> option (list F);
  Inverse : list (list F) -> option (list (list F))
}.

Section NormalEquations.
Context {F : Type} `{Float64 F}.
Local Open Scope f64_scope.

(** Entry [(i, j)] of [XTX.Mul(X.T(), X)] and entry [j] of
    [XTy.MulVec(X.T(), y)], the sums taken over the rows in ascending
    order. *)
Definition gramEntry (XI : list (list F)) (n i j : nat) : F :=
  fold_left (fun s k => s + at2 XI k i * at2 XI k j) (seq 0 n) f_zero.

Definition gram (XI : list (list F)) (n q : nat) : list (list F) :=
  map (fun i => map (fun j => gramEntry XI n i j) (seq 0 q)) (seq 0 q).

Definition mulTransVec (XI : list (list F)) (y : list F) (n q : nat) : list F :=
  map (fun j => fold_left (fun s k => s + at2 XI k j * at1 y k) (seq 0 n) f_zero) (seq 0 q).

Definition mulVec (M : list (list F)) (v : list F) (q : nat) : list F :=
  map (fun i => fold_left (fun s k => s + at2 M i k * at1 v k) (seq 0 q) f_zero) (seq 0 q).

(** [SymDense.SetSym(i, j, v)]: the entry and its mirror image. *)
Definition setSym (i j : nat) (v : F) (S : list (list F)) : list (list F) :=
  let S1 := upd i (upd j v (nth i S [])) S in
  upd j (upd i v (nth j S1 [])) S1.

Definition zeros (q : nat) : list (list F) := repeat (repeat f_zero q) q.

(** [val := XTX.At(i, j)]; [if i == j && i > 0 { val += r.Lambda }] *)
Definition ridgeEntry (XTX : list (list F)) (lambda : F) (i j : nat) : F :=
  let val := at2 XTX i j in
  if Nat.eqb i j && Nat.ltb 0 i then val + lambda else val.

(** The loops that fill [XTXSymmetric]. *)
Definition ridgeSym (XTX : list (list F)) (lambda : F) (q : nat) : list (list F) :=
  fold_left
    (fun S i =>
       fold_left (fun S j => setSym i j (ridgeEntry XTX lambda i j) S) (seq i (q - i)) S)
    (seq 0 q) (zeros q).

(** [XTXSymmetric.SetSym(i, i, XTXSymmetric.At(i, i) + 1e-10)] for every [i]. *)
Definition addJitter (S : list (list F)) (q : nat) : list (list F) :=
  fold_left (fun S i => setSym i i (at2 S i i + f_1e_10) S) (seq 0 q) S.

(** ** Ridge *)

Record Ridge : Type := {
  Ridge_Coefficients : option (list F);
  Ridge_Intercept : F;
  Ridge_Lambda : F;
  Ridge_isTrained : bool
}.

Definition NewRidge (lambda : F) : Ridge := {|
  Ridge_Coefficients := None;
  Ridge_Intercept := f_zero;
  Ridge_Lambda := lambda;
  Ridge_isTrained := false
|}.

Context `{Lapack F}.

(** The regularised normal matrix handed to the first factorization. *)
Definition ridgeMatrix (r : Ridge) (X : list (list F)) : list (list F) :=
  let '(n, p) := Dims X in
  ridgeSym (gram (withIntercept X) n (S p)) (Ridge_Lambda r) (S p).

(** After a factorization succeeded: [XTy.MulVec] panics unless [y] has
    one entry per row of [X]; an error of [SolveVecTo] is returned. *)
Definition ridgeSolve (r : Ridge) (X : list (list F)) (y : list F) (c : Cholesky)
  : result Ridge :=
  let '(n, p) := Dims X in
  if negb (Nat.eqb (length y) n) then Panic
  else
    match SolveVecTo c (mulTransVec (withIntercept X) y n (S p)) with
    | None => Error ErrSolveFailed
    | Some coefficients =>
        Ok {| Ridge_Coefficients := Some (coefficientsOf coefficients p);
              Ridge_Intercept := at1 coefficients 0;
              Ridge_Lambda := Ridge_Lambda r;
              Ridge_isTrained := true |}
    end.

(** [Ridge.Fit], with the matrices passed to [Factorize], in call order. *)
Definition Ridge_Fit (r : Ridge) (X : list (list F)) (y : list F)
  : result Ridge * list (list (list F)) :=
  let p := snd (Dims X) in
  let XTXSymmetric := ridgeMatrix r X in
  match Factorize XTXSymmetric with
  | Some c => (ridgeSolve r X y c, [XTXSymmetric])
  | None =>
      let jittered := addJitter XTXSymmetric (S p) in
      match Factorize jittered with
      | Some c => (ridgeSolve r X y c, [XTXSymmetric; jittered])
      | None => (Error ErrNotPositiveDefinite, [XTXSymmetric; jittered])
      end
  end.

Definition Ridge_Predict (r : Ridge) (X : list (list F)) : result (list F) :=
  predictLinear (Ridge_Intercept r) (Ridge_Coefficients r) X.

(** ** OLS (gonum) *)

Record OLS : Type := {
  OLS_Coefficients : option (list F);
  OLS_Intercept : F;
  OLS_isTrained : bool
}.

Definition NewOLS : OLS := {|
  OLS_Coefficients := None;
  OLS_Intercept := f_zero;
  OLS_isTrained := false
|}.

Definition OLS_Fit (o : OLS) (X : list (list F)) (y : list F) : result OLS :=
  let '(n, p) := Dims X in
  if Nat.eqb n 0 || Nat.eqb p 0 then Error ErrEmptyFeatureMatrix
  else if negb (Nat.eqb (length y) n) then Error (ErrMismatchedDimensions n (length y))
  else
    let XI := withIntercept X in
    match Inverse (gram XI n (S p)) with
    | None => Error ErrInvertFailed
    | Some invXTX =>
        let coefficients := mulVec invXTX (mulTransVec XI y n (S p)) (S p) in
        Ok {| OLS_Coefficients := Some (coefficientsOf coefficients p);
              OLS_Intercept := at1 coefficients 0;
              OLS_isTrained := true |}
    end.

Definition OLS_Predict (o : OLS) (X : list (list F)) : result (list F) :=
  predictLinear (OLS_Intercept o) (OLS_Coefficients o) X.

End NormalEquations.

(** ** OLS (slices): [Predict] *)

Section SliceOLS.
Context {F : Type} `{Float64 F}.
Local Open Scope f64_scope.

Record OLSSlices : Type := {
  OLSSlices_Coefficients : list F;
  OLSSlices_Intercept : F;
  OLSSlices_FitIntercept : bool
}.

Definition NewOLSSlices (fitIntercept : bool) : OLSSlices := {|
  OLSSlices_Coefficients := [];
  OLSSlices_Intercept := f_zero;
  OLSSlices_FitIntercept := fitIntercept
|}.

(** [feature * o.Coefficients[j]] panics on a row longer than the
    coefficients. *)
Definition OLSSlices_Predict (o : OLSSlices) (X : list (list F)) : result (list F) :=
  if Nat.eqb (length (OLSSlices_Coefficients o)) 0 then Error ErrNotTrained
  else if Nat.eqb (length X) 0 then Error ErrEmptyInput
  else if negb (Nat.eqb (length (hd [] X)) (length (OLSSlices_Coefficients o)))
       then Error ErrMismatchedFeatures
  else if existsb (fun sample => Nat.ltb (length (OLSSlices_Coefficients o)) (length sample)) X
       then Panic
  else Ok (map (fun sample =>
                  fold_left (fun prediction j =>
                               prediction + at1 sample j * at1 (OLSSlices_Coefficients o) j)
                            (seq 0 (length sample)) (OLSSlices_Intercept o))
               X).

End SliceOLS.

(** ** Ridge: the regularised matrix and the retry *)

Section SymmetricFill.
Context {F : Type} `{Float64 F}.
Local Open Scope f64_scope.

Definition square (q : nat) (S : list (list F)) : Prop :=
  length S = q /\ forall k, k < q -> length (nth k S []) = q.

Lemma at1_upd (j : nat) (v : F) (r : list F) (b : nat) :
  j < length r -> at1 (upd j v r) b = if Nat.eqb b j then v else at1 r b.
Proof.
  intros Hj. unfold at1. destruct (Nat.eqb_spec b j) as [->|Hne].
  - apply nth_upd_eq; auto.
  - apply nth_upd_neq; auto.
Qed.

Lemma at2_upd (i : nat) (r : list F) (S : list (list F)) (a b : nat) :
  i < length S -> at2 (upd i r S) a b = if Nat.eqb a i then at1 r b else at2 S a b.
Proof.
  intros Hi. unfold at2, at1. destruct (Nat.eqb_spec a i) as [->|Hne].
  - rewrite nth_upd_eq by auto. reflexivity.
  - rewrite nth_upd_neq by auto. reflexivity.
Qed.

Lemma square_upd q (S : list (list F)) i r :
  square q S -> length r = q -> square q (upd i r S).
Proof.
  intros [HL HR] Hr. split; [rewrite upd_length; auto|].
  intros k Hk. destruct (Nat.eq_dec k i) as [->|Hne].
  - rewrite nth_upd_eq by lia. auto.
  - rewrite nth_upd_neq by auto. auto.
Qed.

Lemma setSym_spec q (S : list (list F)) (i j : nat) (v : F) :
  square q S -> i < q -> j < q ->
  square q (setSym i j v S) /\
  forall a b, a < q -> b < q ->
    at2 (setSym i j v S) a b
    = if (Nat.eqb a i && Nat.eqb b j) || (Nat.eqb a j && Nat.eqb b i) then v else at2 S a b.
Proof.
  intros HS Hi Hj. unfold setSym.
  set (S1 := upd i (upd j v (nth i S [])) S).
  assert (HS1 : square q S1).
  { apply square_upd; auto. rewrite upd_length. destruct HS as [_ HR]; auto. }
  assert (Hat1 : forall a b, at2 S1 a b
                             = if Nat.eqb a i then (if Nat.eqb b j then v else at2 S i b)
                               else at2 S a b).
  { intros a b. unfold S1. rewrite at2_upd by (destruct HS; lia).
    destruct (Nat.eqb a i); auto.
    rewrite at1_upd by (destruct HS as [_ HR]; rewrite HR; auto). reflexivity. }
  split.
  - apply square_upd; auto. rewrite upd_length. destruct HS1 as [_ HR]; auto.
  - intros a b Ha Hb. rewrite at2_upd by (destruct HS1; lia).
    destruct (Nat.eqb_spec a j) as [->|Haj].
    + rewrite at1_upd by (destruct HS1 as [_ HR]; rewrite HR; auto).
      change (at1 (nth j S1 []) b) with (at2 S1 j b). rewrite Hat1. nat_bool.
    + rewrite Hat1. nat_bool.
Qed.

Lemma zeros_square q : square q (zeros q).
Proof.
  unfold zeros; split; [apply repeat_length|].
  intros k Hk. rewrite nth_indep with (d' := repeat f_zero q) by (rewrite repeat_length; auto).
  rewrite nth_repeat. apply repeat_length.
Qed.

(** One row of the fill: the pairs [(i, j)] with [i <= j < i + c]. *)
Lemma fillRow_spec (val : nat -> nat -> F) (q i : nat) :
  forall c (S : list (list F)),
    square q S -> i + c <= q ->
    let S' := fold_left (fun S j => setSym i j (val i j) S) (seq i c) S in
    square q S' /\
    forall a b, a < q -> b < q ->
      at2 S' a b
      = if Nat.eqb (Nat.min a b) i && Nat.ltb (Nat.max a b) (i + c)
        then val i (Nat.max a b) else at2 S a b.
Proof.
  induction c as [|c IH]; intros S HS Hc; cbv zeta.
  - simpl. split; auto. intros a b Ha Hb. nat_bool.
  - rewrite fold_left_seq_S.
    destruct (IH S HS) as [HS' Hat]; [lia|].
    set (S' := fold_left _ (seq i c) S) in *.
    destruct (@setSym_spec q S' i (i + c)%nat (val i (i + c)%nat) HS') as [HS2 Hat2]; [lia | lia |].
    split; auto.
    intros a b Ha Hb. rewrite Hat2, Hat by auto.
    nat_bool; f_equal; lia.
Qed.

(** The whole fill: every pair, read through its upper-triangle image. *)
Lemma fill_spec (val : nat -> nat -> F) (q : nat) :
  forall r (S : list (list F)),
    square q S -> r <= q ->
    let S' := fold_left
                (fun S i => fold_left (fun S j => setSym i j (val i j) S) (seq i (q - i)) S)
                (seq 0 r) S in
    square q S' /\
    forall a b, a < q -> b < q ->
      at2 S' a b
      = if Nat.ltb (Nat.min a b) r then val (Nat.min a b) (Nat.max a b) else at2 S a b.
Proof.
  induction r as [|r IH]; intros S HS Hr; cbv zeta.
  - simpl. split; auto.
  - rewrite fold_left_seq_S. simpl Nat.add.
    destruct (IH S HS) as [HS' Hat]; [lia|].
    set (S' := fold_left _ (seq 0 r) S) in *.
    destruct (@fillRow_spec val q r (q - r)%nat S' HS') as [HS2 Hat2]; [lia|].
    split; auto.
    intros a b Ha Hb. rewrite Hat2, Hat by auto.
    nat_bool; f_equal; lia.
Qed.

Lemma ridgeSym_spec (XTX : list (list F)) (lambda : F) (q : nat) :
  square q (ridgeSym XTX lambda q) /\
  forall a b, a < q -> b < q ->
    at2 (ridgeSym XTX lambda q) a b = ridgeEntry XTX lambda (Nat.min a b) (Nat.max a b).
Proof.
  destruct (@fill_spec (ridgeEntry XTX lambda) q q (zeros q) (zeros_square q)) as [HS Hat];
    [lia|].
  split; [exact HS|].
  intros a b Ha Hb. unfold ridgeSym. rewrite Hat by auto.
  replace (Nat.ltb (Nat.min a b) q) with true by (symmetry; apply Nat.ltb_lt; lia).
  reflexivity.
Qed.

Lemma addJitter_fold (q : nat) (S : list (list F)) :
  square q S ->
  forall c, c <= q ->
    let S' := fold_left (fun S i => setSym i i (at2 S i i + f_1e_10) S) (seq 0 c) S in
    square q S' /\
    forall a b, a < q -> b < q ->
      at2 S' a b = if Nat.eqb a b && Nat.ltb a c then at2 S a a + f_1e_10 else at2 S a b.
Proof.
  intros HS. induction c as [|c IH]; intros Hc; cbv zeta.
  - simpl. split; auto. intros a b Ha Hb. nat_bool.
  - rewrite fold_left_seq_S. simpl Nat.add.
    destruct IH as [HS' Hat]; [lia|].
    set (S' := fold_left _ (seq 0 c) S) in *.
    destruct (@setSym_spec q S' c c (at2 S' c c + f_1e_10) HS') as [HS2 Hat2]; [lia | lia |].
    split; auto.
    intros a b Ha Hb. rewrite Hat2 by auto. rewrite !Hat by lia.
    nat_bool.
Qed.

Lemma addJitter_spec (q : nat) (S : list (list F)) :
  square q S ->
  forall a b, a < q -> b < q ->
    at2 (addJitter S q) a b = if Nat.eqb a b then at2 S a a + f_1e_10 else at2 S a b.
Proof.
  intros HS a b Ha Hb.
  destruct (@addJitter_fold q S HS q) as [_ Hat]; [lia|].
  unfold addJitter. rewrite Hat by auto. nat_bool.
Qed.

Lemma at2_table (f : nat -> nat -> F) (r c i j : nat) :
  i < r -> j < c ->
  at2 (map (fun i => map (fun j => f i j) (seq 0 c)) (seq 0 r)) i j = f i j.
Proof.
  intros Hi Hj. unfold at2.
  rewrite nth_indep with (d' := map (fun j => f 0 j) (seq 0 c))
    by (rewrite length_map, length_seq; auto).
  rewrite (map_nth (fun i => map (fun j => f i j) (seq 0 c))), seq_nth by auto.
  simpl Nat.add.
  rewrite nth_indep with (d' := f i 0%nat) by (rewrite length_map, length_seq; auto).
  rewrite (map_nth (fun j => f i j)), seq_nth by auto.
  reflexivity.
Qed.

End SymmetricFill.

Lemma ridgeSolve_not_pd (F : Type) (Hf : Float64 F) (L : Lapack F)
  (r : Ridge) (X : list (list F)) (y : list F) (c : Cholesky) :
  ridgeSolve r X y c <> Error ErrNotPositiveDefinite.
Proof.
  unfold ridgeSolve. destruct (Dims X) as [n p].
  destruct (negb (Nat.eqb (length y) n)); [discriminate|].
  destruct (SolveVecTo c _); discriminate.
Qed.

Lemma ridgeMatrix_entries (F : Type) (Hf : Float64 F) (r : @Ridge F) (X : list (list F)) :
  square (S (snd (Dims X))) (ridgeMatrix r X) /\
  forall i j, i <= snd (Dims X) -> j <= snd (Dims X) ->
    at2 (ridgeMatrix r X) i j
    = if Nat.eqb i j && Nat.ltb 0 i
      then f_add (gramEntry (withIntercept X) (fst (Dims X)) i i) (Ridge_Lambda r)
      else gramEntry (withIntercept X) (fst (Dims X)) (Nat.min i j) (Nat.max i j).
Proof.
  unfold ridgeMatrix. destruct (Dims X) as [n p]; cbn [fst snd].
  destruct (ridgeSym_spec (gram (withIntercept X) n (S p)) (Ridge_Lambda r) (S p))
    as [Hsq Hat].
  split; [exact Hsq|].
  intros i j Hi Hj. rewrite Hat by lia. unfold ridgeEntry, gram.
  rewrite at2_table by lia.
  destruct (Nat.eqb_spec i j) as [->|Hne].
  - rewrite Nat.min_id, Nat.max_id, Nat.eqb_refl. reflexivity.
  - replace (Nat.eqb (Nat.min i j) (Nat.max i j)) with false
      by (symmetry; apply Nat.eqb_neq; lia).
    reflexivity.
Qed.

(** With [Lambda = 0], over the real numbers, Ridge factorizes the very
    normal matrix [XTX] that OLS inverts. *)
Lemma ridgeMatrix_zero_R (r : @Ridge R) (X : list (list R)) :
  Ridge_Lambda r = 0%R ->
  forall i j, i <= snd (Dims X) -> j <= snd (Dims X) ->
    at2 (ridgeMatrix r X) i j
    = gramEntry (withIntercept X) (fst (Dims X)) (Nat.min i j) (Nat.max i j).
Proof.
  intros Hl i j Hi Hj.
  destruct (@ridgeMatrix_entries R Exact r X) as [_ Hat]. rewrite Hat by assumption.
  destruct (Nat.eqb_spec i j) as [->|Hne]; [|reflexivity].
  rewrite Nat.min_id, Nat.max_id, Hl.
  destruct (Nat.ltb 0 j); simpl; [apply Rplus_0_r | reflexivity].
Qed.

(** C4. [Ridge.Fit] hands [Factorize] the matrix [XTX] with [Lambda]
    added to every diagonal entry but the intercept's.  When that
    factorization fails it adds 1e-10 to every diagonal entry and calls
    [Factorize] once more; it returns "matrix is not positive definite"
    exactly when both calls fail.  [Factorize] is called once when the first
    call succeeds and twice otherwise, and the successful factorization is
    the one used to solve. *)
Theorem Ridge_Fit_cholesky (F : Type) (Hf : Float64 F) (L : Lapack F)
  (r : Ridge) (X : list (list F)) (y : list F) :
  let n := fst (Dims X) in
  let p := snd (Dims X) in
  let A := ridgeMatrix r X in
  let A' := addJitter A (S p) in
  (forall i j, i <= p -> j <= p ->
     at2 A i j
     = if Nat.eqb i j && Nat.ltb 0 i
       then f_add (gramEntry (withIntercept X) n i i) (Ridge_Lambda r)
       else gramEntry (withIntercept X) n (Nat.min i j) (Nat.max i j)) /\
  (forall i j, i <= p -> j <= p ->
     at2 A' i j = if Nat.eqb i j then f_add (at2 A i i) f_1e_10 else at2 A i j) /\
  (fst (Ridge_Fit r X y) = Error ErrNotPositiveDefinite
   <-> Factorize A = None /\ Factorize A' = None) /\
  snd (Ridge_Fit r X y) = match Factorize A with Some _ => [A] | None => [A; A'] end /\
  (forall c, Factorize A = Some c -> fst (Ridge_Fit r X y) = ridgeSolve r X y c) /\
  (forall c, Factorize A = None -> Factorize A' = Some c ->
             fst (Ridge_Fit r X y) = ridgeSolve r X y c).
Proof.
  cbv zeta.
  pose proof (@ridgeMatrix_entries F Hf r X) as HA.
  destruct HA as [Hsq HA].
  split; [exact HA|].
  split; [intros i j Hi Hj; apply addJitter_spec; auto; lia|].
  unfold Ridge_Fit.
  destruct (Factorize (ridgeMatrix r X)) as [c|] eqn:E1.
  - cbn [fst snd]. split; [|split; [reflexivity|split]].
    + split; [intros Hpd; exfalso; eapply ridgeSolve_not_pd; eauto | intros [? _]; discriminate].
    + intros c' [= <-]. reflexivity.
    + discriminate.
  - destruct (Factorize (addJitter (ridgeMatrix r X) (S (snd (Dims X))))) as [c|] eqn:E2;
      cbn [fst snd].
    + split; [|split; [reflexivity|split]].
      * split; [intros Hpd; exfalso; eapply ridgeSolve_not_pd; eauto | intros [_ ?]; discriminate].
      * discriminate.
      * intros c' _ [= <-]. reflexivity.
    + split; [|split; [reflexivity|split]].
      * split; auto.
      * discriminate.
      * discriminate.
Qed.

(** ** PLS *)

Section PLSModel.
Context {F : Type} `{Float64 F}.
Local Open Scope f64_scope.

Record PLS : Type := {
  PLS_XWeights : option (list (list F));
  PLS_YWeights : option (list (list F));
  PLS_XLoadings : option (list (list F));
  PLS_YLoadings : option (list (list F));
  PLS_XScores : option (list (list F));
  PLS_YScores : option (list (list F));
  PLS_NumComponents : Z;
  PLS_isTrained : bool
}.

Definition NewPLS (numComponents : Z) : PLS := {|
  PLS_XWeights := None;
  PLS_YWeights := None;
  PLS_XLoadings := None;
  PLS_YLoadings := None;
  PLS_XScores := None;
  PLS_YScores := None;
  PLS_NumComponents := numComponents;
  PLS_isTrained := false
|}.

(** A computation together with the denominators of the divisions it
    performed, in order. *)
Definition Logged (A : Type) : Type := A * list F.

Definition ret {A : Type} (a : A) : Logged A := (a, []).

Definition bind {A B : Type} (m : Logged A) (k : A -> Logged B) : Logged B :=
  let '(a, log1) := m in
  let '(b, log2) := k a in
  (b, log1 ++ log2).

Notation "x <- m ;; k" := (bind m (fun x => k))
  (at level 61, m at next level, right associativity).

(** [mat.Dot], [mat.Norm(v, 2)], [MulVec], [ScaleVec], [Outer], [Scale],
    [Mul], [Sub] and [SetCol], with sums in ascending index order. *)
Definition dot (a b : list F) (n : nat) : F :=
  fold_left (fun s i => s + at1 a i * at1 b i) (seq 0 n) f_zero.

Definition norm2 (v : list F) (n : nat) : F := f_sqrt (dot v v n).

Definition mulMatVec (M : list (list F)) (v : list F) (r c : nat) : list F :=
  map (fun i => fold_left (fun s j => s + at2 M i j * at1 v j) (seq 0 c) f_zero) (seq 0 r).

Definition scaleVec (alpha : F) (v : list F) : list F := map (fun x => alpha * x) v.

Definition outer (alpha : F) (x y : list F) (n : nat) : list (list F) :=
  map (fun i => map (fun j => alpha * at1 x i * at1 y j) (seq 0 n)) (seq 0 n).

Definition scaleMat (alpha : F) (M : list (list F)) : list (list F) :=
  map (scaleVec alpha) M.

Definition matMul (A B : list (list F)) (r m c : nat) : list (list F) :=
  map (fun i => map (fun j => fold_left (fun s k => s + at2 A i k * at2 B k j) (seq 0 m) f_zero)
                    (seq 0 c))
      (seq 0 r).

Definition matSub (A B : list (list F)) (r c : nat) : list (list F) :=
  map (fun i => map (fun j => at2 A i j - at2 B i j) (seq 0 c)) (seq 0 r).

Definition setCol (k : nat) (col : list F) (M : list (list F)) : list (list F) :=
  map (fun i => upd k (at1 col i) (nth i M [])) (seq 0 (length M)).

Definition column (M : list (list F)) (k n : nat) : list F :=
  map (fun i => at2 M i k) (seq 0 n).

(** [if norm > 0 { v.ScaleVec(1.0/norm, v) }]: the only division of the fit. *)
Definition scaleByInverse (norm : F) (v : list F) : Logged (list F) :=
  if norm >? f_zero then (scaleVec (f_one / norm) v, [norm]) else (v, []).

(** [if xNorm > 0 { tt.Scale(1.0/xNorm, tt) }] *)
Definition scaleMatByInverse (norm : F) (M : list (list F)) : Logged (list (list F)) :=
  if norm >? f_zero then (scaleMat (f_one / norm) M, [norm]) else (M, []).

(** One inner iteration: [w], [t], [c] and the new [u]. *)
Definition pls_inner_step (XResidual YResidual : list (list F)) (n pDim : nat) (u : list F)
  : Logged (list F * list F * list F * list F) :=
  w <- scaleByInverse (dot u u n) (mulTransVec XResidual u n pDim) ;;
  w <- scaleByInverse (norm2 w pDim) w ;;
  let t := mulMatVec XResidual w n pDim in
  c <- scaleByInverse (dot t t n) (mulTransVec YResidual t n 1) ;;
  u' <- scaleByInverse (dot c c 1) (mulMatVec YResidual c n 1) ;;
  ret (w, t, c, u').

(** [diff = math.Sqrt(sum (u[i] - uOld[i])^2)] *)
Definition pls_diff (u uOld : list F) (n : nat) : F :=
  f_sqrt (fold_left (fun diff i => diff + (at1 u i - at1 uOld i) * (at1 u i - at1 uOld i))
                    (seq 0 n) f_zero).

(** The inner loop: one iteration, then up to [more] further ones unless
    [diff < 1e-6]. *)
Fixpoint pls_inner (more : nat) (XResidual YResidual : list (list F)) (n pDim : nat)
  (u : list F) : Logged (list F * list F * list F * list F) :=
  r <- pls_inner_step XResidual YResidual n pDim u ;;
  let u' := snd r in
  if pls_diff u' u n <? f_1e_6 then ret r
  else match more with
       | O => ret r
       | S more' => pls_inner more' XResidual YResidual n pDim u'
       end.

Record PLSState : Type := {
  st_XResidual : list (list F);
  st_YResidual : list (list F);
  st_XScores : list (list F);
  st_XWeights : list (list F);
  st_YWeights : list (list F);
  st_XLoadings : list (list F);
  st_YLoadings : list (list F)
}.

(** Component [k]: the inner loop, the loadings, the stored columns and
    the deflation. *)
Definition pls_component (n pDim : nat) (st : PLSState) (k : nat) : Logged PLSState :=
  let u := column (st_YResidual st) 0 n in
  r <- pls_inner 99 (st_XResidual st) (st_YResidual st) n pDim u ;;
  let '(w, t, c, _) := r in
  let tNorm := dot t t n in
  pVec <- scaleByInverse tNorm (mulTransVec (st_XResidual st) t n pDim) ;;
  qVec <- scaleByInverse tNorm (mulTransVec (st_YResidual st) t n 1) ;;
  tt <- scaleMatByInverse (dot t t n) (outer f_one t t n) ;;
  ret {| st_XResidual := matSub (st_XResidual st) (matMul tt (st_XResidual st) n n pDim) n pDim;
         st_YResidual := matSub (st_YResidual st) (matMul tt (st_YResidual st) n n 1) n 1;
         st_XScores := setCol k t (st_XScores st);
         st_XWeights := setCol k w (st_XWeights st);
         st_YWeights := setCol k c (st_YWeights st);
         st_XLoadings := setCol k pVec (st_XLoadings st);
         st_YLoadings := setCol k qVec (st_YLoadings st) |}.

Fixpoint pls_components (n pDim : nat) (ks : list nat) (st : PLSState) : Logged PLSState :=
  match ks with
  | [] => ret st
  | k :: ks' => st' <- pls_component n pDim st k ;; pls_components n pDim ks' st'
  end.

Definition zeroMat (r c : nat) : list (list F) := repeat (repeat f_zero c) r.

(** [PLS.Fit] with the denominators it divided by.  [mat.NewDense]
    panics on a dimension that is not positive: on a matrix without rows
    or columns, and on [NumComponents <= 0]; [y.At(i, 0)] panics when [y]
    is shorter than [X]. *)
Definition PLS_Fit (p : PLS) (X : list (list F)) (y : list F) : result PLS * list F :=
  let '(n, pDim) := Dims X in
  if Nat.eqb n 0 || Nat.eqb pDim 0 then (Panic, [])
  else if Nat.ltb (length y) n then (Panic, [])
  else if (PLS_NumComponents p <=? 0)%Z then (Panic, [])
  else
    let K := Z.to_nat (PLS_NumComponents p) in
    let st0 := {| st_XResidual := map (fun i => map (fun j => at2 X i j) (seq 0 pDim)) (seq 0 n);
                  st_YResidual := map (fun i => [at1 y i]) (seq 0 n);
                  st_XScores := zeroMat n K;
                  st_XWeights := zeroMat pDim K;
                  st_YWeights := zeroMat 1 K;
                  st_XLoadings := zeroMat pDim K;
                  st_YLoadings := zeroMat 1 K |} in
    let '(st, log) := pls_components n pDim (seq 0 K) st0 in
    (Ok {| PLS_XWeights := Some (st_XWeights st);
           PLS_YWeights := Some (st_YWeights st);
           PLS_XLoadings := Some (st_XLoadings st);
           PLS_YLoadings := Some (st_YLoadings st);
           PLS_XScores := Some (st_XScores st);
           PLS_YScores := Some (zeroMat n K);
           PLS_NumComponents := PLS_NumComponents p;
           PLS_isTrained := true |}, log).

(** [xScores.Mul(X, p.XWeights)], [yHat.Mul(xScores, p.YLoadings.T())];
    [mat.NewDense(n, p.NumComponents, nil)] panics on [NumComponents <= 0],
    and a nil matrix or mismatched dimensions panic. *)
Definition PLS_Predict (p : PLS) (X : list (list F)) : result (list F) :=
  let '(n, pDim) := Dims X in
  let K := Z.to_nat (PLS_NumComponents p) in
  if (PLS_NumComponents p <=? 0)%Z then Panic
  else
    match PLS_XWeights p, PLS_YLoadings p with
    | Some W, Some Q =>
        if Nat.eqb (fst (Dims W)) pDim && Nat.eqb (snd (Dims W)) K
           && Nat.eqb (fst (Dims Q)) 1 && Nat.eqb (snd (Dims Q)) K
        then
          let xScores := matMul X W n pDim K in
          Ok (map (fun i => fold_left (fun s k => s + at2 xScores i k * at2 Q 0 k) (seq 0 K) f_zero)
                  (seq 0 n))
        else Panic
    | _, _ => Panic
    end.

End PLSModel.

(** *** Every denominator of the fit is positive *)

Section PLSGuards.
Context {F : Type} `{Float64 F}.
Local Open Scope f64_scope.

Definition positive_log {A : Type} (m : Logged A) : Prop :=
  Forall (fun d : F => (d >? f_zero) = true) (snd m).

Lemma positive_ret {A : Type} (a : A) : positive_log (ret a).
Proof. constructor. Qed.

Lemma positive_bind {A B : Type} (m : Logged A) (k : A -> Logged B) :
  positive_log m -> (forall a, positive_log (k a)) -> positive_log (bind m k).
Proof.
  unfold positive_log, bind. destruct m as [a log1]. intros H1 H2.
  specialize (H2 a). destruct (k a) as [b log2]. simpl in *.
  apply Forall_app; auto.
Qed.

Lemma positive_scaleByInverse (norm : F) (v : list F) : positive_log (scaleByInverse norm v).
Proof.
  unfold positive_log, scaleByInverse.
  destruct (norm >? f_zero) eqn:E; simpl; auto.
Qed.

Lemma positive_scaleMatByInverse (norm : F) (M : list (list F)) :
  positive_log (scaleMatByInverse norm M).
Proof.
  unfold positive_log, scaleMatByInverse.
  destruct (norm >? f_zero) eqn:E; simpl; auto.
Qed.

Lemma positive_inner_step XResidual YResidual n pDim (u : list F) :
  positive_log (pls_inner_step XResidual YResidual n pDim u).
Proof.
  unfold pls_inner_step.
  repeat (apply positive_bind; [apply positive_scaleByInverse | intros ?]).
  apply positive_ret.
Qed.

Lemma positive_inner more XResidual YResidual n pDim :
  forall u : list F, positive_log (pls_inner more XResidual YResidual n pDim u).
Proof.
  induction more as [|more IH]; intros u; simpl;
    (apply positive_bind; [apply positive_inner_step | intros r]);
    destruct (pls_diff (snd r) u n <? f_1e_6); auto using positive_ret.
Qed.

Lemma positive_component n pDim (st : PLSState) k :
  positive_log (pls_component n pDim st k).
Proof.
  unfold pls_component.
  apply positive_bind; [apply positive_inner | intros [[[w t] c] u']].
  repeat (apply positive_bind; [apply positive_scaleByInverse | intros ?]).
  apply positive_bind; [apply positive_scaleMatByInverse | intros ?].
  apply positive_ret.
Qed.

Lemma positive_components n pDim ks :
  forall st : PLSState, positive_log (pls_components n pDim ks st).
Proof.
  induction ks as [|k ks IH]; intros st; simpl.
  - apply positive_ret.
  - apply positive_bind; [apply positive_component | auto].
Qed.

Lemma PLS_Fit_log (p : PLS) (X : list (list F)) (y : list F) :
  Forall (fun d : F => (d >? f_zero) = true) (snd (PLS_Fit p X y)).
Proof.
  unfold PLS_Fit. destruct (Dims X) as [n pDim].
  destruct (Nat.eqb n 0 || Nat.eqb pDim 0); [constructor|].
  destruct (Nat.ltb (length y) n); [constructor|].
  destruct (PLS_NumComponents p <=? 0)%Z; [constructor|].
  match goal with |- context [pls_components ?a ?b ?c ?d] =>
    pose proof (positive_components a b c d) as Hpos;
    destruct (pls_components a b c d) as [st log] end.
  exact Hpos.
Qed.

Lemma PLS_Fit_success (p : PLS) (X : list (list F)) (y : list F) :
  0 < fst (Dims X) -> 0 < snd (Dims X) -> (0 < PLS_NumComponents p)%Z ->
  length y = fst (Dims X) ->
  exists m, fst (PLS_Fit p X y) = Ok m /\
            PLS_isTrained m = true /\ PLS_NumComponents m = PLS_NumComponents p /\
            PLS_XWeights m <> None /\ PLS_YLoadings m <> None.
Proof.
  unfold PLS_Fit. destruct (Dims X) as [n pDim]; cbn [fst snd]. intros Hn Hp HK ->.
  replace (Nat.eqb n 0) with false by (symmetry; apply Nat.eqb_neq; lia).
  replace (Nat.eqb pDim 0) with false by (symmetry; apply Nat.eqb_neq; lia).
  cbn [orb]. rewrite Nat.ltb_irrefl.
  replace (PLS_NumComponents p <=? 0)%Z with false by (symmetry; apply Z.leb_gt; lia).
  match goal with |- context [pls_components ?a ?b ?c ?d] =>
    destruct (pls_components a b c d) as [st log] end.
  eexists; cbn [fst]; split; [reflexivity|]. cbn.
  repeat split; discriminate.
Qed.

End PLSGuards.

(** C9. Every division of [PLS.Fit] -- the scalings by [1/(u'u)], [1/|w|],
    [1/(t't)], [1/(c'c)] and by the deflation norm -- sits under a guard
    [norm > 0]: every denominator the fit divides by is positive, hence not
    zero; a norm that is not positive, zero in particular, leaves the vector
    or the matrix as it is; and the fit of a matrix with at least one row
    and one column, with one target per row and at least one component,
    returns success. *)
Theorem PLS_Fit_guarded (F : Type) (Hf : Float64 F) (laws : OrderLaws)
  (p : PLS) (X : list (list F)) (y : list F) :
  0 < fst (Dims X) -> 0 < snd (Dims X) -> (0 < PLS_NumComponents p)%Z ->
  length y = fst (Dims X) ->
  (exists m, fst (PLS_Fit p X y) = Ok m /\ PLS_isTrained m = true) /\
  Forall (fun d => f_ltb f_zero d = true /\ f_eqb d f_zero = false) (snd (PLS_Fit p X y)) /\
  (forall norm v, f_ltb f_zero norm = false -> scaleByInverse norm v = (v, [])) /\
  (forall norm M, f_ltb f_zero norm = false -> scaleMatByInverse norm M = (M, [])) /\
  (forall v, scaleByInverse f_zero v = (v, [])) /\
  (forall M, scaleMatByInverse f_zero M = (M, [])).
Proof.
  intros Hn Hp HK Hy.
  split; [|split; [|split; [|split; [|split]]]].
  - destruct (PLS_Fit_success p X y Hn Hp HK Hy) as (m & Hm & Ht & _). eauto.
  - pose proof (PLS_Fit_log p X y) as Hlog.
    eapply Forall_impl; [|exact Hlog]. cbv beta.
    intros d Hd. split; [exact Hd | apply ltb_not_eqb; exact Hd].
  - intros norm v E. unfold scaleByInverse. rewrite E. reflexivity.
  - intros norm M E. unfold scaleMatByInverse. rewrite E. reflexivity.
  - intros v. unfold scaleByInverse. rewrite ltb_irrefl. reflexivity.
  - intros M. unfold scaleMatByInverse. rewrite ltb_irrefl. reflexivity.
Qed.

(** Two components on data of rank one: the first component divides by
    the norms 5 and 1; it leaves a residual of zeros, so every norm of the
    second component is zero and nothing more is divided. *)
Lemma PLS_Fit_guarded_witness :
  snd (PLS_Fit (NewPLS 2) [[1]; [2]]%float [1; 2]%float) = [5; 1; 5; 1; 5; 5; 5]%float /\
  (exists m, fst (PLS_Fit (NewPLS 2) [[1]; [2]]%float [1; 2]%float) = Ok m /\
             PLS_isTrained m = true) /\
  Forall (fun d => PrimFloat.ltb 0 d = true /\ PrimFloat.eqb d 0 = false)
         (snd (PLS_Fit (NewPLS 2) [[1]; [2]]%float [1; 2]%float)) /\
  (forall norm v, PrimFloat.ltb 0 norm = false -> scaleByInverse norm v = (v, [])) /\
  (forall norm M, PrimFloat.ltb 0 norm = false -> scaleMatByInverse norm M = (M, [])) /\
  (forall v : list float, scaleByInverse 0%float v = (v, [])) /\
  (forall M : list (list float), scaleMatByInverse 0%float M = (M, [])).
Proof.
  split; [vm_compute; reflexivity|].
  apply (@PLS_Fit_guarded float IEEE IEEE_laws (NewPLS 2) [[1]; [2]]%float [1; 2]%float).
  - simpl; lia.
  - simpl; lia.
  - simpl; lia.
  - reflexivity.
Defined.

(** C9 as stated fails for the number of components: [NewPLS] stores any
    [int], and with a number that is not positive [Fit] panics in
    [mat.NewDense] on a matrix that has one target per row. *)
Lemma PLS_Fit_without_components :
  fst (PLS_Fit (NewPLS (-1)) [[1]; [2]]%float [1; 2]%float) = Panic /\
  ~ (forall (p : @PLS float) (X : list (list float)) (y : list float),
       0 < fst (Dims X) -> 0 < snd (Dims X) -> length y = fst (Dims X) ->
       exists m, fst (PLS_Fit p X y) = Ok m).
Proof.
  assert (Hpanic : fst (PLS_Fit (NewPLS (-1)) [[1]; [2]]%float [1; 2]%float) = Panic)
    by reflexivity.
  split; [exact Hpanic|].
  intros Hclaim.
  destruct (Hclaim (NewPLS (-1)) [[1]; [2]]%float [1; 2]%float) as [m Hm];
    [simpl; lia | simpl; lia | reflexivity |].
  rewrite Hpanic in Hm. discriminate.
Qed.

(** ** The nonlinear adapters: [Predict] *)

Section Nonlinear.
Context {F : Type} `{Float64 F} `{MathLib F}.
Local Open Scope f64_scope.

Record Polynomial : Type := {
  Polynomial_Coefficients : option (list F);
  Polynomial_Degree : Z;
  Polynomial_isTrained : bool
}.

Definition NewPolynomial (degree : Z) : Polynomial := {|
  Polynomial_Coefficients := None;
  Polynomial_Degree := degree;
  Polynomial_isTrained := false
|}.

Record Exponential : Type := {
  Exponential_A : F;
  Exponential_B : F;
  Exponential_isTrained : bool
}.

Definition NewExponential : Exponential := {|
  Exponential_A := f_zero;
  Exponential_B := f_zero;
  Exponential_isTrained := false
|}.

Record Logarithmic : Type := {
  Logarithmic_A : F;
  Logarithmic_B : F;
  Logarithmic_isTrained : bool
}.

Definition NewLogarithmic : Logarithmic := {|
  Logarithmic_A := f_zero;
  Logarithmic_B := f_zero;
  Logarithmic_isTrained := false
|}.

Record Power : Type := {
  Power_A : F;
  Power_B : F;
  Power_isTrained : bool
}.

Definition NewPower : Power := {|
  Power_A := f_zero;
  Power_B := f_zero;
  Power_isTrained := false
|}.

(** [for j := 0; j <= p.Degree; j++ { y += p.Coefficients.At(j, 0) * math.Pow(x, float64(j)) }] *)
Definition Polynomial_Predict (p : Polynomial) (X : list (list F)) : result (list F) :=
  let '(n, cols) := Dims X in
  if negb (Nat.eqb cols 1) then Panic
  else
    let terms := Z.to_nat (Polynomial_Degree p + 1) in
    if Nat.ltb 0 n && Nat.ltb (vecLen (Polynomial_Coefficients p)) terms then Panic
    else Ok (map (fun i =>
                    let x := at2 X i 0 in
                    fold_left (fun y j => y + at1 (vecData (Polynomial_Coefficients p)) j
                                              * math_Pow x (f_of_int (Z.of_nat j)))
                              (seq 0 terms) f_zero)
                 (seq 0 n)).

Definition Exponential_Predict (e : Exponential) (X : list (list F)) : result (list F) :=
  let '(n, cols) := Dims X in
  if negb (Nat.eqb cols 1) then Panic
  else Ok (map (fun i => Exponential_A e * math_Exp (Exponential_B e * at2 X i 0)) (seq 0 n)).

(** [if x <= 0 { panic(...) }] *)
Definition Logarithmic_Predict (l : Logarithmic) (X : list (list F)) : result (list F) :=
  let '(n, cols) := Dims X in
  if negb (Nat.eqb cols 1) then Panic
  else if existsb (fun i => at2 X i 0 <=? f_zero) (seq 0 n) then Panic
  else Ok (map (fun i => Logarithmic_A l * math_Log (at2 X i 0) + Logarithmic_B l) (seq 0 n)).

Definition Power_Predict (p : Power) (X : list (list F)) : result (list F) :=
  let '(n, cols) := Dims X in
  if negb (Nat.eqb cols 1) then Panic
  else if existsb (fun i => at2 X i 0 <=? f_zero) (seq 0 n) then Panic
  else Ok (map (fun i => Power_A p * math_Pow (at2 X i 0) (Power_B p)) (seq 0 n)).

(** ** The model interface and its parameters *)

(** The values [GetParameters] stores in its [map[string]interface{}]. *)
Inductive ParamValue : Type :=
| PFloat (x : F)                    (* float64 *)
| PInt (z : Z)                      (* int *)
| PFloats (v : list F)              (* []float64 *)
| PMatrix (m : list (list F)).      (* [][]float64 *)

(** The map, newest assignment first. *)
Definition Params : Type := list (string * ParamValue).

Definition setParam (key : string) (v : ParamValue) (params : Params) : Params :=
  (key, v) :: params.

Fixpoint getParam (key : string) (params : Params) : option ParamValue :=
  match params with
  | [] => None
  | (k, v) :: rest => if String.eqb k key then Some v else getParam key rest
  end.

(** [if o.Coefficients != nil { params["coefficients"] = coeffs }] *)
Definition setCoefficients (coefs : option (list F)) (params : Params) : Params :=
  match coefs with
  | Some c => setParam "coefficients" (PFloats c) params
  | None => params
  end.

Definition OLS_GetParameters (o : @OLS F) : Params :=
  setCoefficients (OLS_Coefficients o)
    (setParam "intercept" (PFloat (OLS_Intercept o)) []).

Definition Ridge_GetParameters (r : @Ridge F) : Params :=
  setCoefficients (Ridge_Coefficients r)
    (setParam "intercept" (PFloat (Ridge_Intercept r))
       (setParam "lambda" (PFloat (Ridge_Lambda r)) [])).

Definition Lasso_GetParameters (l : @Lasso F) : Params :=
  setCoefficients (Lasso_Coefficients l)
    (setParam "intercept" (PFloat (Lasso_Intercept l))
       (setParam "lambda" (PFloat (Lasso_Lambda l)) [])).

Definition Logistic_GetParameters (l : @Logistic F) : Params :=
  setCoefficients (Logistic_Coefficients l)
    (setParam "learning_rate" (PFloat (Logistic_LearningRate l))
       (setParam "tol" (PFloat (Logistic_Tol l))
          (setParam "max_iter" (PInt (Logistic_MaxIter l))
             (setParam "intercept" (PFloat (Logistic_Intercept l)) [])))).

(** [denseToSlice2D] copies the matrix entry by entry. *)
Definition denseToSlice2D (m : list (list F)) : list (list F) :=
  let '(rows, cols) := Dims m in
  map (fun i => map (fun j => at2 m i j) (seq 0 cols)) (seq 0 rows).

Definition setMatrix (key : string) (m : option (list (list F))) (params : Params) : Params :=
  match m with
  | Some d => setParam key (PMatrix (denseToSlice2D d)) params
  | None => params
  end.

Definition PLS_GetParameters (p : @PLS F) : Params :=
  setMatrix "y_loadings" (PLS_YLoadings p)
    (setMatrix "x_weights" (PLS_XWeights p)
       (setParam "num_components" (PInt (PLS_NumComponents p)) [])).

Definition Polynomial_GetParameters (p : Polynomial) : Params :=
  setCoefficients (Polynomial_Coefficients p)
    (setParam "degree" (PInt (Polynomial_Degree p)) []).

Definition Exponential_GetParameters (e : Exponential) : Params :=
  setParam "b" (PFloat (Exponential_B e)) (setParam "a" (PFloat (Exponential_A e)) []).

Definition Logarithmic_GetParameters (l : Logarithmic) : Params :=
  setParam "b" (PFloat (Logarithmic_B l)) (setParam "a" (PFloat (Logarithmic_A l)) []).

Definition Power_GetParameters (p : Power) : Params :=
  setParam "b" (PFloat (Power_B p)) (setParam "a" (PFloat (Power_A p)) []).

(** The nine variants behind the [Model] interface. *)
Inductive Model : Type :=
| ModelOLS (o : @OLS F)
| ModelRidge (r : @Ridge F)
| ModelLasso (l : @Lasso F)
| ModelLogistic (l : @Logistic F)
| ModelPLS (p : @PLS F)
| ModelPolynomial (p : Polynomial)
| ModelExponential (e : Exponential)
| ModelLogarithmic (l : Logarithmic)
| ModelPower (p : Power).

Definition GetModelType (m : Model) : string :=
  match m with
  | ModelOLS _ => "OLS"
  | ModelRidge _ => "Ridge"
  | ModelLasso _ => "Lasso"
  | ModelLogistic _ => "Logistic"
  | ModelPLS _ => "PLS"
  | ModelPolynomial _ => "Polynomial"
  | ModelExponential _ => "Exponential"
  | ModelLogarithmic _ => "Logarithmic"
  | ModelPower _ => "Power"
  end.

Definition Predict (m : Model) (X : list (list F)) : result (list F) :=
  match m with
  | ModelOLS o => OLS_Predict o X
  | ModelRidge r => Ridge_Predict r X
  | ModelLasso l => Lasso_Predict l X
  | ModelLogistic l => Logistic_Predict l X
  | ModelPLS p => PLS_Predict p X
  | ModelPolynomial p => Polynomial_Predict p X
  | ModelExponential e => Exponential_Predict e X
  | ModelLogarithmic l => Logarithmic_Predict l X
  | ModelPower p => Power_Predict p X
  end.

Definition GetParameters (m : Model) : Params :=
  match m with
  | ModelOLS o => OLS_GetParameters o
  | ModelRidge r => Ridge_GetParameters r
  | ModelLasso l => Lasso_GetParameters l
  | ModelLogistic l => Logistic_GetParameters l
  | ModelPLS p => PLS_GetParameters p
  | ModelPolynomial p => Polynomial_GetParameters p
  | ModelExponential e => Exponential_GetParameters e
  | ModelLogarithmic l => Logarithmic_GetParameters l
  | ModelPower p => Power_GetParameters p
  end.

(** What a successful [Fit] leaves behind: the flag set and the learned
    vectors or matrices allocated, the matrices of PLS with the shape
    [Fit] gives them. *)
Definition rectangular (m : list (list F)) : Prop :=
  Forall (fun row => length row = snd (Dims m)) m.

Definition Trained (m : Model) : Prop :=
  match m with
  | ModelOLS o => OLS_isTrained o = true /\ OLS_Coefficients o <> None
  | ModelRidge r => Ridge_isTrained r = true /\ Ridge_Coefficients r <> None
  | ModelLasso l => Lasso_isTrained l = true /\ Lasso_Coefficients l <> None
  | ModelLogistic l => Logistic_isTrained l = true /\ Logistic_Coefficients l <> None
  | ModelPLS p =>
      PLS_isTrained p = true /\
      (exists W, PLS_XWeights p = Some W /\ rectangular W) /\
      (exists Q, PLS_YLoadings p = Some Q /\ rectangular Q)
  | ModelPolynomial p => Polynomial_isTrained p = true /\ Polynomial_Coefficients p <> None
  | ModelExponential e => Exponential_isTrained e = true
  | ModelLogarithmic l => Logarithmic_isTrained l = true
  | ModelPower p => Power_isTrained p = true
  end.

(** *** [SetParameters] *)

Definition getFloat (key : string) (params : Params) : option F :=
  match getParam key params with Some (PFloat x) => Some x | _ => None end.

Definition getInt (key : string) (params : Params) : option Z :=
  match getParam key params with Some (PInt z) => Some z | _ => None end.

Definition getFloats (key : string) (params : Params) : option (list F) :=
  match getParam key params with Some (PFloats v) => Some v | _ => None end.

Definition getMatrix (key : string) (params : Params) : option (list (list F)) :=
  match getParam key params with Some (PMatrix m) => Some m | _ => None end.

(** Modelled from the spec: [SetParameters], which the interface
    [ModelSerializer] declares and [LoadModel] calls but none of the nine
    variants implements.  The specification asks for "a matching
    SetParameters for reload" of what [GetParameters] returns: every key
    [GetParameters] writes is read back, with the type it was written with,
    into the field it was taken from; the fields [GetParameters] does not
    export keep the value of the receiving instance; a missing key or a
    value of another type is an error ([None]). *)
Definition SetParameters (params : Params) (target : Model) : option Model :=
  match target with
  | ModelOLS _ =>
      match getFloat "intercept" params, getFloats "coefficients" params with
      | Some b, Some c =>
          Some (ModelOLS {| OLS_Coefficients := Some c; OLS_Intercept := b;
                            OLS_isTrained := true |})
      | _, _ => None
      end
  | ModelRidge _ =>
      match getFloat "lambda" params, getFloat "intercept" params,
            getFloats "coefficients" params with
      | Some lambda, Some b, Some c =>
          Some (ModelRidge {| Ridge_Coefficients := Some c; Ridge_Intercept := b;
                              Ridge_Lambda := lambda; Ridge_isTrained := true |})
      | _, _, _ => None
      end
  | ModelLasso l0 =>
      match getFloat "lambda" params, getFloat "intercept" params,
            getFloats "coefficients" params with
      | Some lambda, Some b, Some c =>
          Some (ModelLasso {| Lasso_Coefficients := Some c; Lasso_Intercept := b;
                              Lasso_Lambda := lambda; Lasso_MaxIter := Lasso_MaxIter l0;
                              Lasso_Tol := Lasso_Tol l0; Lasso_isTrained := true |})
      | _, _, _ => None
      end
  | ModelLogistic _ =>
      match getFloat "intercept" params, getInt "max_iter" params, getFloat "tol" params,
            getFloat "learning_rate" params, getFloats "coefficients" params with
      | Some b, Some maxIter, Some tol, Some lr, Some c =>
          Some (ModelLogistic {| Logistic_Coefficients := Some c; Logistic_Intercept := b;
                                 Logistic_MaxIter := maxIter; Logistic_Tol := tol;
                                 Logistic_LearningRate := lr; Logistic_isTrained := true |})
      | _, _, _, _, _ => None
      end
  | ModelPLS p0 =>
      match getInt "num_components" params, getMatrix "x_weights" params,
            getMatrix "y_loadings" params with
      | Some k, Some W, Some Q =>
          Some (ModelPLS {| PLS_XWeights := Some W; PLS_YWeights := PLS_YWeights p0;
                            PLS_XLoadings := PLS_XLoadings p0; PLS_YLoadings := Some Q;
                            PLS_XScores := PLS_XScores p0; PLS_YScores := PLS_YScores p0;
                            PLS_NumComponents := k; PLS_isTrained := true |})
      | _, _, _ => None
      end
  | ModelPolynomial _ =>
      match getInt "degree" params, getFloats "coefficients" params with
      | Some d, Some c =>
          Some (ModelPolynomial {| Polynomial_Coefficients := Some c; Polynomial_Degree := d;
                                   Polynomial_isTrained := true |})
      | _, _ => None
      end
  | ModelExponential _ =>
      match getFloat "a" params, getFloat "b" params with
      | Some a, Some b =>
          Some (ModelExponential {| Exponential_A := a; Exponential_B := b;
                                    Exponential_isTrained := true |})
      | _, _ => None
      end
  | ModelLogarithmic _ =>
      match getFloat "a" params, getFloat "b" params with
      | Some a, Some b =>
          Some (ModelLogarithmic {| Logarithmic_A := a; Logarithmic_B := b;
                                    Logarithmic_isTrained := true |})
      | _, _ => None
      end
  | ModelPower _ =>
      match getFloat "a" params, getFloat "b" params with
      | Some a, Some b =>
          Some (ModelPower {| Power_A := a; Power_B := b; Power_isTrained := true |})
      | _, _ => None
      end
  end.

End Nonlinear.

(** ** The parameter round trip *)

Lemma map_nth_seq_id {A : Type} (l : list A) (d : A) :
  map (fun i => nth i l d) (seq 0 (length l)) = l.
Proof.
  induction l as [|a l IH]; [reflexivity|].
  simpl. f_equal. rewrite <- seq_shift, map_map. exact IH.
Qed.

Section RoundTrip.
Context {F : Type} `{Float64 F} `{MathLib F}.

Lemma denseToSlice2D_id (m : list (list F)) : rectangular m -> denseToSlice2D m = m.
Proof.
  unfold rectangular, denseToSlice2D. destruct (Dims m) as [rows cols] eqn:HD.
  inversion HD; subst rows cols. cbn [snd]. intros Hrect.
  transitivity (map (fun i => nth i m []) (seq 0 (length m))); [|apply map_nth_seq_id].
  apply map_ext_in. intros i Hi. apply in_seq in Hi.
  rewrite Forall_forall in Hrect.
  rewrite <- (Hrect (nth i m [])) by (apply nth_In; lia).
  unfold at2. apply map_nth_seq_id.
Qed.

Lemma setCol_rectangular (k : nat) (col : list F) (M : list (list F)) :
  rectangular M -> rectangular (setCol k col M).
Proof.
  unfold rectangular, setCol, Dims; cbn [snd]. intros Hrect.
  rewrite Forall_forall in *. intros row Hin.
  apply in_map_iff in Hin. destruct Hin as (i & <- & Hi). apply in_seq in Hi.
  rewrite upd_length.
  destruct M as [|r0 M']; [simpl in Hi; lia|].
  rewrite (Hrect (nth i (r0 :: M') [])) by (apply nth_In; simpl in *; lia).
  cbn [length seq map hd]. rewrite upd_length. reflexivity.
Qed.

Lemma zeroMat_rectangular (r c : nat) : rectangular (zeroMat (F := F) r c).
Proof.
  unfold rectangular, zeroMat, Dims; cbn [snd].
  destruct r as [|r]; [constructor|].
  apply Forall_forall. intros row Hin. apply repeat_spec in Hin. subst row.
  reflexivity.
Qed.

Definition stored_rectangular (st : @PLSState F) : Prop :=
  rectangular (st_XWeights st) /\ rectangular (st_YLoadings st).

Lemma fst_bind {A B : Type} (m : Logged (F := F) A) (k : A -> Logged B) :
  fst (bind m k) = fst (k (fst m)).
Proof. unfold bind. destruct m as [a log1]. cbn [fst]. destruct (k a); reflexivity. Qed.

Lemma pls_component_rectangular n pDim (st : @PLSState F) k :
  stored_rectangular st -> stored_rectangular (fst (pls_component n pDim st k)).
Proof.
  intros [HW HQ]. unfold pls_component.
  rewrite fst_bind.
  destruct (fst (pls_inner 99 (st_XResidual st) (st_YResidual st) n pDim
                           (column (st_YResidual st) 0 n))) as [[[w t] c] u'].
  repeat rewrite fst_bind. cbn [ret fst].
  split; cbn; apply setCol_rectangular; assumption.
Qed.

Lemma pls_components_rectangular n pDim ks :
  forall st : @PLSState F,
    stored_rectangular st -> stored_rectangular (fst (pls_components n pDim ks st)).
Proof.
  induction ks as [|k ks IH]; intros st Hst; simpl; [exact Hst|].
  rewrite fst_bind. apply IH. apply pls_component_rectangular. exact Hst.
Qed.

(** The fits modelled above establish [Trained]. *)
Lemma Lasso_Fit_Trained (l : @Lasso F) X y m :
  Lasso_Fit l X y = Ok m -> Trained (ModelLasso m).
Proof.
  unfold Lasso_Fit. destruct (Dims X) as [n p].
  destruct (_ && _); [discriminate|]. intros [= <-]. split; [reflexivity | discriminate].
Qed.

Lemma Logistic_Fit_Trained (l : @Logistic F) X y m :
  Logistic_Fit l X y = Ok m -> Trained (ModelLogistic m).
Proof.
  unfold Logistic_Fit. destruct (Dims X) as [n p].
  destruct (_ && _); [discriminate|]. intros [= <-]. split; [reflexivity | discriminate].
Qed.

Lemma Ridge_Fit_Trained `{Lapack F} (r : @Ridge F) X y m :
  fst (Ridge_Fit r X y) = Ok m -> Trained (ModelRidge m).
Proof.
  assert (Hs : forall c, ridgeSolve r X y c = Ok m -> Trained (ModelRidge m)).
  { intros c. unfold ridgeSolve. destruct (Dims X) as [n p].
    destruct (negb _); [discriminate|].
    destruct (SolveVecTo c _); [|discriminate].
    intros [= <-]. split; [reflexivity | discriminate]. }
  unfold Ridge_Fit. destruct (Factorize (ridgeMatrix r X)); cbn [fst]; eauto.
  destruct (Factorize _); cbn [fst]; eauto. discriminate.
Qed.

Lemma OLS_Fit_Trained `{Lapack F} (o : @OLS F) X y m :
  OLS_Fit o X y = Ok m -> Trained (ModelOLS m).
Proof.
  unfold OLS_Fit. destruct (Dims X) as [n p].
  destruct (_ || _); [discriminate|]. destruct (negb _); [discriminate|].
  destruct (Inverse _); [|discriminate].
  intros [= <-]. split; [reflexivity | discriminate].
Qed.

Lemma PLS_Fit_Trained (p : @PLS F) X y m :
  fst (PLS_Fit p X y) = Ok m -> Trained (ModelPLS m).
Proof.
  unfold PLS_Fit. destruct (Dims X) as [n pDim].
  destruct (Nat.eqb n 0 || Nat.eqb pDim 0); [discriminate|].
  destruct (Nat.ltb (length y) n); [discriminate|].
  destruct (PLS_NumComponents p <=? 0)%Z; [discriminate|].
  match goal with |- context [pls_components ?a ?b ?c ?d] =>
    assert (Hrect : stored_rectangular (fst (pls_components a b c d)))
      by (apply pls_components_rectangular; split; apply zeroMat_rectangular);
    destruct (pls_components a b c d) as [st log] end.
  cbn [fst] in *. intros [= <-]. destruct Hrect as [HW HQ].
  split; [reflexivity|]. split; eexists; split; cbn; eauto.
Qed.

End RoundTrip.

(** C8. For a trained model of any of the nine variants, [SetParameters]
    applied to the output of [GetParameters] on an instance of the same
    variant succeeds and yields a model whose [Predict] returns, on every
    input, what the original model's [Predict] returns. *)
Theorem SetParameters_GetParameters (F : Type) (Hf : Float64 F) (M : MathLib F)
  (m target : Model) :
  Trained m -> GetModelType target = GetModelType m ->
  exists m',
    SetParameters (GetParameters m) target = Some m' /\
    GetModelType m' = GetModelType m /\
    forall X, Predict m' X = Predict m X.
Proof.
  intros Htrained Htype.
  destruct m as [o|r|l|l|p|p|e|l|p]; destruct target as [o0|r0|l0|l0|p0|p0|e0|l0|p0];
    try discriminate Htype; clear Htype; cbn [Trained] in Htrained.
  - destruct o as [[c|] b t]; cbn in Htrained; [|destruct Htrained as [_ Hc]; congruence].
    eexists; split; [reflexivity|]. split; reflexivity.
  - destruct r as [[c|] b lam t]; cbn in Htrained; [|destruct Htrained as [_ Hc]; congruence].
    eexists; split; [reflexivity|]. split; reflexivity.
  - destruct l as [[c|] b lam mi tol t]; cbn in Htrained;
      [|destruct Htrained as [_ Hc]; congruence].
    eexists; split; [reflexivity|]. split; reflexivity.
  - destruct l as [[c|] b mi tol lr t]; cbn in Htrained;
      [|destruct Htrained as [_ Hc]; congruence].
    eexists; split; [reflexivity|]. split; reflexivity.
  - destruct Htrained as (_ & (W & HW & HWr) & (Q & HQ & HQr)).
    destruct p as [xw yw xl yl xs ys k t]; cbn in HW, HQ; subst xw yl.
    unfold GetParameters, PLS_GetParameters, setMatrix.
    cbn [PLS_XWeights PLS_YLoadings PLS_NumComponents].
    rewrite !denseToSlice2D_id by assumption.
    eexists; split; [reflexivity|]. split; reflexivity.
  - destruct p as [[c|] d t]; cbn in Htrained; [|destruct Htrained as [_ Hc]; congruence].
    eexists; split; [reflexivity|]. split; reflexivity.
  - destruct e as [a b t]. eexists; split; [reflexivity|]. split; reflexivity.
  - destruct l as [a b t]. eexists; split; [reflexivity|]. split; reflexivity.
  - destruct p as [a b t]. eexists; split; [reflexivity|]. split; reflexivity.
Qed.

(** A trained Ridge model reloaded into a fresh instance. *)
Lemma SetParameters_GetParameters_witness :
  exists m',
    SetParameters
      (GetParameters (ModelRidge {| Ridge_Coefficients := Some [2%R]; Ridge_Intercept := 1%R;
                                    Ridge_Lambda := 3%R; Ridge_isTrained := true |}))
      (ModelRidge (NewRidge 0%R)) = Some m' /\
    GetModelType m'
    = GetModelType (ModelRidge {| Ridge_Coefficients := Some [2%R]; Ridge_Intercept := 1%R;
                                  Ridge_Lambda := 3%R; Ridge_isTrained := true |}) /\
    forall X,
      Predict m' X
      = Predict (ModelRidge {| Ridge_Coefficients := Some [2%R]; Ridge_Intercept := 1%R;
                               Ridge_Lambda := 3%R; Ridge_isTrained := true |}) X.
Proof.
  apply (@SetParameters_GetParameters R Exact ExactMath).
  - split; [reflexivity | discriminate].
  - reflexivity.
Defined.

(** ** OLS (slices): [Score] *)

Section SliceOLSScore.
Context {F : Type} `{Float64 F}.
Local Open Scope f64_scope.

(** The error of [Predict] is returned; [y[i]] panics when [y] is shorter
    than the predictions. *)
Definition OLSSlices_Score (o : @OLSSlices F) (X : list (list F)) (y : list F) : result F :=
  match OLSSlices_Predict o X with
  | Error e => Error e
  | Panic => Panic
  | Ok predictions =>
      if Nat.ltb (length y) (length predictions) then Panic
      else
        let meanY := fold_left (fun meanY val => meanY + val) y f_zero
                     / f_of_int (Z.of_nat (length y)) in
        let sst := fold_left (fun sst val => sst + (val - meanY) * (val - meanY)) y f_zero in
        let sse := fold_left (fun sse i =>
                                let residual := at1 y i - at1 predictions i in
                                sse + residual * residual)
                             (seq 0 (length predictions)) f_zero in
        if sst =? f_zero then Ok f_one else Ok (f_one - sse / sst)
  end.

End SliceOLSScore.

(** ** OLS (slices): [Fit] *)

Section SliceOLSFit.
Context {F : Type} `{Float64 F}.
Local Open Scope f64_scope.

(** [addIntercept]: a 1 in front of every row. *)
Definition addIntercept (X : list (list F)) : list (list F) :=
  map (fun row => f_one :: row) X.

(** The normal equations [xtx], [xty] and the solver; [X[i][j]] panics on
    a row shorter than the first one.  The receiver is assigned only on
    success. *)
Definition OLSSlices_Fit (o : @OLSSlices F) (X : list (list F)) (y : list F)
  : result (@OLSSlices F) :=
  if Nat.eqb (length X) 0 || Nat.eqb (length (hd [] X)) 0 then Error ErrEmptyFeatureMatrix
  else if negb (Nat.eqb (length y) (length X))
       then Error (ErrMismatchedDimensions (length X) (length y))
  else
    let nSamples := length X in
    let X1 := if OLSSlices_FitIntercept o then addIntercept X else X in
    let nFeatures := if OLSSlices_FitIntercept o then S (length (hd [] X))
                     else length (hd [] X) in
    if existsb (fun row => Nat.ltb (length row) nFeatures) X1 then Panic
    else
      match solveLinearSystem (gram X1 nSamples nFeatures)
                              (mulTransVec X1 y nSamples nFeatures) with
      | Error _ => Error ErrSolveFailed
      | Panic => Panic
      | Ok coefficients =>
          if OLSSlices_FitIntercept o
          then Ok {| OLSSlices_Coefficients := tl coefficients;
                     OLSSlices_Intercept := at1 coefficients 0;
                     OLSSlices_FitIntercept := true |}
          else Ok {| OLSSlices_Coefficients := coefficients;
                     OLSSlices_Intercept := f_zero;
                     OLSSlices_FitIntercept := false |}
      end.

Lemma solveLinearSystem_length (A : list (list F)) (b x : list F) :
  solveLinearSystem A b = Ok x -> length x = length b.
Proof.
  unfold solveLinearSystem. destruct (Nat.ltb (length A) (length b)); [discriminate|].
  destruct (forwardElim _ _ _) as [U|]; [|discriminate].
  intros [= <-]. apply backSubst_spec.
Qed.

(** After a successful fit the model has coefficients, one per feature. *)
Lemma OLSSlices_Fit_coefficients (o o' : @OLSSlices F) (X : list (list F)) (y : list F) :
  OLSSlices_Fit o X y = Ok o' ->
  length (OLSSlices_Coefficients o') = length (hd [] X) /\ 0 < length (hd [] X).
Proof.
  unfold OLSSlices_Fit.
  destruct (Nat.eqb (length X) 0 || Nat.eqb (length (hd [] X)) 0) eqn:E; [discriminate|].
  apply orb_false_iff in E. destruct E as [_ E]. apply Nat.eqb_neq in E.
  destruct (negb _); [discriminate|].
  destruct (existsb _ _); [discriminate|].
  destruct (solveLinearSystem _ _) as [c| |] eqn:Hs; try discriminate.
  apply solveLinearSystem_length in Hs.
  unfold mulTransVec in Hs. rewrite length_map, length_seq in Hs.
  destruct (OLSSlices_FitIntercept o); intros [= <-]; cbn.
  - destruct c; simpl in *; lia.
  - lia.
Qed.

End SliceOLSFit.

(** ** Fits and predictions without their checks *)

Lemma predictLinear_no_error (F : Type) (Hf : Float64 F)
  (b : F) (c : option (list F)) (X : list (list F)) (e : GoError) :
  predictLinear b c X <> Error e.
Proof.
  unfold predictLinear. destruct (Dims X) as [n p]. destruct (_ && _); discriminate.
Qed.

(** No variant behind the [Model] interface has an error to return from
    [Predict]. *)
Lemma Predict_no_error (F : Type) (Hf : Float64 F) (M : MathLib F)
  (m : Model) (X : list (list F)) (e : GoError) :
  Predict m X <> Error e.
Proof.
  destruct m as [o|r|l|l|p|p|ex|l|p]; cbn [Predict].
  - apply predictLinear_no_error.
  - apply predictLinear_no_error.
  - apply predictLinear_no_error.
  - unfold Logistic_Predict. destruct (Dims X). destruct (_ && _); discriminate.
  - unfold PLS_Predict. destruct (Dims X).
    destruct (PLS_NumComponents p <=? 0)%Z; [discriminate|].
    destruct (PLS_XWeights p); [|discriminate].
    destruct (PLS_YLoadings p); [|discriminate].
    destruct (_ && _); discriminate.
  - unfold Polynomial_Predict. destruct (Dims X).
    destruct (negb _); [discriminate|]. destruct (_ && _); discriminate.
  - unfold Exponential_Predict. destruct (Dims X). destruct (negb _); discriminate.
  - unfold Logarithmic_Predict. destruct (Dims X).
    destruct (negb _); [discriminate|]. destruct (existsb _ _); discriminate.
  - unfold Power_Predict. destruct (Dims X).
    destruct (negb _); [discriminate|]. destruct (existsb _ _); discriminate.
Qed.

(** C7, on the code. The slice-based OLS answers [Predict] and [Score] on
    a fresh instance with "model not trained", and no longer does so after
    a successful [Fit].  Behind the [Model] interface
    [Predict] has no error to return: a fresh OLS, Ridge, Lasso, Logistic,
    PLS or Polynomial panics on its nil parameters, and a fresh Exponential,
    Logarithmic or Power returns predictions computed from [A = B = 0]. *)
Theorem Predict_before_Fit :
  OLSSlices_Predict (NewOLSSlices true) [[1%float]] = Error ErrNotTrained /\
  OLSSlices_Score (NewOLSSlices true) [[1%float]] [1%float] = Error ErrNotTrained /\
  (forall (F : Type) (Hf : Float64 F) (M : MathLib F) (m : Model) (X : list (list F))
          (e : GoError), Predict m X <> Error e) /\
  (forall M : MathLib float,
      Predict (ModelOLS NewOLS) [[1%float]] = Panic /\
      Predict (ModelRidge (NewRidge 1%float)) [[1%float]] = Panic /\
      Predict (ModelLasso (NewLasso 1%float)) [[1%float]] = Panic /\
      Predict (ModelLogistic NewLogistic) [[1%float]] = Panic /\
      Predict (ModelPLS (NewPLS 1)) [[1%float]] = Panic /\
      Predict (ModelPolynomial (NewPolynomial 2)) [[1%float]] = Panic /\
      Predict (ModelExponential NewExponential) [[1%float]]
      = Ok [(0 * math_Exp (0 * 1))%float] /\
      Predict (ModelLogarithmic NewLogarithmic) [[1%float]]
      = Ok [(0 * math_Log 1 + 0)%float] /\
      Predict (ModelPower NewPower) [[1%float]] = Ok [(0 * math_Pow 1 0)%float]) /\
  (forall (F : Type) (Hf : Float64 F) (o o' : @OLSSlices F) (X X' : list (list F)) (y : list F),
      OLSSlices_Fit o X y = Ok o' -> OLSSlices_Predict o' X' <> Error ErrNotTrained).
Proof.
  split; [reflexivity|]. split; [reflexivity|].
  split; [exact Predict_no_error|].
  split; [intros M; repeat split; reflexivity|].
  intros F Hf o o' X X' y Hfit.
  apply OLSSlices_Fit_coefficients in Hfit. destruct Hfit as [Hlen Hpos].
  unfold OLSSlices_Predict.
  replace (Nat.eqb (length (OLSSlices_Coefficients o')) 0) with false
    by (symmetry; apply Nat.eqb_neq; lia).
  destruct (Nat.eqb (length X') 0); [discriminate|].
  destruct (negb _); [discriminate|].
  destruct (existsb _ _); discriminate.
Qed.

Lemma Lasso_Fit_no_error (F : Type) (Hf : Float64 F)
  (l : @Lasso F) (X : list (list F)) (y : list F) (e : GoError) :
  Lasso_Fit l X y <> Error e.
Proof. unfold Lasso_Fit. destruct (Dims X). destruct (_ && _); discriminate. Qed.

Lemma Logistic_Fit_no_error (F : Type) (Hf : Float64 F) (M : MathLib F)
  (l : @Logistic F) (X : list (list F)) (y : list F) (e : GoError) :
  Logistic_Fit l X y <> Error e.
Proof. unfold Logistic_Fit. destruct (Dims X). destruct (_ && _); discriminate. Qed.

Lemma PLS_Fit_no_error (F : Type) (Hf : Float64 F)
  (p : @PLS F) (X : list (list F)) (y : list F) (e : GoError) :
  fst (PLS_Fit p X y) <> Error e.
Proof.
  unfold PLS_Fit. destruct (Dims X).
  destruct (_ || _); [discriminate|]. destruct (Nat.ltb _ _); [discriminate|].
  destruct (_ <=? _)%Z; [discriminate|].
  destruct (pls_components _ _ _ _). discriminate.
Qed.

Lemma Ridge_Fit_errors (F : Type) (Hf : Float64 F) (L : Lapack F)
  (r : @Ridge F) (X : list (list F)) (y : list F) (e : GoError) :
  fst (Ridge_Fit r X y) = Error e -> e = ErrNotPositiveDefinite \/ e = ErrSolveFailed.
Proof.
  assert (Hs : forall c, ridgeSolve r X y c = Error e -> e = ErrSolveFailed).
  { intros c. unfold ridgeSolve. destruct (Dims X).
    destruct (negb _); [discriminate|].
    destruct (SolveVecTo c _); [discriminate|]. intros [= <-]. reflexivity. }
  unfold Ridge_Fit. destruct (Factorize (ridgeMatrix r X)); cbn [fst]; eauto.
  destruct (Factorize _); cbn [fst]; eauto. intros [= <-]. auto.
Qed.

(** C6, on the code. With two samples and three targets both OLS
    variants return the "mismatched dimensions" error before any
    computation, and "empty feature matrix" on an empty matrix; Ridge
    factorizes first and then panics in gonum or reports the factorization;
    Lasso, Logistic and PLS read the first two targets and return success.
    None of Ridge, Lasso, Logistic and PLS has a shape error to return. *)
Theorem Fit_mismatched_lengths :
  (forall (L : Lapack float) (o : @OLS float),
      OLS_Fit o [[1]; [2]]%float [1; 2; 3]%float = Error (ErrMismatchedDimensions 2 3) /\
      OLS_Fit o [] [1; 2; 3]%float = Error ErrEmptyFeatureMatrix) /\
  (forall o : @OLSSlices float,
      OLSSlices_Fit o [[1]; [2]]%float [1; 2; 3]%float = Error (ErrMismatchedDimensions 2 3) /\
      OLSSlices_Fit o [] [1; 2; 3]%float = Error ErrEmptyFeatureMatrix) /\
  (forall (L : Lapack float) (r : @Ridge float),
      fst (Ridge_Fit r [[1]; [2]]%float [1; 2; 3]%float) = Panic \/
      fst (Ridge_Fit r [[1]; [2]]%float [1; 2; 3]%float) = Error ErrNotPositiveDefinite) /\
  (exists m, Lasso_Fit (NewLasso 1%float) [[1]; [2]]%float [1; 2; 3]%float = Ok m /\
             Lasso_Fit (NewLasso 1%float) [[1]; [2]]%float [1; 2]%float = Ok m) /\
  (forall M : MathLib float,
      exists m, Logistic_Fit NewLogistic [[1]; [2]]%float [1; 2; 3]%float = Ok m) /\
  (exists m, fst (PLS_Fit (NewPLS 1) [[1]; [2]]%float [1; 2; 3]%float) = Ok m) /\
  (forall (F : Type) (Hf : Float64 F) (M : MathLib F) (L : Lapack F)
          (X : list (list F)) (y : list F) (e : GoError),
      error_kind e = ShapeMismatch ->
      (forall r, fst (Ridge_Fit r X y) <> Error e) /\
      (forall l, Lasso_Fit l X y <> Error e) /\
      (forall l, Logistic_Fit l X y <> Error e) /\
      (forall p, fst (PLS_Fit p X y) <> Error e)).
Proof.
  split; [|split; [|split; [|split; [|split; [|split]]]]].
  - intros L o. split; reflexivity.
  - intros o. split; reflexivity.
  - intros L r. unfold Ridge_Fit.
    destruct (Factorize _); cbn [fst]; [left; reflexivity|].
    destruct (Factorize _); cbn [fst]; [left; reflexivity | right; reflexivity].
  - eexists. split; vm_compute; reflexivity.
  - intros M. eexists. reflexivity.
  - eexists. vm_compute. reflexivity.
  - intros F Hf M L X y e Hkind. repeat split.
    + intros r Hr. apply Ridge_Fit_errors in Hr. destruct Hr; subst e; discriminate.
    + intros l. apply Lasso_Fit_no_error.
    + intros l. apply Logistic_Fit_no_error.
    + intros p. apply PLS_Fit_no_error.
Qed.

(** * The fits in real arithmetic, data preparation, evaluation and the model manager *)

(** The code around the model variants: the slice-based OLS on its
    training data, the fits that solve normal equations with [Inverse]
    (gonum OLS and the nonlinear models), Ridge with [Lambda = 0] against
    OLS, and the packages [types] (datasets), [data] (splits, feature
    engineering, scalers), [evaluation] (metrics and cross-validation) and
    [models] (the model manager).  Lengths and indices are natural
    numbers: the [int] arithmetic on them stays below the word size on
    every slice that fits in memory. *)

From Stdlib Require Import Permutation.

(** A call of these packages returns a value, returns one of the error
    values of its package, or panics. *)
Inductive outcome (E A : Type) : Type :=
| Returned (a : A)
| Failed (e : E)
| Panicked.
Arguments Returned {E A} a.
Arguments Failed {E A} e.
Arguments Panicked {E A}.

(** Checked slice operations: [None] is Go's run-time panic. *)
Definition item {A : Type} (l : list A) (i : nat) : option A := nth_error l i.

Definition store {A : Type} (l : list A) (i : nat) (x : A) : option (list A) :=
  if Nat.ltb i (length l) then Some (upd i x l) else None.

Definition slice {A : Type} (l : list A) (lo hi : nat) : option (list A) :=
  if Nat.leb lo hi && Nat.leb hi (length l) then Some (firstn (hi - lo) (skipn lo l)) else None.

(** A row shorter than the declared width: [X[i][j]] panics on it. *)
Definition ragged {A : Type} (width : nat) (X : list (list A)) : bool :=
  existsb (fun row => Nat.ltb (length row) width) X.

Lemma ragged_false {A : Type} (width : nat) (X : list (list A)) :
  ragged width X = false <-> Forall (fun row => width <= length row) X.
Proof.
  unfold ragged. rewrite Forall_forall. split.
  - intros Hr row Hin. destruct (Nat.ltb (length row) width) eqn:E.
    + assert (existsb (fun row => Nat.ltb (length row) width) X = true)
        by (apply existsb_exists; eauto). congruence.
    + apply Nat.ltb_ge in E. exact E.
  - intros Hall. destruct (existsb _ X) eqn:E; [|reflexivity].
    apply existsb_exists in E. destruct E as (row & Hin & Hlt).
    apply Nat.ltb_lt in Hlt. specialize (Hall row Hin). lia.
Qed.

(** [copy(dst, src)] copies as many elements as the shorter slice holds. *)
Definition copyInto {A : Type} (dst src : list A) : list A :=
  firstn (length dst) src ++ skipn (length src) dst.

(** A slice that is filled through a running index, [buf[index] = v; index++]:
    the state is the slice and the index, [None] after a panic. *)
Definition emit {A : Type} (v : A) (st : option (list A * nat)) : option (list A * nat) :=
  match st with
  | None => None
  | Some (buf, index) =>
      match store buf index v with
      | Some buf' => Some (buf', S index)
      | None => None
      end
  end.

Definition emitAll {A : Type} (vs : list A) (st : option (list A * nat))
  : option (list A * nat) :=
  fold_left (fun st v => emit v st) vs st.

(** [vs] written over [buf] from position [start] on. *)
Definition overwrite {A : Type} (buf : list A) (start : nat) (vs : list A) : list A :=
  firstn start buf ++ vs ++ skipn (start + length vs) buf.

Lemma upd_overwrite {A : Type} (buf : list A) (i : nat) (v : A) :
  i < length buf -> upd i v buf = overwrite buf i [v].
Proof.
  unfold overwrite. revert i. induction buf as [|a buf IH]; intros [|i] Hi; simpl in *; try lia.
  - reflexivity.
  - rewrite IH by lia. reflexivity.
Qed.

Lemma overwrite_length {A : Type} (buf : list A) (start : nat) (vs : list A) :
  start + length vs <= length buf -> length (overwrite buf start vs) = length buf.
Proof.
  intros Hcap. unfold overwrite.
  rewrite !length_app, length_firstn, length_skipn. lia.
Qed.

Lemma overwrite_app {A : Type} (buf : list A) (start : nat) (vs ws : list A) :
  start + length vs + length ws <= length buf ->
  overwrite (overwrite buf start vs) (start + length vs) ws = overwrite buf start (vs ++ ws).
Proof.
  intros Hcap. unfold overwrite.
  rewrite firstn_app, firstn_firstn, length_firstn.
  replace (Nat.min (start + length vs) start) with start by lia.
  replace (start + length vs - Nat.min start (length buf)) with (length vs) by lia.
  rewrite firstn_app, firstn_all, Nat.sub_diag, firstn_O, app_nil_r.
  rewrite skipn_app, length_firstn.
  replace (Nat.min start (length buf)) with start by lia.
  rewrite (skipn_all2 (firstn start buf)) by (rewrite length_firstn; lia).
  rewrite skipn_app.
  rewrite (skipn_all2 vs) by lia.
  replace (start + length vs + length ws - start - length vs) with (length ws) by lia.
  rewrite skipn_skipn, length_app.
  replace (length ws + (start + length vs)) with (start + (length vs + length ws)) by lia.
  rewrite <- !app_assoc. reflexivity.
Qed.

Lemma overwrite_nil {A : Type} (buf : list A) (start : nat) :
  overwrite buf start [] = buf.
Proof. unfold overwrite. simpl. rewrite Nat.add_0_r. apply firstn_skipn. Qed.

Lemma emitAll_none {A : Type} (vs : list A) : emitAll vs None = None.
Proof. induction vs; simpl; auto. Qed.

Lemma emitAll_ok {A : Type} (vs : list A) (buf : list A) (start : nat) :
  start + length vs <= length buf ->
  emitAll vs (Some (buf, start)) = Some (overwrite buf start vs, start + length vs).
Proof.
  revert buf start. induction vs as [|v vs IH]; intros buf start Hcap.
  - simpl. rewrite Nat.add_0_r, overwrite_nil. reflexivity.
  - cbn [emitAll fold_left emit]. unfold store. cbn [length] in Hcap.
    replace (Nat.ltb start (length buf)) with true by (symmetry; apply Nat.ltb_lt; lia).
    fold (emitAll vs (Some (upd start v buf, S start))).
    rewrite IH by (rewrite upd_length; lia).
    rewrite upd_overwrite by lia.
    replace (S start) with (start + length [v]) by (simpl; lia).
    rewrite overwrite_app by (simpl; lia).
    cbn [length app]. do 2 f_equal. lia.
Qed.

Lemma emitAll_app {A : Type} (vs ws : list A) (st : option (list A * nat)) :
  emitAll (vs ++ ws) st = emitAll ws (emitAll vs st).
Proof. unfold emitAll. apply fold_left_app. Qed.

Lemma skipn_seq_nth {A : Type} (d : A) (l : list A) (i : nat) :
  skipn i l = map (fun j => nth j l d) (seq i (length l - i)).
Proof.
  revert i. induction l as [|a l IH]; intros i.
  - destruct i; reflexivity.
  - destruct i as [|i].
    + rewrite Nat.sub_0_r. symmetry. apply (map_nth_seq_id (a :: l) d).
    + cbn [skipn length Nat.sub]. rewrite IH, <- seq_shift, map_map. reflexivity.
Qed.

Lemma emitAll_some {A : Type} (vs : list A) (buf buf' : list A) (start index' : nat) :
  emitAll vs (Some (buf, start)) = Some (buf', index') ->
  index' = start + length vs /\
  (vs <> [] -> start + length vs <= length buf /\ buf' = overwrite buf start vs).
Proof.
  revert buf start. induction vs as [|v vs IH]; intros buf start Hrun.
  - cbn in Hrun. injection Hrun as <- <-. split; [cbn; lia | congruence].
  - cbn [emitAll fold_left emit] in Hrun. unfold store in Hrun.
    destruct (Nat.ltb_spec start (length buf)) as [Hlt|Hge].
    + fold (emitAll vs (Some (upd start v buf, S start))) in Hrun.
      destruct (IH _ _ Hrun) as [Hidx Hrest]. rewrite upd_length in Hrest.
      split; [cbn [length]; lia|]. intros _.
      destruct vs as [|w vs].
      * cbn in Hrun. injection Hrun as <- _. cbn [length]. split; [lia|].
        apply upd_overwrite. exact Hlt.
      * destruct (Hrest ltac:(discriminate)) as [Hcap ->]. cbn [length] in *.
        split; [lia|].
        rewrite upd_overwrite by lia.
        replace (S start) with (start + length [v]) by (simpl; lia).
        rewrite overwrite_app by (simpl; lia). reflexivity.
    + fold (emitAll vs (@None (list A * nat))) in Hrun. rewrite emitAll_none in Hrun.
      discriminate.
Qed.

Lemma nth_overwrite {A : Type} (d : A) (buf vs : list A) (start k : nat) :
  start <= length buf -> start <= k < start + length vs ->
  nth k (overwrite buf start vs) d = nth (k - start) vs d.
Proof.
  intros Hstart Hk. unfold overwrite.
  rewrite app_nth2 by (rewrite length_firstn; lia).
  rewrite length_firstn. replace (Nat.min start (length buf)) with start by lia.
  apply app_nth1. lia.
Qed.

Lemma firstn_incl {A : Type} (n : nat) (l : list A) (x : A) : In x (firstn n l) -> In x l.
Proof. intros Hin. rewrite <- (firstn_skipn n l). apply in_or_app. left. exact Hin. Qed.

Lemma skipn_incl {A : Type} (n : nat) (l : list A) (x : A) : In x (skipn n l) -> In x l.
Proof. intros Hin. rewrite <- (firstn_skipn n l). apply in_or_app. right. exact Hin. Qed.

Lemma firstn_plus {A : Type} (a b : nat) (l : list A) :
  firstn (a + b) l = firstn a l ++ firstn b (skipn a l).
Proof.
  revert l. induction a as [|a IH]; intros l; [reflexivity|].
  destruct l as [|x l]; [cbn; rewrite firstn_nil; reflexivity|].
  cbn. rewrite IH. reflexivity.
Qed.

(** ** Sums and tables *)

Lemma rsum_single (g : nat -> R) (i : nat) : rsum g [i] = g i.
Proof. unfold rsum. simpl. lra. Qed.

Lemma rsum_const (c : R) (l : list nat) : rsum (fun _ => c) l = (INR (length l) * c)%R.
Proof.
  induction l as [|j l IH]; [unfold rsum; simpl; lra|].
  change (j :: l) with ([j] ++ l). rewrite rsum_app, IH.
  change (length ([j] ++ l)) with (S (length l)). rewrite S_INR.
  unfold rsum; simpl. lra.
Qed.

Lemma rsum_scale (g : nat -> R) (c : R) (l : list nat) :
  rsum (fun j => g j * c)%R l = (rsum g l * c)%R.
Proof.
  induction l as [|j l IH]; [unfold rsum; simpl; lra|].
  change (j :: l) with ([j] ++ l). rewrite !rsum_app, IH.
  unfold rsum; simpl. lra.
Qed.

Lemma rsum_nonneg (g : nat -> R) (l : list nat) :
  (forall j, In j l -> (0 <= g j)%R) -> (0 <= rsum g l)%R.
Proof.
  induction l as [|j l IH]; intros Hg; [unfold rsum; simpl; lra|].
  change (j :: l) with ([j] ++ l). rewrite rsum_app.
  assert (0 <= rsum g l)%R by (apply IH; intros; apply Hg; right; assumption).
  assert (0 <= g j)%R by (apply Hg; left; reflexivity).
  unfold rsum at 1; simpl. lra.
Qed.

Lemma rsum_scale_l (g : nat -> R) (c : R) (l : list nat) :
  rsum (fun j => c * g j)%R l = (c * rsum g l)%R.
Proof.
  rewrite (rsum_ext (fun j => c * g j)%R (fun j => g j * c)%R) by (intros; ring).
  rewrite rsum_scale. ring.
Qed.

Lemma rsum_plus (g h : nat -> R) (l : list nat) :
  rsum (fun j => g j + h j)%R l = (rsum g l + rsum h l)%R.
Proof.
  induction l as [|j l IH]; [unfold rsum; simpl; lra|].
  change (j :: l) with ([j] ++ l). rewrite !rsum_app, IH.
  unfold rsum; simpl. lra.
Qed.

Lemma rsum_swap (a : nat -> nat -> R) (l1 l2 : list nat) :
  rsum (fun i => rsum (fun j => a i j) l2) l1 = rsum (fun j => rsum (fun i => a i j) l1) l2.
Proof.
  induction l1 as [|i l1 IH].
  - unfold rsum at 1 3. simpl. symmetry. apply rsum_zero. reflexivity.
  - change (i :: l1) with ([i] ++ l1). rewrite rsum_app, IH.
    rewrite (rsum_ext (fun j => rsum (fun i0 => a i0 j) ([i] ++ l1))
                      (fun j => a i j + rsum (fun i0 => a i0 j) l1)%R)
      by (intros j _; rewrite rsum_app, rsum_single; reflexivity).
    rewrite rsum_plus, rsum_single. reflexivity.
Qed.

Section Tables.
Context {F : Type} `{Float64 F}.

Lemma at1_table (f : nat -> F) (p i : nat) :
  i < p -> at1 (map f (seq 0 p)) i = f i.
Proof.
  intros Hi. unfold at1.
  rewrite nth_indep with (d' := f 0) by (rewrite length_map, length_seq; exact Hi).
  rewrite map_nth, seq_nth by exact Hi. reflexivity.
Qed.

(** A fold over the values of a slice is the fold over its indices. *)
Lemma fold_values_indices {A : Type} (f : A -> F -> A) (l : list F) (a : A) :
  fold_left (fun acc i => f acc (at1 l i)) (seq 0 (length l)) a = fold_left f l a.
Proof.
  transitivity (fold_left f (map (fun i => nth i l f_zero) (seq 0 (length l))) a).
  - generalize (seq 0 (length l)). intros idx. revert a.
    induction idx as [|i idx IH]; intros a; [reflexivity|].
    cbn [fold_left map]. apply IH.
  - rewrite map_nth_seq_id. reflexivity.
Qed.

End Tables.

(** ** Go maps with string keys *)

(** A map is kept as an association list without repeated keys: a store
    replaces the value of its key or adds the key; the order of the
    entries carries no meaning. *)
Definition GoMap (V : Type) : Type := list (string * V).

Fixpoint mapGet {V : Type} (key : string) (m : GoMap V) : option V :=
  match m with
  | [] => None
  | (k, v) :: rest => if String.eqb k key then Some v else mapGet key rest
  end.

Fixpoint mapSet {V : Type} (key : string) (v : V) (m : GoMap V) : GoMap V :=
  match m with
  | [] => [(key, v)]
  | (k, w) :: rest => if String.eqb k key then (k, v) :: rest else (k, w) :: mapSet key v rest
  end.

Definition mapKeys {V : Type} (m : GoMap V) : list string := map fst m.

Lemma mapGet_mapSet_same {V : Type} (key : string) (v : V) (m : GoMap V) :
  mapGet key (mapSet key v m) = Some v.
Proof.
  induction m as [|[k w] m IH]; cbn.
  - rewrite String.eqb_refl. reflexivity.
  - destruct (String.eqb k key) eqn:E; cbn; rewrite E; auto.
Qed.

Lemma mapGet_mapSet_other {V : Type} (key key' : string) (v : V) (m : GoMap V) :
  key <> key' -> mapGet key' (mapSet key v m) = mapGet key' m.
Proof.
  intros Hne. induction m as [|[k w] m IH]; cbn.
  - destruct (String.eqb_spec key key'); [contradiction | reflexivity].
  - destruct (String.eqb_spec k key) as [->|Hk]; cbn.
    + destruct (String.eqb_spec key key'); [contradiction | reflexivity].
    + destruct (String.eqb k key'); auto.
Qed.

(** ** OLS (slices) in real arithmetic: the normal equations *)

Section SliceOLSReal.
Local Open Scope R_scope.

Lemma rsum_map (g : nat -> R) (f : nat -> nat) (l : list nat) :
  rsum g (map f l) = rsum (fun j => g (f j)) l.
Proof.
  induction l as [|j l IH]; [reflexivity|].
  cbn [map]. change (f j :: map f l) with ([f j] ++ map f l).
  change (j :: l) with ([j] ++ l). rewrite !rsum_app, IH, !rsum_single. reflexivity.
Qed.

Lemma rsum_seq_S (g : nat -> R) (p : nat) :
  rsum g (seq 0 (S p)) = g 0%nat + rsum (fun j => g (S j)) (seq 0 p).
Proof.
  cbn [seq]. change (0%nat :: seq 1 p) with ([0%nat] ++ seq 1 p).
  rewrite rsum_app, rsum_single, <- seq_shift, rsum_map. reflexivity.
Qed.

(** The fitted values of the design matrix [X1] at the solution [c]. *)
Definition fitted (X1 : list (list R)) (c : list R) (q i : nat) : R :=
  rsum (fun j => at2 X1 i j * at1 c j) (seq 0 q).

Lemma gram_entry_R (X1 : list (list R)) (n q k j : nat) :
  (k < q)%nat -> (j < q)%nat ->
  at2 (gram X1 n q) k j = rsum (fun i => at2 X1 i k * at2 X1 i j) (seq 0 n).
Proof.
  intros Hk Hj. unfold gram.
  rewrite (at2_table (fun i j => gramEntry X1 n i j)) by assumption. reflexivity.
Qed.

Lemma mulTransVec_entry_R (X1 : list (list R)) (y : list R) (n q k : nat) :
  (k < q)%nat ->
  at1 (mulTransVec X1 y n q) k = rsum (fun i => at2 X1 i k * at1 y i) (seq 0 n).
Proof.
  intros Hk. unfold mulTransVec.
  rewrite (at1_table (fun j => fold_left (fun s k0 => f_add s (f_mul (at2 X1 k0 j) (at1 y k0)))
                                         (seq 0 n) f_zero)) by assumption.
  reflexivity.
Qed.

(** A solution of the normal equations leaves residuals orthogonal to
    every column of the design matrix. *)
Lemma normal_equations_orthogonal (X1 : list (list R)) (y c : list R) (n q : nat) :
  (forall k, (k < q)%nat ->
     rsum (fun j => at2 (gram X1 n q) k j * at1 c j) (seq 0 q)
     = at1 (mulTransVec X1 y n q) k) ->
  forall k, (k < q)%nat ->
    rsum (fun i => at2 X1 i k * (at1 y i - fitted X1 c q i)) (seq 0 n) = 0.
Proof.
  intros Hsolve k Hk. specialize (Hsolve k Hk).
  rewrite mulTransVec_entry_R in Hsolve by exact Hk.
  rewrite (rsum_ext _ (fun j => rsum (fun i => at2 X1 i k * at2 X1 i j * at1 c j) (seq 0 n)))
    in Hsolve.
  2:{ intros j Hin. apply in_seq in Hin. rewrite gram_entry_R by lia.
      symmetry. apply rsum_scale. }
  rewrite rsum_swap in Hsolve.
  rewrite (rsum_ext _ (fun i => at2 X1 i k * fitted X1 c q i)) in Hsolve.
  2:{ intros i _. unfold fitted. rewrite <- rsum_scale_l.
      apply rsum_ext. intros j _. ring. }
  rewrite (rsum_ext _ (fun i => at2 X1 i k * at1 y i - 1 * (at2 X1 i k * fitted X1 c q i)))
    by (intros i _; ring).
  rewrite rsum_linear. lra.
Qed.

Lemma at2_addIntercept (X : list (list R)) (i j : nat) :
  (i < length X)%nat ->
  at2 (addIntercept X) i 0 = 1 /\ at2 (addIntercept X) i (S j) = at2 X i j.
Proof.
  intros Hi. unfold at2, addIntercept.
  rewrite nth_indep with (d' := (fun row => f_one :: row) [])
    by (rewrite length_map; exact Hi).
  rewrite (map_nth (fun row : list R => f_one :: row)). split; reflexivity.
Qed.

Lemma predict_sample_R (sample coefs : list R) (b : R) :
  fold_left (fun prediction j => f_add prediction (f_mul (at1 sample j) (at1 coefs j)))
            (seq 0 (length sample)) b
  = b + rsum (fun j => at1 sample j * at1 coefs j) (seq 0 (length sample)).
Proof. exact_ops. apply (fold_add_shift (fun j => at1 sample j * at1 coefs j)). Qed.

End SliceOLSReal.

(** The linear form [Predict] evaluates for row [i] of [X]. *)
Definition linearPrediction (o : @OLSSlices R) (X : list (list R)) (i : nat) : R :=
  (OLSSlices_Intercept o
   + rsum (fun j => at2 X i j * at1 (OLSSlices_Coefficients o) j)
          (seq 0 (length (hd [] X))))%R.

(** [Predict] of a model with one coefficient per column, on a rectangular
    matrix. *)
Lemma OLSSlices_Predict_linear (o : @OLSSlices R) (X : list (list R)) :
  Forall (fun row => length row = length (hd [] X)) X ->
  0 < length X -> 0 < length (hd [] X) ->
  length (OLSSlices_Coefficients o) = length (hd [] X) ->
  exists predictions,
    OLSSlices_Predict o X = Ok predictions /\
    length predictions = length X /\
    forall i, i < length X -> at1 predictions i = linearPrediction o X i.
Proof.
  intros Hrect Hn Hp Hcoefs.
  set (n := length X) in *. set (p := length (hd [] X)) in *.
  rewrite Forall_forall in Hrect.
  exists (map (fun sample =>
                 (OLSSlices_Intercept o
                  + rsum (fun j => at1 sample j * at1 (OLSSlices_Coefficients o) j)
                         (seq 0 p))%R) X).
  split; [|split; [apply length_map|]].
  - unfold OLSSlices_Predict. rewrite Hcoefs. fold n. fold p.
    replace (Nat.eqb p 0) with false by (symmetry; apply Nat.eqb_neq; lia).
    replace (Nat.eqb n 0) with false by (symmetry; apply Nat.eqb_neq; lia).
    rewrite Nat.eqb_refl. cbn [negb].
    replace (existsb (fun sample => Nat.ltb p (length sample)) X) with false.
    2:{ symmetry. destruct (existsb _ X) eqn:E; [|reflexivity].
        apply existsb_exists in E. destruct E as (row & Hin & Hlt).
        apply Nat.ltb_lt in Hlt. rewrite (Hrect row Hin) in Hlt. lia. }
    f_equal. apply map_ext_in. intros sample Hin.
    rewrite predict_sample_R, (Hrect sample Hin). reflexivity.
  - intros i Hi. unfold at1 at 1.
    rewrite nth_indep with (d' := (fun sample =>
               (OLSSlices_Intercept o
                + rsum (fun j => at1 sample j * at1 (OLSSlices_Coefficients o) j)
                       (seq 0 p))%R) [])
      by (rewrite length_map; exact Hi).
    rewrite (map_nth (fun sample : list R => _)). reflexivity.
Qed.

(** The coefficients a successful [Fit] stores solve the normal equations
    of the design matrix (with its column of ones when there is an
    intercept). *)
Lemma OLSSlices_Fit_solution (o o' : @OLSSlices R) (X : list (list R)) (y : list R) :
  OLSSlices_Fit o X y = Ok o' ->
  0 < length X /\ length y = length X /\
  (forall j, j < length (hd [] X) ->
     rsum (fun i => at2 X i j * (at1 y i - linearPrediction o' X i))%R
          (seq 0 (length X)) = 0%R) /\
  (OLSSlices_FitIntercept o = true ->
     rsum (fun i => at1 y i - linearPrediction o' X i)%R (seq 0 (length X)) = 0%R).
Proof.
  intros Hfit. unfold linearPrediction.
  set (n := length X) in *. set (p := length (hd [] X)) in *.
  unfold OLSSlices_Fit in Hfit. fold n p in Hfit.
  destruct (Nat.eqb_spec n 0) as [|Hn0]; [discriminate|].
  destruct (Nat.eqb p 0); [discriminate|]. cbn [orb] in Hfit.
  destruct (Nat.eqb_spec (length y) n) as [Hy|]; [|discriminate]. cbn [negb] in Hfit.
  split; [lia|]. split; [exact Hy|].
  destruct (existsb _ _); [discriminate|].
  destruct (solveLinearSystem _ _) as [c| |] eqn:Hsolve; try discriminate.
  set (q := if OLSSlices_FitIntercept o then S p else p) in *.
  set (X1 := if OLSSlices_FitIntercept o then addIntercept X else X) in *.
  assert (Hq : length (mulTransVec X1 y n q) = q)
    by (unfold mulTransVec; rewrite length_map, length_seq; reflexivity).
  assert (Hrows : Forall (fun row => length row = length (mulTransVec X1 y n q))
                         (gram X1 n q)).
  { apply Forall_forall. intros row Hin. unfold gram in Hin.
    apply in_map_iff in Hin. destruct Hin as (i & <- & _).
    unfold mulTransVec. rewrite !length_map. reflexivity. }
  apply solveLinearSystem_satisfies in Hsolve;
    [|unfold gram, mulTransVec; rewrite !length_map; reflexivity | exact Hrows].
  destruct Hsolve as [Hlen Hsat].
  assert (Hsolve : forall k, k < q ->
            rsum (fun j => at2 (gram X1 n q) k j * at1 c j)%R (seq 0 q)
            = at1 (mulTransVec X1 y n q) k).
  { intros k Hk.
    pose proof (@satisfies_augment (gram X1 n q) (mulTransVec X1 y n q) c k) as Hs.
    rewrite Hq in Hs, Hsat. apply Hs; [|exact Hsat|exact Hk].
    intros i Hi. rewrite Forall_forall in Hrows. rewrite <- Hq at 2. apply Hrows, nth_In.
    unfold gram. rewrite length_map, length_seq. exact Hi. }
  rewrite Hq in Hlen.
  pose proof (@normal_equations_orthogonal X1 y c n q Hsolve) as Horth.
  destruct (OLSSlices_FitIntercept o) eqn:Eint; injection Hfit as <-;
    cbn [OLSSlices_Intercept OLSSlices_Coefficients] in *.
  - (* with an intercept: [c = intercept :: coefficients] *)
    destruct c as [|c0 cs]; [cbn in Hlen; lia|].
    assert (Hfitted : forall i, i < n ->
              fitted X1 (c0 :: cs) q i
              = (at1 (c0 :: cs) 0 + rsum (fun j => at2 X i j * at1 cs j) (seq 0 p))%R).
    { intros i Hi. unfold fitted, q. rewrite rsum_seq_S.
      destruct (@at2_addIntercept X i 0 Hi) as [H0 _]. unfold X1. rewrite H0.
      f_equal; [unfold at1; cbn; lra|].
      apply rsum_ext. intros j _.
      destruct (@at2_addIntercept X i j Hi) as [_ HS]. rewrite HS. reflexivity. }
    cbn [tl] in *. split.
    + intros j Hj.
      etransitivity; [|exact (Horth (S j) ltac:(unfold q; lia))].
      apply rsum_ext. intros i Hin. apply in_seq in Hin.
      destruct (@at2_addIntercept X i j ltac:(lia)) as [_ HS]. unfold X1. rewrite HS.
      rewrite Hfitted by lia. reflexivity.
    + intros _.
      etransitivity; [|exact (Horth 0 ltac:(unfold q; lia))].
      apply rsum_ext. intros i Hin. apply in_seq in Hin.
      destruct (@at2_addIntercept X i 0 ltac:(lia)) as [H0 _]. unfold X1. rewrite H0.
      rewrite Hfitted by lia. lra.
  - split; [|discriminate].
    intros j Hj. etransitivity; [|exact (Horth j ltac:(unfold q; lia))].
    apply rsum_ext. intros i Hin. apply in_seq in Hin.
    exact_ops. unfold fitted, X1, q. f_equal. lra.
Qed.

(** X2. In real arithmetic, after a successful [Fit] of the slice-based
    OLS on a rectangular matrix, [Predict] on the training matrix returns
    one prediction per sample, and the residuals [y[i] - predictions[i]]
    are orthogonal to every feature column (the normal equations); with
    an intercept they also sum to zero. *)
Theorem OLSSlices_Fit_normal_equations (o o' : @OLSSlices R) (X : list (list R)) (y : list R) :
  Forall (fun row => length row = length (hd [] X)) X ->
  OLSSlices_Fit o X y = Ok o' ->
  exists predictions,
    OLSSlices_Predict o' X = Ok predictions /\
    length predictions = length X /\
    (forall j, j < length (hd [] X) ->
       rsum (fun i => at2 X i j * (at1 y i - at1 predictions i))%R (seq 0 (length X)) = 0%R) /\
    (OLSSlices_FitIntercept o = true ->
       rsum (fun i => at1 y i - at1 predictions i)%R (seq 0 (length X)) = 0%R).
Proof.
  intros Hrect Hfit.
  destruct (OLSSlices_Fit_coefficients _ _ _ Hfit) as [Hcoefs Hp].
  destruct (OLSSlices_Fit_solution _ _ _ Hfit) as (Hn & _ & Horth & Hsum).
  destruct (@OLSSlices_Predict_linear o' X Hrect Hn Hp Hcoefs)
    as (predictions & Hpred & Hlen & Hat).
  exists predictions. split; [exact Hpred|]. split; [exact Hlen|]. split.
  - intros j Hj. rewrite <- (Horth j Hj).
    apply rsum_ext. intros i Hin. apply in_seq in Hin.
    rewrite Hat by lia. reflexivity.
  - intros Hint. rewrite <- (Hsum Hint).
    apply rsum_ext. intros i Hin. apply in_seq in Hin.
    rewrite Hat by lia. reflexivity.
Qed.

(** A system of two equations whose second row holds the larger entry of
    the first column: the rows are swapped, and the solver returns the
    back substitution when neither pivot is below the threshold. *)
Lemma solveLinearSystem_two_swap (a b c d e f : R) :
  (Rabs a < Rabs c)%R ->
  (1 / 10000000000 <= Rabs c)%R ->
  (1 / 10000000000 <= Rabs (b - a / c * d))%R ->
  @solveLinearSystem R Exact [[a; b]; [c; d]] [e; f]
  = Ok [((f - d * ((e - a / c * f) / (b - a / c * d))) / c)%R;
        ((e - a / c * f) / (b - a / c * d))%R].
Proof.
  intros Hswap Hc Hd.
  cbv [solveLinearSystem forwardElim findPivot augment augmentedRow swapRows eliminate
       elimRow length Nat.ltb Nat.leb seq Nat.sub fold_left map nth firstn repeat app
       at2 at1 upd].
  exact_ops.
  replace (Rltb (Rabs a) (Rabs c)) with true by (symmetry; apply Rltb_true; exact Hswap).
  cbv [nth upd fold_left].
  replace (Rltb (Rabs c) (1 / 10000000000)) with false
    by (symmetry; apply Rltb_false; exact Hc).
  replace (Rltb (Rabs (b - a / c * d)) (1 / 10000000000)) with false
    by (symmetry; apply Rltb_false; exact Hd).
  cbv [backSubst backSubstFrom backSubstRow repeat upd at1 at2 nth seq Nat.sub fold_left].
  exact_ops. reflexivity.
Qed.

(** Three samples that no line fits, with an intercept: the normal
    equations [[3, 7], [7, 21]] [b0, b1] = [6, 15] give the line
    [3/2 + 3/14 x], with the residuals [-5/7], [15/14] and [-5/14]. *)
Lemma OLSSlices_Fit_intercept_example :
  OLSSlices_Fit (NewOLSSlices true) [[1]; [2]; [4]]%R [1; 3; 2]%R
  = Ok {| OLSSlices_Coefficients := [(3 / 14)%R];
          OLSSlices_Intercept := (3 / 2)%R;
          OLSSlices_FitIntercept := true |}.
Proof.
  pose proof (solveLinearSystem_two_swap
                (0 + 1 * 1 + 1 * 1 + 1 * 1) (0 + 1 * 1 + 1 * 2 + 1 * 4)
                (0 + 1 * 1 + 2 * 1 + 4 * 1) (0 + 1 * 1 + 2 * 2 + 4 * 4)
                (0 + 1 * 1 + 1 * 3 + 1 * 2) (0 + 1 * 1 + 2 * 3 + 4 * 2)) as Hsolve.
  unfold OLSSlices_Fit, NewOLSSlices.
  cbn [length hd Nat.eqb orb negb OLSSlices_FitIntercept addIntercept map existsb
       Nat.ltb Nat.leb].
  change (solveLinearSystem (gram [[f_one; 1%R]; [f_one; 2%R]; [f_one; 4%R]] 3 2)
                            (mulTransVec [[f_one; 1%R]; [f_one; 2%R]; [f_one; 4%R]]
                                         [1%R; 3%R; 2%R] 3 2))
    with (@solveLinearSystem R Exact
            [[(0 + 1 * 1 + 1 * 1 + 1 * 1)%R; (0 + 1 * 1 + 1 * 2 + 1 * 4)%R];
             [(0 + 1 * 1 + 2 * 1 + 4 * 1)%R; (0 + 1 * 1 + 2 * 2 + 4 * 4)%R]]
            [(0 + 1 * 1 + 1 * 3 + 1 * 2)%R; (0 + 1 * 1 + 2 * 3 + 4 * 2)%R]).
  rewrite Hsolve.
  - cbn [tl at1 nth]. f_equal. f_equal; [f_equal|]; field.
  - unfold Rabs. repeat destruct (Rcase_abs _); lra.
  - unfold Rabs. repeat destruct (Rcase_abs _); lra.
  - unfold Rabs. repeat destruct (Rcase_abs _); lra.
Qed.

Lemma OLSSlices_Fit_normal_equations_witness :
  exists predictions,
    OLSSlices_Predict {| OLSSlices_Coefficients := [(3 / 14)%R];
                         OLSSlices_Intercept := (3 / 2)%R;
                         OLSSlices_FitIntercept := true |} [[1]; [2]; [4]]%R
    = Ok predictions /\
    rsum (fun i => at2 [[1]; [2]; [4]]%R i 0 * (at1 [1; 3; 2]%R i - at1 predictions i))%R
         (seq 0 3) = 0%R /\
    rsum (fun i => at1 [1; 3; 2]%R i - at1 predictions i)%R (seq 0 3) = 0%R.
Proof.
  destruct (@OLSSlices_Fit_normal_equations (NewOLSSlices true)
              {| OLSSlices_Coefficients := [(3 / 14)%R];
                 OLSSlices_Intercept := (3 / 2)%R;
                 OLSSlices_FitIntercept := true |} [[1]; [2]; [4]]%R [1; 3; 2]%R)
    as (predictions & Hpred & _ & Horth & Hsum).
  - repeat constructor.
  - exact OLSSlices_Fit_intercept_example.
  - exists predictions. split; [exact Hpred|]. split.
    + apply (Horth 0). simpl. lia.
    + apply Hsum. reflexivity.
Defined.

(** The residuals of a least-squares fit with an intercept are orthogonal
    to the fitted values. *)
Lemma residuals_orthogonal_to_fit (o : @OLSSlices R) (X : list (list R)) (y : list R) :
  (forall j, j < length (hd [] X) ->
     rsum (fun i => at2 X i j * (at1 y i - linearPrediction o X i))%R
          (seq 0 (length X)) = 0%R) ->
  rsum (fun i => at1 y i - linearPrediction o X i)%R (seq 0 (length X)) = 0%R ->
  rsum (fun i => (at1 y i - linearPrediction o X i) * linearPrediction o X i)%R
       (seq 0 (length X)) = 0%R.
Proof.
  intros Horth Hsum.
  set (n := length X) in *. set (p := length (hd [] X)) in *.
  set (r := fun i => (at1 y i - linearPrediction o X i)%R) in *.
  set (b := OLSSlices_Intercept o). set (c := OLSSlices_Coefficients o).
  rewrite (rsum_ext _ (fun i => b * r i
                                + rsum (fun j => at2 X i j * r i * at1 c j) (seq 0 p))%R).
  2:{ intros i _. change (at1 y i - linearPrediction o X i)%R with (r i).
      generalize (r i). intros ri. unfold linearPrediction. fold b c p.
      rewrite Rmult_plus_distr_l. f_equal; [apply Rmult_comm|].
      rewrite <- rsum_scale_l. apply rsum_ext. intros j _. ring. }
  rewrite rsum_plus, rsum_scale_l, rsum_swap.
  change (rsum (fun i => r i) (seq 0 n)) with (rsum r (seq 0 n)).
  rewrite Hsum, Rmult_0_r, Rplus_0_l.
  apply rsum_zero. intros j Hin. apply in_seq in Hin.
  rewrite rsum_scale. unfold r. rewrite Horth by lia. ring.
Qed.

(** X3. In real arithmetic, after a successful [Fit] of the slice-based
    OLS on a rectangular matrix, [Score] on the training data returns a
    value that is at most 1; when the model was fitted with an intercept
    the value is also at least 0 (the residual sum of squares cannot
    exceed the total sum of squares). *)
Theorem OLSSlices_Score_training (o o' : @OLSSlices R) (X : list (list R)) (y : list R) :
  Forall (fun row => length row = length (hd [] X)) X ->
  OLSSlices_Fit o X y = Ok o' ->
  exists r2,
    OLSSlices_Score o' X y = Ok r2 /\
    (r2 <= 1)%R /\
    (OLSSlices_FitIntercept o = true -> (0 <= r2)%R).
Proof.
  intros Hrect Hfit.
  destruct (OLSSlices_Fit_coefficients _ _ _ Hfit) as [Hcoefs Hp].
  destruct (OLSSlices_Fit_solution _ _ _ Hfit) as (Hn & Hy & Horth & Hsum).
  destruct (@OLSSlices_Predict_linear o' X Hrect Hn Hp Hcoefs)
    as (predictions & Hpred & Hlen & Hat).
  set (n := length X) in *.
  set (m := (rsum (fun i => at1 y i) (seq 0 n) / IZR (Z.of_nat n))%R).
  set (sst := rsum (fun i => (at1 y i - m) * (at1 y i - m))%R (seq 0 n)).
  set (sse := rsum (fun i => (at1 y i - linearPrediction o' X i) * (at1 y i - linearPrediction o' X i))%R (seq 0 n)).
  assert (Hscore : OLSSlices_Score o' X y
                   = if Reqb sst 0 then Ok 1%R else Ok (1 - sse / sst)%R).
  { unfold OLSSlices_Score. rewrite Hpred, Hlen, Hy. fold n.
    rewrite Nat.ltb_irrefl. cbv zeta.
    rewrite <- (fold_values_indices (fun meanY val => f_add meanY val) y f_zero).
    rewrite Hy. fold n. exact_ops.
    change (fold_left (fun acc i => acc + at1 y i) (seq 0 n) 0)%R
      with (rsum (fun i => at1 y i) (seq 0 n)).
    change (f_of_int (Z.of_nat n)) with (IZR (Z.of_nat n)). fold m.
    rewrite <- (fold_values_indices
                  (fun sst val => (sst + (val - m) * (val - m))%R) y 0%R).
    rewrite Hy. fold n.
    change (fold_left (fun acc i => acc + (at1 y i - m) * (at1 y i - m)) (seq 0 n) 0)%R
      with sst.
    replace (fold_left (fun sse i => sse + (at1 y i - at1 predictions i)
                                           * (at1 y i - at1 predictions i))
                       (seq 0 n) 0)%R with sse; [reflexivity|].
    apply rsum_ext. intros i Hin. apply in_seq in Hin. rewrite Hat by lia. reflexivity. }
  assert (Hsse : (0 <= sse)%R)
    by (apply rsum_nonneg; intros i _; exact (Rle_0_sqr _)).
  assert (Hsst : (0 <= sst)%R)
    by (apply rsum_nonneg; intros i _; exact (Rle_0_sqr _)).
  rewrite Hscore. destruct (Req_dec_T sst 0) as [Hz|Hnz].
  - exists 1%R. replace (Reqb sst 0) with true by (symmetry; apply Reqb_true; exact Hz).
    split; [reflexivity|]. split; [lra|]. intros _. lra.
  - exists (1 - sse / sst)%R.
    replace (Reqb sst 0) with false by (symmetry; apply Reqb_false; exact Hnz).
    assert (Hpos : (0 < sst)%R) by lra.
    split; [reflexivity|]. split.
    + assert (0 <= sse / sst)%R.
      { unfold Rdiv. apply Rmult_le_pos; [exact Hsse|].
        apply Rlt_le, Rinv_0_lt_compat. exact Hpos. }
      lra.
    + intros Hint. specialize (Hsum Hint).
      pose proof (@residuals_orthogonal_to_fit o' X y Horth Hsum) as Hcross.
      fold n in Hsum, Hcross.
      assert (Hsplit : sst = (sse + rsum (fun i => (linearPrediction o' X i - m) * (linearPrediction o' X i - m)) (seq 0 n))%R).
      { unfold sst, sse.
        rewrite (rsum_ext _ (fun i => ((at1 y i - linearPrediction o' X i) * (at1 y i - linearPrediction o' X i)
                                       + (linearPrediction o' X i - m) * (linearPrediction o' X i - m))
                                      + (2 * ((at1 y i - linearPrediction o' X i) * linearPrediction o' X i)
                                         - (2 * m) * (at1 y i - linearPrediction o' X i)))%R)
          by (intros i _; ring).
        rewrite rsum_plus, rsum_plus, rsum_linear, rsum_scale_l, Hcross, Hsum. ring. }
      assert (Hfit2 : (0 <= rsum (fun i => (linearPrediction o' X i - m) * (linearPrediction o' X i - m)) (seq 0 n))%R)
        by (apply rsum_nonneg; intros i _; exact (Rle_0_sqr _)).
      assert (sse / sst <= 1)%R.
      { apply (Rmult_le_reg_r sst); [exact Hpos|].
        unfold Rdiv. rewrite Rmult_assoc, Rinv_l by exact Hnz. lra. }
      lra.
Qed.

Lemma OLSSlices_Score_training_witness :
  exists r2,
    OLSSlices_Score {| OLSSlices_Coefficients := [(3 / 14)%R];
                       OLSSlices_Intercept := (3 / 2)%R;
                       OLSSlices_FitIntercept := true |} [[1]; [2]; [4]]%R [1; 3; 2]%R
    = Ok r2 /\
    (0 <= r2 <= 1)%R.
Proof.
  destruct (@OLSSlices_Score_training (NewOLSSlices true)
              {| OLSSlices_Coefficients := [(3 / 14)%R];
                 OLSSlices_Intercept := (3 / 2)%R;
                 OLSSlices_FitIntercept := true |} [[1]; [2]; [4]]%R [1; 3; 2]%R)
    as (r2 & Hscore & Hle & Hge).
  - repeat constructor.
  - exact OLSSlices_Fit_intercept_example.
  - exists r2. split; [exact Hscore|]. split; [apply Hge; reflexivity | exact Hle].
Defined.

(** ** Normal equations solved with [Inverse], in real arithmetic *)

Section InverseReal.
Local Open Scope R_scope.

(** [inv] is a left inverse of the [q] by [q] matrix [M]. *)
Definition left_inverse (q : nat) (inv M : list (list R)) : Prop :=
  forall i k, (i < q)%nat -> (k < q)%nat ->
    rsum (fun j => at2 inv i j * at2 M j k) (seq 0 q) = if Nat.eqb i k then 1 else 0.

Lemma rsum_delta (g : nat -> R) (i q : nat) :
  (i < q)%nat ->
  rsum (fun l => (if Nat.eqb i l then 1 else 0) * g l) (seq 0 q) = g i.
Proof.
  intros Hi.
  assert (E : seq 0 q = seq 0 i ++ [i] ++ seq (S i) (q - S i)).
  { replace q with (i + S (q - S i))%nat at 1 by lia.
    rewrite seq_app. reflexivity. }
  rewrite E, !rsum_app, rsum_single, Nat.eqb_refl.
  rewrite (rsum_zero _ (seq 0 i)).
  2:{ intros l Hin. apply in_seq in Hin.
      replace (Nat.eqb i l) with false by (symmetry; apply Nat.eqb_neq; lia). ring. }
  rewrite (rsum_zero _ (seq (S i) (q - S i))).
  2:{ intros l Hin. apply in_seq in Hin.
      replace (Nat.eqb i l) with false by (symmetry; apply Nat.eqb_neq; lia). ring. }
  ring.
Qed.

(** When the targets are an exact linear combination [XD * beta] of the
    columns of the design matrix and [inv] is a left inverse of
    [XD^T XD], the product [inv * (XD^T y)] is [beta]. *)
Lemma normal_equations_recover (XD inv : list (list R)) (y beta : list R) (n q : nat) :
  length beta = q ->
  (forall i, (i < n)%nat ->
     at1 y i = rsum (fun l => at2 XD i l * at1 beta l) (seq 0 q)) ->
  left_inverse q inv (gram XD n q) ->
  mulVec inv (mulTransVec XD y n q) q = beta.
Proof.
  intros Hlen Hy Hinv. unfold mulVec.
  rewrite <- (map_nth_seq_id beta 0), Hlen.
  apply map_ext_in. intros i Hin. apply in_seq in Hin.
  change (rsum (fun k => at2 inv i k * at1 (mulTransVec XD y n q) k) (seq 0 q)
          = nth i beta 0).
  rewrite (rsum_ext _ (fun k => rsum (fun l => at2 inv i k * at2 (gram XD n q) k l * at1 beta l)
                                     (seq 0 q))).
  2:{ intros k Hk. apply in_seq in Hk.
      rewrite mulTransVec_entry_R by lia.
      rewrite (rsum_ext _ (fun s => rsum (fun l => at2 XD s k * at2 XD s l * at1 beta l)
                                         (seq 0 q))).
      2:{ intros s Hs. apply in_seq in Hs. rewrite Hy by lia.
          rewrite <- rsum_scale_l. apply rsum_ext. intros l _. ring. }
      rewrite rsum_swap, <- rsum_scale_l.
      apply rsum_ext. intros l Hl. apply in_seq in Hl.
      rewrite gram_entry_R by lia. rewrite rsum_scale. ring. }
  rewrite rsum_swap.
  rewrite (rsum_ext _ (fun l => (if Nat.eqb i l then 1 else 0) * at1 beta l)).
  2:{ intros l Hl. apply in_seq in Hl.
      rewrite rsum_scale, Hinv by lia. reflexivity. }
  rewrite rsum_delta by lia. reflexivity.
Qed.

Lemma rsum_two (g : nat -> R) : rsum g (seq 0 2) = g 0%nat + g 1%nat.
Proof. unfold rsum. cbn [seq fold_left]. ring. Qed.

End InverseReal.

Section GonumOLSReal.
Local Open Scope R_scope.

Lemma at2_withIntercept (X : list (list R)) (i j : nat) :
  (i < length X)%nat ->
  at2 (withIntercept X) i 0 = 1 /\
  ((j < length (hd [] X))%nat -> at2 (withIntercept X) i (S j) = at2 X i j).
Proof.
  intros Hi. unfold withIntercept, Dims, at2.
  rewrite nth_indep with (d' := (fun i => f_one :: map (fun j => nth j (nth i X []) f_zero)
                                                       (seq 0 (length (hd [] X)))) 0%nat)
    by (rewrite length_map, length_seq; exact Hi).
  rewrite (map_nth (fun i : nat => _)), seq_nth by exact Hi.
  split; [reflexivity|]. intros Hj. cbn [nth Nat.add].
  exact (@at1_table R Exact (fun j => nth j (nth i X []) f_zero) (length (hd [] X)) j Hj).
Qed.

Lemma predictRow_R (b0 : R) (beta : list R) (X : list (list R)) (p i : nat) :
  predictRow b0 beta X p i = b0 + rsum (fun j => at2 X i j * at1 beta j) (seq 0 p).
Proof.
  unfold predictRow. exact_ops. apply (fold_add_shift (fun j => at2 X i j * at1 beta j)).
Qed.

End GonumOLSReal.

(** X4. In real arithmetic, when the targets are an exact affine function
    [y[i] = b0 + sum_j X[i][j] * beta[j]] of the features and [Inverse]
    returns a left inverse of the normal matrix, the gonum-based
    [OLS.Fit] stores exactly [b0] as the intercept and [beta] as the
    coefficients, and [Predict] on the training matrix returns [y]. *)
Theorem OLS_Fit_recovers (L : Lapack R) (o : @OLS R) (X inv : list (list R))
  (y beta : list R) (b0 : R) :
  0 < length X -> 0 < length (hd [] X) ->
  length y = length X -> length beta = length (hd [] X) ->
  (forall i, i < length X ->
     at1 y i = (b0 + rsum (fun j => at2 X i j * at1 beta j) (seq 0 (length (hd [] X))))%R) ->
  Inverse (gram (withIntercept X) (length X) (S (length (hd [] X)))) = Some inv ->
  left_inverse (S (length (hd [] X))) inv
               (gram (withIntercept X) (length X) (S (length (hd [] X)))) ->
  OLS_Fit o X y = Ok {| OLS_Coefficients := Some beta; OLS_Intercept := b0;
                        OLS_isTrained := true |} /\
  OLS_Predict {| OLS_Coefficients := Some beta; OLS_Intercept := b0;
                 OLS_isTrained := true |} X = Ok y.
Proof.
  intros Hn Hp Hy Hbeta Hlin Hinv Hleft.
  set (n := length X) in *. set (p := length (hd [] X)) in *.
  assert (Hsolve : mulVec inv (mulTransVec (withIntercept X) y n (S p)) (S p) = b0 :: beta).
  { apply normal_equations_recover; [cbn [length]; congruence | | exact Hleft].
    intros i Hi. rewrite (Hlin i Hi), rsum_seq_S.
    destruct (@at2_withIntercept X i 0 Hi) as [H0 _]. rewrite H0.
    f_equal; [unfold at1; cbn [nth]; ring|].
    apply rsum_ext. intros j Hin. apply in_seq in Hin.
    destruct (@at2_withIntercept X i j Hi) as [_ HS]. rewrite HS by (fold p; lia).
    reflexivity. }
  split.
  - unfold OLS_Fit, Dims. fold n p.
    replace (Nat.eqb n 0) with false by (symmetry; apply Nat.eqb_neq; lia).
    replace (Nat.eqb p 0) with false by (symmetry; apply Nat.eqb_neq; lia).
    rewrite Hy, Nat.eqb_refl. cbn [orb negb]. rewrite Hinv, Hsolve.
    unfold coefficientsOf, at1. cbn [nth].
    rewrite <- Hbeta, map_nth_seq_id. reflexivity.
  - unfold OLS_Predict, predictLinear, Dims. fold n p.
    cbn [OLS_Coefficients OLS_Intercept vecLen vecData]. rewrite Hbeta, Nat.ltb_irrefl.
    rewrite andb_false_r. f_equal.
    transitivity (map (fun i => nth i y 0%R) (seq 0 (length y)));
      [|apply map_nth_seq_id].
    rewrite Hy. apply map_ext_in. intros i Hin. apply in_seq in Hin.
    rewrite predictRow_R. symmetry. apply (Hlin i). lia.
Qed.

(** A stand-in for [Inverse] that knows the inverse of one matrix. *)
Definition inverseTable (inv : list (list R)) : Lapack R := {|
  Cholesky := unit;
  Factorize := fun _ => None;
  SolveVecTo := fun _ _ => None;
  Inverse := fun _ => Some inv
|}.

Lemma OLS_Fit_recovers_witness :
  @OLS_Fit R Exact (inverseTable [[1; -1]; [-1; 2]]%R) NewOLS [[0]; [1]]%R [3; 5]%R
  = Ok {| OLS_Coefficients := Some [2%R]; OLS_Intercept := 3%R; OLS_isTrained := true |}.
Proof.
  apply (@OLS_Fit_recovers (inverseTable [[1; -1]; [-1; 2]]%R) NewOLS
           [[0]; [1]]%R [[1; -1]; [-1; 2]]%R [3; 5]%R [2%R] 3%R).
  - simpl. lia.
  - simpl. lia.
  - reflexivity.
  - reflexivity.
  - intros i Hi. simpl in Hi.
    destruct i as [|[|i]]; [| |lia]; unfold rsum, at2, at1; simpl; lra.
  - reflexivity.
  - intros i k Hi Hk. simpl in Hi, Hk.
    destruct i as [|[|i]]; [| |lia]; (destruct k as [|[|k]]; [| |lia]);
      unfold rsum, gram, gramEntry, withIntercept, Dims, at2, at1; simpl; exact_ops; lra.
Defined.

(** ** Ridge with [Lambda = 0] against OLS, in real arithmetic *)

Section RidgeZero.
Local Open Scope R_scope.

(** A solution of [M x = b] is what a left inverse of [M] makes of [b]. *)
Lemma left_inverse_solution (inv M : list (list R)) (x b : list R) (q : nat) :
  length x = q ->
  left_inverse q inv M ->
  (forall i, (i < q)%nat -> rsum (fun j => at2 M i j * at1 x j) (seq 0 q) = at1 b i) ->
  mulVec inv b q = x.
Proof.
  intros Hlen Hinv Hsol. unfold mulVec.
  rewrite <- (map_nth_seq_id x 0), Hlen.
  apply map_ext_in. intros i Hin. apply in_seq in Hin.
  change (rsum (fun k => at2 inv i k * at1 b k) (seq 0 q) = nth i x 0).
  rewrite (rsum_ext _ (fun k => rsum (fun j => at2 inv i k * at2 M k j * at1 x j) (seq 0 q))).
  2:{ intros k Hk. apply in_seq in Hk. rewrite <- (Hsol k) by lia.
      rewrite <- rsum_scale_l. apply rsum_ext. intros j _. ring. }
  rewrite rsum_swap.
  rewrite (rsum_ext _ (fun j => (if Nat.eqb i j then 1 else 0) * at1 x j)).
  2:{ intros j Hj. apply in_seq in Hj. rewrite rsum_scale, Hinv by lia. reflexivity. }
  rewrite rsum_delta by lia. reflexivity.
Qed.

(** With [Lambda = 0] the matrix Ridge factorizes has the entries of the
    matrix OLS inverts. *)
Lemma ridgeMatrix_zero_gram (r : @Ridge R) (X : list (list R)) (i j : nat) :
  Ridge_Lambda r = 0 ->
  (i <= length (hd [] X))%nat -> (j <= length (hd [] X))%nat ->
  at2 (ridgeMatrix r X) i j
  = at2 (gram (withIntercept X) (length X) (S (length (hd [] X)))) i j.
Proof.
  intros Hl Hi Hj.
  rewrite (@ridgeMatrix_zero_R r X Hl i j) by (unfold Dims; cbn [snd]; assumption).
  rewrite gram_entry_R by lia. unfold gramEntry, Dims. cbn [fst]. exact_ops.
  change (rsum (fun k => at2 (withIntercept X) k (Nat.min i j)
                         * at2 (withIntercept X) k (Nat.max i j)) (seq 0 (length X))
          = rsum (fun k => at2 (withIntercept X) k i * at2 (withIntercept X) k j)
                 (seq 0 (length X))).
  apply rsum_ext. intros k _.
  destruct (Nat.le_ge_cases i j) as [Hle|Hge].
  - rewrite Nat.min_l, Nat.max_r by exact Hle. reflexivity.
  - rewrite Nat.min_r, Nat.max_l by exact Hge. apply Rmult_comm.
Qed.

End RidgeZero.

(** C3. In real arithmetic, on a matrix that passes the checks of
    [OLS.Fit], when the first factorization of [Ridge.Fit] with
    [Lambda = 0] succeeds, [SolveVecTo] returns a solution of the
    factorized system and [Inverse] returns a left inverse of the normal
    matrix, both fits succeed and store the same intercept and the same
    coefficient vector. *)
Theorem Ridge_zero_matches_OLS (L : Lapack R) (r : @Ridge R) (o : @OLS R)
  (X inv : list (list R)) (y x : list R) (c : Cholesky) :
  0 < length X -> 0 < length (hd [] X) -> length y = length X ->
  Ridge_Lambda r = 0%R ->
  Factorize (ridgeMatrix r X) = Some c ->
  SolveVecTo c (mulTransVec (withIntercept X) y (length X) (S (length (hd [] X)))) = Some x ->
  length x = S (length (hd [] X)) ->
  (forall i, i <= length (hd [] X) ->
     rsum (fun j => at2 (ridgeMatrix r X) i j * at1 x j)%R (seq 0 (S (length (hd [] X))))
     = at1 (mulTransVec (withIntercept X) y (length X) (S (length (hd [] X)))) i) ->
  Inverse (gram (withIntercept X) (length X) (S (length (hd [] X)))) = Some inv ->
  left_inverse (S (length (hd [] X))) inv
               (gram (withIntercept X) (length X) (S (length (hd [] X)))) ->
  exists r' o',
    fst (Ridge_Fit r X y) = Ok r' /\
    OLS_Fit o X y = Ok o' /\
    Ridge_Intercept r' = OLS_Intercept o' /\
    Ridge_Coefficients r' = OLS_Coefficients o'.
Proof.
  intros Hn Hp Hy Hlambda Hfact Hsolve Hlen Hsol Hinv Hleft.
  set (n := length X) in *. set (p := length (hd [] X)) in *.
  assert (Hols : mulVec inv (mulTransVec (withIntercept X) y n (S p)) (S p) = x).
  { apply (@left_inverse_solution inv (gram (withIntercept X) n (S p)));
      [exact Hlen | exact Hleft |].
    intros i Hi. rewrite <- (Hsol i) by lia.
    apply rsum_ext. intros j Hj. apply in_seq in Hj.
    rewrite (@ridgeMatrix_zero_gram r X i j Hlambda) by (fold p; lia). reflexivity. }
  eexists. eexists. split; [|split].
  - unfold Ridge_Fit. rewrite Hfact. cbn [fst].
    unfold ridgeSolve, Dims. fold n p. rewrite Hy, Nat.eqb_refl. cbn [negb].
    rewrite Hsolve. reflexivity.
  - unfold OLS_Fit, Dims. fold n p.
    replace (Nat.eqb n 0) with false by (symmetry; apply Nat.eqb_neq; lia).
    replace (Nat.eqb p 0) with false by (symmetry; apply Nat.eqb_neq; lia).
    rewrite Hy, Nat.eqb_refl. cbn [orb negb]. rewrite Hinv, Hols. reflexivity.
  - split; reflexivity.
Qed.

(** The routines in exact arithmetic, for systems of two unknowns: the
    factorization succeeds on the positive definite matrices and on no
    other, [SolveVecTo] solves by Cramer's rule, and [Inverse] fails on
    the singular matrices and on no other. *)
Definition det2 (M : list (list R)) : R :=
  (at2 M 0 0 * at2 M 1 1 - at2 M 0 1 * at2 M 1 0)%R.

Definition solve2 (M : list (list R)) (b : list R) : list R :=
  [((at1 b 0 * at2 M 1 1 - at2 M 0 1 * at1 b 1) / det2 M)%R;
   ((at2 M 0 0 * at1 b 1 - at2 M 1 0 * at1 b 0) / det2 M)%R].

Definition inverse2 (M : list (list R)) : list (list R) :=
  [[(at2 M 1 1 / det2 M)%R; (- at2 M 0 1 / det2 M)%R];
   [(- at2 M 1 0 / det2 M)%R; (at2 M 0 0 / det2 M)%R]].

Definition exactLapack : Lapack R := {|
  Cholesky := list (list R);
  Factorize := fun M => if Rltb 0 (at2 M 0 0) && Rltb 0 (det2 M) then Some M else None;
  SolveVecTo := fun M b => Some (solve2 M b);
  Inverse := fun M => if Reqb (det2 M) 0 then None else Some (inverse2 M)
|}.

Lemma solve2_exact (M : list (list R)) (b : list R) (i : nat) :
  det2 M <> 0%R -> i <= 1 ->
  rsum (fun j => at2 M i j * at1 (solve2 M b) j)%R (seq 0 2) = at1 b i.
Proof.
  intros Hdet Hi. rewrite rsum_two. unfold solve2, det2 in *.
  destruct i as [|[|i]]; [| |lia]; unfold at1; cbn [nth]; field; exact Hdet.
Qed.

Lemma inverse2_exact (M : list (list R)) :
  det2 M <> 0%R -> left_inverse 2 (inverse2 M) M.
Proof.
  intros Hdet i k Hi Hk. rewrite rsum_two.
  unfold inverse2, det2 in *.
  set (a := at2 M 0 0) in *. set (b := at2 M 0 1) in *.
  set (c := at2 M 1 0) in *. set (d := at2 M 1 1) in *.
  destruct i as [|[|i]]; [| |lia]; (destruct k as [|[|k]]; [| |lia]);
    change (at2 M 0 0) with a; change (at2 M 0 1) with b;
    change (at2 M 1 0) with c; change (at2 M 1 1) with d;
    unfold at2; cbn [nth Nat.eqb]; field; exact Hdet.
Qed.

Ltac matrix_entries :=
  unfold det2, solve2, ridgeMatrix, addJitter, ridgeSym, gram, gramEntry, mulTransVec,
    withIntercept, Dims, setSym, ridgeEntry, zeros, at2, at1;
  simpl; exact_ops.

(** Two samples with distinct features: the normal matrix [[2, 1], [1, 1]]
    is positive definite. *)
Lemma Ridge_zero_matches_OLS_witness :
  exists r' o',
    fst (@Ridge_Fit R Exact exactLapack (NewRidge 0%R) [[0]; [1]]%R [3; 5]%R) = Ok r' /\
    @OLS_Fit R Exact exactLapack NewOLS [[0]; [1]]%R [3; 5]%R = Ok o' /\
    Ridge_Intercept r' = OLS_Intercept o' /\
    Ridge_Coefficients r' = OLS_Coefficients o'.
Proof.
  assert (Hridge : det2 (@ridgeMatrix R Exact (NewRidge 0%R) [[0]; [1]]%R) = 1%R)
    by (matrix_entries; lra).
  assert (Hgram : det2 (@gram R Exact (withIntercept [[0]; [1]]%R) 2 2) = 1%R)
    by (matrix_entries; lra).
  apply (@Ridge_zero_matches_OLS exactLapack (NewRidge 0%R) NewOLS [[0]; [1]]%R
           (inverse2 (@gram R Exact (withIntercept [[0]; [1]]%R) 2 2)) [3; 5]%R
           (solve2 (@ridgeMatrix R Exact (NewRidge 0%R) [[0]; [1]]%R)
                   (@mulTransVec R Exact (withIntercept [[0]; [1]]%R) [3; 5]%R 2 2))
           (@ridgeMatrix R Exact (NewRidge 0%R) [[0]; [1]]%R)).
  - simpl. lia.
  - simpl. lia.
  - reflexivity.
  - reflexivity.
  - cbn [Factorize exactLapack]. rewrite Hridge.
    replace (Rltb 0 (at2 (@ridgeMatrix R Exact (NewRidge 0%R) [[0]; [1]]%R) 0 0)) with true
      by (symmetry; apply Rltb_true; matrix_entries; lra).
    replace (Rltb 0 1) with true by (symmetry; apply Rltb_true; lra).
    reflexivity.
  - reflexivity.
  - reflexivity.
  - intros i Hi. cbn [length hd] in *. apply solve2_exact; [rewrite Hridge; lra | exact Hi].
  - cbn [Inverse exactLapack length hd]. rewrite Hgram.
    replace (Reqb 1 0) with false by (symmetry; apply Reqb_false; lra).
    reflexivity.
  - cbn [length hd]. apply inverse2_exact. rewrite Hgram. lra.
Defined.

(** C3 as stated fails on a feature column of zeros: the normal matrix
    [[2, 0], [0, 0]] is singular, [OLS.Fit] returns "failed to invert
    matrix", while [Ridge.Fit] with [Lambda = 0] fails its first
    factorization, adds 1e-10 to the diagonal, factorizes that matrix and
    returns an intercept and a coefficient. *)
Lemma Ridge_zero_singular :
  @OLS_Fit R Exact exactLapack NewOLS [[0]; [0]]%R [1; 3]%R = Error ErrInvertFailed /\
  (exists r', fst (@Ridge_Fit R Exact exactLapack (NewRidge 0%R) [[0]; [0]]%R [1; 3]%R) = Ok r' /\
              Ridge_Coefficients r' <> None) /\
  length (snd (@Ridge_Fit R Exact exactLapack (NewRidge 0%R) [[0]; [0]]%R [1; 3]%R)) = 2 /\
  ~ (forall (X : list (list R)) (y : list R) (r' : @Ridge R),
       fst (@Ridge_Fit R Exact exactLapack (NewRidge 0%R) X y) = Ok r' ->
       exists o', @OLS_Fit R Exact exactLapack NewOLS X y = Ok o' /\
                  Ridge_Intercept r' = OLS_Intercept o' /\
                  Ridge_Coefficients r' = OLS_Coefficients o').
Proof.
  assert (Hgram : det2 (@gram R Exact (withIntercept [[0]; [0]]%R) 2 2) = 0%R)
    by (matrix_entries; lra).
  assert (Hfirst : @Factorize R exactLapack (@ridgeMatrix R Exact (NewRidge 0%R) [[0]; [0]]%R)
                   = None).
  { cbn [Factorize exactLapack].
    replace (Rltb 0 (det2 (@ridgeMatrix R Exact (NewRidge 0%R) [[0]; [0]]%R))) with false
      by (symmetry; apply Rltb_false; matrix_entries; lra).
    rewrite andb_false_r. reflexivity. }
  assert (Hsecond : @Factorize R exactLapack
                      (addJitter (@ridgeMatrix R Exact (NewRidge 0%R) [[0]; [0]]%R) 2)
                    = Some (addJitter (@ridgeMatrix R Exact (NewRidge 0%R) [[0]; [0]]%R) 2)).
  { cbn [Factorize exactLapack].
    replace (Rltb 0 (at2 (addJitter (@ridgeMatrix R Exact (NewRidge 0%R) [[0]; [0]]%R) 2) 0 0))
      with true by (symmetry; apply Rltb_true; matrix_entries; lra).
    replace (Rltb 0 (det2 (addJitter (@ridgeMatrix R Exact (NewRidge 0%R) [[0]; [0]]%R) 2)))
      with true by (symmetry; apply Rltb_true; matrix_entries; lra).
    reflexivity. }
  assert (Hols : @OLS_Fit R Exact exactLapack NewOLS [[0]; [0]]%R [1; 3]%R
                 = Error ErrInvertFailed).
  { unfold OLS_Fit, Dims. cbn [length hd Nat.eqb orb negb Inverse exactLapack].
    rewrite Hgram.
    replace (Reqb 0 0) with true by (symmetry; apply Reqb_true; reflexivity).
    reflexivity. }
  assert (Hridge : exists r',
             fst (@Ridge_Fit R Exact exactLapack (NewRidge 0%R) [[0]; [0]]%R [1; 3]%R) = Ok r' /\
             Ridge_Coefficients r' <> None).
  { unfold Ridge_Fit. cbn [Dims snd length hd]. rewrite Hfirst, Hsecond. cbn [fst].
    unfold ridgeSolve, Dims. cbn [length hd Nat.eqb negb SolveVecTo exactLapack].
    eexists. split; [reflexivity|]. discriminate. }
  split; [exact Hols|]. split; [exact Hridge|]. split.
  - unfold Ridge_Fit. cbn [Dims snd length hd]. rewrite Hfirst, Hsecond. reflexivity.
  - intros Hclaim. destruct Hridge as (r' & Hfit & _).
    destruct (Hclaim _ _ _ Hfit) as (o' & Ho & _).
    rewrite Hols in Ho. discriminate.
Qed.

(** ** The nonlinear models: [Fit] *)

(** The errors [Fit] builds with [fmt.Errorf]. *)
Inductive FitError : Type :=
| ErrSingleFeature     (* "... requires single feature input" *)
| ErrNonPositiveX      (* "... requires all x values to be positive" *)
| ErrNonPositiveY      (* "... requires all y values to be positive" *)
| ErrSingularNormalMatrix. (* "singular matrix in ... regression: ..." *)

(** One round of a checking loop: go on, return an error, or panic. *)
Inductive guard : Type :=
| Pass
| Reject (e : FitError)
| Crash.

Fixpoint firstFailure (check : nat -> guard) (indices : list nat) : guard :=
  match indices with
  | [] => Pass
  | i :: rest =>
      match check i with
      | Pass => firstFailure check rest
      | stop => stop
      end
  end.

Section NonlinearFit.
Context {F : Type} `{Float64 F} `{MathLib F} `{Lapack F}.
Local Open Scope f64_scope.

(** [beta.MulVec(&invXTX, &XTY)] after [invXTX.Inverse(&XTX)], the
    product [X^T y] taken when the inverse is there: [Inverse] failing is
    an error, [MulVec] on a [y] of another length than the rows panics. *)
Definition solveNormal (XDesign : list (list F)) (y : list F) (n q : nat)
  : outcome FitError (list F) :=
  match Inverse (gram XDesign n q) with
  | None => Failed ErrSingularNormalMatrix
  | Some invXTX =>
      if negb (Nat.eqb (length y) n) then Panicked
      else Returned (mulVec invXTX (mulTransVec XDesign y n q) q)
  end.

(** [XPoly.Set(i, j, math.Pow(x, float64(j)))] for [j <= Degree]. *)
Definition polynomialDesign (X : list (list F)) (n terms : nat) : list (list F) :=
  map (fun i => map (fun j => math_Pow (at2 X i 0) (f_of_int (Z.of_nat j))) (seq 0 terms))
      (seq 0 n).

(** [mat.NewDense(n, p.Degree+1, nil)] panics unless [Degree + 1 > 0]. *)
Definition Polynomial_Fit (p : @Polynomial F) (X : list (list F)) (y : list F)
  : outcome FitError (@Polynomial F) :=
  let '(n, cols) := Dims X in
  if negb (Nat.eqb cols 1) then Failed ErrSingleFeature
  else if (Polynomial_Degree p + 1 <=? 0)%Z then Panicked
  else
    let terms := Z.to_nat (Polynomial_Degree p + 1) in
    match solveNormal (polynomialDesign X n terms) y n terms with
    | Failed e => Failed e
    | Panicked => Panicked
    | Returned coefficients =>
        Returned {| Polynomial_Coefficients := Some coefficients;
                    Polynomial_Degree := Polynomial_Degree p;
                    Polynomial_isTrained := true |}
    end.

(** [if y.At(i, 0) <= 0 { return ... }]; [At] panics past the end of [y]. *)
Definition positiveTarget (y : list F) (i : nat) : guard :=
  if Nat.leb (length y) i then Crash
  else if at1 y i <=? f_zero then Reject ErrNonPositiveY
  else Pass.

(** [if X.At(i, 0) <= 0 { return ... }] *)
Definition positiveFeature (X : list (list F)) (i : nat) : guard :=
  if at2 X i 0 <=? f_zero then Reject ErrNonPositiveX else Pass.

(** The design matrix [[1, x]] and the logarithms of the targets. *)
Definition exponentialDesign (X : list (list F)) (n : nat) : list (list F) :=
  map (fun i => [f_one; at2 X i 0]) (seq 0 n).

Definition logTargets (y : list F) (n : nat) : list F :=
  map (fun i => math_Log (at1 y i)) (seq 0 n).

Definition Exponential_Fit (e : @Exponential F) (X : list (list F)) (y : list F)
  : outcome FitError (@Exponential F) :=
  let '(n, cols) := Dims X in
  if negb (Nat.eqb cols 1) then Failed ErrSingleFeature
  else
    match firstFailure (positiveTarget y) (seq 0 n) with
    | Reject e => Failed e
    | Crash => Panicked
    | Pass =>
        match solveNormal (exponentialDesign X n) (logTargets y n) n 2 with
        | Failed e => Failed e
        | Panicked => Panicked
        | Returned beta =>
            Returned {| Exponential_A := math_Exp (at1 beta 0);
                        Exponential_B := at1 beta 1;
                        Exponential_isTrained := true |}
        end
    end.

(** The design matrix [[ln(x), 1]]. *)
Definition logarithmicDesign (X : list (list F)) (n : nat) : list (list F) :=
  map (fun i => [math_Log (at2 X i 0); f_one]) (seq 0 n).

Definition Logarithmic_Fit (l : @Logarithmic F) (X : list (list F)) (y : list F)
  : outcome FitError (@Logarithmic F) :=
  let '(n, cols) := Dims X in
  if negb (Nat.eqb cols 1) then Failed ErrSingleFeature
  else
    match firstFailure (positiveFeature X) (seq 0 n) with
    | Reject e => Failed e
    | Crash => Panicked
    | Pass =>
        match solveNormal (logarithmicDesign X n) y n 2 with
        | Failed e => Failed e
        | Panicked => Panicked
        | Returned beta =>
            Returned {| Logarithmic_A := at1 beta 0;
                        Logarithmic_B := at1 beta 1;
                        Logarithmic_isTrained := true |}
        end
    end.

(** Both checks of one round, the feature first. *)
Definition positiveSample (X : list (list F)) (y : list F) (i : nat) : guard :=
  match positiveFeature X i with
  | Pass => positiveTarget y i
  | stop => stop
  end.

(** The design matrix [[1, ln(x)]]. *)
Definition powerDesign (X : list (list F)) (n : nat) : list (list F) :=
  map (fun i => [f_one; math_Log (at2 X i 0)]) (seq 0 n).

Definition Power_Fit (p : @Power F) (X : list (list F)) (y : list F)
  : outcome FitError (@Power F) :=
  let '(n, cols) := Dims X in
  if negb (Nat.eqb cols 1) then Failed ErrSingleFeature
  else
    match firstFailure (positiveSample X y) (seq 0 n) with
    | Reject e => Failed e
    | Crash => Panicked
    | Pass =>
        match solveNormal (powerDesign X n) (logTargets y n) n 2 with
        | Failed e => Failed e
        | Panicked => Panicked
        | Returned beta =>
            Returned {| Power_A := math_Exp (at1 beta 0);
                        Power_B := at1 beta 1;
                        Power_isTrained := true |}
        end
    end.

End NonlinearFit.

Section NonlinearFitFacts.
Local Open Scope R_scope.

Lemma firstFailure_pass (check : nat -> guard) (indices : list nat) :
  (forall i, In i indices -> check i = Pass) -> firstFailure check indices = Pass.
Proof.
  induction indices as [|i rest IH]; intros Hpass; [reflexivity|].
  cbn [firstFailure]. rewrite (Hpass i) by (left; reflexivity).
  apply IH. intros j Hj. apply Hpass. right. exact Hj.
Qed.

Lemma at2_rows (row : nat -> list R) (n i j : nat) :
  (i < n)%nat -> at2 (map row (seq 0 n)) i j = at1 (row i) j.
Proof.
  intros Hi. unfold at2, at1.
  rewrite nth_indep with (d' := row 0%nat) by (rewrite length_map, length_seq; exact Hi).
  rewrite map_nth, seq_nth by exact Hi. reflexivity.
Qed.

Lemma map_nth_firstn (y : list R) (n : nat) :
  (n <= length y)%nat -> map (fun i => at1 y i) (seq 0 n) = firstn n y.
Proof.
  intros Hn. rewrite <- (map_nth_seq_id (firstn n y) 0).
  rewrite length_firstn, Nat.min_l by exact Hn.
  apply map_ext_in. intros i Hin. apply in_seq in Hin. unfold at1.
  rewrite <- (firstn_skipn n y) at 1.
  rewrite app_nth1 by (rewrite length_firstn; lia). reflexivity.
Qed.

(** The normal equations of an exactly linear target, solved through a
    left inverse, return its coefficients. *)
Lemma solveNormal_recovers (L : Lapack R) (XD inv : list (list R)) (y beta : list R)
  (n q : nat) :
  length y = n -> length beta = q ->
  (forall i, (i < n)%nat ->
     at1 y i = rsum (fun l => at2 XD i l * at1 beta l) (seq 0 q)) ->
  Inverse (gram XD n q) = Some inv ->
  left_inverse q inv (gram XD n q) ->
  solveNormal XD y n q = Returned beta.
Proof.
  intros Hy Hbeta Hlin Hinv Hleft. unfold solveNormal.
  rewrite Hinv, Hy, Nat.eqb_refl. cbn [negb]. f_equal.
  apply normal_equations_recover; assumption.
Qed.

End NonlinearFitFacts.

(** X5. In real arithmetic, when the targets follow [y = a * exp(b * x)]
    exactly with [a > 0] and [Inverse] returns a left inverse of the
    normal matrix of the design [[1, x]], [Exponential.Fit] passes its
    positivity check and stores exactly [A = a] and [B = b]; [Predict] on
    the training matrix then returns the targets.  Entries of [y] beyond
    the rows of [X] are ignored. *)
Theorem Exponential_Fit_recovers (L : Lapack R) (e : @Exponential R)
  (X inv : list (list R)) (y : list R) (a b : R) :
  length (hd [] X) = 1 -> length X <= length y -> (0 < a)%R ->
  (forall i, i < length X -> at1 y i = (a * exp (b * at2 X i 0))%R) ->
  Inverse (gram (exponentialDesign X (length X)) (length X) 2) = Some inv ->
  left_inverse 2 inv (gram (exponentialDesign X (length X)) (length X) 2) ->
  @Exponential_Fit R Exact ExactMath L e X y
  = Returned {| Exponential_A := a; Exponential_B := b; Exponential_isTrained := true |} /\
  @Exponential_Predict R Exact ExactMath
    {| Exponential_A := a; Exponential_B := b; Exponential_isTrained := true |} X
  = Ok (firstn (length X) y).
Proof.
  intros Hcols Hy Ha Hexp Hinv Hleft. set (n := length X) in *.
  assert (Hpos : forall i, i < n -> (0 < at1 y i)%R).
  { intros i Hi. rewrite (Hexp i Hi). apply Rmult_lt_0_compat; [exact Ha | apply exp_pos]. }
  split.
  - unfold Exponential_Fit, Dims. fold n. rewrite Hcols. cbn [Nat.eqb negb].
    rewrite firstFailure_pass.
    2:{ intros i Hin. apply in_seq in Hin. unfold positiveTarget.
        replace (Nat.leb (length y) i) with false by (symmetry; apply Nat.leb_gt; lia).
        exact_ops. replace (Rleb (at1 y i) 0) with false; [reflexivity|].
        symmetry. destruct (Rleb (at1 y i) 0) eqn:E; [|reflexivity].
        apply Rleb_true in E. specialize (Hpos i ltac:(lia)). lra. }
    rewrite (@solveNormal_recovers L _ inv _ [ln a; b] n 2); try assumption.
    + cbn [at1 nth]. change (math_Exp (ln a)) with (exp (ln a)).
      rewrite exp_ln by exact Ha. reflexivity.
    + unfold logTargets. rewrite length_map, length_seq. reflexivity.
    + reflexivity.
    + intros i Hi. unfold logTargets, exponentialDesign.
      rewrite (@at1_table R Exact (fun i => math_Log (at1 y i)) n i Hi).
      rewrite rsum_two, !at2_rows by exact Hi.
      change (math_Log (at1 y i)) with (ln (at1 y i)).
      rewrite (Hexp i Hi), ln_mult, ln_exp by (try exact Ha; apply exp_pos).
      unfold at1. cbn [nth]. exact_ops. ring.
  - unfold Exponential_Predict, Dims. fold n. rewrite Hcols. cbn [Nat.eqb negb]. f_equal.
    cbn [Exponential_A Exponential_B].
    rewrite <- (map_nth_firstn y Hy).
    apply map_ext_in. intros i Hin. apply in_seq in Hin. symmetry. apply (Hexp i). lia.
Qed.

Lemma Exponential_Fit_recovers_witness :
  @Exponential_Fit R Exact ExactMath (inverseTable [[1; -1]; [-1; 2]]%R) NewExponential
    [[0]; [1]]%R [(2 * exp (3 * 0))%R; (2 * exp (3 * 1))%R]
  = Returned {| Exponential_A := 2%R; Exponential_B := 3%R; Exponential_isTrained := true |}.
Proof.
  apply (@Exponential_Fit_recovers (inverseTable [[1; -1]; [-1; 2]]%R) NewExponential
           [[0]; [1]]%R [[1; -1]; [-1; 2]]%R).
  - reflexivity.
  - simpl. lia.
  - lra.
  - intros i Hi. simpl in Hi. destruct i as [|[|i]]; [reflexivity | reflexivity | lia].
  - reflexivity.
  - intros i k Hi Hk.
    destruct i as [|[|i]]; [| |lia]; (destruct k as [|[|k]]; [| |lia]);
      unfold rsum, gram, gramEntry, exponentialDesign, at2, at1; simpl; exact_ops; lra.
Defined.

(** X6. In real arithmetic, when every [x] is positive, the targets
    follow [y = a * ln(x) + b] exactly and [Inverse] returns a left
    inverse of the normal matrix of the design [[ln(x), 1]],
    [Logarithmic.Fit] stores exactly [A = a] and [B = b], and [Predict]
    on the training matrix returns [y]. *)
Theorem Logarithmic_Fit_recovers (L : Lapack R) (l : @Logarithmic R)
  (X inv : list (list R)) (y : list R) (a b : R) :
  length (hd [] X) = 1 -> length y = length X ->
  (forall i, i < length X -> (0 < at2 X i 0)%R) ->
  (forall i, i < length X -> at1 y i = (a * ln (at2 X i 0) + b)%R) ->
  Inverse (gram (logarithmicDesign X (length X)) (length X) 2) = Some inv ->
  left_inverse 2 inv (gram (logarithmicDesign X (length X)) (length X) 2) ->
  @Logarithmic_Fit R Exact ExactMath L l X y
  = Returned {| Logarithmic_A := a; Logarithmic_B := b; Logarithmic_isTrained := true |} /\
  @Logarithmic_Predict R Exact ExactMath
    {| Logarithmic_A := a; Logarithmic_B := b; Logarithmic_isTrained := true |} X
  = Ok y.
Proof.
  intros Hcols Hy Hx Hlog Hinv Hleft. set (n := length X) in *.
  assert (Hleb : forall i, i < n -> Rleb (at2 X i 0) 0 = false).
  { intros i Hi. destruct (Rleb (at2 X i 0) 0) eqn:E; [|reflexivity].
    apply Rleb_true in E. specialize (Hx i Hi). lra. }
  split.
  - unfold Logarithmic_Fit, Dims. fold n. rewrite Hcols. cbn [Nat.eqb negb].
    rewrite firstFailure_pass.
    2:{ intros i Hin. apply in_seq in Hin. unfold positiveFeature. exact_ops.
        rewrite Hleb by lia. reflexivity. }
    rewrite (@solveNormal_recovers L _ inv _ [a; b] n 2); try assumption.
    + reflexivity.
    + reflexivity.
    + intros i Hi. unfold logarithmicDesign.
      rewrite rsum_two, !at2_rows by exact Hi. rewrite (Hlog i Hi).
      unfold at1. cbn [nth]. change (math_Log (at2 X i 0)) with (ln (at2 X i 0)).
      exact_ops. ring.
  - unfold Logarithmic_Predict, Dims. fold n. rewrite Hcols. cbn [Nat.eqb negb].
    replace (existsb (fun i => f_leb (at2 X i 0) f_zero) (seq 0 n)) with false.
    2:{ symmetry. destruct (existsb _ _) eqn:E; [|reflexivity].
        apply existsb_exists in E. destruct E as (i & Hin & Hle). apply in_seq in Hin.
        exact_ops. rewrite Hleb in Hle by lia. discriminate. }
    f_equal. cbn [Logarithmic_A Logarithmic_B].
    transitivity (map (fun i => nth i y 0%R) (seq 0 (length y))); [|apply map_nth_seq_id].
    rewrite Hy. fold n. apply map_ext_in. intros i Hin. apply in_seq in Hin.
    symmetry. apply (Hlog i). lia.
Qed.

Lemma Logarithmic_Fit_recovers_witness :
  @Logarithmic_Fit R Exact ExactMath (inverseTable [[2; -1]; [-1; 1]]%R) NewLogarithmic
    [[1]; [exp 1]]%R [(2 * ln 1 + 3)%R; (2 * ln (exp 1) + 3)%R]
  = Returned {| Logarithmic_A := 2%R; Logarithmic_B := 3%R; Logarithmic_isTrained := true |}.
Proof.
  apply (@Logarithmic_Fit_recovers (inverseTable [[2; -1]; [-1; 1]]%R) NewLogarithmic
           [[1]; [exp 1]]%R [[2; -1]; [-1; 1]]%R).
  - reflexivity.
  - reflexivity.
  - intros i Hi. simpl in Hi.
    destruct i as [|[|i]]; [| |lia]; unfold at2; simpl; [lra | apply exp_pos].
  - intros i Hi. simpl in Hi. destruct i as [|[|i]]; [reflexivity | reflexivity | lia].
  - reflexivity.
  - intros i k Hi Hk.
    destruct i as [|[|i]]; [| |lia]; (destruct k as [|[|k]]; [| |lia]);
      unfold rsum, gram, gramEntry, logarithmicDesign, at2, at1; simpl; exact_ops;
      change (math_Log 1) with (ln 1); change (math_Log (exp 1)) with (ln (exp 1));
      rewrite ln_1, ln_exp; lra.
Defined.

(** X7. In real arithmetic, when every [x] is positive, the targets
    follow [y = a * x^b] exactly with [a > 0] and [Inverse] returns a
    left inverse of the normal matrix of the design [[1, ln(x)]],
    [Power.Fit] passes both positivity checks and stores exactly [A = a]
    and [B = b]; [Predict] on the training matrix then returns the
    targets.  Entries of [y] beyond the rows of [X] are ignored. *)
Theorem Power_Fit_recovers (L : Lapack R) (p : @Power R)
  (X inv : list (list R)) (y : list R) (a b : R) :
  length (hd [] X) = 1 -> length X <= length y -> (0 < a)%R ->
  (forall i, i < length X -> (0 < at2 X i 0)%R) ->
  (forall i, i < length X -> at1 y i = (a * Rpower (at2 X i 0) b)%R) ->
  Inverse (gram (powerDesign X (length X)) (length X) 2) = Some inv ->
  left_inverse 2 inv (gram (powerDesign X (length X)) (length X) 2) ->
  @Power_Fit R Exact ExactMath L p X y
  = Returned {| Power_A := a; Power_B := b; Power_isTrained := true |} /\
  @Power_Predict R Exact ExactMath
    {| Power_A := a; Power_B := b; Power_isTrained := true |} X
  = Ok (firstn (length X) y).
Proof.
  intros Hcols Hy Ha Hx Hpow Hinv Hleft. set (n := length X) in *.
  assert (Hleb : forall i, i < n -> Rleb (at2 X i 0) 0 = false).
  { intros i Hi. destruct (Rleb (at2 X i 0) 0) eqn:E; [|reflexivity].
    apply Rleb_true in E. specialize (Hx i Hi). lra. }
  assert (Hpos : forall i, i < n -> (0 < at1 y i)%R).
  { intros i Hi. rewrite (Hpow i Hi).
    apply Rmult_lt_0_compat; [exact Ha | apply exp_pos]. }
  split.
  - unfold Power_Fit, Dims. fold n. rewrite Hcols. cbn [Nat.eqb negb].
    rewrite firstFailure_pass.
    2:{ intros i Hin. apply in_seq in Hin. unfold positiveSample, positiveFeature.
        exact_ops. rewrite Hleb by lia. unfold positiveTarget.
        replace (Nat.leb (length y) i) with false by (symmetry; apply Nat.leb_gt; lia).
        exact_ops. replace (Rleb (at1 y i) 0) with false; [reflexivity|].
        symmetry. destruct (Rleb (at1 y i) 0) eqn:E; [|reflexivity].
        apply Rleb_true in E. specialize (Hpos i ltac:(lia)). lra. }
    rewrite (@solveNormal_recovers L _ inv _ [ln a; b] n 2); try assumption.
    + cbn [at1 nth]. change (math_Exp (ln a)) with (exp (ln a)).
      rewrite exp_ln by exact Ha. reflexivity.
    + unfold logTargets. rewrite length_map, length_seq. reflexivity.
    + reflexivity.
    + intros i Hi. unfold logTargets, powerDesign.
      rewrite (@at1_table R Exact (fun i => math_Log (at1 y i)) n i Hi).
      rewrite rsum_two, !at2_rows by exact Hi.
      change (math_Log (at1 y i)) with (ln (at1 y i)).
      change (math_Log (at2 X i 0)) with (ln (at2 X i 0)).
      rewrite (Hpow i Hi). unfold Rpower.
      rewrite ln_mult, ln_exp by (try exact Ha; apply exp_pos).
      unfold at1. cbn [nth]. exact_ops. ring.
  - unfold Power_Predict, Dims. fold n. rewrite Hcols. cbn [Nat.eqb negb].
    replace (existsb (fun i => f_leb (at2 X i 0) f_zero) (seq 0 n)) with false.
    2:{ symmetry. destruct (existsb _ _) eqn:E; [|reflexivity].
        apply existsb_exists in E. destruct E as (i & Hin & Hle). apply in_seq in Hin.
        exact_ops. rewrite Hleb in Hle by lia. discriminate. }
    f_equal. cbn [Power_A Power_B].
    rewrite <- (map_nth_firstn y Hy).
    apply map_ext_in. intros i Hin. apply in_seq in Hin. symmetry. apply (Hpow i). lia.
Qed.

Lemma Power_Fit_recovers_witness :
  @Power_Fit R Exact ExactMath (inverseTable [[1; -1]; [-1; 2]]%R) NewPower
    [[1]; [exp 1]]%R [(2 * Rpower 1 3)%R; (2 * Rpower (exp 1) 3)%R]
  = Returned {| Power_A := 2%R; Power_B := 3%R; Power_isTrained := true |}.
Proof.
  apply (@Power_Fit_recovers (inverseTable [[1; -1]; [-1; 2]]%R) NewPower
           [[1]; [exp 1]]%R [[1; -1]; [-1; 2]]%R).
  - reflexivity.
  - simpl. lia.
  - lra.
  - intros i Hi. simpl in Hi.
    destruct i as [|[|i]]; [| |lia]; unfold at2; simpl; [lra | apply exp_pos].
  - intros i Hi. simpl in Hi. destruct i as [|[|i]]; [reflexivity | reflexivity | lia].
  - reflexivity.
  - intros i k Hi Hk.
    destruct i as [|[|i]]; [| |lia]; (destruct k as [|[|k]]; [| |lia]);
      unfold rsum, gram, gramEntry, powerDesign, at2, at1; simpl; exact_ops;
      change (math_Log 1) with (ln 1); change (math_Log (exp 1)) with (ln (exp 1));
      rewrite ln_1, ln_exp; lra.
Defined.

(** X8. In real arithmetic, for a degree [d >= 0], when the targets are
    exactly [y = sum_{j <= d} c[j] * math.Pow(x, j)] and [Inverse]
    returns a left inverse of the normal matrix of the powers of [x],
    [Polynomial.Fit] stores exactly the coefficients [c], and [Predict]
    on the training matrix returns [y].  The statement does not depend on
    what [math.Pow] computes. *)
Theorem Polynomial_Fit_recovers (M : MathLib R) (L : Lapack R) (p : @Polynomial R)
  (X inv : list (list R)) (y c : list R) :
  length (hd [] X) = 1 -> length y = length X ->
  (0 <= Polynomial_Degree p)%Z ->
  length c = Z.to_nat (Polynomial_Degree p + 1) ->
  (forall i, i < length X ->
     at1 y i = rsum (fun j => at1 c j * math_Pow (at2 X i 0) (IZR (Z.of_nat j)))%R
                    (seq 0 (length c))) ->
  Inverse (gram (polynomialDesign X (length X) (length c)) (length X) (length c))
  = Some inv ->
  left_inverse (length c) inv
    (gram (polynomialDesign X (length X) (length c)) (length X) (length c)) ->
  @Polynomial_Fit R Exact M L p X y
  = Returned {| Polynomial_Coefficients := Some c;
                Polynomial_Degree := Polynomial_Degree p;
                Polynomial_isTrained := true |} /\
  @Polynomial_Predict R Exact M
    {| Polynomial_Coefficients := Some c;
       Polynomial_Degree := Polynomial_Degree p;
       Polynomial_isTrained := true |} X
  = Ok y.
Proof.
  intros Hcols Hy Hdeg Hc Hpoly Hinv Hleft. set (n := length X) in *.
  split.
  - unfold Polynomial_Fit, Dims. fold n. rewrite Hcols. cbn [Nat.eqb negb].
    replace (Polynomial_Degree p + 1 <=? 0)%Z with false by (symmetry; apply Z.leb_gt; lia).
    rewrite <- Hc.
    rewrite (@solveNormal_recovers L _ inv _ c n (length c)); try assumption;
      [reflexivity | reflexivity |].
    intros i Hi. rewrite (Hpoly i Hi). apply rsum_ext. intros j Hin. apply in_seq in Hin.
    unfold polynomialDesign.
    rewrite (@at2_table R Exact
               (fun i j => math_Pow (at2 X i 0) (f_of_int (Z.of_nat j))) n (length c) i j)
      by lia.
    change (@f_of_int R Exact) with IZR. ring.
  - unfold Polynomial_Predict, Dims. fold n. rewrite Hcols. cbn [Nat.eqb negb].
    cbn [Polynomial_Coefficients Polynomial_Degree vecLen vecData].
    rewrite <- Hc, Nat.ltb_irrefl, andb_false_r. f_equal.
    transitivity (map (fun i => nth i y 0%R) (seq 0 (length y))); [|apply map_nth_seq_id].
    rewrite Hy. fold n. apply map_ext_in. intros i Hin. apply in_seq in Hin.
    exact_ops. change (@f_of_int R Exact) with IZR.
    rewrite (fold_add_shift
               (fun j => at1 c j * math_Pow (at2 X i 0) (IZR (Z.of_nat j)))%R).
    rewrite Rplus_0_l. symmetry. apply (Hpoly i). lia.
Qed.

Lemma Polynomial_Fit_recovers_witness :
  @Polynomial_Fit R Exact ExactMath (inverseTable [[5; -3]; [-3; 2]]%R) (NewPolynomial 1)
    [[1]; [2]]%R
    [(0 + 4 * Rpower 1 0 + 7 * Rpower 1 1)%R; (0 + 4 * Rpower 2 0 + 7 * Rpower 2 1)%R]
  = Returned {| Polynomial_Coefficients := Some [4; 7]%R;
                Polynomial_Degree := 1;
                Polynomial_isTrained := true |}.
Proof.
  apply (@Polynomial_Fit_recovers ExactMath (inverseTable [[5; -3]; [-3; 2]]%R)
           (NewPolynomial 1) [[1]; [2]]%R [[5; -3]; [-3; 2]]%R _ [4; 7]%R).
  - reflexivity.
  - reflexivity.
  - simpl. lia.
  - reflexivity.
  - intros i Hi. simpl in Hi. destruct i as [|[|i]]; [reflexivity | reflexivity | lia].
  - reflexivity.
  - intros i k Hi Hk. simpl in Hi, Hk.
    destruct i as [|[|i]]; [| |lia]; (destruct k as [|[|k]]; [| |lia]);
      unfold rsum, gram, gramEntry, polynomialDesign, at2, at1; simpl; exact_ops;
      change (@math_Pow R ExactMath) with Rpower; change (@f_of_int R Exact) with IZR;
      rewrite ?Rpower_O, ?Rpower_1 by lra; lra.
Defined.

Section GuardFacts.

Lemma firstFailure_reject (check : nat -> guard) (Q : FitError -> Prop) (indices : list nat) :
  (forall i, In i indices -> check i = Pass \/ exists e, check i = Reject e /\ Q e) ->
  (exists i, In i indices /\ check i <> Pass) ->
  exists e, firstFailure check indices = Reject e /\ Q e.
Proof.
  induction indices as [|i rest IH]; intros Hall (j & Hin & Hstop); [destruct Hin|].
  cbn [firstFailure].
  destruct (Hall i (or_introl eq_refl)) as [Hpass|(e & Hreject & He)].
  - rewrite Hpass. apply IH.
    + intros k Hk. apply Hall. right. exact Hk.
    + destruct Hin as [->|Hin]; [contradiction|]. exists j. split; assumption.
  - rewrite Hreject. exists e. split; [reflexivity | exact He].
Qed.

End GuardFacts.

(** X9. The positivity checks of the log-linearised fits come before any
    numeric work and decide on the comparison [<= 0] alone.  With one
    feature column and at least one target per row: [Exponential.Fit]
    returns the error on [y] as soon as one target compares [<= 0],
    [Logarithmic.Fit] the error on [x] as soon as one feature does, and
    [Power.Fit] one of the two, whatever [Inverse] would answer.  When no
    comparison holds (positive values, and [NaN] in binary64) the checks
    pass and an [Inverse] that fails makes [Fit] return the
    singular-matrix error. *)
Theorem nonlinear_Fit_positivity (F : Type) (Hf : Float64 F) (M : MathLib F) (L : Lapack F)
  (e : @Exponential F) (l : @Logarithmic F) (p : @Power F)
  (X : list (list F)) (y : list F) :
  length (hd [] X) = 1 -> length X <= length y ->
  ((exists i, i < length X /\ f_leb (at1 y i) f_zero = true) ->
   Exponential_Fit e X y = Failed ErrNonPositiveY) /\
  ((exists i, i < length X /\ f_leb (at2 X i 0) f_zero = true) ->
   Logarithmic_Fit l X y = Failed ErrNonPositiveX) /\
  ((exists i, i < length X /\
              (f_leb (at2 X i 0) f_zero = true \/ f_leb (at1 y i) f_zero = true)) ->
   Power_Fit p X y = Failed ErrNonPositiveX \/ Power_Fit p X y = Failed ErrNonPositiveY) /\
  ((forall i, i < length X -> f_leb (at1 y i) f_zero = false) ->
   (forall XTX, Inverse XTX = None) ->
   Exponential_Fit e X y = Failed ErrSingularNormalMatrix).
Proof.
  intros Hcols Hy. set (n := length X) in *.
  assert (Hleb : forall i, i < n -> Nat.leb (length y) i = false)
    by (intros i Hi; apply Nat.leb_gt; lia).
  split; [|split; [|split]].
  - intros (i & Hi & Hle). unfold Exponential_Fit, Dims. fold n.
    rewrite Hcols. cbn [Nat.eqb negb].
    destruct (@firstFailure_reject (positiveTarget y) (fun e => e = ErrNonPositiveY)
                (seq 0 n)) as (err & -> & ->); [| |reflexivity].
    + intros k Hk. apply in_seq in Hk. unfold positiveTarget. rewrite Hleb by lia.
      destruct (f_leb (at1 y k) f_zero); [right; eexists; split; reflexivity | left; reflexivity].
    + exists i. split; [apply in_seq; lia|].
      unfold positiveTarget. rewrite Hleb, Hle by lia. discriminate.
  - intros (i & Hi & Hle). unfold Logarithmic_Fit, Dims. fold n.
    rewrite Hcols. cbn [Nat.eqb negb].
    destruct (@firstFailure_reject (positiveFeature X) (fun e => e = ErrNonPositiveX)
                (seq 0 n)) as (err & -> & ->); [| |reflexivity].
    + intros k Hk. unfold positiveFeature.
      destruct (f_leb (at2 X k 0) f_zero); [right; eexists; split; reflexivity | left; reflexivity].
    + exists i. split; [apply in_seq; lia|].
      unfold positiveFeature. rewrite Hle. discriminate.
  - intros (i & Hi & Hle). unfold Power_Fit, Dims. fold n.
    rewrite Hcols. cbn [Nat.eqb negb].
    destruct (@firstFailure_reject (positiveSample X y)
                (fun e => e = ErrNonPositiveX \/ e = ErrNonPositiveY)
                (seq 0 n)) as (err & -> & [-> | ->]); [| |left; reflexivity|right; reflexivity].
    + intros k Hk. apply in_seq in Hk. unfold positiveSample, positiveFeature, positiveTarget.
      rewrite Hleb by lia.
      destruct (f_leb (at2 X k 0) f_zero);
        [right; eexists; split; [reflexivity | left; reflexivity]|].
      destruct (f_leb (at1 y k) f_zero);
        [right; eexists; split; [reflexivity | right; reflexivity] | left; reflexivity].
    + exists i. split; [apply in_seq; lia|].
      unfold positiveSample, positiveFeature, positiveTarget. rewrite Hleb by lia.
      destruct Hle as [Hle|Hle].
      * rewrite Hle. discriminate.
      * rewrite Hle. destruct (f_leb (at2 X i 0) f_zero); discriminate.
  - intros Hpass Hnone. unfold Exponential_Fit, Dims. fold n.
    rewrite Hcols. cbn [Nat.eqb negb].
    rewrite firstFailure_pass.
    + unfold solveNormal. rewrite Hnone. reflexivity.
    + intros i Hin. apply in_seq in Hin. unfold positiveTarget.
      rewrite Hleb, Hpass by lia. reflexivity.
Qed.

Lemma nonlinear_Fit_positivity_witness :
  @Exponential_Fit R Exact ExactMath (inverseTable []) NewExponential
    [[1]; [2]]%R [1; -2]%R
  = Failed ErrNonPositiveY.
Proof.
  apply (@nonlinear_Fit_positivity R Exact ExactMath (inverseTable []) NewExponential
           NewLogarithmic NewPower [[1]; [2]]%R [1; -2]%R).
  - reflexivity.
  - simpl. lia.
  - exists 1. split; [simpl; lia|].
    unfold at1. cbn [nth]. exact_ops. apply Rleb_true. lra.
Defined.

(** ** Package [types]: datasets *)

Module Data.
Section Datasets.
Context {F : Type} `{Float64 F}.
Local Open Scope f64_scope.

Record Dataset : Type := {
  Features : list (list F);
  Target : list F;
  FeatureNames : list string
}.

Definition NewDataset (features : list (list F)) (target : list F)
  (featureNames : list string) : Dataset := {|
  Features := features;
  Target := target;
  FeatureNames := featureNames
|}.

Definition NumSamples (d : Dataset) : nat :=
  if Nat.eqb (length (Features d)) 0 then 0 else length (Features d).

Definition NumFeatures (d : Dataset) : nat :=
  if Nat.eqb (length (Features d)) 0 then 0 else length (hd [] (Features d)).

Definition IsValid (d : Dataset) : bool :=
  if Nat.eqb (NumSamples d) 0 || Nat.eqb (NumFeatures d) 0 then false
  else if negb (Nat.eqb (length (Target d)) (NumSamples d)) then false
  else true.

(** The error values of package [data]. *)
Inductive DataError : Type :=
| ErrInvalidDataset        (* "无效的数据集" *)
| ErrTestRatio             (* "测试集比例必须在0和1之间" *)
| ErrFoldsBelowTwo         (* "交叉验证的折数必须大于1" *)
| ErrFoldsAboveSamples     (* "交叉验证的折数不能大于样本数量" *)
| ErrDegreeBelowOne        (* "多项式次数必须大于等于1" *)
| ErrNotFitted             (* "scaler尚未拟合，请先调用Fit方法" *)
| ErrFeatureCount.         (* "特征数量不匹配" *)

(** [data == nil || !data.IsValid()] *)
Definition invalid (data : option Dataset) : bool :=
  match data with
  | None => true
  | Some d => negb (IsValid d)
  end.

Lemma NumSamples_length (d : Dataset) : NumSamples d = length (Features d).
Proof. unfold NumSamples. destruct (Nat.eqb_spec (length (Features d)) 0); congruence. Qed.

Lemma IsValid_true (d : Dataset) :
  IsValid d = true <->
  0 < length (Features d) /\ 0 < length (hd [] (Features d)) /\
  length (Target d) = length (Features d).
Proof.
  unfold IsValid, NumFeatures. rewrite NumSamples_length.
  destruct (Nat.eqb_spec (length (Features d)) 0) as [E|E]; simpl.
  - split; [discriminate | lia].
  - destruct (Nat.eqb_spec (length (hd [] (Features d))) 0) as [E2|E2]; simpl.
    + split; [discriminate | lia].
    + destruct (Nat.eqb_spec (length (Target d)) (length (Features d))); simpl;
        split; try discriminate; intros; try lia; auto.
Qed.

End Datasets.

(** ** Package [data]: the scalers *)

Section Scalers.
Context {F : Type} `{Float64 F}.
Local Open Scope f64_scope.

(** *** MinMaxScaler *)

Record MinMaxScaler : Type := {
  MinMaxScaler_Min : list F;
  MinMaxScaler_Max : list F;
  MinMaxScaler_Fitted : bool
}.

Definition NewMinMaxScaler : MinMaxScaler := {|
  MinMaxScaler_Min := [];
  MinMaxScaler_Max := [];
  MinMaxScaler_Fitted := false
|}.

(** The scan of column [i]: both start at [Features[0][i]]; every later
    value below the minimum replaces it, every value above the maximum
    replaces that. *)
Definition columnMinMax (X : list (list F)) (n i : nat) : F * F :=
  fold_left
    (fun mm j =>
       let v := at2 X j i in
       ((if v <? fst mm then v else fst mm), (if v >? snd mm then v else snd mm)))
    (seq 1 (n - 1)) (at2 X 0 i, at2 X 0 i).

(** [Fit] returns the fitted scaler; on an error the receiver is left as
    it was. *)
Definition MinMaxScaler_Fit (sc : MinMaxScaler) (data : option (@Dataset F))
  : outcome DataError MinMaxScaler :=
  match data with
  | None => Failed ErrInvalidDataset
  | Some d =>
      if negb (IsValid d) then Failed ErrInvalidDataset
      else
        let nSamples := NumSamples d in
        let nFeatures := NumFeatures d in
        if ragged nFeatures (Features d) then Panicked
        else Returned {|
          MinMaxScaler_Min :=
            map (fun i => fst (columnMinMax (Features d) nSamples i)) (seq 0 nFeatures);
          MinMaxScaler_Max :=
            map (fun i => snd (columnMinMax (Features d) nSamples i)) (seq 0 nFeatures);
          MinMaxScaler_Fitted := true |}
  end.

Definition minMaxEntry (sc : MinMaxScaler) (X : list (list F)) (i j : nat) : F :=
  if at1 (MinMaxScaler_Max sc) j >? at1 (MinMaxScaler_Min sc) j
  then (at2 X i j - at1 (MinMaxScaler_Min sc) j)
       / (at1 (MinMaxScaler_Max sc) j - at1 (MinMaxScaler_Min sc) j)
  else f_zero.

(** [sc.Max[j]] panics when [Max] is shorter than [Min]. *)
Definition MinMaxScaler_Transform (sc : MinMaxScaler) (data : option (@Dataset F))
  : outcome DataError (@Dataset F) :=
  if negb (MinMaxScaler_Fitted sc) then Failed ErrNotFitted
  else
    match data with
    | None => Failed ErrInvalidDataset
    | Some d =>
        if negb (IsValid d) then Failed ErrInvalidDataset
        else
          let nSamples := NumSamples d in
          let nFeatures := NumFeatures d in
          if negb (Nat.eqb nFeatures (length (MinMaxScaler_Min sc))) then Failed ErrFeatureCount
          else if Nat.ltb (length (MinMaxScaler_Max sc)) nFeatures
                  || ragged nFeatures (Features d) then Panicked
          else Returned
                 (NewDataset
                    (map (fun i => map (fun j => minMaxEntry sc (Features d) i j)
                                       (seq 0 nFeatures))
                         (seq 0 nSamples))
                    (Target d) (FeatureNames d))
    end.

(** [FitTransform]: the receiver after the call and what the call returns. *)
Definition MinMaxScaler_FitTransform (sc : MinMaxScaler) (data : option (@Dataset F))
  : MinMaxScaler * outcome DataError (@Dataset F) :=
  match MinMaxScaler_Fit sc data with
  | Failed e => (sc, Failed e)
  | Panicked => (sc, Panicked)
  | Returned sc' => (sc', MinMaxScaler_Transform sc' data)
  end.

(** *** StandardScaler *)

Record StandardScaler : Type := {
  StandardScaler_Mean : list F;
  StandardScaler_StdDev : list F;
  StandardScaler_Fitted : bool
}.

Definition NewStandardScaler : StandardScaler := {|
  StandardScaler_Mean := [];
  StandardScaler_StdDev := [];
  StandardScaler_Fitted := false
|}.

Definition columnMean (X : list (list F)) (n i : nat) : F :=
  fold_left (fun sum j => sum + at2 X j i) (seq 0 n) f_zero / f_of_int (Z.of_nat n).

Definition columnStdDev (X : list (list F)) (n i : nat) (mean : F) : F :=
  let sumSq := fold_left (fun sumSq j =>
                            let diff := at2 X j i - mean in
                            sumSq + diff * diff)
                         (seq 0 n) f_zero in
  let variance := sumSq / f_of_int (Z.of_nat n) in
  f_sqrt variance.

Definition StandardScaler_Fit (sc : StandardScaler) (data : option (@Dataset F))
  : outcome DataError StandardScaler :=
  match data with
  | None => Failed ErrInvalidDataset
  | Some d =>
      if negb (IsValid d) then Failed ErrInvalidDataset
      else
        let nSamples := NumSamples d in
        let nFeatures := NumFeatures d in
        if ragged nFeatures (Features d) then Panicked
        else
          let Mean := map (fun i => columnMean (Features d) nSamples i) (seq 0 nFeatures) in
          Returned {|
            StandardScaler_Mean := Mean;
            StandardScaler_StdDev :=
              map (fun i => columnStdDev (Features d) nSamples i (at1 Mean i)) (seq 0 nFeatures);
            StandardScaler_Fitted := true |}
  end.

Definition standardEntry (sc : StandardScaler) (X : list (list F)) (i j : nat) : F :=
  if at1 (StandardScaler_StdDev sc) j >? f_zero
  then (at2 X i j - at1 (StandardScaler_Mean sc) j) / at1 (StandardScaler_StdDev sc) j
  else f_zero.

Definition StandardScaler_Transform (sc : StandardScaler) (data : option (@Dataset F))
  : outcome DataError (@Dataset F) :=
  if negb (StandardScaler_Fitted sc) then Failed ErrNotFitted
  else
    match data with
    | None => Failed ErrInvalidDataset
    | Some d =>
        if negb (IsValid d) then Failed ErrInvalidDataset
        else
          let nSamples := NumSamples d in
          let nFeatures := NumFeatures d in
          if negb (Nat.eqb nFeatures (length (StandardScaler_Mean sc))) then Failed ErrFeatureCount
          else if Nat.ltb (length (StandardScaler_StdDev sc)) nFeatures
                  || ragged nFeatures (Features d) then Panicked
          else Returned
                 (NewDataset
                    (map (fun i => map (fun j => standardEntry sc (Features d) i j)
                                       (seq 0 nFeatures))
                         (seq 0 nSamples))
                    (Target d) (FeatureNames d))
    end.

Definition StandardScaler_FitTransform (sc : StandardScaler) (data : option (@Dataset F))
  : StandardScaler * outcome DataError (@Dataset F) :=
  match StandardScaler_Fit sc data with
  | Failed e => (sc, Failed e)
  | Panicked => (sc, Panicked)
  | Returned sc' => (sc', StandardScaler_Transform sc' data)
  end.

End Scalers.

Section ScalerFacts.
Context {F : Type} `{Float64 F}.
Local Open Scope f64_scope.

(** Shape of a dataset the loops run over without a panic. *)
Definition rectangular_dataset (d : @Dataset F) : Prop :=
  IsValid d = true /\ ragged (NumFeatures d) (Features d) = false.

Lemma columnMinMax_scan `{!OrderLaws} (X : list (list F)) (i : nat) :
  forall cnt,
    let mm := fold_left
                (fun mm j =>
                   let v := at2 X j i in
                   ((if v <? fst mm then v else fst mm), (if v >? snd mm then v else snd mm)))
                (seq 1 cnt) (at2 X 0 i, at2 X 0 i) in
    (forall j, j <= cnt -> (at2 X j i <? fst mm) = false /\ (snd mm <? at2 X j i) = false) /\
    (exists j, j <= cnt /\ fst mm = at2 X j i) /\
    (exists j, j <= cnt /\ snd mm = at2 X j i).
Proof.
  induction cnt as [|cnt IH].
  - simpl. split; [|split].
    + intros j Hj. assert (j = 0) by lia. subst j. split; apply ltb_irrefl.
    + exists 0. split; [lia | reflexivity].
    + exists 0. split; [lia | reflexivity].
  - rewrite fold_left_seq_S. cbv zeta in IH |- *.
    set (mm := fold_left _ (seq 1 cnt) _) in *.
    destruct IH as (Hb & (jmin & Hjmin & Emin) & (jmax & Hjmax & Emax)).
    replace (1 + cnt)%nat with (S cnt) by lia.
    set (v := at2 X (S cnt) i). cbn [fst snd].
    split; [|split].
    + intros j Hj. destruct (Nat.eq_dec j (S cnt)) as [->|Hne].
      * fold v. split.
        -- destruct (v <? fst mm) eqn:E; [apply ltb_irrefl | exact E].
        -- destruct (snd mm <? v) eqn:E; [apply ltb_irrefl | exact E].
      * destruct (Hb j ltac:(lia)) as [Hlo Hhi]. split.
        -- destruct (v <? fst mm) eqn:E; [|exact Hlo].
           destruct (at2 X j i <? v) eqn:E2; [|reflexivity].
           rewrite (ltb_trans _ _ _ E2 E) in Hlo. discriminate.
        -- destruct (snd mm <? v) eqn:E; [|exact Hhi].
           destruct (v <? at2 X j i) eqn:E2; [|reflexivity].
           rewrite (ltb_trans _ _ _ E E2) in Hhi. discriminate.
    + destruct (v <? fst mm).
      * exists (S cnt). split; [lia | reflexivity].
      * exists jmin. split; [lia | exact Emin].
    + destruct (snd mm <? v).
      * exists (S cnt). split; [lia | reflexivity].
      * exists jmax. split; [lia | exact Emax].
Qed.

Lemma columnMinMax_spec `{!OrderLaws} (X : list (list F)) (n i : nat) :
  0 < n ->
  (forall j, j < n -> (at2 X j i <? fst (columnMinMax X n i)) = false /\
                      (snd (columnMinMax X n i) <? at2 X j i) = false) /\
  (exists j, j < n /\ fst (columnMinMax X n i) = at2 X j i) /\
  (exists j, j < n /\ snd (columnMinMax X n i) = at2 X j i).
Proof.
  intros Hn. unfold columnMinMax.
  destruct (columnMinMax_scan X i (n - 1)) as (Hb & (jmin & Hjmin & Emin) & (jmax & Hjmax & Emax)).
  split; [|split].
  - intros j Hj. apply Hb. lia.
  - exists jmin. split; [lia | exact Emin].
  - exists jmax. split; [lia | exact Emax].
Qed.

End ScalerFacts.

(** X10. [MinMaxScaler.Fit] on a valid dataset without short rows returns
    a fitted scaler with one minimum and one maximum per feature: no
    value of column [i] compares below [Min[i]] or above [Max[i]], and
    both are values of the column.  This holds for every arithmetic with
    the order laws, so for binary64 with NaN entries too. *)
Theorem MinMaxScaler_Fit_bounds (F : Type) (Hf : Float64 F) (laws : OrderLaws)
  (sc : @MinMaxScaler F) (d : @Dataset F) :
  rectangular_dataset d ->
  exists sc',
    MinMaxScaler_Fit sc (Some d) = Returned sc' /\
    MinMaxScaler_Fitted sc' = true /\
    length (MinMaxScaler_Min sc') = NumFeatures d /\
    length (MinMaxScaler_Max sc') = NumFeatures d /\
    forall i, i < NumFeatures d ->
      (forall j, j < NumSamples d ->
         f_ltb (at2 (Features d) j i) (at1 (MinMaxScaler_Min sc') i) = false /\
         f_ltb (at1 (MinMaxScaler_Max sc') i) (at2 (Features d) j i) = false) /\
      (exists j, j < NumSamples d /\ at1 (MinMaxScaler_Min sc') i = at2 (Features d) j i) /\
      (exists j, j < NumSamples d /\ at1 (MinMaxScaler_Max sc') i = at2 (Features d) j i).
Proof.
  intros [Hvalid Hrag]. unfold MinMaxScaler_Fit. rewrite Hvalid, Hrag. cbn [negb].
  eexists. split; [reflexivity|].
  cbn [MinMaxScaler_Min MinMaxScaler_Max MinMaxScaler_Fitted].
  rewrite !length_map, !length_seq. repeat split; auto.
  - rewrite at1_table by assumption. apply columnMinMax_spec; [|assumption].
    apply IsValid_true in Hvalid. rewrite NumSamples_length. lia.
  - rewrite at1_table by assumption. apply columnMinMax_spec; [|assumption].
    apply IsValid_true in Hvalid. rewrite NumSamples_length. lia.
  - rewrite at1_table by assumption. apply columnMinMax_spec.
    apply IsValid_true in Hvalid. rewrite NumSamples_length. lia.
  - rewrite at1_table by assumption. apply columnMinMax_spec.
    apply IsValid_true in Hvalid. rewrite NumSamples_length. lia.
Qed.

Lemma MinMaxScaler_Fit_bounds_witness :
  exists sc',
    MinMaxScaler_Fit NewMinMaxScaler
      (Some (NewDataset [[3; 1]; [nan; 4]; [2; 0]]%float [1; 2; 3]%float ["a"; "b"]%string))
    = Returned sc' /\
    MinMaxScaler_Min sc' = [2; 0]%float /\ MinMaxScaler_Max sc' = [3; 4]%float.
Proof.
  destruct (@MinMaxScaler_Fit_bounds float IEEE IEEE_laws NewMinMaxScaler
              (NewDataset [[3; 1]; [nan; 4]; [2; 0]]%float [1; 2; 3]%float ["a"; "b"]%string))
    as (sc' & Hfit & _).
  - split; reflexivity.
  - exists sc'. split; [exact Hfit|].
    vm_compute in Hfit. injection Hfit as <-. split; reflexivity.
Defined.

(** X11. In real arithmetic [MinMaxScaler.FitTransform] succeeds on every
    valid dataset without short rows, keeps the shape, the target and the
    feature names, and maps every feature into [[0, 1]]: a column with
    distinct values reaches both 0 and 1, a constant column becomes 0. *)
Theorem MinMaxScaler_FitTransform_range (sc : @MinMaxScaler R) (d : @Dataset R) :
  rectangular_dataset d ->
  exists sc' d',
    MinMaxScaler_FitTransform sc (Some d) = (sc', Returned d') /\
    Target d' = Target d /\ FeatureNames d' = FeatureNames d /\
    length (Features d') = NumSamples d /\
    (forall i, i < NumSamples d -> length (nth i (Features d') []) = NumFeatures d) /\
    forall j, j < NumFeatures d ->
      (forall i, i < NumSamples d -> (0 <= at2 (Features d') i j <= 1)%R) /\
      ((at1 (MinMaxScaler_Min sc') j < at1 (MinMaxScaler_Max sc') j)%R ->
         (exists i, i < NumSamples d /\ at2 (Features d') i j = 0%R) /\
         (exists i, i < NumSamples d /\ at2 (Features d') i j = 1%R)) /\
      (at1 (MinMaxScaler_Min sc') j = at1 (MinMaxScaler_Max sc') j ->
         forall i, i < NumSamples d -> at2 (Features d') i j = 0%R).
Proof.
  intros [Hvalid Hrag].
  unfold MinMaxScaler_FitTransform, MinMaxScaler_Fit. rewrite Hvalid, Hrag. cbn [negb].
  unfold MinMaxScaler_Transform.
  cbn [MinMaxScaler_Fitted MinMaxScaler_Min MinMaxScaler_Max negb].
  rewrite Hvalid, Hrag, !length_map, !length_seq, Nat.eqb_refl, Nat.ltb_irrefl.
  cbn [negb orb].
  eexists. eexists. split; [reflexivity|].
  set (sc' := {| MinMaxScaler_Min := _ |}).
  cbn [Target FeatureNames Features NewDataset].
  split; [reflexivity|]. split; [reflexivity|].
  split; [rewrite length_map, length_seq; reflexivity|].
  split.
  { intros i Hi.
    rewrite nth_indep with (d' := map (fun j => minMaxEntry sc' (Features d) 0 j)
                                      (seq 0 (NumFeatures d)))
      by (rewrite length_map, length_seq; exact Hi).
    rewrite (map_nth (fun i => map (fun j => minMaxEntry sc' (Features d) i j)
                                   (seq 0 (NumFeatures d)))).
    rewrite length_map, length_seq. reflexivity. }
  intros j Hj.
  assert (Hn : 0 < NumSamples d)
    by (apply IsValid_true in Hvalid; rewrite NumSamples_length; lia).
  destruct (@columnMinMax_spec R Exact Exact_laws (Features d) (NumSamples d) j Hn)
    as (Hb & (jmin & Hjmin & Emin) & (jmax & Hjmax & Emax)).
  assert (Hmin : at1 (MinMaxScaler_Min sc') j = fst (columnMinMax (Features d) (NumSamples d) j))
    by (unfold sc'; cbn [MinMaxScaler_Min]; rewrite at1_table by exact Hj; reflexivity).
  assert (Hmax : at1 (MinMaxScaler_Max sc') j = snd (columnMinMax (Features d) (NumSamples d) j))
    by (unfold sc'; cbn [MinMaxScaler_Max]; rewrite at1_table by exact Hj; reflexivity).
  rewrite <- Hmin in Hb, Emin. rewrite <- Hmax in Hb, Emax.
  assert (Hle : forall i, i < NumSamples d ->
                  (at1 (MinMaxScaler_Min sc') j <= at2 (Features d) i j
                   <= at1 (MinMaxScaler_Max sc') j)%R).
  { intros i Hi. destruct (Hb i Hi) as [Hlo Hhi]. exact_ops.
    apply Rltb_false in Hlo. apply Rltb_false in Hhi. lra. }
  assert (Hentry : forall i, i < NumSamples d ->
            at2 (map (fun i => map (fun j => minMaxEntry sc' (Features d) i j)
                                   (seq 0 (NumFeatures d)))
                     (seq 0 (NumSamples d))) i j
            = minMaxEntry sc' (Features d) i j).
  { intros i Hi. apply (at2_table (fun i j => minMaxEntry sc' (Features d) i j)); assumption. }
  split; [|split].
  - intros i Hi. rewrite (Hentry i Hi). unfold minMaxEntry. exact_ops.
    specialize (Hle i Hi).
    destruct (Rltb _ _) eqn:E; [|lra].
    apply Rltb_true in E. split.
    + apply Rmult_le_pos; [lra|]. left. apply Rinv_0_lt_compat. lra.
    + apply (Rmult_le_reg_r (at1 (MinMaxScaler_Max sc') j - at1 (MinMaxScaler_Min sc') j));
        [lra|].
      unfold Rdiv. rewrite Rmult_assoc, Rinv_l by lra. lra.
  - intros Hlt. split.
    + exists jmin. split; [exact Hjmin|]. rewrite (Hentry jmin Hjmin).
      unfold minMaxEntry. exact_ops.
      replace (Rltb _ _) with true by (symmetry; apply Rltb_true; exact Hlt).
      rewrite <- Emin. unfold Rdiv. lra.
    + exists jmax. split; [exact Hjmax|]. rewrite (Hentry jmax Hjmax).
      unfold minMaxEntry. exact_ops.
      replace (Rltb _ _) with true by (symmetry; apply Rltb_true; exact Hlt).
      rewrite <- Emax. unfold Rdiv. rewrite Rinv_r by lra. reflexivity.
  - intros Heq i Hi. rewrite (Hentry i Hi). unfold minMaxEntry. exact_ops.
    replace (Rltb _ _) with false by (symmetry; apply Rltb_false; lra). reflexivity.
Qed.

Lemma MinMaxScaler_FitTransform_range_witness :
  exists sc' d',
    MinMaxScaler_FitTransform NewMinMaxScaler
      (Some (NewDataset [[3; 1]; [5; 1]]%R [1; 2]%R ["a"; "b"]%string)) = (sc', Returned d') /\
    (0 <= at2 (Features d') 1 0 <= 1)%R.
Proof.
  destruct (@MinMaxScaler_FitTransform_range NewMinMaxScaler
              (NewDataset [[3; 1]; [5; 1]]%R [1; 2]%R ["a"; "b"]%string))
    as (sc' & d' & Hrun & _ & _ & _ & _ & Hcols).
  - split; reflexivity.
  - exists sc', d'. split; [exact Hrun|].
    apply (Hcols 0); cbn; lia.
Defined.

Lemma div_sqr (a s : R) : s <> 0%R -> (a / s * (a / s) = a * a * / (s * s))%R.
Proof. intros Hs. field. exact Hs. Qed.

(** X12. In real arithmetic [StandardScaler.FitTransform] succeeds on every
    valid dataset without short rows and standardises it: every output
    column sums to zero; a column with a positive standard deviation has
    squares summing to the number of samples (unit variance), and a column
    whose standard deviation is zero becomes 0. *)
Theorem StandardScaler_FitTransform_standardises (sc : @StandardScaler R) (d : @Dataset R) :
  rectangular_dataset d ->
  exists sc' d',
    StandardScaler_FitTransform sc (Some d) = (sc', Returned d') /\
    StandardScaler_Fitted sc' = true /\
    Target d' = Target d /\ FeatureNames d' = FeatureNames d /\
    length (Features d') = NumSamples d /\
    forall j, j < NumFeatures d ->
      (0 <= at1 (StandardScaler_StdDev sc') j)%R /\
      rsum (fun i => at2 (Features d') i j) (seq 0 (NumSamples d)) = 0%R /\
      ((0 < at1 (StandardScaler_StdDev sc') j)%R ->
         rsum (fun i => at2 (Features d') i j * at2 (Features d') i j)%R
              (seq 0 (NumSamples d)) = INR (NumSamples d)) /\
      (at1 (StandardScaler_StdDev sc') j = 0%R ->
         forall i, i < NumSamples d -> at2 (Features d') i j = 0%R).
Proof.
  intros [Hvalid Hrag].
  unfold StandardScaler_FitTransform, StandardScaler_Fit. rewrite Hvalid, Hrag. cbn [negb].
  unfold StandardScaler_Transform.
  cbn [StandardScaler_Fitted StandardScaler_Mean StandardScaler_StdDev negb].
  rewrite Hvalid, Hrag, !length_map, !length_seq, Nat.eqb_refl, Nat.ltb_irrefl.
  cbn [negb orb].
  eexists. eexists. split; [reflexivity|].
  set (sc' := {| StandardScaler_Mean := _ |}).
  cbn [Target FeatureNames Features NewDataset].
  split; [reflexivity|]. split; [reflexivity|]. split; [reflexivity|].
  split; [rewrite length_map, length_seq; reflexivity|].
  set (n := NumSamples d). set (p := NumFeatures d). set (X := Features d).
  assert (Hn : (0 < INR n)%R).
  { apply lt_0_INR. apply IsValid_true in Hvalid. unfold n. rewrite NumSamples_length. lia. }
  intros j Hj.
  assert (Hentry : forall i, i < n ->
            at2 (map (fun i => map (fun j => standardEntry sc' X i j) (seq 0 p)) (seq 0 n)) i j
            = standardEntry sc' X i j).
  { intros i Hi. apply (at2_table (fun i j => standardEntry sc' X i j)); assumption. }
  set (x := fun i => at2 X i j).
  set (m := (rsum x (seq 0 n) / INR n)%R).
  set (V := rsum (fun i => (x i - m) * (x i - m))%R (seq 0 n)).
  assert (Hmean : at1 (StandardScaler_Mean sc') j = m).
  { unfold sc'. cbn [StandardScaler_Mean]. rewrite at1_table by exact Hj.
    unfold columnMean. exact_ops. rewrite <- INR_IZR_INZ. reflexivity. }
  assert (Hstd : at1 (StandardScaler_StdDev sc') j = R_sqrt.sqrt (V / INR n)).
  { unfold sc'. cbn [StandardScaler_StdDev]. rewrite at1_table by exact Hj.
    unfold columnStdDev. rewrite at1_table by exact Hj.
    unfold columnMean. exact_ops. rewrite <- INR_IZR_INZ. reflexivity. }
  assert (HV : (0 <= V / INR n)%R).
  { apply Rmult_le_pos; [|left; apply Rinv_0_lt_compat; exact Hn].
    apply rsum_nonneg. intros i _. exact (Rle_0_sqr (x i - m)). }
  assert (Hcol : forall g : R -> R,
            rsum (fun i => g (at2 (map (fun i => map (fun j => standardEntry sc' X i j)
                                                     (seq 0 p)) (seq 0 n)) i j)) (seq 0 n)
            = rsum (fun i => g (standardEntry sc' X i j)) (seq 0 n)).
  { intros g. apply rsum_ext. intros i Hin. apply in_seq in Hin.
    rewrite Hentry by lia. reflexivity. }
  rewrite Hstd. split; [apply sqrt_pos|].
  split; [|split].
  - rewrite (Hcol (fun z => z)). unfold standardEntry. rewrite Hmean, Hstd. exact_ops.
    destruct (Rltb 0 (R_sqrt.sqrt (V / INR n))) eqn:E.
    + fold x. unfold Rdiv at 1.
      rewrite (rsum_scale (fun i => x i - m)%R).
      assert (Hsum : rsum (fun i => x i - m)%R (seq 0 n) = 0%R).
      { transitivity (rsum (fun i => x i - 1 * m)%R (seq 0 n));
          [apply rsum_ext; intros; lra|].
        rewrite (rsum_linear x (fun _ => m) 1), rsum_const, length_seq.
        unfold m. field. lra. }
      rewrite Hsum. lra.
    + rewrite rsum_const. lra.
  - intros Hpos. rewrite (Hcol (fun z => z * z)%R). unfold standardEntry.
    rewrite Hmean, Hstd. exact_ops.
    replace (Rltb 0 (R_sqrt.sqrt (V / INR n))) with true
      by (symmetry; apply Rltb_true; exact Hpos).
    fold x.
    assert (Hsq : (R_sqrt.sqrt (V / INR n) * R_sqrt.sqrt (V / INR n) = V / INR n)%R)
      by (apply sqrt_sqrt; exact HV).
    transitivity (rsum (fun i => (x i - m) * (x i - m) * / (V / INR n))%R (seq 0 n)).
    { apply rsum_ext. intros i _.
      set (s := R_sqrt.sqrt (V / INR n)) in *. rewrite <- Hsq. cbv beta iota.
      apply div_sqr. lra. }
    rewrite (rsum_scale (fun i => (x i - m) * (x i - m))%R). fold V.
    assert (Hq : (V / INR n <> 0)%R).
    { intros E0. rewrite E0, sqrt_0 in Hpos. lra. }
    assert (HV0 : (V <> 0)%R) by (intros E0; apply Hq; rewrite E0; unfold Rdiv; lra).
    clearbody V. field. split; lra.
  - intros Hzero i Hi. rewrite Hentry by exact Hi. unfold standardEntry.
    rewrite Hstd, Hzero. exact_ops.
    replace (Rltb 0 0) with false by (symmetry; apply Rltb_false; lra). reflexivity.
Qed.

Lemma StandardScaler_FitTransform_standardises_witness :
  exists sc' d',
    StandardScaler_FitTransform NewStandardScaler
      (Some (NewDataset [[3; 1]; [5; 1]]%R [1; 2]%R ["a"; "b"]%string)) = (sc', Returned d') /\
    rsum (fun i => at2 (Features d') i 0) (seq 0 2) = 0%R.
Proof.
  destruct (@StandardScaler_FitTransform_standardises NewStandardScaler
              (NewDataset [[3; 1]; [5; 1]]%R [1; 2]%R ["a"; "b"]%string))
    as (sc' & d' & Hrun & _ & _ & _ & _ & Hcols).
  - split; reflexivity.
  - exists sc', d'. split; [exact Hrun|].
    apply (Hcols 0). cbn; lia.
Defined.

(** X13. The scalers check their state: [Transform] on a scaler that was
    never fitted fails with the not-fitted error whatever the data, nil
    included.  After [Fit] on a dataset with [p] features, [Transform]
    rejects nil with the invalid-dataset error, rejects a dataset with
    another number of features with the feature-count error, and
    transforms every valid dataset with [p] features, keeping its number
    of samples and its target. *)
Theorem Transform_after_Fit (F : Type) (Hf : Float64 F) (d1 d2 : @Dataset F) :
  rectangular_dataset d1 -> rectangular_dataset d2 ->
  (forall data, MinMaxScaler_Transform NewMinMaxScaler data = Failed ErrNotFitted) /\
  (forall data, StandardScaler_Transform NewStandardScaler data = Failed ErrNotFitted) /\
  (forall sc, exists sc',
      MinMaxScaler_Fit sc (Some d1) = Returned sc' /\
      MinMaxScaler_Transform sc' None = Failed ErrInvalidDataset /\
      (NumFeatures d2 <> NumFeatures d1 ->
         MinMaxScaler_Transform sc' (Some d2) = Failed ErrFeatureCount) /\
      (NumFeatures d2 = NumFeatures d1 ->
         exists d', MinMaxScaler_Transform sc' (Some d2) = Returned d' /\
                    length (Features d') = NumSamples d2 /\ Target d' = Target d2)) /\
  (forall sc, exists sc',
      StandardScaler_Fit sc (Some d1) = Returned sc' /\
      StandardScaler_Transform sc' None = Failed ErrInvalidDataset /\
      (NumFeatures d2 <> NumFeatures d1 ->
         StandardScaler_Transform sc' (Some d2) = Failed ErrFeatureCount) /\
      (NumFeatures d2 = NumFeatures d1 ->
         exists d', StandardScaler_Transform sc' (Some d2) = Returned d' /\
                    length (Features d') = NumSamples d2 /\ Target d' = Target d2)).
Proof.
  intros [Hv1 Hr1] [Hv2 Hr2].
  split; [reflexivity|]. split; [reflexivity|]. split.
  - intros sc. unfold MinMaxScaler_Fit. rewrite Hv1, Hr1. cbn [negb].
    eexists. split; [reflexivity|]. split; [reflexivity|].
    unfold MinMaxScaler_Transform.
    cbn [MinMaxScaler_Fitted MinMaxScaler_Min MinMaxScaler_Max negb].
    rewrite Hv2, !length_map, !length_seq. cbn [negb]. split.
    + intros Hne. apply Nat.eqb_neq in Hne. rewrite Hne. reflexivity.
    + intros Heq. rewrite Heq, Nat.eqb_refl, Nat.ltb_irrefl. cbn [negb orb].
      rewrite <- Heq, Hr2. eexists. split; [reflexivity|].
      cbn [Features Target NewDataset]. rewrite length_map, length_seq. split; reflexivity.
  - intros sc. unfold StandardScaler_Fit. rewrite Hv1, Hr1. cbn [negb].
    eexists. split; [reflexivity|]. split; [reflexivity|].
    unfold StandardScaler_Transform.
    cbn [StandardScaler_Fitted StandardScaler_Mean StandardScaler_StdDev negb].
    rewrite Hv2, !length_map, !length_seq. cbn [negb]. split.
    + intros Hne. apply Nat.eqb_neq in Hne. rewrite Hne. reflexivity.
    + intros Heq. rewrite Heq, Nat.eqb_refl, Nat.ltb_irrefl. cbn [negb orb].
      rewrite <- Heq, Hr2. eexists. split; [reflexivity|].
      cbn [Features Target NewDataset]. rewrite length_map, length_seq. split; reflexivity.
Qed.

Lemma Transform_after_Fit_witness :
  exists sc',
    MinMaxScaler_Fit NewMinMaxScaler
      (Some (NewDataset [[3; 1]; [5; 1]]%float [1; 2]%float ["a"; "b"]%string)) = Returned sc' /\
    MinMaxScaler_Transform sc' (Some (NewDataset [[7]]%float [1]%float ["a"]%string))
    = Failed ErrFeatureCount.
Proof.
  destruct (@Transform_after_Fit float IEEE
              (NewDataset [[3; 1]; [5; 1]]%float [1; 2]%float ["a"; "b"]%string)
              (NewDataset [[7]]%float [1]%float ["a"]%string))
    as (_ & _ & Hmm & _).
  - split; reflexivity.
  - split; reflexivity.
  - destruct (Hmm NewMinMaxScaler) as (sc' & Hfit & _ & Hne & _).
    exists sc'. split; [exact Hfit|]. apply Hne. cbn. lia.
Defined.

(** ** Package [data]: feature engineering *)

Section FeatureEngineering.
Context {F : Type} `{Float64 F}.
Local Open Scope f64_scope.

(** [fmt.Sprintf("%s*%s", a, b)] *)
Definition productName (a b : string) : string := (a ++ "*" ++ b)%string.

(** The two pair loops of [AddInteractionTerms] (values and names) have one
    shape: for [j < nFeatures], for [j < k < nFeatures], the product of
    entries [j] and [k] is stored at the running index. *)
Definition interactions {A : Type} (mul : A -> A -> A) (src : list A) (nFeatures : nat)
  (st : option (list A * nat)) : option (list A * nat) :=
  fold_left
    (fun st j =>
       fold_left
         (fun st k =>
            match item src j, item src k with
            | Some a, Some b => emit (mul a b) st
            | _, _ => None
            end)
         (seq (S j) (nFeatures - S j)%nat) st)
    (seq 0 nFeatures) st.

(** All the rows, or the panic of one of them. *)
Fixpoint collect {A : Type} (rows : list (option A)) : option (list A) :=
  match rows with
  | [] => Some []
  | None :: _ => None
  | Some r :: rest =>
      match collect rest with
      | Some rs => Some (r :: rs)
      | None => None
      end
  end.

Definition AddInteractionTerms (data : option (@Dataset F)) : outcome DataError (@Dataset F) :=
  match data with
  | None => Failed ErrInvalidDataset
  | Some d =>
      if negb (IsValid d) then Failed ErrInvalidDataset
      else
        let nFeatures := NumFeatures d in
        let interactionCount := (nFeatures * (nFeatures - 1) / 2)%nat in
        let newFeatures :=
          collect
            (map (fun row =>
                    interactions f_mul row nFeatures
                      (Some (copyInto (repeat f_zero (nFeatures + interactionCount)%nat) row,
                             nFeatures)))
                 (Features d)) in
        let newFeatureNames :=
          interactions productName (FeatureNames d) nFeatures
            (Some (copyInto (repeat EmptyString (nFeatures + interactionCount)%nat)
                            (FeatureNames d),
                   nFeatures)) in
        match newFeatures, newFeatureNames with
        | Some rows, Some (names, _) =>
            Returned (NewDataset (map fst rows) (Target d) names)
        | _, _ => Panicked
        end
  end.

(** [generateCombinations]: [result] is written in place from
    [startIndex] on and the next free index is returned.  For
    [degree < 1] the recursion of the source does not end on a non-empty
    slice. *)
Fixpoint generateCombinations (features : list F) (degree : nat)
  (st : option (list F * nat)) : option (list F * nat) :=
  match degree with
  | 0 => match features with [] => st | _ => None end
  | S d =>
      match d with
      | 0 => emitAll features st
      | S _ =>
          fold_left
            (fun st i =>
               let remainingFeatures := skipn i features in
               let temp := map (fun r => at1 features i * r) remainingFeatures in
               generateCombinations temp d st)
            (seq 0 (length features)) st
      end
  end.

(** [DropLowVarianceFeatures] *)
Definition columnVariance (X : list (list F)) (n i : nat) : F :=
  let mean := fold_left (fun mean j => mean + at2 X j i) (seq 0 n) f_zero
              / f_of_int (Z.of_nat n) in
  fold_left (fun variance j =>
               let diff := at2 X j i - mean in
               variance + diff * diff)
            (seq 0 n) f_zero
  / f_of_int (Z.of_nat n).

Definition DropLowVarianceFeatures (data : option (@Dataset F)) (threshold : F)
  : outcome DataError (@Dataset F) :=
  match data with
  | None => Failed ErrInvalidDataset
  | Some d =>
      if negb (IsValid d) then Failed ErrInvalidDataset
      else
        let nSamples := NumSamples d in
        let nFeatures := NumFeatures d in
        if ragged nFeatures (Features d) then Panicked
        else
          let variances := map (columnVariance (Features d) nSamples) (seq 0 nFeatures) in
          let selected :=
            fold_left
              (fun st i =>
                 match st with
                 | None => None
                 | Some (selectedFeatures, selectedNames) =>
                     if at1 variances i >? threshold
                     then match item (FeatureNames d) i with
                          | None => None
                          | Some name =>
                              Some (selectedFeatures
                                      ++ [map (fun j => at2 (Features d) j i) (seq 0 nSamples)],
                                    selectedNames ++ [name])
                          end
                     else st
                 end)
              (seq 0 nFeatures) (Some ([], [])) in
          match selected with
          | None => Panicked
          | Some (selectedFeatures, selectedNames) =>
              Returned
                (NewDataset
                   (map (fun i => map (fun j => at2 selectedFeatures j i)
                                      (seq 0 (length selectedFeatures)))
                        (seq 0 nSamples))
                   (Target d) selectedNames)
          end
  end.

(** [NewPolynomialFeatures] *)
Record PolynomialFeatures : Type := { PolynomialFeatures_Degree : Z }.

Definition NewPolynomialFeatures (degree : Z) : outcome DataError PolynomialFeatures :=
  if (degree <? 1)%Z then Failed ErrDegreeBelowOne
  else Returned {| PolynomialFeatures_Degree := degree |}.

End FeatureEngineering.

Section InteractionFacts.
Context {A : Type}.

(** The products of the pairs [j < k < n], in the order of the loops. *)
Definition pairs (mul : A -> A -> A) (d : A) (src : list A) (n : nat) : list A :=
  flat_map (fun j => map (fun k => mul (nth j src d) (nth k src d)) (seq (S j) (n - S j)))
           (seq 0 n).

Lemma item_nth (src : list A) (d : A) (i : nat) :
  i < length src -> item src i = Some (nth i src d).
Proof. intros Hi. unfold item. apply nth_error_nth'. exact Hi. Qed.

Lemma interactions_inner (mul : A -> A -> A) (d : A) (src : list A) (j : nat) (ks : list nat)
  (st : option (list A * nat)) :
  j < length src -> Forall (fun k => k < length src) ks ->
  fold_left (fun st k =>
               match item src j, item src k with
               | Some a, Some b => emit (mul a b) st
               | _, _ => None
               end) ks st
  = emitAll (map (fun k => mul (nth j src d) (nth k src d)) ks) st.
Proof.
  intros Hj Hks. rewrite Forall_forall in Hks.
  rewrite fold_left_ext_in
    with (g := fun st k => emit (mul (nth j src d) (nth k src d)) st).
  - unfold emitAll. revert st. induction ks as [|k ks IH]; intros st; [reflexivity|].
    cbn [fold_left map]. apply IH. intros k' Hin. apply Hks. right. exact Hin.
  - intros st' k Hin. rewrite (item_nth src d Hj), (item_nth src d (Hks k Hin)). reflexivity.
Qed.

Lemma interactions_emitAll (mul : A -> A -> A) (d : A) (src : list A) (n : nat)
  (st : option (list A * nat)) :
  n <= length src ->
  interactions mul src n st = emitAll (pairs mul d src n) st.
Proof.
  intros Hn. unfold interactions, pairs.
  assert (Hjs : Forall (fun j => j < n) (seq 0 n))
    by (apply Forall_forall; intros j Hin; apply in_seq in Hin; lia).
  revert st. induction Hjs as [|j js Hj Hjs IH]; intros st; [reflexivity|].
  cbn [fold_left flat_map]. rewrite emitAll_app, <- IH. f_equal.
  apply interactions_inner; [lia|].
  apply Forall_forall. intros k Hin. apply in_seq in Hin. lia.
Qed.

Lemma pairs_length_prefix (g : nat -> nat -> A) (n m : nat) :
  m <= n ->
  2 * length (flat_map (fun j => map (g j) (seq (S j) (n - S j))) (seq 0 m))
  = m * (2 * n - m - 1).
Proof.
  induction m as [|m IH]; intros Hm; [reflexivity|].
  rewrite seq_S, flat_map_app, length_app. cbn [flat_map Nat.add].
  rewrite app_nil_r, length_map, length_seq.
  specialize (IH ltac:(lia)). nia.
Qed.

Lemma pairs_length (mul : A -> A -> A) (d : A) (src : list A) (n : nat) :
  length (pairs mul d src n) = n * (n - 1) / 2.
Proof.
  unfold pairs.
  pose proof (pairs_length_prefix (fun j k => mul (nth j src d) (nth k src d)) (n := n) (m := n)
                ltac:(lia)) as Hlen.
  replace (n * (2 * n - n - 1)) with (n * (n - 1)) in Hlen by (f_equal; lia).
  rewrite <- Hlen, Nat.mul_comm, Nat.div_mul by lia. reflexivity.
Qed.

Lemma copyInto_overwrite (d : A) (src : list A) (n count : nat) (vs : list A) :
  n <= length src -> length vs = count ->
  overwrite (copyInto (repeat d (n + count)) src) n vs = firstn n src ++ vs.
Proof.
  intros Hn <-. unfold overwrite, copyInto. rewrite repeat_length.
  set (c := n + length vs).
  assert (Hlen : length (firstn c src ++ skipn (length src) (repeat d c)) = c).
  { rewrite length_app, length_firstn, length_skipn, repeat_length. lia. }
  rewrite (skipn_all2 (n := c) (firstn c src ++ skipn (length src) (repeat d c)))
    by (rewrite Hlen; lia).
  rewrite app_nil_r. f_equal.
  rewrite firstn_app, firstn_firstn, length_firstn.
  replace (Nat.min n c) with n by lia.
  replace (n - Nat.min c (length src)) with 0 by lia.
  rewrite firstn_O, app_nil_r. reflexivity.
Qed.

Lemma interactions_row (mul : A -> A -> A) (d : A) (src : list A) (n : nat) :
  n <= length src ->
  interactions mul src n (Some (copyInto (repeat d (n + n * (n - 1) / 2)) src, n))
  = Some (firstn n src ++ pairs mul d src n, n + n * (n - 1) / 2).
Proof.
  intros Hn. rewrite (interactions_emitAll mul d src (n := n)) by exact Hn.
  rewrite emitAll_ok.
  - rewrite copyInto_overwrite by (auto using pairs_length).
    rewrite pairs_length. reflexivity.
  - rewrite pairs_length. unfold copyInto.
    rewrite length_app, length_firstn, length_skipn, !repeat_length. lia.
Qed.

Lemma collect_map_Some {B : Type} (f : B -> option A) (g : B -> A) (l : list B) :
  (forall b, In b l -> f b = Some (g b)) -> collect (map f l) = Some (map g l).
Proof.
  induction l as [|b l IH]; intros Hf; [reflexivity|].
  cbn [map collect]. rewrite (Hf b) by (left; reflexivity).
  rewrite IH by (intros; apply Hf; right; assumption). reflexivity.
Qed.

End InteractionFacts.

(** X14. [AddInteractionTerms] on a valid dataset whose rows and feature
    names are at least [nFeatures] long returns, for every row, its first
    [nFeatures] values followed by the products [x_j * x_k] of all pairs
    [j < k] in loop order, and the names built the same way.  The
    [nFeatures * (nFeatures - 1) / 2] interaction slots are exactly the
    ones written: no store falls outside the new row and no slot keeps
    its initial zero. *)
Theorem AddInteractionTerms_rows (F : Type) (Hf : Float64 F) (d : @Dataset F) :
  rectangular_dataset d ->
  NumFeatures d <= length (FeatureNames d) ->
  let n := NumFeatures d in
  AddInteractionTerms (Some d) =
  Returned (NewDataset
              (map (fun row => firstn n row ++ pairs f_mul f_zero row n) (Features d))
              (Target d)
              (firstn n (FeatureNames d) ++ pairs productName EmptyString (FeatureNames d) n)) /\
  (forall row, In row (Features d) ->
     length (firstn n row ++ pairs f_mul f_zero row n) = n + n * (n - 1) / 2).
Proof.
  intros [Hvalid Hrag] Hnames n. apply ragged_false in Hrag.
  rewrite Forall_forall in Hrag. split.
  - unfold AddInteractionTerms. rewrite Hvalid. cbn [negb]. fold n.
    rewrite (collect_map_Some _
               (fun row => (firstn n row ++ pairs f_mul f_zero row n, n + n * (n - 1) / 2)))
      by (intros row Hin; apply interactions_row; apply Hrag; exact Hin).
    rewrite interactions_row by exact Hnames.
    rewrite map_map. cbn [fst]. reflexivity.
  - intros row Hin. rewrite length_app, length_firstn, pairs_length.
    specialize (Hrag row Hin). fold n in Hrag. lia.
Qed.

Lemma AddInteractionTerms_rows_witness :
  AddInteractionTerms
    (Some (NewDataset [[2; 3; 5]; [1; nan; 4]]%float [1; 2]%float ["a"; "b"; "c"]%string))
  = Returned (NewDataset [[2; 3; 5; 6; 10; 15]; [1; nan; 4; nan; 4; nan]]%float [1; 2]%float
                         ["a"; "b"; "c"; "a*b"; "a*c"; "b*c"]%string).
Proof.
  destruct (@AddInteractionTerms_rows float IEEE
              (NewDataset [[2; 3; 5]; [1; nan; 4]]%float [1; 2]%float ["a"; "b"; "c"]%string))
    as [Hrows _].
  - split; reflexivity.
  - cbn. lia.
  - rewrite Hrows. vm_compute. reflexivity.
Defined.

Section CombinationFacts.
Context {F : Type} `{Float64 F}.
Local Open Scope f64_scope.

(** The values [generateCombinations] produces, as a list. *)
Fixpoint combinations (features : list F) (degree : nat) : list F :=
  match degree with
  | 0 => []
  | S d =>
      match d with
      | 0 => features
      | S _ =>
          flat_map
            (fun i => combinations (map (fun r => at1 features i * r) (skipn i features)) d)
            (seq 0 (length features))
      end
  end.

Lemma generateCombinations_step (features : list F) (d : nat) (st : option (list F * nat)) :
  generateCombinations features (S (S d)) st =
  fold_left
    (fun st i =>
       generateCombinations (map (fun r => at1 features i * r) (skipn i features)) (S d) st)
    (seq 0 (length features)) st.
Proof. reflexivity. Qed.

Lemma combinations_step (features : list F) (d : nat) :
  combinations features (S (S d)) =
  flat_map
    (fun i => combinations (map (fun r => at1 features i * r) (skipn i features)) (S d))
    (seq 0 (length features)).
Proof. reflexivity. Qed.

Lemma generateCombinations_emitAll (features : list F) (degree : nat)
  (st : option (list F * nat)) :
  0 < degree ->
  generateCombinations features degree st = emitAll (combinations features degree) st.
Proof.
  revert features st. induction degree as [|d IH]; intros features st Hd; [lia|].
  destruct d as [|d']; [reflexivity|].
  rewrite generateCombinations_step, combinations_step.
  generalize (seq 0 (length features)) as l. intros l. revert st.
  induction l as [|i l IHl]; intros st; [reflexivity|].
  cbn [fold_left flat_map]. rewrite emitAll_app, IH by lia. apply IHl.
Qed.

(** A value obtained by multiplying [k] entries of [features]. *)
Inductive product_of (features : list F) : nat -> F -> Prop :=
| product_entry (v : F) : In v features -> product_of features 1 v
| product_mul (a b : nat) (u v : F) :
    product_of features a u -> product_of features b v ->
    product_of features (a + b) (u * v).

Lemma product_of_subst (temp features : list F) (m k : nat) (v : F) :
  (forall t, In t temp -> product_of features m t) ->
  product_of temp k v -> product_of features (k * m)%nat v.
Proof.
  intros Htemp Hv. induction Hv as [v Hin | a b u v _ IHu _ IHv].
  - rewrite Nat.mul_1_l. apply Htemp. exact Hin.
  - rewrite Nat.mul_add_distr_r. apply product_mul; assumption.
Qed.

Lemma combinations_products (degree : nat) :
  forall (features : list F) (v : F),
    In v (combinations features (S degree)) -> product_of features (2 ^ degree) v.
Proof.
  induction degree as [|d IH]; intros features v Hin.
  - apply product_entry. exact Hin.
  - rewrite combinations_step in Hin. apply in_flat_map in Hin.
    destruct Hin as (i & Hi & Hin). apply in_seq in Hi.
    apply IH in Hin.
    replace (2 ^ S d)%nat with (2 ^ d * 2)%nat by (cbn [Nat.pow]; lia).
    apply product_of_subst with (temp := map (fun r => at1 features i * r) (skipn i features));
      [|exact Hin].
    intros t Ht. apply in_map_iff in Ht. destruct Ht as (r & <- & Hr).
    apply (product_mul (a := 1) (b := 1)); apply product_entry.
    + apply nth_In. lia.
    + revert Hr. rewrite <- (firstn_skipn i features) at 2. intros Hr.
      apply in_or_app. right. exact Hr.
Qed.

Lemma combinations_two (features : list F) :
  combinations features 2 =
  flat_map (fun i => map (fun j => at1 features i * at1 features j)
                         (seq i (length features - i)%nat))
           (seq 0 (length features)).
Proof.
  rewrite combinations_step. apply flat_map_ext. intros i.
  cbn [combinations]. rewrite (skipn_seq_nth f_zero), map_map. reflexivity.
Qed.

Lemma combinations_two_length (features : list F) :
  (2 * length (combinations features 2) = length features * (length features + 1))%nat.
Proof.
  rewrite combinations_two. set (m := length features).
  assert (Hpre : forall k, k <= m ->
            Nat.mul 2 (length (flat_map (fun i => map (fun j => at1 features i * at1 features j)
                                                      (seq i (m - i)%nat))
                                        (seq 0 k)))
            = (k * (2 * m - k + 1))%nat).
  { induction k as [|k IH]; intros Hk; [reflexivity|].
    rewrite seq_S, flat_map_app, length_app. cbn [flat_map Nat.add].
    rewrite app_nil_r, length_map, length_seq. specialize (IH ltac:(lia)). nia. }
  rewrite (Hpre m) by lia. f_equal. lia.
Qed.

End CombinationFacts.

(** X15. [generateCombinations] with a degree of at least 1 and room for
    its output writes the values one after the other from [startIndex]
    on, leaves the rest of [result] as it was and returns the next free
    index; for degree 2 the values are the products [x_i * x_j] of all
    pairs [i <= j] in lexicographic order, [m (m + 1) / 2] of them for
    [m] features. *)
Theorem generateCombinations_writes (F : Type) (Hf : Float64 F)
  (features result : list F) (degree startIndex : nat) :
  0 < degree ->
  startIndex + length (combinations features degree) <= length result ->
  generateCombinations features degree (Some (result, startIndex)) =
    Some (overwrite result startIndex (combinations features degree),
          startIndex + length (combinations features degree)) /\
  combinations features 2 =
    flat_map (fun i => map (fun j => f_mul (at1 features i) (at1 features j))
                           (seq i (length features - i)))
             (seq 0 (length features)) /\
  2 * length (combinations features 2) = length features * (length features + 1).
Proof.
  intros Hd Hcap. split; [|split].
  - rewrite generateCombinations_emitAll by exact Hd. apply emitAll_ok. exact Hcap.
  - apply combinations_two.
  - apply combinations_two_length.
Qed.

Lemma generateCombinations_writes_witness :
  generateCombinations [2; 3; 5]%float 2 (Some ([7; 7; 0; 0; 0; 0; 0; 0; 7]%float, 2)) =
  Some ([7; 7; 4; 6; 10; 9; 15; 25; 7]%float, 8).
Proof.
  destruct (@generateCombinations_writes float IEEE [2; 3; 5]%float
              [7; 7; 0; 0; 0; 0; 0; 0; 7]%float 2 2) as (Hrun & _ & _).
  - lia.
  - cbn. lia.
  - rewrite Hrun. vm_compute. reflexivity.
Defined.

(** X16. Every value [generateCombinations] writes for degree [d + 1] is a
    product of exactly [2 ^ d] entries of [features]: each level of the
    recursion multiplies two values of the level below.  For the degrees 1
    and 2 this is the degree asked for; for degree 3 the values are
    products of four entries. *)
Theorem generateCombinations_degree (F : Type) (Hf : Float64 F)
  (features result result' : list F) (degree startIndex index' : nat) :
  generateCombinations features (S degree) (Some (result, startIndex)) = Some (result', index') ->
  startIndex <= index' /\
  forall k, startIndex <= k < index' ->
            product_of features (2 ^ degree) (at1 result' k).
Proof.
  intros Hrun. rewrite generateCombinations_emitAll in Hrun by lia.
  apply emitAll_some in Hrun. destruct Hrun as [-> Hrest].
  split; [lia|]. intros k Hk.
  destruct (combinations features (S degree)) as [|v vs] eqn:E; [cbn in Hk; lia|].
  destruct (Hrest ltac:(discriminate)) as [Hcap ->].
  unfold at1. rewrite nth_overwrite by lia.
  apply combinations_products. rewrite E. apply nth_In. lia.
Qed.

Lemma generateCombinations_degree_witness :
  generateCombinations [2; 3]%float 3 (Some ([0; 0; 0; 0]%float, 0))
  = Some ([16; 24; 36; 81]%float, 4) /\
  product_of [2; 3]%float 4 81%float.
Proof.
  assert (Hrun : generateCombinations [2; 3]%float 3 (Some ([0; 0; 0; 0]%float, 0))
                 = Some ([16; 24; 36; 81]%float, 4)) by (vm_compute; reflexivity).
  split; [exact Hrun|].
  destruct (@generateCombinations_degree float IEEE _ _ _ _ _ _ Hrun) as [_ Hprod].
  apply (Hprod 3). lia.
Defined.

Section VarianceFacts.
Context {F : Type} `{Float64 F}.
Local Open Scope f64_scope.

Lemma map_seq_nth {A B : Type} (g : A -> B) (d : A) (l : list A) :
  map (fun i => g (nth i l d)) (seq 0 (length l)) = map g l.
Proof.
  rewrite <- (map_map (fun i => nth i l d) g), map_nth_seq_id. reflexivity.
Qed.

Lemma selection_loop (X : list (list F)) (names : list string) (n : nat)
  (threshold : F) (variances : list F) (l : list nat)
  (selectedFeatures : list (list F)) (selectedNames : list string) :
  Forall (fun i => i < length names) l ->
  fold_left
    (fun st i =>
       match st with
       | None => None
       | Some (selectedFeatures, selectedNames) =>
           if at1 variances i >? threshold
           then match item names i with
                | None => None
                | Some name =>
                    Some (selectedFeatures ++ [map (fun j => at2 X j i) (seq 0 n)],
                          selectedNames ++ [name])
                end
           else st
       end)
    l (Some (selectedFeatures, selectedNames))
  = let kept := filter (fun i => at1 variances i >? threshold) l in
    Some (selectedFeatures ++ map (fun i => map (fun j => at2 X j i) (seq 0 n)) kept,
          selectedNames ++ map (fun i => nth i names EmptyString) kept).
Proof.
  intros Hl. revert selectedFeatures selectedNames.
  induction Hl as [|i l Hi Hl IH]; intros selectedFeatures selectedNames.
  - cbn. rewrite !app_nil_r. reflexivity.
  - cbn [fold_left filter]. destruct (at1 variances i >? threshold).
    + rewrite (item_nth names EmptyString Hi), IH. cbn [map].
      rewrite <- !app_assoc. reflexivity.
    + apply IH.
Qed.

End VarianceFacts.

(** X17. [DropLowVarianceFeatures] on a valid dataset without short rows
    (and with a name for every feature) keeps exactly the features whose
    variance compares above the threshold, in their order: every row is
    projected on the kept columns, the names follow, the target is
    unchanged.  When no variance compares above the threshold (a NaN
    threshold, for one) the rows that come back are empty and the dataset
    returned is not valid. *)
Theorem DropLowVarianceFeatures_projection (F : Type) (Hf : Float64 F)
  (d : @Dataset F) (threshold : F) :
  rectangular_dataset d ->
  NumFeatures d <= length (FeatureNames d) ->
  let kept := filter (fun i => f_ltb threshold (columnVariance (Features d) (NumSamples d) i))
                     (seq 0 (NumFeatures d)) in
  let d' := NewDataset (map (fun row => map (fun c => at1 row c) kept) (Features d))
                       (Target d)
                       (map (fun c => nth c (FeatureNames d) EmptyString) kept) in
  DropLowVarianceFeatures (Some d) threshold = Returned d' /\
  NumFeatures d' = length kept /\
  (kept = [] -> IsValid d' = false).
Proof.
  intros [Hvalid Hrag] Hnames kept d'. split; [|split].
  - unfold DropLowVarianceFeatures. rewrite Hvalid, Hrag. cbn [negb].
    rewrite selection_loop
      by (apply Forall_forall; intros i Hin; apply in_seq in Hin; lia).
    cbv zeta. cbn [app].
    assert (Hkept : filter (fun i => f_ltb threshold
                                      (at1 (map (columnVariance (Features d) (NumSamples d))
                                                (seq 0 (NumFeatures d))) i))
                           (seq 0 (NumFeatures d)) = kept).
    { unfold kept. apply filter_ext_in. intros i Hin. apply in_seq in Hin.
      rewrite at1_table by lia. reflexivity. }
    rewrite Hkept. unfold d'. f_equal. f_equal.
    rewrite length_map, NumSamples_length.
    rewrite <- (map_seq_nth (fun row => map (fun c => at1 row c) kept) [] (Features d)).
    apply map_ext_in. intros i Hin. apply in_seq in Hin.
    rewrite <- (map_seq_nth (fun c => at1 (nth i (Features d) []) c) 0 kept).
    apply map_ext_in. intros j Hj. apply in_seq in Hj.
    unfold at2 at 1.
    rewrite nth_indep with (d' := map (fun j0 => at2 (Features d) j0 0)
                                      (seq 0 (length (Features d))))
      by (rewrite length_map; lia).
    rewrite (map_nth (fun i0 => map (fun j0 => at2 (Features d) j0 i0)
                                    (seq 0 (length (Features d))))).
    rewrite nth_indep with (d' := at2 (Features d) 0 (nth j kept 0))
      by (rewrite length_map, length_seq; lia).
    rewrite (map_nth (fun j0 => at2 (Features d) j0 (nth j kept 0))).
    rewrite seq_nth by lia. reflexivity.
  - unfold NumFeatures, d'. cbn [Features NewDataset]. rewrite length_map.
    apply IsValid_true in Hvalid. destruct Hvalid as (Hn & _ & _).
    destruct (Features d) as [|row rows]; [cbn in Hn; lia|].
    cbn. rewrite length_map. reflexivity.
  - intros Hnone. unfold IsValid, NumFeatures, NumSamples, d'. cbn [Features NewDataset].
    rewrite Hnone, length_map.
    apply IsValid_true in Hvalid. destruct Hvalid as (Hn & _ & _).
    destruct (Features d) as [|row rows]; [cbn in Hn; lia|]. reflexivity.
Qed.

Lemma DropLowVarianceFeatures_projection_witness :
  DropLowVarianceFeatures
    (Some (NewDataset [[1; 5; 2]; [3; 5; 2.5]]%float [1; 2]%float ["a"; "b"; "c"]%string))
    0.5%float
  = Returned (NewDataset [[1]; [3]]%float [1; 2]%float ["a"]%string).
Proof.
  destruct (@DropLowVarianceFeatures_projection float IEEE
              (NewDataset [[1; 5; 2]; [3; 5; 2.5]]%float [1; 2]%float ["a"; "b"; "c"]%string)
              0.5%float) as (Hrun & _ & _).
  - split; reflexivity.
  - cbn. lia.
  - rewrite Hrun. vm_compute. reflexivity.
Defined.

(** ** Package [data]: splitting a dataset *)

(** [int(x)] on a [float64]: truncation towards zero.  Go leaves the
    value open when [x] is NaN or out of range; amd64 yields the smallest
    [int64]. *)
Class FloatToInt (F : Type) := { f_to_int : F -> Z }.

Definition float_to_int (x : float) : Z :=
  let min_int := (- 2 ^ 63)%Z in
  match Prim2SF x with
  | S754_zero _ => 0%Z
  | S754_finite s m e =>
      let magnitude := if (0 <=? e)%Z then (Zpos m * 2 ^ e)%Z else (Zpos m / 2 ^ (- e))%Z in
      let z := if s then (- magnitude)%Z else magnitude in
      if ((min_int <=? z) && (z <? 2 ^ 63))%Z then z else min_int
  | _ => min_int
  end.

#[export] Instance IEEE_to_int : FloatToInt float := {| f_to_int := float_to_int |}.

Definition Rtrunc (x : R) : Z :=
  if Rle_dec 0 x then Int_part x else (- Int_part (- x))%Z.

#[export] Instance Exact_to_int : FloatToInt R := {| f_to_int := Rtrunc |}.

Section Splits.
Context {F : Type} `{Float64 F} `{FloatToInt F}.
Local Open Scope f64_scope.

(** [rand.Shuffle] is seeded with the clock: the permutation it leaves in
    [indices] is a parameter of the model. *)
Variable shuffle : list nat -> list nat.

(** The rows and targets at [indices], copied in that order;
    [data.Features[idx]] and [data.Target[idx]] panic past the end. *)
Definition gather (d : @Dataset F) (indices : list nat) : option (@Dataset F) :=
  match collect (map (fun idx => item (Features d) idx) indices),
        collect (map (fun idx => item (Target d) idx) indices) with
  | Some features, Some target => Some (NewDataset features target (FeatureNames d))
  | _, _ => None
  end.

Definition SplitDataset (data : option (@Dataset F)) (testRatio : F) (doShuffle : bool)
  : outcome DataError (@Dataset F * @Dataset F) :=
  match data with
  | None => Failed ErrInvalidDataset
  | Some d =>
      if negb (IsValid d) then Failed ErrInvalidDataset
      else if (testRatio <=? f_zero) || (testRatio >=? f_one) then Failed ErrTestRatio
      else
        let nSamples := NumSamples d in
        let testSize := f_to_int (f_of_int (Z.of_nat nSamples) * testRatio) in
        let trainSize := (Z.of_nat nSamples - testSize)%Z in
        let indices := seq 0 nSamples in
        let indices := if doShuffle then shuffle indices else indices in
        (* [make] panics on a negative length, [indices[trainSize+i]] past the end *)
        if (trainSize <? 0)%Z || (testSize <? 0)%Z then Panicked
        else
          match slice indices 0 (Z.to_nat trainSize),
                slice indices (Z.to_nat trainSize) (Z.to_nat trainSize + Z.to_nat testSize)%nat
          with
          | Some trainIndices, Some testIndices =>
              match gather d trainIndices, gather d testIndices with
              | Some trainDataset, Some testDataset => Returned (trainDataset, testDataset)
              | _, _ => Panicked
              end
          | _, _ => Panicked
          end
  end.

Definition TrainTestSplit (data : option (@Dataset F)) (testRatio : F)
  : outcome DataError (@Dataset F * @Dataset F) :=
  SplitDataset data testRatio true.

(** One pass of the fold loop of [CrossValidationSplit]. *)
Definition foldSizeAt (nSamples k i : nat) : nat :=
  let foldSize := (nSamples / k)%nat in
  let extraSamples := (nSamples mod k)%nat in
  if Nat.ltb i extraSamples then S foldSize else foldSize.

Definition splitFold (d : @Dataset F) (indices : list nat) (nSamples k : nat)
  (st : option (nat * list (@Dataset F) * list (@Dataset F))) (i : nat)
  : option (nat * list (@Dataset F) * list (@Dataset F)) :=
  match st with
  | None => None
  | Some (start, trainFolds, testFolds) =>
      let size := foldSizeAt nSamples k i in
      match slice indices start (start + size)%nat,
            slice indices 0 start,
            slice indices (start + size)%nat (length indices) with
      | Some testIndices, Some before, Some after =>
          match gather d testIndices, gather d (before ++ after) with
          | Some test, Some train =>
              Some ((start + size)%nat, trainFolds ++ [train], testFolds ++ [test])
          | _, _ => None
          end
      | _, _, _ => None
      end
  end.

Definition CrossValidationSplit (data : option (@Dataset F)) (k : Z)
  : outcome DataError (list (@Dataset F) * list (@Dataset F)) :=
  match data with
  | None => Failed ErrInvalidDataset
  | Some d =>
      if negb (IsValid d) then Failed ErrInvalidDataset
      else if (k <=? 1)%Z then Failed ErrFoldsBelowTwo
      else
        let nSamples := NumSamples d in
        if (Z.of_nat nSamples <? k)%Z then Failed ErrFoldsAboveSamples
        else
          let indices := shuffle (seq 0 nSamples) in
          match fold_left (splitFold d indices nSamples (Z.to_nat k))
                          (seq 0 (Z.to_nat k)) (Some (0, [], [])) with
          | Some (_, trainFolds, testFolds) => Returned (trainFolds, testFolds)
          | None => Panicked
          end
  end.

End Splits.

Section SplitFacts.
Context {F : Type} `{Float64 F}.
Local Open Scope f64_scope.

(** The samples of a dataset: every row with its target. *)
Definition samples (d : @Dataset F) : list (list F * F) :=
  combine (Features d) (Target d).

Definition pick (d : @Dataset F) (indices : list nat) : list (list F * F) :=
  map (fun idx => (nth idx (Features d) [], nth idx (Target d) f_zero)) indices.

Definition gathered (d : @Dataset F) (indices : list nat) : @Dataset F :=
  NewDataset (map (fun idx => nth idx (Features d) []) indices)
             (map (fun idx => nth idx (Target d) f_zero) indices)
             (FeatureNames d).

Lemma gather_ok (d : @Dataset F) (indices : list nat) :
  length (Target d) = length (Features d) ->
  Forall (fun idx => idx < length (Features d)) indices ->
  gather d indices = Some (gathered d indices).
Proof.
  intros Hlen Hall. rewrite Forall_forall in Hall. unfold gather.
  rewrite (collect_map_Some _ (fun idx => nth idx (Features d) []))
    by (intros idx Hin; apply item_nth; apply Hall; exact Hin).
  rewrite (collect_map_Some _ (fun idx => nth idx (Target d) f_zero))
    by (intros idx Hin; apply item_nth; rewrite Hlen; apply Hall; exact Hin).
  reflexivity.
Qed.

Lemma samples_gathered (d : @Dataset F) (indices : list nat) :
  samples (gathered d indices) = pick d indices.
Proof.
  unfold samples, pick, gathered. cbn [Features Target NewDataset].
  induction indices as [|i l IH]; [reflexivity|]. cbn [map combine]. rewrite IH. reflexivity.
Qed.

Lemma pick_all (d : @Dataset F) :
  length (Target d) = length (Features d) ->
  pick d (seq 0 (length (Features d))) = samples d.
Proof.
  intros Hlen. unfold pick, samples.
  rewrite <- (map_nth_seq_id (combine (Features d) (Target d)) ([], f_zero)).
  rewrite length_combine, Hlen, Nat.min_id.
  apply map_ext. intros i. rewrite combine_nth by (symmetry; exact Hlen). reflexivity.
Qed.

Lemma pick_permutation (d : @Dataset F) (indices : list nat) :
  length (Target d) = length (Features d) ->
  Permutation indices (seq 0 (length (Features d))) ->
  Permutation (pick d indices) (samples d).
Proof.
  intros Hlen Hperm. rewrite <- (pick_all d Hlen). unfold pick.
  apply Permutation_map. exact Hperm.
Qed.

Lemma pick_app (d : @Dataset F) (l1 l2 : list nat) :
  pick d (l1 ++ l2) = pick d l1 ++ pick d l2.
Proof. unfold pick. apply map_app. Qed.

(** Where fold [m] starts. *)
Definition startAt (nSamples k m : nat) : nat :=
  (m * (nSamples / k) + Nat.min m (nSamples mod k))%nat.

Lemma startAt_S (n k m : nat) :
  startAt n k (S m) = (startAt n k m + foldSizeAt n k m)%nat.
Proof.
  unfold startAt, foldSizeAt.
  destruct (Nat.ltb_spec m (n mod k)); nia.
Qed.

Lemma startAt_all (n k : nat) : 0 < k -> startAt n k k = n.
Proof.
  intros Hk. unfold startAt.
  pose proof (Nat.mod_upper_bound n k ltac:(lia)).
  pose proof (Nat.div_mod_eq n k). nia.
Qed.

Lemma startAt_mono (n k m m' : nat) : m <= m' -> startAt n k m <= startAt n k m'.
Proof. intros Hm. unfold startAt. nia. Qed.

Lemma foldSizeAt_pos (n k i : nat) : 0 < k -> k <= n -> 0 < foldSizeAt n k i.
Proof.
  intros Hk Hn. unfold foldSizeAt.
  assert (0 < n / k)%nat by (apply Nat.div_str_pos; lia).
  destruct (Nat.ltb i (n mod k)); lia.
Qed.

Lemma slice_ok {A : Type} (l : list A) (lo hi : nat) :
  lo <= hi -> hi <= length l ->
  slice l lo hi = Some (firstn (hi - lo) (skipn lo l)).
Proof.
  intros H1 H2. unfold slice.
  replace (Nat.leb lo hi) with true by (symmetry; apply Nat.leb_le; exact H1).
  replace (Nat.leb hi (length l)) with true by (symmetry; apply Nat.leb_le; exact H2).
  reflexivity.
Qed.

(** The indices of test fold [i] and of its training set. *)
Definition testIndicesAt (indices : list nat) (n k i : nat) : list nat :=
  firstn (foldSizeAt n k i) (skipn (startAt n k i) indices).

Definition trainIndicesAt (indices : list nat) (n k i : nat) : list nat :=
  firstn (startAt n k i) indices ++ skipn (startAt n k (S i)) indices.

Lemma splitFold_loop (d : @Dataset F) (indices : list nat) (n k : nat) :
  0 < k -> length indices = n ->
  length (Target d) = length (Features d) ->
  Forall (fun idx => idx < length (Features d)) indices ->
  forall m, m <= k ->
    fold_left (splitFold d indices n k) (seq 0 m) (Some (0, [], []))
    = Some (startAt n k m,
            map (fun i => gathered d (trainIndicesAt indices n k i)) (seq 0 m),
            map (fun i => gathered d (testIndicesAt indices n k i)) (seq 0 m)).
Proof.
  intros Hk Hlen Hty Hall. rewrite Forall_forall in Hall.
  induction m as [|m IH]; intros Hm; [reflexivity|].
  rewrite fold_left_seq_S, IH by lia. cbn [Nat.add]. unfold splitFold.
  pose proof (startAt_S n k m) as HS.
  pose proof (startAt_mono n k (m := S m) (m' := k) ltac:(lia)) as Hmono.
  rewrite (startAt_all n Hk) in Hmono.
  rewrite <- HS.
  rewrite (slice_ok indices (lo := startAt n k m) (hi := startAt n k (S m))) by lia.
  rewrite (slice_ok indices (lo := 0) (hi := startAt n k m)) by lia.
  rewrite (slice_ok indices (lo := startAt n k (S m)) (hi := length indices)) by lia.
  rewrite Nat.sub_0_r. cbn [skipn].
  replace (startAt n k (S m) - startAt n k m)%nat with (foldSizeAt n k m) by lia.
  rewrite (firstn_all2 (n := (length indices - startAt n k (S m))%nat))
    by (rewrite length_skipn; lia).
  rewrite !gather_ok; try exact Hty.
  - rewrite !seq_S, !map_app. reflexivity.
  - apply Forall_forall. intros idx Hin. apply Hall.
    apply in_app_or in Hin. destruct Hin as [Hin|Hin].
    + eapply firstn_incl. exact Hin.
    + eapply skipn_incl. exact Hin.
  - apply Forall_forall. intros idx Hin. apply Hall.
    eapply skipn_incl. eapply firstn_incl. exact Hin.
Qed.

Lemma concat_testIndices (indices : list nat) (n k m : nat) :
  concat (map (fun i => testIndicesAt indices n k i) (seq 0 m))
  = firstn (startAt n k m) indices.
Proof.
  induction m as [|m IH]; [reflexivity|].
  rewrite seq_S, map_app, concat_app, IH. cbn [map concat Nat.add].
  rewrite app_nil_r, startAt_S, firstn_plus. reflexivity.
Qed.

Lemma train_test_permutation (indices : list nat) (n k i : nat) :
  Permutation (trainIndicesAt indices n k i ++ testIndicesAt indices n k i) indices.
Proof.
  unfold trainIndicesAt, testIndicesAt. rewrite startAt_S.
  rewrite <- app_assoc.
  apply Permutation_trans
    with (firstn (startAt n k i) indices ++ skipn (startAt n k i) indices);
    [|rewrite firstn_skipn; apply Permutation_refl].
  apply Permutation_app_head.
  apply Permutation_trans
    with (firstn (foldSizeAt n k i) (skipn (startAt n k i) indices)
          ++ skipn (foldSizeAt n k i) (skipn (startAt n k i) indices));
    [|rewrite firstn_skipn; apply Permutation_refl].
  rewrite skipn_skipn, (Nat.add_comm (foldSizeAt n k i)).
  apply Permutation_app_comm.
Qed.

End SplitFacts.

(** X18. [CrossValidationSplit] with [1 < k <= nSamples] on a valid
    dataset returns [k] training sets and [k] test sets, whatever
    permutation the shuffle leaves: the test folds together hold every
    sample (a row with its own target) exactly once; fold [i] tests
    [nSamples / k] samples, one more for the first [nSamples mod k]
    folds, so never none; its training set holds the other samples, and
    both keep the feature names. *)
Theorem CrossValidationSplit_partition (F : Type) (Hf : Float64 F)
  (shuffle : list nat -> list nat) (d : @Dataset F) (k : Z) :
  (forall l, Permutation (shuffle l) l) ->
  IsValid d = true ->
  (1 < k <= Z.of_nat (NumSamples d))%Z ->
  exists trainFolds testFolds,
    CrossValidationSplit shuffle (Some d) k = Returned (trainFolds, testFolds) /\
    length trainFolds = Z.to_nat k /\ length testFolds = Z.to_nat k /\
    Permutation (concat (map samples testFolds)) (samples d) /\
    forall i, i < Z.to_nat k ->
      exists train test,
        nth_error trainFolds i = Some train /\ nth_error testFolds i = Some test /\
        length (Features test) = foldSizeAt (NumSamples d) (Z.to_nat k) i /\
        length (Target test) = length (Features test) /\
        0 < length (Features test) /\
        length (Features train) = NumSamples d - length (Features test) /\
        length (Target train) = length (Features train) /\
        Permutation (samples train ++ samples test) (samples d) /\
        FeatureNames train = FeatureNames d /\ FeatureNames test = FeatureNames d.
Proof.
  intros Hshuffle Hvalid Hk.
  pose proof Hvalid as Hshape. apply IsValid_true in Hshape.
  destruct Hshape as (Hn & _ & Hty).
  rewrite NumSamples_length in Hk.
  set (n := length (Features d)) in *.
  set (kn := Z.to_nat k).
  assert (Hkn : 1 < kn <= n) by (unfold kn; lia).
  set (indices := shuffle (seq 0 n)).
  assert (Hperm : Permutation indices (seq 0 n)) by apply Hshuffle.
  assert (Hlen : length indices = n)
    by (rewrite (Permutation_length Hperm), length_seq; reflexivity).
  assert (Hall : Forall (fun idx => idx < length (Features d)) indices).
  { apply Forall_forall. intros idx Hin.
    apply (Permutation_in _ Hperm) in Hin. apply in_seq in Hin. fold n. lia. }
  unfold CrossValidationSplit. rewrite Hvalid. cbn [negb].
  replace (k <=? 1)%Z with false by (symmetry; apply Z.leb_gt; lia).
  rewrite NumSamples_length. fold n.
  replace (Z.of_nat n <? k)%Z with false by (symmetry; apply Z.ltb_ge; lia).
  fold indices. fold kn.
  rewrite (@splitFold_loop F Hf d indices n kn ltac:(lia) Hlen Hty Hall kn ltac:(lia)).
  eexists. eexists. split; [reflexivity|].
  rewrite !length_map, !length_seq. split; [reflexivity|]. split; [reflexivity|].
  assert (Hsize : forall i, i < kn -> startAt n kn (S i) <= n).
  { intros i Hi. rewrite <- (startAt_all n (k := kn)) at 2 by lia.
    apply startAt_mono. lia. }
  split.
  - rewrite map_map.
    rewrite (map_ext _ (fun i => pick d (testIndicesAt indices n kn i)))
      by (intros i; apply samples_gathered).
    assert (Hconcat : forall l : list (list nat),
              concat (map (pick d) l) = pick d (concat l)).
    { induction l as [|a l IH]; [reflexivity|].
      cbn [map concat]. rewrite IH, pick_app. reflexivity. }
    rewrite <- (map_map (fun i => testIndicesAt indices n kn i) (pick d)).
    rewrite Hconcat, concat_testIndices, startAt_all by lia.
    rewrite firstn_all2 by lia.
    apply pick_permutation; [exact Hty | exact Hperm].
  - intros i Hi.
    exists (gathered d (trainIndicesAt indices n kn i)),
           (gathered d (testIndicesAt indices n kn i)).
    assert (Hnth : forall (g : nat -> @Dataset F),
              nth_error (map g (seq 0 kn)) i = Some (g i)).
    { intros g. rewrite nth_error_map, nth_error_seq.
      replace (Nat.ltb i kn) with true by (symmetry; apply Nat.ltb_lt; exact Hi).
      reflexivity. }
    rewrite !Hnth. split; [reflexivity|]. split; [reflexivity|].
    pose proof (Hsize i Hi) as Hend. rewrite startAt_S in Hend.
    pose proof (@foldSizeAt_pos n kn i ltac:(lia) ltac:(lia)) as Hpos.
    assert (Htest : length (testIndicesAt indices n kn i) = foldSizeAt n kn i).
    { unfold testIndicesAt. rewrite length_firstn, length_skipn. lia. }
    assert (Htrain : length (trainIndicesAt indices n kn i) = n - foldSizeAt n kn i).
    { unfold trainIndicesAt. rewrite length_app, length_firstn, length_skipn, startAt_S. lia. }
    assert (HF : forall l, length (Features (gathered d l)) = length l)
      by (intros l; unfold gathered; cbn [Features NewDataset]; apply length_map).
    assert (HT : forall l, length (Target (gathered d l)) = length l)
      by (intros l; unfold gathered; cbn [Target NewDataset]; apply length_map).
    rewrite !HF, !HT, Htest, Htrain.
    split; [reflexivity|]. split; [reflexivity|]. split; [exact Hpos|].
    split; [reflexivity|]. split; [reflexivity|].
    split; [|split; reflexivity].
    rewrite !samples_gathered, <- pick_app.
    apply Permutation_trans with (pick d indices).
    + unfold pick. apply Permutation_map. apply train_test_permutation.
    + apply pick_permutation; [exact Hty | exact Hperm].
Qed.

Lemma CrossValidationSplit_partition_witness :
  exists trainFolds testFolds,
    CrossValidationSplit (@rev nat)
      (Some (NewDataset [[1]; [2]; [3]; [4]; [5]]%float [10; 20; 30; 40; 50]%float ["x"]%string))
      2%Z
    = Returned (trainFolds, testFolds) /\
    map (@Target float) testFolds = [[50; 40; 30]; [20; 10]]%float.
Proof.
  destruct (@CrossValidationSplit_partition float IEEE (@rev nat)
              (NewDataset [[1]; [2]; [3]; [4]; [5]]%float [10; 20; 30; 40; 50]%float
                          ["x"]%string) 2%Z)
    as (trainFolds & testFolds & Hrun & _).
  - intros l. apply Permutation_sym, Permutation_rev.
  - reflexivity.
  - cbn. lia.
  - exists trainFolds, testFolds. split; [exact Hrun|].
    vm_compute in Hrun. injection Hrun as <- <-. reflexivity.
Defined.

(** In real arithmetic the size of the test set is always in range. *)
Lemma Rtrunc_range (n : nat) (r : R) :
  (0 < r < 1)%R -> (0 <= Rtrunc (INR n * r) <= Z.of_nat n)%Z.
Proof.
  intros Hr. unfold Rtrunc.
  assert (Hn : (0 <= INR n)%R) by apply pos_INR.
  assert (Hlo : (0 <= INR n * r)%R) by (apply Rmult_le_pos; lra).
  assert (Hhi : (INR n * r <= INR n)%R) by nra.
  destruct (Rle_dec 0 (INR n * r)) as [_|Hneg]; [|lra].
  destruct (base_Int_part (INR n * r)) as [Hfloor Hfrac]. split.
  - apply le_IZR. apply Rnot_lt_le. intros Hlt.
    assert (IZR (Int_part (INR n * r)) <= -1)%R.
    { replace (-1)%R with (IZR (-1)) by reflexivity. apply IZR_le.
      apply lt_IZR in Hlt. lia. }
    lra.
  - apply le_IZR. rewrite <- INR_IZR_INZ. lra.
Qed.

(** X19. [SplitDataset] on a valid dataset with a ratio the range check
    accepts, when the converted test size [int(float64(n) * testRatio)]
    lies between 0 and [n]: it returns [n - testSize] training samples and
    [testSize] test samples which together are the samples of the dataset
    (every row with its own target), in the original order when the data
    is not shuffled.  A test size of 0 is not rejected: the test set then
    has no sample and is not a valid dataset. *)
Theorem SplitDataset_partition (F : Type) (Hf : Float64 F) (Hc : FloatToInt F)
  (shuffle : list nat -> list nat) (d : @Dataset F) (testRatio : F) (doShuffle : bool) :
  (forall l, Permutation (shuffle l) l) ->
  IsValid d = true ->
  f_leb testRatio f_zero = false -> f_leb f_one testRatio = false ->
  let n := NumSamples d in
  let testSize := f_to_int (f_mul (f_of_int (Z.of_nat n)) testRatio) in
  (0 <= testSize <= Z.of_nat n)%Z ->
  exists train test,
    SplitDataset shuffle (Some d) testRatio doShuffle = Returned (train, test) /\
    length (Features test) = Z.to_nat testSize /\
    length (Target test) = Z.to_nat testSize /\
    length (Features train) = n - Z.to_nat testSize /\
    length (Target train) = n - Z.to_nat testSize /\
    FeatureNames train = FeatureNames d /\ FeatureNames test = FeatureNames d /\
    Permutation (samples train ++ samples test) (samples d) /\
    (doShuffle = false -> samples train ++ samples test = samples d) /\
    (testSize = 0%Z -> IsValid test = false).
Proof.
  intros Hshuffle Hvalid Hlo Hhi n testSize Hsize.
  pose proof Hvalid as Hshape. apply IsValid_true in Hshape.
  destruct Hshape as (Hn & _ & Hty).
  subst n testSize. rewrite NumSamples_length in *.
  set (n := length (Features d)) in *.
  set (testSize := f_to_int (f_mul (f_of_int (Z.of_nat n)) testRatio)) in *.
  set (indices := if doShuffle then shuffle (seq 0 n) else seq 0 n).
  assert (Hperm : Permutation indices (seq 0 n))
    by (unfold indices; destruct doShuffle; [apply Hshuffle | apply Permutation_refl]).
  assert (Hlen : length indices = n)
    by (rewrite (Permutation_length Hperm), length_seq; reflexivity).
  assert (Hall : Forall (fun idx => idx < length (Features d)) indices).
  { apply Forall_forall. intros idx Hin.
    apply (Permutation_in _ Hperm) in Hin. apply in_seq in Hin. fold n. lia. }
  rewrite Forall_forall in Hall.
  unfold SplitDataset. rewrite Hvalid, Hlo, Hhi. cbn [negb orb].
  rewrite NumSamples_length. fold n. fold testSize.
  cbv zeta. fold n. fold testSize.
  replace (Z.of_nat n - testSize <? 0)%Z with false by (symmetry; apply Z.ltb_ge; lia).
  replace (testSize <? 0)%Z with false by (symmetry; apply Z.ltb_ge; lia).
  cbn [orb]. fold indices.
  set (tr := Z.to_nat (Z.of_nat n - testSize)).
  set (te := Z.to_nat testSize).
  assert (Hsum : tr + te = n) by (unfold tr, te; lia).
  rewrite (slice_ok indices (lo := 0) (hi := tr)) by lia.
  rewrite (slice_ok indices (lo := tr) (hi := tr + te)) by lia.
  rewrite Nat.sub_0_r. cbn [skipn].
  replace (tr + te - tr) with te by lia.
  rewrite !gather_ok; try exact Hty.
  2:{ apply Forall_forall. intros idx Hin. apply Hall.
      eapply skipn_incl. eapply firstn_incl. exact Hin. }
  2:{ apply Forall_forall. intros idx Hin. apply Hall. eapply firstn_incl. exact Hin. }
  eexists. eexists. split; [reflexivity|].
  assert (HF : forall l, length (Features (gathered d l)) = length l)
    by (intros l; unfold gathered; cbn [Features NewDataset]; apply length_map).
  assert (HT : forall l, length (Target (gathered d l)) = length l)
    by (intros l; unfold gathered; cbn [Target NewDataset]; apply length_map).
  assert (Hte : length (firstn te (skipn tr indices)) = te)
    by (rewrite length_firstn, length_skipn; lia).
  assert (Htr : length (firstn tr indices) = tr) by (rewrite length_firstn; lia).
  rewrite !HF, !HT, Hte, Htr.
  split; [reflexivity|]. split; [reflexivity|].
  split; [lia|]. split; [lia|]. split; [reflexivity|]. split; [reflexivity|].
  assert (Happ : firstn tr indices ++ firstn te (skipn tr indices) = indices).
  { rewrite <- firstn_plus, Hsum. apply firstn_all2. lia. }
  rewrite !samples_gathered, <- pick_app, Happ.
  split; [apply pick_permutation; [exact Hty | exact Hperm]|]. split.
  - intros ->. unfold indices. apply pick_all. exact Hty.
  - intros Hzero. unfold IsValid, NumSamples, gathered. cbn [Features NewDataset].
    rewrite length_map, Hte. unfold te. rewrite Hzero. reflexivity.
Qed.

Lemma SplitDataset_partition_witness :
  exists train test,
    SplitDataset (@rev nat)
      (Some (NewDataset [[1]; [2]; [3]; [4]]%float [10; 20; 30; 40]%float ["x"]%string))
      0.2%float false = Returned (train, test) /\
    Target train = [10; 20; 30; 40]%float /\ Features test = [] /\ IsValid test = false.
Proof.
  destruct (@SplitDataset_partition float IEEE IEEE_to_int (@rev nat)
              (NewDataset [[1]; [2]; [3]; [4]]%float [10; 20; 30; 40]%float ["x"]%string)
              0.2%float false)
    as (train & test & Hrun & _ & _ & _ & _ & _ & _ & _ & _ & Hempty).
  - intros l. apply Permutation_sym, Permutation_rev.
  - reflexivity.
  - reflexivity.
  - reflexivity.
  - vm_compute. split; discriminate.
  - exists train, test. split; [exact Hrun|].
    specialize (Hempty ltac:(vm_compute; reflexivity)).
    vm_compute in Hrun. injection Hrun as <- <-.
    split; [reflexivity|]. split; [reflexivity|]. reflexivity.
Defined.

End Data.

(** ** Package [evaluation]: metrics *)

Module Evaluation.
Section Metrics.
Context {F : Type} `{Float64 F} `{MathLib F}.
Local Open Scope f64_scope.

(** The error values of package [evaluation]. *)
Inductive EvalError : Type :=
| ErrLengthMismatch            (* "预测值和真实值长度不匹配" *)
| ErrFoldsBelowTwo             (* "折数必须大于1" *)
| ErrSamplesMismatch           (* "特征矩阵和目标变量长度不匹配" *)
| ErrFoldsAboveSamples         (* "折数不能大于样本数量" *)
| ErrFoldFit (fold : nat)      (* "折 %d 训练失败: %v" *)
| ErrFoldPredict (fold : nat)  (* "折 %d 预测失败: %v" *)
| ErrFoldEvaluate (fold : nat) (* "折 %d 评估失败: %v" *)
| ErrInvalidDataset.           (* "无效的数据集" *)

Definition MSE (yTrue yPred : list F) : outcome EvalError F :=
  if negb (Nat.eqb (length yTrue) (length yPred)) then Failed ErrLengthMismatch
  else
    let n := f_of_int (Z.of_nat (length yTrue)) in
    let sumSquaredError :=
      fold_left (fun sumSquaredError i =>
                   let diff := at1 yTrue i - at1 yPred i in
                   sumSquaredError + diff * diff)
                (seq 0 (length yTrue)) f_zero in
    Returned (sumSquaredError / n).

Definition RMSE (yTrue yPred : list F) : outcome EvalError F :=
  match MSE yTrue yPred with
  | Returned mse => Returned (f_sqrt mse)
  | Failed e => Failed e
  | Panicked => Panicked
  end.

Definition MAE (yTrue yPred : list F) : outcome EvalError F :=
  if negb (Nat.eqb (length yTrue) (length yPred)) then Failed ErrLengthMismatch
  else
    let n := f_of_int (Z.of_nat (length yTrue)) in
    let sumAbsoluteError :=
      fold_left (fun sumAbsoluteError i =>
                   let diff := f_abs (at1 yTrue i - at1 yPred i) in
                   sumAbsoluteError + diff)
                (seq 0 (length yTrue)) f_zero in
    Returned (sumAbsoluteError / n).

(** [math.Pow(x, 2)] *)
Definition square (x : F) : F := math_Pow x (f_of_int 2).

Definition R2Score (yTrue yPred : list F) : outcome EvalError F :=
  if negb (Nat.eqb (length yTrue) (length yPred)) then Failed ErrLengthMismatch
  else
    let yMean := fold_left (fun yMean y => yMean + y) yTrue f_zero
                 / f_of_int (Z.of_nat (length yTrue)) in
    let sums :=
      fold_left (fun sums i =>
                   (fst sums + square (at1 yTrue i - yMean),
                    snd sums + square (at1 yTrue i - at1 yPred i)))
                (seq 0 (length yTrue)) (f_zero, f_zero) in
    let sst := fst sums in
    let sse := snd sums in
    if sst =? f_zero then Returned f_one
    else Returned (f_one - sse / sst).

(** The metrics map of [EvaluateModel]. *)
Definition EvaluateModel (yTrue yPred : list F) : outcome EvalError (GoMap F) :=
  let metrics : GoMap F := [] in
  match R2Score yTrue yPred with
  | Failed e => Failed e
  | Panicked => Panicked
  | Returned r2 =>
      let metrics := mapSet "r2" r2 metrics in
      match MSE yTrue yPred with
      | Failed e => Failed e
      | Panicked => Panicked
      | Returned mse =>
          let metrics := mapSet "mse" mse metrics in
          match RMSE yTrue yPred with
          | Failed e => Failed e
          | Panicked => Panicked
          | Returned rmse =>
              let metrics := mapSet "rmse" rmse metrics in
              match MAE yTrue yPred with
              | Failed e => Failed e
              | Panicked => Panicked
              | Returned mae => Returned (mapSet "mae" mae metrics)
              end
          end
      end
  end.

(** The gonum variants: no length check, [yPred.At(i, 0)] panics past
    the end of the vector. *)
Definition MSEMat (yTrue yPred : list F) : outcome EvalError F :=
  let n := length yTrue in
  if Nat.ltb (length yPred) n then Panicked
  else
    let sumSquaredError :=
      fold_left (fun sumSquaredError i =>
                   let diff := at1 yTrue i - at1 yPred i in
                   sumSquaredError + diff * diff)
                (seq 0 n) f_zero in
    Returned (sumSquaredError / f_of_int (Z.of_nat n)).

Definition RMSEMat (yTrue yPred : list F) : outcome EvalError F :=
  match MSEMat yTrue yPred with
  | Returned mse => Returned (f_sqrt mse)
  | Failed e => Failed e
  | Panicked => Panicked
  end.

Definition MAEMat (yTrue yPred : list F) : outcome EvalError F :=
  let n := length yTrue in
  if Nat.ltb (length yPred) n then Panicked
  else
    let sumAbsoluteError :=
      fold_left (fun sumAbsoluteError i =>
                   let diff := f_abs (at1 yTrue i - at1 yPred i) in
                   sumAbsoluteError + diff)
                (seq 0 n) f_zero in
    Returned (sumAbsoluteError / f_of_int (Z.of_nat n)).

Definition R2ScoreMat (yTrue yPred : list F) : outcome EvalError F :=
  let n := length yTrue in
  if Nat.ltb (length yPred) n then Panicked
  else
    let yMean := fold_left (fun yMean i => yMean + at1 yTrue i) (seq 0 n) f_zero
                 / f_of_int (Z.of_nat n) in
    let sums :=
      fold_left (fun sums i =>
                   (fst sums + square (at1 yTrue i - yMean),
                    snd sums + square (at1 yTrue i - at1 yPred i)))
                (seq 0 n) (f_zero, f_zero) in
    let sst := fst sums in
    let sse := snd sums in
    if sst =? f_zero then Returned f_one
    else Returned (f_one - sse / sst).

Definition EvaluateModelMat (yTrue yPred : list F) : outcome EvalError (GoMap F) :=
  let metrics : GoMap F := [] in
  match R2ScoreMat yTrue yPred, MSEMat yTrue yPred, RMSEMat yTrue yPred, MAEMat yTrue yPred with
  | Returned r2, Returned mse, Returned rmse, Returned mae =>
      Returned (mapSet "mae" mae (mapSet "rmse" rmse (mapSet "mse" mse (mapSet "r2" r2 metrics))))
  | _, _, _, _ => Panicked
  end.

End Metrics.

(** [math.Pow(x, 2)] is the square. *)
Class PowTwo (F : Type) `{Float64 F} `{MathLib F} : Prop := {
  pow_two : forall x : F, math_Pow x (f_of_int 2) = f_mul x x
}.

(** A power function on the reals with that property: the square for the
    exponent 2, [Rpower] elsewhere. *)
Definition RealPow (x y : R) : R :=
  if Req_dec_T y 2 then (x * x)%R else Rpower.Rpower x y.

Definition RealMath : MathLib R := {|
  math_Exp := Rtrigo_def.exp;
  math_Log := Rpower.ln;
  math_Pow := RealPow
|}.

Lemma RealMath_PowTwo : @PowTwo R Exact RealMath.
Proof.
  constructor. intros x. cbn. unfold RealPow.
  destruct (Req_dec_T 2 2) as [_|Hne]; [reflexivity | contradiction Hne; reflexivity].
Qed.

(** X20. The gonum variants of the metrics agree with the slice variants
    on vectors of equal length, value by value and as the map
    [EvaluateModelMat] returns.  They differ on a mismatch: the slice
    variants return the length error, the gonum variants panic on a
    shorter prediction vector and silently ignore the extra entries of a
    longer one. *)
Theorem metrics_Mat_agree (F : Type) (Hf : Float64 F) (M : MathLib F) (yTrue yPred : list F) :
  (length yPred = length yTrue ->
     MSEMat yTrue yPred = MSE yTrue yPred /\
     RMSEMat yTrue yPred = RMSE yTrue yPred /\
     MAEMat yTrue yPred = MAE yTrue yPred /\
     R2ScoreMat yTrue yPred = R2Score yTrue yPred /\
     EvaluateModelMat yTrue yPred = EvaluateModel yTrue yPred /\
     exists metrics, EvaluateModel yTrue yPred = Returned metrics /\
                     Permutation (mapKeys metrics) ["r2"; "mse"; "rmse"; "mae"]%string) /\
  (length yPred <> length yTrue ->
     EvaluateModel yTrue yPred = Failed ErrLengthMismatch /\
     MSE yTrue yPred = Failed ErrLengthMismatch /\
     RMSE yTrue yPred = Failed ErrLengthMismatch /\
     MAE yTrue yPred = Failed ErrLengthMismatch /\
     R2Score yTrue yPred = Failed ErrLengthMismatch) /\
  (length yPred < length yTrue ->
     EvaluateModelMat yTrue yPred = Panicked /\ MSEMat yTrue yPred = Panicked) /\
  (length yTrue < length yPred ->
     EvaluateModelMat yTrue yPred
     = EvaluateModelMat yTrue (firstn (length yTrue) yPred)).
Proof.
  split; [|split; [|split]].
  - intros Hlen.
    assert (Hmse : MSEMat yTrue yPred = MSE yTrue yPred).
    { unfold MSEMat, MSE. rewrite Hlen, Nat.ltb_irrefl, Nat.eqb_refl. reflexivity. }
    assert (Hmae : MAEMat yTrue yPred = MAE yTrue yPred).
    { unfold MAEMat, MAE. rewrite Hlen, Nat.ltb_irrefl, Nat.eqb_refl. reflexivity. }
    assert (Hr2 : R2ScoreMat yTrue yPred = R2Score yTrue yPred).
    { unfold R2ScoreMat, R2Score. rewrite Hlen, Nat.ltb_irrefl, Nat.eqb_refl. cbn [negb].
      rewrite (fold_values_indices (fun yMean y => f_add yMean y) yTrue f_zero).
      reflexivity. }
    assert (Hrmse : RMSEMat yTrue yPred = RMSE yTrue yPred)
      by (unfold RMSEMat, RMSE; rewrite Hmse; reflexivity).
    repeat (split; [assumption|]).
    assert (Hok : exists r2 mse mae,
              R2Score yTrue yPred = Returned r2 /\ MSE yTrue yPred = Returned mse /\
              MAE yTrue yPred = Returned mae).
    { unfold R2Score, MSE, MAE. rewrite Hlen, Nat.eqb_refl. cbn [negb].
      destruct (f_eqb _ _); do 3 eexists; repeat split; reflexivity. }
    destruct Hok as (r2 & mse & mae & Er2 & Emse & Emae).
    unfold EvaluateModelMat, EvaluateModel.
    rewrite Hr2, Hmse, Hrmse, Hmae. unfold RMSE. rewrite Er2, Emse, Emae.
    split; [reflexivity|]. eexists. split; [reflexivity | apply Permutation_refl].
  - intros Hne.
    assert (E : Nat.eqb (length yTrue) (length yPred) = false)
      by (apply Nat.eqb_neq; congruence).
    unfold EvaluateModel, RMSE, R2Score, MSE, MAE. rewrite E. cbn [negb].
    repeat split; reflexivity.
  - intros Hlt.
    assert (E : Nat.ltb (length yPred) (length yTrue) = true) by (apply Nat.ltb_lt; exact Hlt).
    unfold EvaluateModelMat, R2ScoreMat, MSEMat. rewrite E. split; reflexivity.
  - intros Hgt.
    assert (Hat : forall i, i < length yTrue ->
              at1 (firstn (length yTrue) yPred) i = at1 yPred i).
    { intros i Hi. unfold at1.
      rewrite <- (firstn_skipn (length yTrue) yPred) at 2.
      rewrite app_nth1 by (rewrite length_firstn; lia). reflexivity. }
    assert (Hmse : MSEMat yTrue (firstn (length yTrue) yPred) = MSEMat yTrue yPred).
    { unfold MSEMat. rewrite length_firstn.
      replace (Nat.ltb (Nat.min (length yTrue) (length yPred)) (length yTrue)) with false
        by (symmetry; apply Nat.ltb_ge; lia).
      replace (Nat.ltb (length yPred) (length yTrue)) with false
        by (symmetry; apply Nat.ltb_ge; lia).
      do 2 f_equal. apply fold_left_ext_in. intros a i Hin. apply in_seq in Hin.
      rewrite Hat by lia. reflexivity. }
    assert (Hmae : MAEMat yTrue (firstn (length yTrue) yPred) = MAEMat yTrue yPred).
    { unfold MAEMat. rewrite length_firstn.
      replace (Nat.ltb (Nat.min (length yTrue) (length yPred)) (length yTrue)) with false
        by (symmetry; apply Nat.ltb_ge; lia).
      replace (Nat.ltb (length yPred) (length yTrue)) with false
        by (symmetry; apply Nat.ltb_ge; lia).
      do 2 f_equal. apply fold_left_ext_in. intros a i Hin. apply in_seq in Hin.
      rewrite Hat by lia. reflexivity. }
    assert (Hr2 : R2ScoreMat yTrue (firstn (length yTrue) yPred) = R2ScoreMat yTrue yPred).
    { unfold R2ScoreMat. rewrite length_firstn.
      replace (Nat.ltb (Nat.min (length yTrue) (length yPred)) (length yTrue)) with false
        by (symmetry; apply Nat.ltb_ge; lia).
      replace (Nat.ltb (length yPred) (length yTrue)) with false
        by (symmetry; apply Nat.ltb_ge; lia).
      cbv zeta. set (yMean := f_div _ _).
      rewrite (fold_left_ext_in
                 (fun sums i =>
                    (f_add (fst sums) (square (f_sub (at1 yTrue i) yMean)),
                     f_add (snd sums)
                           (square (f_sub (at1 yTrue i)
                                          (at1 (firstn (length yTrue) yPred) i)))))
                 (fun sums i =>
                    (f_add (fst sums) (square (f_sub (at1 yTrue i) yMean)),
                     f_add (snd sums) (square (f_sub (at1 yTrue i) (at1 yPred i))))));
        [reflexivity|].
      intros a i Hin. apply in_seq in Hin. rewrite Hat by lia. reflexivity. }
    unfold EvaluateModelMat, RMSEMat. rewrite Hmse, Hmae, Hr2. reflexivity.
Qed.

Section MetricReal.
Context (M : MathLib R) (P : @PowTwo R Exact M).
Local Open Scope R_scope.

Lemma rsum_zero_each (g : nat -> R) (l : list nat) :
  (forall j, In j l -> 0 <= g j) -> rsum g l = 0 -> forall j, In j l -> g j = 0.
Proof.
  induction l as [|i l IH]; intros Hg Hsum j Hin; [destruct Hin|].
  change (i :: l) with ([i] ++ l) in Hsum. rewrite rsum_app, rsum_single in Hsum.
  assert (0 <= g i) by (apply Hg; left; reflexivity).
  assert (0 <= rsum g l) by (apply rsum_nonneg; intros; apply Hg; right; assumption).
  destruct Hin as [<-|Hin]; [lra|].
  apply IH; [intros; apply Hg; right; assumption | lra | exact Hin].
Qed.

Lemma square_R (x : R) : @square R Exact M x = x * x.
Proof. unfold square. exact (@pow_two R Exact M P x). Qed.

Lemma sums_fold (yTrue yPred : list R) (yMean : R) (idx : list nat) (a b : R) :
  fold_left (fun sums i =>
               (f_add (fst sums) (@square R Exact M (f_sub (at1 yTrue i) yMean)),
                f_add (snd sums) (@square R Exact M (f_sub (at1 yTrue i) (at1 yPred i)))))
            idx (a, b)
  = (a + rsum (fun i => (at1 yTrue i - yMean) * (at1 yTrue i - yMean)) idx,
     b + rsum (fun i => (at1 yTrue i - at1 yPred i) * (at1 yTrue i - at1 yPred i)) idx).
Proof.
  revert a b. induction idx as [|i idx IH]; intros a b.
  - unfold rsum. cbn. f_equal; lra.
  - cbn [fold_left fst snd]. rewrite IH, !square_R. exact_ops.
    change (i :: idx) with ([i] ++ idx). rewrite !rsum_app, !rsum_single. f_equal; lra.
Qed.

Lemma lists_equal_iff (yTrue yPred : list R) :
  length yPred = length yTrue ->
  (forall i, (i < length yTrue)%nat -> at1 yTrue i - at1 yPred i = 0) <-> yPred = yTrue.
Proof.
  intros Hlen. split.
  - intros Hd. apply nth_ext with (d := 0) (d' := 0); [exact Hlen|].
    intros i Hi. specialize (Hd i ltac:(lia)). unfold at1 in Hd. exact_ops. lra.
  - intros -> i _. lra.
Qed.

End MetricReal.

(** X21. In real arithmetic, on vectors of one length [n > 0]: [MSE] and
    [MAE] are non-negative and vanish exactly when the predictions equal
    the true values, [RMSE] is the square root of [MSE], and [R2Score]
    never exceeds 1 and is 1 for exact predictions.  [R2Score] is also 1,
    whatever the predictions, when the true values are all equal: the
    guard against a zero total sum of squares reports a perfect fit. *)
Theorem metrics_real (M : MathLib R) (P : @PowTwo R Exact M) (yTrue yPred : list R) :
  length yPred = length yTrue -> 0 < length yTrue ->
  exists mse mae r2,
    MSE yTrue yPred = Returned mse /\
    RMSE yTrue yPred = Returned (R_sqrt.sqrt mse) /\
    MAE yTrue yPred = Returned mae /\
    @R2Score R Exact M yTrue yPred = Returned r2 /\
    (0 <= mse)%R /\ (0 <= mae)%R /\ (r2 <= 1)%R /\
    (mse = 0%R <-> yPred = yTrue) /\
    (mae = 0%R <-> yPred = yTrue) /\
    (yPred = yTrue -> r2 = 1%R) /\
    ((forall i, i < length yTrue -> at1 yTrue i = at1 yTrue 0) -> r2 = 1%R).
Proof.
  intros Hlen Hn. set (n := length yTrue) in *.
  assert (HnR : (0 < INR n)%R) by (apply lt_0_INR; exact Hn).
  set (d := fun i => (at1 yTrue i - at1 yPred i)%R).
  assert (Hmse : MSE yTrue yPred = Returned (rsum (fun i => d i * d i)%R (seq 0 n) / INR n)%R).
  { unfold MSE. fold n. rewrite Hlen, Nat.eqb_refl. cbn [negb]. exact_ops.
    rewrite <- INR_IZR_INZ. reflexivity. }
  assert (Hmae : MAE yTrue yPred = Returned (rsum (fun i => Rabs (d i)) (seq 0 n) / INR n)%R).
  { unfold MAE. fold n. rewrite Hlen, Nat.eqb_refl. cbn [negb]. exact_ops.
    rewrite <- INR_IZR_INZ. reflexivity. }
  set (m := (rsum (fun i => at1 yTrue i) (seq 0 n) / INR n)%R).
  set (sst := rsum (fun i => (at1 yTrue i - m) * (at1 yTrue i - m))%R (seq 0 n)).
  set (sse := rsum (fun i => d i * d i)%R (seq 0 n)).
  assert (Hr2 : @R2Score R Exact M yTrue yPred
                = if Reqb sst 0 then Returned 1%R else Returned (1 - sse / sst)%R).
  { unfold R2Score. fold n. rewrite Hlen, Nat.eqb_refl. cbn [negb].
    rewrite <- (fold_values_indices (fun yMean y => f_add yMean y) yTrue f_zero). fold n.
    cbv zeta. rewrite (sums_fold P). cbn [fst snd]. exact_ops.
    rewrite <- INR_IZR_INZ. fold m. fold sst. unfold d in sse. fold sse.
    rewrite !Rplus_0_l. reflexivity. }
  assert (Hsst : (0 <= sst)%R)
    by (apply rsum_nonneg; intros i _; exact (Rle_0_sqr (at1 yTrue i - m))).
  assert (Hsse : (0 <= sse)%R) by (apply rsum_nonneg; intros i _; exact (Rle_0_sqr (d i))).
  assert (Habs : (0 <= rsum (fun i => Rabs (d i)) (seq 0 n))%R)
    by (apply rsum_nonneg; intros i _; apply Rabs_pos).
  assert (Hdiv : forall s : R, (0 <= s)%R -> (0 <= s / INR n)%R /\ (s / INR n = 0 <-> s = 0)%R).
  { intros s Hs. split.
    - apply Rmult_le_pos; [exact Hs | left; apply Rinv_0_lt_compat; exact HnR].
    - split; intros E.
      + apply (Rmult_eq_compat_r (INR n)) in E. unfold Rdiv in E.
        rewrite Rmult_assoc, Rinv_l, Rmult_1_r, Rmult_0_l in E by lra. exact E.
      + rewrite E. unfold Rdiv. lra. }
  assert (Heq_sq : sse = 0%R <-> yPred = yTrue).
  { rewrite <- (lists_equal_iff yTrue yPred Hlen). fold n. split.
    - intros E i Hi.
      assert (Hz : (d i * d i = 0)%R).
      { apply (rsum_zero_each (fun i => d i * d i)%R (seq 0 n));
          [intros j _; exact (Rle_0_sqr (d j)) | exact E | apply in_seq; lia]. }
      apply Rmult_integral in Hz. destruct Hz; assumption.
    - intros Hd. apply rsum_zero. intros i Hin. apply in_seq in Hin.
      unfold d. rewrite Hd by lia. lra. }
  assert (Heq_abs : rsum (fun i => Rabs (d i)) (seq 0 n) = 0%R <-> yPred = yTrue).
  { rewrite <- (lists_equal_iff yTrue yPred Hlen). fold n. split.
    - intros E i Hi.
      assert (Hz : Rabs (d i) = 0%R).
      { apply (rsum_zero_each (fun i => Rabs (d i)) (seq 0 n));
          [intros j _; apply Rabs_pos | exact E | apply in_seq; lia]. }
      destruct (Req_dec (d i) 0) as [E0|Hne]; [exact E0|].
      apply Rabs_no_R0 in Hne. contradiction.
    - intros Hd. apply rsum_zero. intros i Hin. apply in_seq in Hin.
      unfold d. rewrite Hd by lia. apply Rabs_R0. }
  exists (sse / INR n)%R, (rsum (fun i => Rabs (d i)) (seq 0 n) / INR n)%R,
         (if Reqb sst 0 then 1%R else (1 - sse / sst)%R).
  split; [exact Hmse|]. split; [unfold RMSE; rewrite Hmse; reflexivity|].
  split; [exact Hmae|].
  split; [rewrite Hr2; destruct (Reqb sst 0); reflexivity|].
  split; [apply Hdiv; exact Hsse|]. split; [apply Hdiv; exact Habs|].
  split.
  { destruct (Reqb sst 0) eqn:E; [lra|]. apply Reqb_false in E.
    assert (0 <= sse / sst)%R
      by (apply Rmult_le_pos; [exact Hsse | left; apply Rinv_0_lt_compat; lra]).
    lra. }
  split; [rewrite <- Heq_sq; apply Hdiv; exact Hsse|].
  split; [rewrite <- Heq_abs; apply Hdiv; exact Habs|].
  split.
  - intros Heq. apply Heq_sq in Heq. rewrite Heq.
    destruct (Reqb sst 0); [reflexivity | unfold Rdiv; lra].
  - intros Hconst.
    assert (Hm : m = at1 yTrue 0).
    { unfold m. rewrite (rsum_ext _ (fun _ => at1 yTrue 0))
        by (intros i Hin; apply in_seq in Hin; apply Hconst; lia).
      rewrite rsum_const, length_seq. field. lra. }
    assert (Hz : sst = 0%R).
    { apply rsum_zero. intros i Hin. apply in_seq in Hin.
      rewrite Hm, Hconst by lia. lra. }
    replace (Reqb sst 0) with true by (symmetry; apply Reqb_true; exact Hz). reflexivity.
Qed.

Lemma metrics_real_witness :
  exists r2, @R2Score R Exact RealMath [3; 3]%R [0; 100]%R = Returned r2 /\ r2 = 1%R.
Proof.
  destruct (@metrics_real RealMath RealMath_PowTwo [3; 3]%R [0; 100]%R)
    as (mse & mae & r2 & _ & _ & _ & Hr2 & _ & _ & _ & _ & _ & _ & Hconst).
  - reflexivity.
  - cbn. lia.
  - exists r2. split; [exact Hr2|]. apply Hconst.
    intros [|[|i]] Hi; cbn in Hi; try lia; reflexivity.
Defined.

(** ** Package [evaluation]: cross-validation *)

Section CrossValidation.
Context {F : Type} `{Float64 F} `{MathLib F}.
Local Open Scope f64_scope.

(** [rand.Shuffle], seeded with the clock: a parameter. *)
Variable shuffle : list nat -> list nat.

(** The interface [evaluation.Model]: a value of a type [T] behind a
    pointer, with the two methods.  A method returns the receiver as it
    leaves it and its result; [E] stands for the [error] values. *)
Record ModelImpl (T E : Type) : Type := {
  impl_Fit : T -> list (list F) -> list F -> T * outcome E unit;
  impl_Predict : T -> list (list F) -> T * outcome E (list F)
}.

Variables (T E : Type) (impl : ModelImpl T E).

(** [cloneModel] returns the model it is given: every fold trains the
    caller's model. *)
Definition cloneModel (model : T) : T := model.

(** The rows [X[idx]] and the targets [y[idx]] of a fold. *)
Definition gatherRows (X : list (list F)) (y : list F) (indices : list nat)
  : option (list (list F) * list F) :=
  match Data.collect (map (fun idx => item X idx) indices),
        Data.collect (map (fun idx => item y idx) indices) with
  | Some rows, Some targets => Some (rows, targets)
  | _, _ => None
  end.

(** One fold: the model, where the fold starts and the metrics of the
    folds so far. *)
Definition runFold (X : list (list F)) (y : list F) (indices : list nat) (nSamples k : nat)
  (st : T * outcome EvalError (nat * list (GoMap F))) (fold : nat)
  : T * outcome EvalError (nat * list (GoMap F)) :=
  match st with
  | (model, Returned (start, foldMetrics)) =>
      let size := Data.foldSizeAt nSamples k fold in
      match slice indices start (start + size)%nat,
            slice indices 0 start,
            slice indices (start + size)%nat (length indices) with
      | Some testIndices, Some before, Some after =>
          match gatherRows X y (before ++ after), gatherRows X y testIndices with
          | Some (trainX, trainY), Some (testX, testY) =>
              let modelCopy := cloneModel model in
              match impl_Fit impl modelCopy trainX trainY with
              | (model1, Failed _) => (model1, Failed (ErrFoldFit fold))
              | (model1, Panicked) => (model1, Panicked)
              | (model1, Returned _) =>
                  match impl_Predict impl model1 testX with
                  | (model2, Failed _) => (model2, Failed (ErrFoldPredict fold))
                  | (model2, Panicked) => (model2, Panicked)
                  | (model2, Returned predictions) =>
                      match EvaluateModel testY predictions with
                      | Failed _ => (model2, Failed (ErrFoldEvaluate fold))
                      | Panicked => (model2, Panicked)
                      | Returned metrics =>
                          (model2, Returned ((start + size)%nat, foldMetrics ++ [metrics]))
                      end
                  end
              end
          | _, _ => (model, Panicked)
          end
      | _, _, _ => (model, Panicked)
      end
  | _ => st
  end.

(** [metrics[name]]: a missing key reads as zero. *)
Definition metricOf (name : string) (metrics : GoMap F) : F :=
  match mapGet name metrics with
  | Some v => v
  | None => f_zero
  end.

Definition metricNames : list string := ["r2"; "mse"; "rmse"; "mae"]%string.

Definition averageOf (foldMetrics : list (GoMap F)) (k : Z) (name : string) : F :=
  fold_left (fun sum metrics => sum + metricOf name metrics) foldMetrics f_zero / f_of_int k.

Definition stdDevOf (foldMetrics : list (GoMap F)) (k : Z) (name : string) (mean : F) : F :=
  let sumSquaredDiff :=
    fold_left (fun sumSquaredDiff metrics =>
                 let diff := metricOf name metrics - mean in
                 sumSquaredDiff + diff * diff)
              foldMetrics f_zero in
  f_sqrt (sumSquaredDiff / f_of_int k).

Definition summarise (foldMetrics : list (GoMap F)) (k : Z) : GoMap F :=
  let averageMetrics :=
    fold_left (fun averageMetrics name => mapSet name (averageOf foldMetrics k name) averageMetrics)
              metricNames [] in
  fold_left (fun averageMetrics name =>
               let mean := metricOf name averageMetrics in
               mapSet (name ++ "_std") (stdDevOf foldMetrics k name mean) averageMetrics)
            metricNames averageMetrics.

Definition KFoldCrossValidation (model : T) (X : list (list F)) (y : list F) (k : Z)
  : T * outcome EvalError (GoMap F) :=
  if (k <=? 1)%Z then (model, Failed ErrFoldsBelowTwo)
  else if negb (Nat.eqb (length X) (length y)) then (model, Failed ErrSamplesMismatch)
  else
    let nSamples := length X in
    if (Z.of_nat nSamples <? k)%Z then (model, Failed ErrFoldsAboveSamples)
    else
      let indices := shuffle (seq 0 nSamples) in
      match fold_left (runFold X y indices nSamples (Z.to_nat k)) (seq 0 (Z.to_nat k))
                      (model, Returned (0, [])) with
      | (model', Returned (_, foldMetrics)) => (model', Returned (summarise foldMetrics k))
      | (model', Failed e) => (model', Failed e)
      | (model', Panicked) => (model', Panicked)
      end.

Definition LeaveOneOutCrossValidation (model : T) (X : list (list F)) (y : list F)
  : T * outcome EvalError (GoMap F) :=
  KFoldCrossValidation model X y (Z.of_nat (length X)).

Definition CrossValidateDataset (model : T) (dataset : option (@Data.Dataset F)) (k : Z)
  : T * outcome EvalError (GoMap F) :=
  match dataset with
  | None => (model, Failed ErrInvalidDataset)
  | Some d =>
      if negb (Data.IsValid d) then (model, Failed ErrInvalidDataset)
      else KFoldCrossValidation model (Data.Features d) (Data.Target d) k
  end.

End CrossValidation.

Section CrossValidationFacts.
Context {F : Type} `{Float64 F}.

Lemma gatherRows_ok (X : list (list F)) (y : list F) (indices : list nat) :
  length y = length X ->
  Forall (fun idx => idx < length X) indices ->
  gatherRows X y indices
  = Some (map (fun idx => nth idx X []) indices, map (fun idx => nth idx y f_zero) indices).
Proof.
  intros Hlen Hall. rewrite Forall_forall in Hall. unfold gatherRows.
  rewrite (Data.collect_map_Some _ (fun idx => nth idx X []))
    by (intros idx Hin; apply Data.item_nth; apply Hall; exact Hin).
  rewrite (Data.collect_map_Some _ (fun idx => nth idx y f_zero))
    by (intros idx Hin; apply Data.item_nth; rewrite Hlen; apply Hall; exact Hin).
  reflexivity.
Qed.

Lemma foldSizeAt_all (n i : nat) : 0 < n -> Data.foldSizeAt n n i = 1.
Proof.
  intros Hn. unfold Data.foldSizeAt.
  rewrite Nat.Div0.mod_same, Nat.div_same by lia. reflexivity.
Qed.

End CrossValidationFacts.

Section LeaveOneOutReal.
Context (M : MathLib R) (P : @PowTwo R Exact M).
Local Open Scope R_scope.

Lemma EvaluateModel_single (t q : R) :
  exists mse rmse mae,
    @EvaluateModel R Exact M [t] [q]
    = Returned [("r2", 1); ("mse", mse); ("rmse", rmse); ("mae", mae)]%string.
Proof.
  unfold EvaluateModel, RMSE, MSE, MAE, R2Score. cbn [length Nat.eqb negb seq fold_left fst snd].
  rewrite !(square_R P). exact_ops. unfold at1. cbn [nth].
  destruct (Reqb _ 0) eqn:E.
  - do 3 eexists. cbn. reflexivity.
  - exfalso. apply Reqb_false in E. apply E. cbn. field.
Qed.

End LeaveOneOutReal.

Section LeaveOneOutLoop.
Context (M : MathLib R) (P : @PowTwo R Exact M).
Context (T E : Type) (impl : @ModelImpl R T E).
Hypothesis Fit_total : forall m X y, snd (impl_Fit impl m X y) = Returned tt.
Hypothesis Predict_total :
  forall m X, exists p, snd (impl_Predict impl m X) = Returned p /\ length p = length X.
Local Open Scope R_scope.

Lemma runFold_all (X : list (list R)) (y : list R) (indices : list nat) (n : nat) :
  length X = n -> length y = n -> length indices = n ->
  Forall (fun idx => (idx < n)%nat) indices ->
  forall m model, (m <= n)%nat ->
    exists model' foldMetrics,
      fold_left (@runFold R Exact M T E impl X y indices n n) (seq 0 m)
                (model, Returned (0%nat, []))
      = (model', Returned (m, foldMetrics)) /\
      length foldMetrics = m /\
      Forall (fun metrics => @metricOf R Exact "r2" metrics = 1) foldMetrics.
Proof.
  intros HX Hy Hidx Hall m model. induction m as [|m IH]; intros Hm.
  - exists model, []. cbn. repeat split. constructor.
  - destruct (IH ltac:(lia)) as (model_m & fm & Hrun & Hlen & Hr2).
    rewrite fold_left_seq_S, Hrun. cbn [Nat.add]. unfold runFold.
    rewrite foldSizeAt_all by lia.
    rewrite (Data.slice_ok indices (lo := m) (hi := (m + 1)%nat)) by lia.
    rewrite (Data.slice_ok indices (lo := 0%nat) (hi := m)) by lia.
    rewrite (Data.slice_ok indices (lo := (m + 1)%nat) (hi := length indices)) by lia.
    replace (m + 1 - m)%nat with 1%nat by lia.
    rewrite Forall_forall in Hall.
    rewrite !gatherRows_ok; try (rewrite HX, Hy; reflexivity).
    2,3: apply Forall_forall; intros idx Hin; rewrite HX; apply Hall;
      try (apply in_app_or in Hin; destruct Hin as [Hin|Hin]);
      repeat (apply firstn_incl in Hin || apply skipn_incl in Hin); exact Hin.
    assert (Hone : length (firstn 1 (skipn m indices)) = 1%nat)
      by (rewrite length_firstn, length_skipn; lia).
    destruct (firstn 1 (skipn m indices)) as [|idx [|idx2 rest]]; try discriminate.
    cbn [map]. unfold cloneModel.
    match goal with
    | |- context [impl_Fit impl model_m ?tx ?ty] =>
        pose proof (Fit_total model_m tx ty) as HF;
        destruct (impl_Fit impl model_m tx ty) as [model1 r1]
    end.
    cbn [snd] in HF. subst r1.
    destruct (Predict_total model1 [nth idx X []]) as (p & HP & Hp).
    destruct (impl_Predict impl model1 [nth idx X []]) as [model2 r2].
    cbn [snd] in HP. subst r2.
    destruct p as [|q [|q2 p]]; try discriminate.
    destruct (EvaluateModel_single P (nth idx y f_zero) q) as (mse & rmse & mae & Heval).
    rewrite Heval. replace (m + 1)%nat with (S m) by lia.
    eexists. eexists. split; [reflexivity|].
    rewrite length_app, Hlen. split; [cbn; lia|].
    apply Forall_app. split; [exact Hr2|]. constructor; [reflexivity | constructor].
Qed.

Lemma sum_of_ones (name : string) (fm : list (GoMap R)) (a : R) :
  Forall (fun metrics => @metricOf R Exact name metrics = 1) fm ->
  fold_left (fun sum metrics => sum + metricOf name metrics) fm a
  = a + INR (length fm).
Proof.
  intros Hall. revert a. induction Hall as [|metrics fm H1 Hall IH]; intros a.
  - cbn. lra.
  - cbn [fold_left length]. rewrite IH, H1, S_INR. lra.
Qed.

Lemma sum_of_deviations (name : string) (fm : list (GoMap R)) (a : R) :
  Forall (fun metrics => @metricOf R Exact name metrics = 1) fm ->
  fold_left (fun sumSquaredDiff metrics =>
               sumSquaredDiff + (metricOf name metrics - 1) * (metricOf name metrics - 1))
            fm a
  = a.
Proof.
  intros Hall. revert a. induction Hall as [|metrics fm H1 Hall IH]; intros a.
  - reflexivity.
  - cbn [fold_left]. rewrite IH, H1. lra.
Qed.

End LeaveOneOutLoop.

(** X22. Leave-one-out cross-validation needs two samples: with fewer,
    [LeaveOneOutCrossValidation] fails with the too-few-folds error and
    does not touch the model.  In real arithmetic, with [n >= 2] samples,
    any shuffle, and a model whose [Fit] succeeds and whose [Predict]
    returns one value per row, it returns the eight metrics and reports
    [r2 = 1] with [r2_std = 0] whatever the model predicts: every test
    fold holds one sample, so its total sum of squares is zero and
    [R2Score] answers with a perfect fit. *)
Theorem LeaveOneOut_r2 (M : MathLib R) (P : @PowTwo R Exact M)
  (shuffle : list nat -> list nat) (T E : Type) (impl : @ModelImpl R T E)
  (model : T) (X : list (list R)) (y : list R) :
  (forall l, Permutation (shuffle l) l) ->
  (forall m X y, snd (impl_Fit impl m X y) = Returned tt) ->
  (forall m X, exists p, snd (impl_Predict impl m X) = Returned p /\ length p = length X) ->
  length y = length X ->
  (length X < 2 ->
     @LeaveOneOutCrossValidation R Exact M shuffle T E impl model X y
     = (model, Failed ErrFoldsBelowTwo)) /\
  (2 <= length X ->
     exists model' metrics,
       @LeaveOneOutCrossValidation R Exact M shuffle T E impl model X y
       = (model', Returned metrics) /\
       mapGet "r2" metrics = Some 1%R /\
       mapGet "r2_std" metrics = Some 0%R /\
       Permutation (mapKeys metrics)
         ["r2"; "mse"; "rmse"; "mae"; "r2_std"; "mse_std"; "rmse_std"; "mae_std"]%string).
Proof.
  intros Hshuffle HFit HPred Hlen. split.
  - intros Hn. unfold LeaveOneOutCrossValidation, KFoldCrossValidation.
    replace (Z.of_nat (length X) <=? 1)%Z with true by (symmetry; apply Z.leb_le; lia).
    reflexivity.
  - intros Hn. set (n := length X) in *.
    set (indices := shuffle (seq 0 n)).
    assert (Hperm : Permutation indices (seq 0 n)) by apply Hshuffle.
    assert (Hidx : length indices = n)
      by (rewrite (Permutation_length Hperm), length_seq; reflexivity).
    assert (Hall : Forall (fun idx => idx < n) indices).
    { apply Forall_forall. intros idx Hin.
      apply (Permutation_in _ Hperm) in Hin. apply in_seq in Hin. lia. }
    unfold LeaveOneOutCrossValidation, KFoldCrossValidation. fold n.
    replace (Z.of_nat n <=? 1)%Z with false by (symmetry; apply Z.leb_gt; lia).
    rewrite Hlen. fold n. rewrite Nat.eqb_refl, Z.ltb_irrefl, Nat2Z.id. cbn [negb].
    fold indices.
    destruct (@runFold_all M P T E impl HFit HPred X y indices n eq_refl Hlen Hidx Hall
                n model ltac:(lia)) as (model' & fm & Hrun & Hfm & Hr2).
    rewrite Hrun. exists model'. eexists. split; [reflexivity|].
    assert (HnR : (0 < INR n)%R) by (apply lt_0_INR; lia).
    assert (Havg : @averageOf R Exact fm (Z.of_nat n) "r2" = 1%R).
    { unfold averageOf. exact_ops. rewrite (@sum_of_ones "r2" fm 0 Hr2), Hfm.
      rewrite <- INR_IZR_INZ. field. lra. }
    unfold summarise, metricNames. cbn [fold_left].
    cbn [mapSet mapGet String.eqb Ascii.eqb Bool.eqb append metricOf mapKeys map fst].
    rewrite Havg. split; [reflexivity|]. split; [|apply Permutation_refl].
    unfold stdDevOf. exact_ops. rewrite (@sum_of_deviations "r2" fm 0 Hr2).
    f_equal. change (R_sqrt.sqrt (0 / IZR (Z.of_nat n)) = 0%R).
    unfold Rdiv. rewrite Rmult_0_l. apply sqrt_0.
Qed.

(** A model that predicts 0 for every row. *)
Definition zeroModel : @ModelImpl R unit unit := {|
  impl_Fit := fun m _ _ => (m, Returned tt);
  impl_Predict := fun m X => (m, Returned (map (fun _ => 0%R) X))
|}.

Lemma LeaveOneOut_r2_witness :
  exists model' metrics,
    @LeaveOneOutCrossValidation R Exact RealMath (@rev nat) unit unit zeroModel tt
      [[1]; [2]; [3]]%R [10; 20; 30]%R = (model', Returned metrics) /\
    mapGet "r2" metrics = Some 1%R.
Proof.
  destruct (@LeaveOneOut_r2 RealMath RealMath_PowTwo (@rev nat) unit unit zeroModel tt
              [[1]; [2]; [3]]%R [10; 20; 30]%R) as [_ Hrun].
  - intros l. apply Permutation_sym, Permutation_rev.
  - reflexivity.
  - intros m X. eexists. split; [reflexivity|]. apply length_map.
  - reflexivity.
  - destruct (Hrun ltac:(cbn; lia)) as (model' & metrics & Hloo & Hr2 & _).
    exists model', metrics. split; assumption.
Defined.

End Evaluation.

(** ** The model manager *)

From Stdlib Require Import DecimalString DecimalZ DecimalPos.

Module Models.

(** [ErrorCode], from [iota + 1]. *)
Inductive ErrorCode : Type :=
| ErrorCodeInvalidInput
| ErrorCodeModelNotFound
| ErrorCodeTrainingFailed
| ErrorCodePredictionFailed
| ErrorCodeEvaluationFailed.

(** The messages the manager formats with [fmt.Sprintf]: the format and
    its argument. *)
Inductive Message (E : Type) : Type :=
| UnsupportedModelType (modelType : string)
| TrainingFailed (err : E)
| ModelDoesNotExist (modelID : string).
Arguments UnsupportedModelType {E} modelType.
Arguments TrainingFailed {E} err.
Arguments ModelDoesNotExist {E} modelID.

(** The values of [Details]. *)
Inductive DetailValue : Type :=
| DString (s : string)
| DStrings (l : list string).

Record ModelError (E : Type) : Type := {
  Code : ErrorCode;
  Msg : Message E;
  Details : GoMap DetailValue
}.
Arguments Code {E} _.
Arguments Msg {E} _.
Arguments Details {E} _.

(** The model types the error of [CreateModel] lists. *)
Definition supported_models : list string :=
  ["ols"; "ridge"; "lasso"; "logistic"; "pls"; "polynomial"; "exponential";
   "logarithmic"; "power"]%string.

Definition unsupported {E : Type} (modelType : string) : ModelError E := {|
  Code := ErrorCodeInvalidInput;
  Msg := UnsupportedModelType modelType;
  Details := [("supported_models"%string, DStrings supported_models)]
|}.

Definition notFound {E : Type} (modelID : string) : ModelError E := {|
  Code := ErrorCodeModelNotFound;
  Msg := ModelDoesNotExist modelID;
  Details := [("model_id"%string, DString modelID)]
|}.

(** [fmt.Sprintf("model_%d", n)] *)
Definition modelID (n : Z) : string :=
  ("model_" ++ NilZero.string_of_int (Z.to_int n))%string.

(** [n++] on an [int] of 64 bits. *)
Definition maxInt : Z := 2 ^ 63 - 1.

Definition increment (n : Z) : Z := (n + 1 + 2 ^ 63) mod 2 ^ 64 - 2 ^ 63.

Section Manager.
Context {F : Type} `{Float64 F}.

(** The dynamic type of a value of [config.Parameters]: the two that the
    type assertions of [CreateModel] ask for, and every other. *)
Inductive ConfigValue : Type :=
| CFloat (x : F)      (* float64 *)
| CInt (n : Z)        (* int *)
| COther.

Record ModelConfig : Type := {
  ModelType : string;
  Parameters : GoMap ConfigValue
}.

(** The interface [Model] over the objects [T], its errors [E] and the
    parameter maps [P].  [Fit] returns the trained object; [Predict] and
    [Score], which return no error, answer [None] when they panic. *)
Record ModelMethods (T E P : Type) : Type := {
  m_Fit : T -> list (list F) -> list F -> outcome E T;
  m_Predict : T -> list (list F) -> option (list F);
  m_Score : T -> list (list F) -> list F -> option F;
  m_GetParameters : T -> P;
  m_GetModelType : T -> string
}.
Arguments m_Fit {T E P} _ _ _ _.
Arguments m_Predict {T E P} _ _ _.
Arguments m_Score {T E P} _ _ _ _.
Arguments m_GetParameters {T E P} _ _.
Arguments m_GetModelType {T E P} _ _.

(** The constructors [models.go] exports. *)
Record Constructors (T : Type) : Type := {
  c_NewOLS : T;
  c_NewRidge : F -> T;
  c_NewLasso : F -> T;
  c_NewLogistic : T;
  c_NewPLS : Z -> T;
  c_NewPolynomial : Z -> T;
  c_NewExponential : T;
  c_NewLogarithmic : T;
  c_NewPower : T
}.
Arguments c_NewOLS {T} _.
Arguments c_NewRidge {T} _ _.
Arguments c_NewLasso {T} _ _.
Arguments c_NewLogistic {T} _.
Arguments c_NewPLS {T} _ _.
Arguments c_NewPolynomial {T} _ _.
Arguments c_NewExponential {T} _.
Arguments c_NewLogarithmic {T} _.
Arguments c_NewPower {T} _.

Record ModelInfo (P : Type) : Type := {
  Info_ModelType : string;
  Info_Parameters : P;
  Info_IsTrained : bool
}.
Arguments Info_ModelType {P} _.
Arguments Info_Parameters {P} _.
Arguments Info_IsTrained {P} _.

Record TrainingResult (P : Type) : Type := {
  Training_ModelID : string;
  Training_TrainingScore : F;
  Training_Metrics : GoMap F;
  Training_ModelInfo : ModelInfo P
}.
Arguments Training_ModelID {P} _.
Arguments Training_TrainingScore {P} _.
Arguments Training_Metrics {P} _.
Arguments Training_ModelInfo {P} _.

Record PredictionResult : Type := {
  Prediction_Predictions : list F;
  Prediction_ModelID : string
}.

Record EvaluationResult : Type := {
  Evaluation_Metrics : GoMap F;
  Evaluation_ModelID : string
}.

Section WithModels.
Context {T E P : Type} (methods : ModelMethods T E P) (new : Constructors T).

Record ModelManager : Type := {
  models : GoMap T;
  nextID : Z
}.

Definition NewModelManager : ModelManager := {| models := []; nextID := 1 |}.

(** [if param, ok := config.Parameters[key]; ok { if a, ok := param.(float64); ok { ... } }] *)
Definition floatParameter (config : ModelConfig) (key : string) (default : F) : F :=
  match mapGet key (Parameters config) with
  | Some (CFloat a) => a
  | _ => default
  end.

Definition intParameter (config : ModelConfig) (key : string) (default : Z) : Z :=
  match mapGet key (Parameters config) with
  | Some (CInt n) => n
  | _ => default
  end.

Definition CreateModel (config : ModelConfig) : outcome (ModelError E) T :=
  let modelType := ModelType config in
  if String.eqb modelType "ols" then Returned (c_NewOLS new)
  else if String.eqb modelType "ridge"
       then Returned (c_NewRidge new (floatParameter config "alpha" f_one))
  else if String.eqb modelType "lasso"
       then Returned (c_NewLasso new (floatParameter config "alpha" f_one))
  else if String.eqb modelType "logistic" then Returned (c_NewLogistic new)
  else if String.eqb modelType "pls"
       then Returned (c_NewPLS new (intParameter config "num_components" 2))
  else if String.eqb modelType "polynomial"
       then Returned (c_NewPolynomial new (intParameter config "degree" 2))
  else if String.eqb modelType "exponential" then Returned (c_NewExponential new)
  else if String.eqb modelType "logarithmic" then Returned (c_NewLogarithmic new)
  else if String.eqb modelType "power" then Returned (c_NewPower new)
  else Failed (unsupported modelType).

Definition addModel (mm : ModelManager) (model : T) : ModelManager * string :=
  let id := modelID (nextID mm) in
  ({| models := mapSet id model (models mm); nextID := increment (nextID mm) |}, id).

Definition getModel (mm : ModelManager) (id : string) : option T :=
  mapGet id (models mm).

Definition infoOf (model : T) : ModelInfo P := {|
  Info_ModelType := m_GetModelType methods model;
  Info_Parameters := m_GetParameters methods model;
  Info_IsTrained := true
|}.

(** The manager changes only when a model is stored. *)
Definition TrainModel (mm : ModelManager) (config : ModelConfig)
  (X : list (list F)) (y : list F)
  : ModelManager * outcome (ModelError E) (TrainingResult P) :=
  match CreateModel config with
  | Failed err => (mm, Failed err)
  | Panicked => (mm, Panicked)
  | Returned model =>
      match m_Fit methods model X y with
      | Failed err =>
          (mm, Failed {| Code := ErrorCodeTrainingFailed;
                         Msg := TrainingFailed err;
                         Details := [("model_type"%string, DString (ModelType config))] |})
      | Panicked => (mm, Panicked)
      | Returned model =>
          match m_Score methods model X y with
          | None => (mm, Panicked)
          | Some score =>
              let '(mm', id) := addModel mm model in
              (mm', Returned {| Training_ModelID := id;
                                Training_TrainingScore := score;
                                Training_Metrics := [("r2"%string, score)];
                                Training_ModelInfo := infoOf model |})
          end
      end
  end.

(** [predSlice[i] = predictions.At(i, 0)] copies the vector. *)
Definition Predict (mm : ModelManager) (id : string) (X : list (list F))
  : outcome (ModelError E) PredictionResult :=
  match getModel mm id with
  | None => Failed (notFound id)
  | Some model =>
      match m_Predict methods model X with
      | None => Panicked
      | Some predictions =>
          Returned {| Prediction_Predictions :=
                        map (fun i => nth i predictions f_zero) (seq 0 (length predictions));
                      Prediction_ModelID := id |}
      end
  end.

Definition Evaluate (mm : ModelManager) (id : string) (X : list (list F)) (y : list F)
  : outcome (ModelError E) EvaluationResult :=
  match getModel mm id with
  | None => Failed (notFound id)
  | Some model =>
      match m_Score methods model X y with
      | None => Panicked
      | Some score =>
          Returned {| Evaluation_Metrics := [("r2"%string, score)];
                      Evaluation_ModelID := id |}
      end
  end.

Definition GetModelInfo (mm : ModelManager) (id : string)
  : outcome (ModelError E) (ModelInfo P) :=
  match getModel mm id with
  | None => Failed (notFound id)
  | Some model => Returned (infoOf model)
  end.

End WithModels.
End Manager.

Section ManagerFacts.
Context {F : Type} `{Float64 F}.

(** The constructors of the repository, on the variants of [Model]. *)
Definition repositoryModels `{MathLib F} : Constructors (@Model F) := {|
  c_NewOLS := ModelOLS NewOLS;
  c_NewRidge := fun lambda => ModelRidge (NewRidge lambda);
  c_NewLasso := fun lambda => ModelLasso (NewLasso lambda);
  c_NewLogistic := ModelLogistic NewLogistic;
  c_NewPLS := fun numComponents => ModelPLS (NewPLS numComponents);
  c_NewPolynomial := fun degree => ModelPolynomial (NewPolynomial degree);
  c_NewExponential := ModelExponential NewExponential;
  c_NewLogarithmic := ModelLogarithmic NewLogarithmic;
  c_NewPower := ModelPower NewPower
|}.

Lemma decimal_inj (a b : Z) :
  NilZero.string_of_int (Z.to_int a) = NilZero.string_of_int (Z.to_int b) -> a = b.
Proof.
  intros Heq.
  assert (Hnil : forall z, Z.to_int z <> Decimal.Pos Decimal.Nil /\
                           Z.to_int z <> Decimal.Neg Decimal.Nil).
  { intros [|p|p]; cbn; split; try discriminate; intros Hp; injection Hp as Hp;
      exact (Unsigned.to_uint_nonnil p Hp). }
  pose proof (NilZero.isi (Z.to_int a) (proj1 (Hnil a)) (proj2 (Hnil a))) as Ha.
  pose proof (NilZero.isi (Z.to_int b) (proj1 (Hnil b)) (proj2 (Hnil b))) as Hb.
  rewrite Heq in Ha. rewrite Ha in Hb. injection Hb as Hb.
  rewrite <- (DecimalZ.of_to a), <- (DecimalZ.of_to b), Hb. reflexivity.
Qed.

Lemma modelID_inj (a b : Z) : modelID a = modelID b -> a = b.
Proof. unfold modelID. cbn [append]. intros Heq. apply decimal_inj. congruence. Qed.

Lemma increment_below (n : Z) : (- 2 ^ 63 <= n < maxInt)%Z -> increment n = (n + 1)%Z.
Proof.
  unfold increment, maxInt. intros Hn.
  rewrite Z.mod_small by lia. lia.
Qed.

(** Every stored model sits under an identifier the counter has passed. *)
Definition issued {T : Type} (mm : @ModelManager T) : Prop :=
  (1 <= nextID mm)%Z /\
  forall id, getModel mm id <> None ->
    exists k, (1 <= k < nextID mm)%Z /\ id = modelID k.

End ManagerFacts.

(** X23. [CreateModel] accepts exactly the model types its error lists
    under [supported_models], and answers every other type with that
    error.  A parameter is read only when its dynamic type is the one
    asked for: a [degree] or [num_components] held as a [float64], or an
    [alpha] held as an [int], is ignored and the default (2, 2, 1.0) is
    used.  No type name that [GetModelType] reports for a model of the
    repository ("OLS", "Ridge", ...) is accepted as the [ModelType] of a
    configuration: the accepted names are in lower case. *)
Theorem CreateModel_supported (F : Type) (Hf : Float64 F) (T E : Type)
  (new : Constructors T) (config : ModelConfig) :
  ((exists model, @CreateModel F Hf T E new config = Returned model)
   <-> In (ModelType config) supported_models) /\
  (~ In (ModelType config) supported_models ->
   @CreateModel F Hf T E new config = Failed (unsupported (ModelType config))) /\
  (forall x params,
     mapGet "degree"%string params = Some (CFloat x) ->
     @CreateModel F Hf T E new {| ModelType := "polynomial"; Parameters := params |}
     = Returned (c_NewPolynomial new 2)) /\
  (forall x params,
     mapGet "num_components"%string params = Some (CFloat x) ->
     @CreateModel F Hf T E new {| ModelType := "pls"; Parameters := params |}
     = Returned (c_NewPLS new 2)) /\
  (forall n params,
     mapGet "alpha"%string params = Some (CInt n) ->
     @CreateModel F Hf T E new {| ModelType := "ridge"; Parameters := params |}
     = Returned (c_NewRidge new f_one)) /\
  (forall (M : MathLib F) (model : @Model F) (params : GoMap ConfigValue),
     @CreateModel F Hf (@Model F) E repositoryModels
       {| ModelType := GetModelType model; Parameters := params |}
     = Failed (unsupported (GetModelType model))).
Proof.
  assert (Hreject : ~ In (ModelType config) supported_models ->
            @CreateModel F Hf T E new config = Failed (unsupported (ModelType config))).
  { intros Hnot. unfold CreateModel.
    repeat match goal with
           | |- context [String.eqb (ModelType config) ?s] =>
               destruct (String.eqb_spec (ModelType config) s) as [Heq|_];
               [exfalso; apply Hnot; rewrite Heq; unfold supported_models;
                cbn [In]; tauto|]
           end.
    reflexivity. }
  split; [split|split; [exact Hreject|]].
  - intros [model Hcreate].
    destruct (in_dec string_dec (ModelType config) supported_models) as [Hin|Hnot];
      [exact Hin|].
    rewrite (Hreject Hnot) in Hcreate. discriminate.
  - destruct config as [modelType params]. cbn [ModelType]. unfold supported_models.
    intros Hin. cbn [In] in Hin.
    repeat (destruct Hin as [<-|Hin]; [eexists; reflexivity|]). contradiction.
  - split; [|split; [|split]].
    + intros x params Hget. unfold CreateModel, intParameter. cbn. rewrite Hget. reflexivity.
    + intros x params Hget. unfold CreateModel, intParameter. cbn. rewrite Hget. reflexivity.
    + intros n params Hget. unfold CreateModel, floatParameter. cbn. rewrite Hget.
      reflexivity.
    + intros M model params. destruct model; reflexivity.
Qed.

(** X24. [TrainModel] keeps the registry of the manager sound.  In a
    manager whose stored identifiers were all issued by the counter and
    whose counter is below the largest [int], a successful call creates
    the model, fits it, and stores the fitted model under the identifier
    ["model_<nextID>"], which was not in use; every other identifier
    keeps its model, the counter advances by one, and [GetModelInfo],
    [Evaluate] and [Predict] then find the model under the returned
    identifier.  A call that fails or panics leaves the manager as it
    was. *)
Theorem TrainModel_registers (F : Type) (Hf : Float64 F) (T E P : Type)
  (methods : ModelMethods T E P) (new : Constructors T)
  (mm : @ModelManager T) (config : ModelConfig) (X : list (list F)) (y : list F) :
  issued mm -> (nextID mm < maxInt)%Z ->
  match TrainModel methods new mm config X y with
  | (mm', Returned result) =>
      let id := Training_ModelID result in
      id = modelID (nextID mm) /\
      getModel mm id = None /\
      (exists model fitted,
         CreateModel (E := E) new config = Returned model /\
         m_Fit methods model X y = Returned fitted /\
         m_Score methods fitted X y = Some (Training_TrainingScore result) /\
         getModel mm' id = Some fitted /\
         GetModelInfo methods mm' id = Returned (Training_ModelInfo result) /\
         Evaluate methods mm' id X y
         = Returned {| Evaluation_Metrics := Training_Metrics result;
                       Evaluation_ModelID := id |} /\
         (forall X' predictions,
            m_Predict methods fitted X' = Some predictions ->
            Predict methods mm' id X'
            = Returned {| Prediction_Predictions := predictions;
                          Prediction_ModelID := id |})) /\
      (forall id', id' <> id -> getModel mm' id' = getModel mm id') /\
      nextID mm' = (nextID mm + 1)%Z /\
      issued mm'
  | (mm', _) => mm' = mm
  end.
Proof.
  intros [Hone Hissued] Hmax. unfold TrainModel.
  destruct (CreateModel new config) as [model| |] eqn:Hcreate; [|reflexivity|reflexivity].
  destruct (m_Fit methods model X y) as [fitted| |] eqn:Hfit; [|reflexivity|reflexivity].
  destruct (m_Score methods fitted X y) as [score|] eqn:Hscore; [|reflexivity].
  unfold addModel. cbn [Training_ModelID Training_TrainingScore Training_Metrics
                        Training_ModelInfo].
  assert (Hfresh : getModel mm (modelID (nextID mm)) = None).
  { destruct (getModel mm (modelID (nextID mm))) as [old|] eqn:Hold; [|reflexivity].
    destruct (Hissued (modelID (nextID mm))) as (k & Hk & Heq);
      [rewrite Hold; discriminate|].
    apply modelID_inj in Heq. lia. }
  assert (Hstored : getModel {| models := mapSet (modelID (nextID mm)) fitted (models mm);
                                nextID := increment (nextID mm) |} (modelID (nextID mm))
                    = Some fitted)
    by (unfold getModel; cbn [models]; apply mapGet_mapSet_same).
  split; [reflexivity|]. split; [exact Hfresh|]. split; [|split; [|split]].
  - exists model, fitted.
    repeat (split; [first [assumption | reflexivity]|]). split.
    + unfold GetModelInfo. rewrite Hstored. reflexivity.
    + split.
      * unfold Evaluate. rewrite Hstored, Hscore. reflexivity.
      * intros X' predictions Hpredict. unfold Predict.
        rewrite Hstored, Hpredict, map_nth_seq_id. reflexivity.
  - intros id' Hne. unfold getModel. cbn [models].
    apply mapGet_mapSet_other. congruence.
  - cbn [nextID]. apply increment_below. unfold maxInt in *. lia.
  - unfold issued. cbn [nextID]. rewrite increment_below by (unfold maxInt in *; lia).
    split; [lia|]. intros id' Hsome.
    destruct (string_dec id' (modelID (nextID mm))) as [->|Hne].
    + exists (nextID mm). split; [lia | reflexivity].
    + unfold getModel in Hsome. cbn [models] in Hsome.
      rewrite mapGet_mapSet_other in Hsome by congruence.
      destruct (Hissued id' Hsome) as (k & Hk & Heq). exists k. split; [lia | exact Heq].
Qed.

(** A model table with one kind of object, which fits and scores
    anything. *)
Definition constantMethods : @ModelMethods R unit unit unit := {|
  m_Fit := fun model _ _ => Returned model;
  m_Predict := fun _ X => Some (map (fun _ => 0%R) X);
  m_Score := fun _ _ _ => Some 1%R;
  m_GetParameters := fun _ => tt;
  m_GetModelType := fun _ => "Constant"%string
|}.

Definition constantModels : @Constructors R unit := {|
  c_NewOLS := tt;
  c_NewRidge := fun _ => tt;
  c_NewLasso := fun _ => tt;
  c_NewLogistic := tt;
  c_NewPLS := fun _ => tt;
  c_NewPolynomial := fun _ => tt;
  c_NewExponential := tt;
  c_NewLogarithmic := tt;
  c_NewPower := tt
|}.

Lemma TrainModel_registers_witness :
  let run := @TrainModel R Exact unit unit unit constantMethods constantModels
               NewModelManager {| ModelType := "ols"; Parameters := [] |} [[1%R]] [1%R] in
  issued (fst run) /\ nextID (fst run) = 2%Z /\
  getModel (fst run) "model_1" = Some tt.
Proof.
  assert (Hnew : issued (@NewModelManager unit)).
  { split; [unfold NewModelManager; cbn; lia|].
    intros id Hsome. exfalso. apply Hsome. reflexivity. }
  assert (Hmax : (nextID (@NewModelManager unit) < maxInt)%Z) by (vm_compute; reflexivity).
  pose proof (@TrainModel_registers R Exact unit unit unit constantMethods constantModels
                NewModelManager {| ModelType := "ols"; Parameters := [] |} [[1%R]] [1%R]
                Hnew Hmax) as Htrain.
  cbv zeta.
  destruct (TrainModel constantMethods constantModels NewModelManager
              {| ModelType := "ols"; Parameters := [] |} [[1%R]] [1%R])
    as [mm' [result| |]] eqn:Hrun; try (cbv in Hrun; discriminate).
  destruct Htrain as (Hid & _ & (model & fitted & _ & _ & _ & Hget & _) & _ & Hnext & Hissued).
  cbn [fst]. split; [exact Hissued|]. split; [exact Hnext|].
  rewrite Hid in Hget. destruct fitted. exact Hget.
Defined.

End Models.
